(** * K-FAC factor estimation (examples/kfac_pre.py): model and properties

    The script is written for Python 2 ([map] is eager and returns a list;
    [from __future__ import division] makes [/] true division).  Its
    numbers are IEEE doubles held in 2-D numpy arrays.  Here

    - a double is idealised as a real number ([R]): rounding is not
      modelled, so sums are exact and associative;
    - a numpy array is its shape together with its element accessor;
    - a Python exception is the [Raise] outcome of the [result] type;
    - the non-finite values ([nan], [inf]) that numpy produces when an
      array is divided by zero are kept as a separate kind of value
      ([NonFinite]), since no real number stands for them;
    - the global random generator is an explicit stream of draws;
    - Python object identity (needed for in-place mutation) is modelled
      by a store of objects in the last part of the file. *)

From Stdlib Require Import Reals Lra Lia List Permutation Bool Arith.
From stdpp Require Import gmap.
Import ListNotations.

Local Open Scope R_scope.

(** ** Python outcomes *)

Inductive exn : Type :=
| IndexError
| ValueError
| ZeroDivisionError
| TypeError
| UnboundLocalError.

Inductive result (A : Type) : Type :=
| Ok (a : A)
| Raise (e : exn).
Arguments Ok {A} a.
Arguments Raise {A} e.

#[global] Instance result_ret : MRet result := fun A a => Ok a.
#[global] Instance result_bind : MBind result := fun A B f m =>
  match m with
  | Ok a => f a
  | Raise e => Raise e
  end.

#[global] Instance result_fmap : FMap result := fun A B f m =>
  match m with
  | Ok a => Ok (f a)
  | Raise e => Raise e
  end.

(** [map] over a list where the function may raise: the elements are
    evaluated left to right and the first exception wins. *)
Fixpoint py_map {A B : Type} (f : A -> result B) (l : list A) : result (list B) :=
  match l with
  | [] => Ok []
  | x :: l' => y ← f x; ys ← py_map f l'; Ok (y :: ys)
  end.

(** Python 2 [map(f, l1, l2)]: the shorter list is padded with [None], on
    which the arithmetic of [f] raises [TypeError]. *)
Fixpoint py2_map2 {A B C : Type} (f : A -> B -> result C)
    (l1 : list A) (l2 : list B) : result (list C) :=
  match l1, l2 with
  | [], [] => Ok []
  | x :: l1', y :: l2' => z ← f x y; zs ← py2_map2 f l1' l2'; Ok (z :: zs)
  | _, _ => Raise TypeError
  end.

(** [zip] truncates to the shorter list. *)
Fixpoint py_zip {A B : Type} (l1 : list A) (l2 : list B) : list (A * B) :=
  match l1, l2 with
  | x :: l1', y :: l2' => (x, y) :: py_zip l1' l2'
  | _, _ => []
  end.

(** ** Scalars

    The forward pass runs both on plain numbers and on numbers that carry
    a differentiation trace; [getval] reads the plain number and
    [s_const] lets a plain number enter a traced computation. *)

Class Scalar (T : Type) : Type := {
  s_const : R -> T;
  getval : T -> R;
  s_add : T -> T -> T;
  s_sub : T -> T -> T;
  s_mul : T -> T -> T;
  s_exp : T -> T;
  s_log : T -> T;
  s_tanh : T -> T
}.

(** Plain numbers: the operations on doubles, taken as the operations on
    real numbers.  With rounding, the probabilities that the forward pass
    computes for a row can add up to slightly less than 1; what is proved
    about sampling from them is therefore stated for the totals that are
    computed, and exact normalisation is used only for the values. *)
#[global] Instance Scalar_R : Scalar R := {|
  s_const := fun r => r;
  getval := fun r => r;
  s_add := Rplus;
  s_sub := Rminus;
  s_mul := Rmult;
  s_exp := exp;
  s_log := ln;
  s_tanh := tanh
|}.

(** Sum of [f 0 .. f (n-1)], accumulated from the left starting at 0. *)
Fixpoint s_sum {T : Type} `{Scalar T} (n : nat) (f : nat -> T) : T :=
  match n with
  | O => s_const 0
  | S k => s_add (s_sum k f) (f k)
  end.

(** ** numpy arrays *)

(** A 2-D array: [shape = (nrows, ncols)], [item a i j = a[i, j]]. *)
Record ndarray (T : Type) : Type := mk_array {
  nrows : nat;
  ncols : nat;
  item : nat -> nat -> T
}.
Arguments mk_array {T} nrows ncols item.
Arguments nrows {T} _.
Arguments ncols {T} _.
Arguments item {T} _ _ _.

(** A 1-D array of shape [(size1,)] (a bias vector). *)
Record ndarray1 (T : Type) : Type := mk_array1 {
  size1 : nat;
  item1 : nat -> T
}.
Arguments mk_array1 {T} size1 item1.
Arguments size1 {T} _.
Arguments item1 {T} _ _.

(** Two arrays are equal when they have the same shape and the same
    entries at every index inside the shape. *)
Definition arr_eq {T : Type} (a b : ndarray T) : Prop :=
  nrows a = nrows b /\ ncols a = ncols b /\
  forall i j, (i < nrows a)%nat -> (j < ncols a)%nat -> item a i j = item b i j.

Definition shape {T : Type} (a : ndarray T) : nat * nat := (nrows a, ncols a).

(** Broadcasting of one dimension: equal lengths, or one of them is 1. *)
Definition broadcast_dim (m n : nat) : option nat :=
  if (m =? n)%nat then Some m
  else if (m =? 1)%nat then Some n
  else if (n =? 1)%nat then Some m
  else None.

(** Index into a dimension of length [m] that is broadcast. *)
Definition bidx (m i : nat) : nat := if (m =? 1)%nat then O else i.

(** An elementwise binary operator with numpy broadcasting. *)
Definition np_binop {A B C : Type} (op : A -> B -> C) (a : ndarray A) (b : ndarray B)
    : result (ndarray C) :=
  match broadcast_dim (nrows a) (nrows b), broadcast_dim (ncols a) (ncols b) with
  | Some r, Some c =>
      Ok (mk_array r c
            (fun i j => op (item a (bidx (nrows a) i) (bidx (ncols a) j))
                           (item b (bidx (nrows b) i) (bidx (ncols b) j))))
  | _, _ => Raise ValueError
  end.

Section Numpy.
Context {T : Type} `{Scalar T}.

Definition np_zeros (r c : nat) : ndarray T :=
  mk_array r c (fun _ _ => s_const 0).

Definition np_ones (r c : nat) : ndarray T :=
  mk_array r c (fun _ _ => s_const 1).

Definition np_eye (n : nat) : ndarray T :=
  mk_array n n (fun i j => if (i =? j)%nat then s_const 1 else s_const 0).

(** [a.T] *)
Definition transpose (a : ndarray T) : ndarray T :=
  mk_array (ncols a) (nrows a) (fun i j => item a j i).

(** [np.dot(a, b)] on 2-D arrays. *)
Definition np_dot (a b : ndarray T) : result (ndarray T) :=
  if (ncols a =? nrows b)%nat then
    Ok (mk_array (nrows a) (ncols b)
          (fun i j => s_sum (ncols a) (fun k => s_mul (item a i k) (item b k j))))
  else Raise ValueError.

Definition np_add : ndarray T -> ndarray T -> result (ndarray T) := np_binop s_add.
Definition np_sub : ndarray T -> ndarray T -> result (ndarray T) := np_binop s_sub.
Definition np_mul : ndarray T -> ndarray T -> result (ndarray T) := np_binop s_mul.

(** A unary function applied to every entry. *)
Definition np_map (f : T -> T) (a : ndarray T) : ndarray T :=
  mk_array (nrows a) (ncols a) (fun i j => f (item a i j)).

Definition np_tanh : ndarray T -> ndarray T := np_map s_tanh.
Definition np_exp : ndarray T -> ndarray T := np_map s_exp.

(** A 1-D array takes part in broadcasting as a single row. *)
Definition atleast_2d (b : ndarray1 T) : ndarray T :=
  mk_array 1 (size1 b) (fun _ j => item1 b j).

(** [np.sum(a)]: the sum of all entries. *)
Definition np_sum (a : ndarray T) : T :=
  s_sum (nrows a) (fun i => s_sum (ncols a) (fun j => item a i j)).

(** [np.cumsum(a, axis=1)] *)
Definition np_cumsum1 (a : ndarray T) : ndarray T :=
  mk_array (nrows a) (ncols a) (fun i j => s_sum (S j) (fun k => item a i k)).

(** [np.hstack((a, b))]: the row counts must agree. *)
Definition np_hstack (a b : ndarray T) : result (ndarray T) :=
  if (nrows a =? nrows b)%nat then
    Ok (mk_array (nrows a) (ncols a + ncols b)
          (fun i j => if (j <? ncols a)%nat then item a i j else item b i (j - ncols a)))
  else Raise ValueError.

(** [a[indices]] for an integer array [indices] of length [n]: the
    selected rows; an index outside the rows of [a] raises. *)
Definition np_take_rows (a : ndarray T) (n : nat) (indices : nat -> nat)
    : result (ndarray T) :=
  if forallb (fun i => (indices i <? nrows a)%nat) (seq 0 n) then
    Ok (mk_array n (ncols a) (fun i j => item a (indices i) j))
  else Raise IndexError.

(** Modelled from the spec: [logsumexp] of [autograd.scipy.misc], which
    is not part of the file; the spec describes it as the log-sum-exp
    that normalises the final layer.  With [axis=1, keepdims=True] it
    returns one column holding [log (sum_j exp a[i, j])] per row; over a
    row of length zero the reduction has no value and raises. *)
Definition logsumexp (a : ndarray T) : result (ndarray T) :=
  if (ncols a =? 0)%nat then Raise ValueError
  else Ok (mk_array (nrows a) 1
             (fun i _ => s_log (s_sum (ncols a) (fun j => s_exp (item a i j))))).

(** [getval] on an array, and the way back. *)
Definition np_getval (a : ndarray T) : ndarray R :=
  mk_array (nrows a) (ncols a) (fun i j => getval (item a i j)).

Definition np_const (a : ndarray R) : ndarray T :=
  mk_array (nrows a) (ncols a) (fun i j => s_const (item a i j)).

End Numpy.

(** ** Random numbers

    The state of numpy's global generator is the stream of the uniform
    draws in [[0, 1)] that it will produce. *)

Definition rng_state : Type := nat -> R.

Definition uniform01 (g : rng_state) : Prop := forall k, 0 <= g k < 1.

(** [npr.rand(r, c)]: an [r x c] array of fresh draws, row by row. *)
Definition npr_rand (r c : nat) (g : rng_state) : ndarray R * rng_state :=
  (mk_array r c (fun i j => g (i * c + j)%nat), fun k => g (r * c + k)%nat).

Definition Rgtb (x y : R) : bool := if Rgt_dec x y then true else false.

(** [a > b] on arrays. *)
Definition np_gt : ndarray R -> ndarray R -> result (ndarray bool) := np_binop Rgtb.

(** [np.sum(mask, axis=1)] on a Boolean array: the number of [True] per row. *)
Definition np_count1 (mask : ndarray bool) (i : nat) : nat :=
  length (List.filter (fun j => item mask i j) (seq 0 (ncols mask))).

(** ** General utility functions *)

Definition sample_discrete_from_log (logprobs : ndarray R) (g : rng_state)
    : result (ndarray R) * rng_state :=
  let probs := np_exp logprobs in
  let cumvals := np_cumsum1 probs in
  let '(u, g') := npr_rand (nrows logprobs) 1 g in
  (mask ← np_gt u cumvals;
   let indices := np_count1 mask in
   np_take_rows (np_eye (ncols logprobs)) (nrows logprobs) indices,
   g').

(** ** K-FAC utility functions *)

(** [l[-1]] *)
Definition py_last {A : Type} (l : list A) : result A :=
  match rev l with
  | [] => Raise IndexError
  | x :: _ => Ok x
  end.

(** [l[0]] *)
Definition py_first {A : Type} (l : list A) : result A :=
  match l with
  | [] => Raise IndexError
  | x :: _ => Ok x
  end.

(** A [for] loop whose body may raise, threading the local variables. *)
Fixpoint py_for {S X : Type} (body : S -> X -> result S) (l : list X) (s : S) : result S :=
  match l with
  | [] => Ok s
  | x :: l' => s' ← body s x; py_for body l' s'
  end.

Section Forward.
Context {T : Type} `{Scalar T}.

(** The body of the loop of [neural_net_predict_and_activations].  The
    locals are [all_activations] and [s]; [s] is unbound before the
    first iteration. *)
Definition forward_step (locals : list (ndarray T) * option (ndarray T))
    (layer : (ndarray T * ndarray1 T) * ndarray T)
    : result (list (ndarray T) * option (ndarray T)) :=
  let '(all_activations, _) := locals in
  let '((W, b), extra_bias) := layer in
  a ← py_last all_activations;
  d ← np_dot a W;
  d1 ← np_add d (atleast_2d b);
  s ← np_add d1 extra_bias;
  Ok (all_activations ++ [np_tanh s], Some s).

Definition neural_net_predict_and_activations
    (extra_biases : list (ndarray T)) (params : list (ndarray T * ndarray1 T))
    (inputs : ndarray T) : result (ndarray T * list (ndarray T)) :=
  locals ← py_for forward_step (py_zip params extra_biases) ([inputs], None);
  let '(all_activations, s_opt) := locals in
  match s_opt with
  | None => Raise UnboundLocalError
  | Some s =>
      lse ← logsumexp s;
      logprobs ← np_sub s lse;
      Ok (logprobs, removelast all_activations)
  end.

Definition model_predictive_log_likelihood
    (extra_biases : list (ndarray T)) (params : list (ndarray T * ndarray1 T))
    (inputs : ndarray T) (g : rng_state)
    : result (T * list (ndarray T)) * rng_state :=
  match neural_net_predict_and_activations extra_biases params inputs with
  | Raise e => (Raise e, g)
  | Ok (logprobs, activations) =>
      let '(sampled, g') := sample_discrete_from_log (np_getval logprobs) g in
      (model_sampled_targets ← sampled;
       weighted ← np_mul logprobs (np_const model_sampled_targets);
       Ok (np_sum weighted, activations),
       g')
  end.

End Forward.

(** ** Differentiation

    Modelled from the spec: [grad_and_aux] and [getval] belong to the
    autograd library, not to this file.  The spec describes them as the
    capability that returns a gradient together with an auxiliary value of
    the same pure function, and the capability to read a number while
    excluding it from the differentiation trace.  A traced number is a
    value with the derivative of that value along the direction being
    differentiated; arithmetic propagates the derivative by the usual
    rules, [getval] drops it and a plain number enters with derivative 0. *)

Record dual : Type := mk_dual { primal : R; tangent : R }.

#[global] Instance Scalar_dual : Scalar dual := {|
  s_const := fun r => mk_dual r 0;
  getval := primal;
  s_add := fun x y => mk_dual (primal x + primal y) (tangent x + tangent y);
  s_sub := fun x y => mk_dual (primal x - primal y) (tangent x - tangent y);
  s_mul := fun x y =>
    mk_dual (primal x * primal y) (tangent x * primal y + primal x * tangent y);
  s_exp := fun x => mk_dual (exp (primal x)) (tangent x * exp (primal x));
  s_log := fun x => mk_dual (ln (primal x)) (tangent x / primal x);
  s_tanh := fun x =>
    mk_dual (tanh (primal x)) (tangent x * (1 - tanh (primal x) * tanh (primal x)))
|}.

(** The argument [x] traced along the unit direction of entry [(i0, j0)]
    of its [l0]-th array. *)
Definition seed_array (a : ndarray R) (hit : bool) (i0 j0 : nat) : ndarray dual :=
  mk_array (nrows a) (ncols a)
    (fun i j => mk_dual (item a i j)
                  (if hit && (i =? i0)%nat && (j =? j0)%nat then 1 else 0)).

Definition seed (x : list (ndarray R)) (l0 i0 j0 : nat) : list (ndarray dual) :=
  imap (fun l a => seed_array a (l =? l0)%nat i0 j0) x.

(** Modelled from the spec: [grad_and_aux f] returns the gradient of the
    first component of [f] with respect to its first argument, a list of
    arrays shaped like that argument, and the second component of [f]. *)
Definition grad_and_aux {Aux : Type}
    (f : list (ndarray dual) -> result (dual * Aux)) (x : list (ndarray R))
    : result (list (ndarray R) * Aux) :=
  '(_, aux) ← f (map np_const x);
  Ok (imap (fun l a =>
              mk_array (nrows a) (ncols a)
                (fun i j => match f (seed x l i j) with
                            | Ok (v, _) => tangent v
                            | Raise _ => 0
                            end)) x,
      aux).

(** Parameters and inputs are plain arrays; they enter the traced
    computation as constants. *)
Definition np_const1 {T : Type} `{Scalar T} (b : ndarray1 R) : ndarray1 T :=
  mk_array1 (size1 b) (fun j => s_const (item1 b j)).

Definition params_const {T : Type} `{Scalar T} (params : list (ndarray R * ndarray1 R))
    : list (ndarray T * ndarray1 T) :=
  map (fun '(W, b) => (np_const W, np_const1 b)) params.

Definition collect_activations_and_grad_samples
    (params : list (ndarray R * ndarray1 R)) (inputs : ndarray R) (g : rng_state)
    : result (list (ndarray R) * list (ndarray R)) * rng_state :=
  let extra_biases :=
    map (fun '(W, b) => np_zeros (T:=R) (nrows inputs) (size1 b)) params in
  let traced := fun ebs =>
    model_predictive_log_likelihood (T:=dual) ebs (params_const params) (np_const inputs) g in
  let gradfun := grad_and_aux (fun ebs => fst (traced ebs)) in
  ('(g_samples, a_samples) ← gradfun extra_biases;
   Ok (map np_getval a_samples, g_samples),
   snd (traced (map np_const extra_biases))).

(** ** Bookkeeping for samples *)

(** [append_samples] appends in place; this is the list it leaves in
    [all_samples] ([zip] stops at the shorter list). *)
Fixpoint append_samples {A : Type} (all_samples : list (list A)) (new_samples : list A)
    : list (list A) :=
  match all_samples, new_samples with
  | layer_samples :: rest, new_layer_samples :: news =>
      (layer_samples ++ [new_layer_samples]) :: append_samples rest news
  | _, _ => all_samples
  end.

(** The two lists (activation samples, gradient samples), each with one
    empty list per layer. *)
Definition init_sample_lists {A : Type} (layer_sizes : list nat)
    : list (list A) * list (list A) :=
  (map (fun _ => []) (removelast layer_sizes), map (fun _ => []) (removelast layer_sizes)).

(** ** Bookkeeping for kron factor estimates *)

(** The values that the factor estimates can hold: a Python number (the
    [0] of an empty [sum], or its quotient), an array of real numbers, or
    an array of the given shape all of whose entries are [nan] or
    infinite. *)
Inductive pyvalue : Type :=
| PyNum (x : R)
| NdArray (a : ndarray R)
| NonFinite (r c : nat).

(** [x + y] *)
Definition py_add (x y : pyvalue) : result pyvalue :=
  match x, y with
  | PyNum u, PyNum v => Ok (PyNum (u + v))
  | PyNum u, NdArray b => Ok (NdArray (np_map (fun e => u + e) b))
  | NdArray a, PyNum v => Ok (NdArray (np_map (fun e => e + v) a))
  | NdArray a, NdArray b => s ← np_add a b; Ok (NdArray s)
  | PyNum _, NonFinite r c => Ok (NonFinite r c)
  | NonFinite r c, PyNum _ => Ok (NonFinite r c)
  | NdArray a, NonFinite r c =>
      match broadcast_dim (nrows a) r, broadcast_dim (ncols a) c with
      | Some r', Some c' => Ok (NonFinite r' c')
      | _, _ => Raise ValueError
      end
  | NonFinite r c, NdArray b =>
      match broadcast_dim r (nrows b), broadcast_dim c (ncols b) with
      | Some r', Some c' => Ok (NonFinite r' c')
      | _, _ => Raise ValueError
      end
  | NonFinite r1 c1, NonFinite r2 c2 =>
      match broadcast_dim r1 r2, broadcast_dim c1 c2 with
      | Some r', Some c' => Ok (NonFinite r' c')
      | _, _ => Raise ValueError
      end
  end.

(** [k * x] for a Python float [k] *)
Definition py_scale (k : R) (x : pyvalue) : pyvalue :=
  match x with
  | PyNum u => PyNum (k * u)
  | NdArray a => NdArray (np_map (fun e => k * e) a)
  | NonFinite r c => NonFinite r c
  end.

(** [x / n] for a Python integer [n], under true division: a Python number
    divided by zero raises, an array divided by zero has only [nan] and
    infinite entries. *)
Definition py_truediv (x : pyvalue) (n : nat) : result pyvalue :=
  match x with
  | PyNum u => if (n =? 0)%nat then Raise ZeroDivisionError else Ok (PyNum (u / INR n))
  | NdArray a =>
      if (n =? 0)%nat then Ok (NonFinite (nrows a) (ncols a))
      else Ok (NdArray (np_map (fun e => e / INR n) a))
  | NonFinite r c => Ok (NonFinite r c)
  end.

(** The builtin [sum]: starts from [0] and adds from the left. *)
Definition py_sum (l : list pyvalue) : result pyvalue := py_for py_add l (PyNum 0).

Definition append_homog_coord (x : ndarray R) : result (ndarray R) :=
  np_hstack x (np_ones (nrows x) 1).

Definition identity (x : ndarray R) : result (ndarray R) := Ok x.

(** The lambdas [sumsq] and [layer_sumsq] of
    [estimate_block_kron_factors]; [homog] and [num_samples] are the
    variables of the enclosing call that [layer_sumsq] refers to. *)
Definition sumsq (samples : ndarray R) : result (ndarray R) :=
  np_dot (transpose samples) samples.

Definition layer_sumsq (homog : ndarray R -> result (ndarray R)) (num_samples : nat)
    (layer_samples : list (ndarray R)) : result pyvalue :=
  hs ← py_map homog layer_samples;
  sq ← py_map sumsq hs;
  total ← py_sum (map NdArray sq);
  py_truediv total num_samples.

Definition estimate_block_kron_factors
    (all_samples : list (list (ndarray R))) (append_homog : bool) : result (list pyvalue) :=
  first ← py_first all_samples;
  let num_samples := list_sum (map nrows first) in
  let homog := if append_homog then append_homog_coord else identity in
  py_map (layer_sumsq homog num_samples) all_samples.

(** The lambda [update] of [update_factor_estimates]. *)
Definition update (eps : R) (old new : pyvalue) : result pyvalue :=
  py_add (py_scale eps old) (py_scale (1 - eps) new).

Definition update_factor_estimates
    (old_estimates : list pyvalue * list pyvalue)
    (samples : list (list (ndarray R)) * list (list (ndarray R)))
    (eps : R) : result (list pyvalue * list pyvalue) :=
  let '(As, Gs) := old_estimates in
  let '(a_samples, g_samples) := samples in
  Ahats ← estimate_block_kron_factors a_samples true;
  Ghats ← estimate_block_kron_factors g_samples false;
  As' ← py2_map2 (update eps) As Ahats;
  Gs' ← py2_map2 (update eps) Gs Ghats;
  Ok (As', Gs').

(** The default value of the keyword argument [eps]. *)
Definition default_eps : R := 5 / 100.

Definition init_factor_estimates (layer_sizes : list nat) : list pyvalue * list pyvalue :=
  (map (fun n => NdArray (np_eye n)) (map (fun n => n + 1)%nat (removelast layer_sizes)),
   map (fun n => NdArray (np_eye n)) (tl layer_sizes)).

(** ** Objects and references

    Python lists, tuples and arrays are objects reached through
    references, so that two names can share one object and an in-place
    change is seen through both.  The store maps a reference to the
    current contents of its object. *)

Inductive obj : Type :=
| ObjVal (v : pyvalue)
| ObjSeq (items : list nat).

Abbreviation store := (gmap nat obj).

(** A new object gets a reference that is not in use. *)
Definition alloc (o : obj) (σ : store) : nat * store :=
  let l := fresh (dom σ) in (l, <[l := o]> σ).

Fixpoint alloc_values (vs : list pyvalue) (σ : store) : list nat * store :=
  match vs with
  | [] => ([], σ)
  | v :: vs' =>
      let '(l, σ1) := alloc (ObjVal v) σ in
      let '(ls, σ2) := alloc_values vs' σ1 in
      (l :: ls, σ2)
  end.

Definition load_val (σ : store) (l : nat) : result pyvalue :=
  match σ !! l with
  | Some (ObjVal v) => Ok v
  | _ => Raise TypeError
  end.

Definition load_seq (σ : store) (l : nat) : result (list nat) :=
  match σ !! l with
  | Some (ObjSeq items) => Ok items
  | _ => Raise TypeError
  end.

Definition load_array (σ : store) (l : nat) : result (ndarray R) :=
  v ← load_val σ l;
  match v with
  | NdArray a => Ok a
  | _ => Raise TypeError
  end.

(** The values of a list of numbers or arrays. *)
Definition load_values (σ : store) (l : nat) : result (list pyvalue) :=
  items ← load_seq σ l; py_map (load_val σ) items.

(** The arrays of a list of per-layer lists of sample batches. *)
Definition load_layers (σ : store) (l : nat) : result (list (list (ndarray R))) :=
  layers ← load_seq σ l;
  py_map (fun layer => batches ← load_seq σ layer; py_map (load_array σ) batches) layers.

(** [x, y = l]: unpacking a sequence of exactly two items. *)
Definition load_pair (σ : store) (l : nat) : result (nat * nat) :=
  items ← load_seq σ l;
  match items with
  | [x; y] => Ok (x, y)
  | _ => Raise ValueError
  end.

(** [update_factor_estimates] on references.  Its body has no assignment
    to an item or attribute and calls no mutating method: it reads its
    arguments, and every arithmetic operator and every [map] builds a new
    object.  The temporaries are not kept. *)
Definition update_factor_estimates_st (old_estimates samples : nat) (eps : R) (σ : store)
    : result nat * store :=
  let computed :=
    '(As_ref, Gs_ref) ← load_pair σ old_estimates;
    '(a_ref, g_ref) ← load_pair σ samples;
    As ← load_values σ As_ref;
    Gs ← load_values σ Gs_ref;
    a_samples ← load_layers σ a_ref;
    g_samples ← load_layers σ g_ref;
    update_factor_estimates (As, Gs) (a_samples, g_samples) eps in
  match computed with
  | Raise e => (Raise e, σ)
  | Ok (As', Gs') =>
      let '(As_items, σ1) := alloc_values As' σ in
      let '(As_new, σ2) := alloc (ObjSeq As_items) σ1 in
      let '(Gs_items, σ3) := alloc_values Gs' σ2 in
      let '(Gs_new, σ4) := alloc (ObjSeq Gs_items) σ3 in
      let '(res, σ5) := alloc (ObjSeq [As_new; Gs_new]) σ4 in
      (Ok res, σ5)
  end.

(** The factor estimates reachable from a reference to the pair
    [(As, Gs)]. *)
Definition load_estimates (σ : store) (l : nat) : result (list pyvalue * list pyvalue) :=
  '(As_ref, Gs_ref) ← load_pair σ l;
  As ← load_values σ As_ref;
  Gs ← load_values σ Gs_ref;
  Ok (As, Gs).

(** [layer_samples.append(new_layer_samples)]: the list object itself
    changes. *)
Definition list_append_st (l x : nat) (σ : store) : result unit * store :=
  match σ !! l with
  | Some (ObjSeq items) => (Ok tt, <[l := ObjSeq (items ++ [x])]> σ)
  | _ => (Raise TypeError, σ)
  end.

(** [append_samples] on references. *)
Fixpoint append_each_st (pairs : list (nat * nat)) (σ : store) : result unit * store :=
  match pairs with
  | [] => (Ok tt, σ)
  | (layer_samples, new_layer_samples) :: rest =>
      match list_append_st layer_samples new_layer_samples σ with
      | (Ok _, σ') => append_each_st rest σ'
      | (Raise e, σ') => (Raise e, σ')
      end
  end.

Definition append_samples_st (all_samples new_samples : nat) (σ : store)
    : result unit * store :=
  match load_seq σ all_samples, load_seq σ new_samples with
  | Ok layers, Ok news => append_each_st (py_zip layers news) σ
  | Raise e, _ => (Raise e, σ)
  | _, Raise e => (Raise e, σ)
  end.

(** ** The sample lists as objects *)

(** [[[] for _ in ...]]: a new empty list for every element. *)
Fixpoint alloc_empty_lists (n : nat) (σ : store) : list nat * store :=
  match n with
  | O => ([], σ)
  | S k =>
      let '(l, σ1) := alloc (ObjSeq []) σ in
      let '(ls, σ2) := alloc_empty_lists k σ1 in
      (l :: ls, σ2)
  end.

(** [init_sample_lists] on references: the outer comprehension runs
    twice ([range(2)]), and each run builds a new list of new empty
    lists. *)
Definition init_sample_lists_st (layer_sizes : list nat) (σ : store) : nat * store :=
  let n := length (removelast layer_sizes) in
  let '(a_items, σ1) := alloc_empty_lists n σ in
  let '(a_ref, σ2) := alloc (ObjSeq a_items) σ1 in
  let '(g_items, σ3) := alloc_empty_lists n σ2 in
  let '(g_ref, σ4) := alloc (ObjSeq g_items) σ3 in
  alloc (ObjSeq [a_ref; g_ref]) σ4.

(** ** Vanilla neural net functions *)

Section LogLikelihood.

(** Modelled from the spec: [neural_net_predict] belongs to
    [neural_net.py], which is not part of the file; the spec describes it
    as the baseline forward-prediction function of an external
    collaborator.  It is a parameter of [log_likelihood]. *)
Variable neural_net_predict :
  list (ndarray R * ndarray1 R) -> ndarray R -> result (ndarray R).

Definition log_likelihood (params : list (ndarray R * ndarray1 R))
    (inputs targets : ndarray R) : result R :=
  logprobs ← neural_net_predict params inputs;
  weighted ← np_mul logprobs targets;
  Ok (np_sum weighted).

End LogLikelihood.

(** ** The script

    The data set and the initial parameters come from [load_mnist] and
    [init_random_params], which are not part of the file: the script is
    a function of [train_images] and [params], and of the state of the
    random generator. *)

Module Script.

Definition layer_sizes : list nat := [784; 200; 100; 10]%nat.

Definition batch_size : nat := 256.

(** [int(np.ceil(len(train_images) / batch_size))].  The quotient of a
    length by 256 is exact in doubles; its ceiling is computed on
    integers. *)
Definition num_batches (train_images : ndarray R) : Z :=
  Z.of_nat ((nrows train_images + (batch_size - 1)) / batch_size).

(** [slice(idx * batch_size, (idx+1) * batch_size)] with
    [idx = itr % num_batches]; [%] takes the sign of the divisor, and
    raises for the divisor 0. *)
Definition batch_indices (train_images : ndarray R) (itr : Z) : result (Z * Z) :=
  let nb := num_batches train_images in
  if (nb =? 0)%Z then Raise ZeroDivisionError
  else
    let idx := (itr mod nb)%Z in
    Ok (idx * Z.of_nat batch_size, (idx + 1) * Z.of_nat batch_size)%Z.

(** A bound of a slice over [len] rows: a negative bound counts from the
    end, and bounds are clipped to [[0, len]]. *)
Definition py_slice_bound (len : nat) (x : Z) : nat :=
  Z.to_nat (Z.min (Z.of_nat len)
              (if (x <? 0)%Z then Z.max 0 (x + Z.of_nat len) else x)).

(** [a[slice(start, stop)]]: the rows from [start] up to, not including,
    [stop]. *)
Definition np_slice_rows {T : Type} (a : ndarray T) (sl : Z * Z) : ndarray T :=
  let start := py_slice_bound (nrows a) (fst sl) in
  let stop := py_slice_bound (nrows a) (snd sl) in
  mk_array (stop - start) (ncols a) (fun i j => item a (start + i) j).

(** [collect_samples]: [map(append_samples, all_samples, new_samples)]
    appends the activation samples to the first and the gradient samples
    to the second of the two lists of [all_samples]. *)
Definition collect_samples (train_images : ndarray R)
    (params : list (ndarray R * ndarray1 R)) (itr : Z)
    (all_samples : list (list (ndarray R)) * list (list (ndarray R))) (g : rng_state)
    : result (list (list (ndarray R)) * list (list (ndarray R))) * rng_state :=
  match batch_indices train_images itr with
  | Raise e => (Raise e, g)
  | Ok sl =>
      let batch := np_slice_rows train_images sl in
      match collect_activations_and_grad_samples params batch g with
      | (Raise e, g') => (Raise e, g')
      | (Ok (a_samples, g_samples), g') =>
          (Ok (append_samples (fst all_samples) a_samples,
               append_samples (snd all_samples) g_samples), g')
      end
  end.

(** The statements of the script from [# initialize K-FAC side info] on:
    three calls of [collect_samples], the update of the factor
    estimates, and the reset of the sample lists.  The result is the
    final value of [factor_estimates] and of [all_samples]. *)
Definition main (train_images : ndarray R) (params : list (ndarray R * ndarray1 R))
    (g : rng_state)
    : result ((list pyvalue * list pyvalue)
              * (list (list (ndarray R)) * list (list (ndarray R)))) * rng_state :=
  let all_samples := init_sample_lists layer_sizes in
  let factor_estimates := init_factor_estimates layer_sizes in
  match collect_samples train_images params 0 all_samples g with
  | (Raise e, g1) => (Raise e, g1)
  | (Ok all_samples1, g1) =>
      match collect_samples train_images params 1 all_samples1 g1 with
      | (Raise e, g2) => (Raise e, g2)
      | (Ok all_samples2, g2) =>
          match collect_samples train_images params 2 all_samples2 g2 with
          | (Raise e, g3) => (Raise e, g3)
          | (Ok all_samples3, g3) =>
              match update_factor_estimates factor_estimates all_samples3 default_eps with
              | Raise e => (Raise e, g3)
              | Ok factor_estimates' =>
                  (Ok (factor_estimates', init_sample_lists layer_sizes), g3)
              end
          end
      end
  end.

End Script.

(** * Vocabulary of the statements *)

(** Two values that are arrays of one shape. *)
Definition conformable (old new : pyvalue) : Prop :=
  match old, new with
  | NdArray o, NdArray n => shape o = shape n
  | _, _ => False
  end.

(** [res] is the array [eps * old + (1 - eps) * new], entry by entry. *)
Definition blend_of (eps : R) (old new res : pyvalue) : Prop :=
  match old, new, res with
  | NdArray o, NdArray n, NdArray r =>
      shape r = shape o /\
      forall i j, (i < nrows o)%nat -> (j < ncols o)%nat ->
        item r i j = eps * item o i j + (1 - eps) * item n i j
  | _, _, _ => False
  end.

(** Equality of two values that are arrays. *)
Definition same_array (x y : pyvalue) : Prop :=
  match x, y with
  | NdArray a, NdArray b => arr_eq a b
  | _, _ => False
  end.

(** The sum of a list of numbers. *)
Fixpoint Rlist_sum (l : list R) : R :=
  match l with
  | [] => 0
  | x :: l' => x + Rlist_sum l'
  end.

(** The number of sample rows of a layer, over all of its batches. *)
Definition total_rows (layer : list (ndarray R)) : nat := list_sum (map nrows layer).

(** A batch with the constant-1 column appended when [h] is true. *)
Definition homog_array (h : bool) (x : ndarray R) : ndarray R :=
  if h then
    mk_array (nrows x) (ncols x + 1)
      (fun i j => if (j <? ncols x)%nat then item x i j else 1)
  else x.

(** The width of a layer: that of its first batch. *)
Definition layer_width (h : bool) (layer : list (ndarray R)) : nat :=
  match layer with
  | [] => O
  | b :: _ => ncols (homog_array h b)
  end.

(** A layer has at least one batch and all its batches have one width. *)
Definition well_shaped (h : bool) (layer : list (ndarray R)) : Prop :=
  layer <> [] /\ Forall (fun b => ncols (homog_array h b) = layer_width h layer) layer.

(** The sum over the batches of [homog(batch)^T . homog(batch)], divided
    by [denom]. *)
Definition second_moment (h : bool) (layer : list (ndarray R)) (denom : nat) : ndarray R :=
  mk_array (layer_width h layer) (layer_width h layer)
    (fun i j =>
       Rlist_sum
         (map (fun b => s_sum (nrows b)
                          (fun k => item (homog_array h b) k i * item (homog_array h b) k j))
              layer)
       / INR denom).

(** The value [v] is an array equal to [a]. *)
Definition is_array (v : pyvalue) (a : ndarray R) : Prop :=
  match v with
  | NdArray r => arr_eq r a
  | _ => False
  end.

(** Example batches: one row [[1]], and two rows [[1], [1]]. *)
Definition batch_1x1 : ndarray R := mk_array 1 1 (fun _ _ => 1).
Definition batch_2x1 : ndarray R := mk_array 2 1 (fun _ _ => 1).

(** [x^T . x] *)
Definition gram (x : ndarray R) : ndarray R :=
  mk_array (ncols x) (ncols x)
    (fun i j => s_sum (nrows x) (fun k => item x k i * item x k j)).

(** An array all of whose entries are [nan] or infinite. *)
Definition is_nonfinite (v : pyvalue) : Prop :=
  match v with
  | NonFinite _ _ => True
  | _ => False
  end.

(** The call raised, or every array it returned holds no finite number. *)
Definition no_finite_estimate (r : result (list pyvalue)) : Prop :=
  match r with
  | Raise _ => True
  | Ok vs => Forall is_nonfinite vs
  end.

(** A batch with no rows and one column. *)
Definition batch_0x1 : ndarray R := mk_array 0 1 (fun _ _ => 0).

(** A square array equal to its transpose. *)
Definition symmetric (a : ndarray R) : Prop :=
  nrows a = ncols a /\
  forall i j, (i < nrows a)%nat -> (j < nrows a)%nat -> item a i j = item a j i.

(** The quadratic form [x^T . a . x]. *)
Definition quad_form (a : ndarray R) (x : nat -> R) : R :=
  s_sum (nrows a) (fun i => s_sum (ncols a) (fun j => x i * item a i j * x j)).

Definition pos_semidef (a : ndarray R) : Prop := forall x, 0 <= quad_form a x.

Definition sym_psd_array (a : ndarray R) : Prop := symmetric a /\ pos_semidef a.

(** The value is a symmetric positive semi-definite matrix. *)
Definition sym_psd (v : pyvalue) : Prop :=
  match v with
  | NdArray a => sym_psd_array a
  | _ => False
  end.

(** The shape of a value that is an array. *)
Definition value_shape (v : pyvalue) : option (nat * nat) :=
  match v with
  | PyNum _ => None
  | NdArray a => Some (shape a)
  | NonFinite r c => Some (r, c)
  end.

(** The value is the identity matrix of size [n]. *)
Definition is_identity (v : pyvalue) (n : nat) : Prop :=
  match v with
  | NdArray a =>
      shape a = (n, n) /\
      forall i j, (i < n)%nat -> (j < n)%nat ->
        item a i j = if (i =? j)%nat then 1 else 0
  | _ => False
  end.

(** One batch of samples per layer. *)
Definition one_batch (batches : list (ndarray R)) : list (list (ndarray R)) :=
  map (fun b => [b]) batches.

(** The cumulative probability of the bins [0 .. j] of row [i]. *)
Definition cum_prob (logprobs : ndarray R) (i j : nat) : R :=
  s_sum (S j) (fun k => exp (item logprobs i k)).

(** Every row of log-probabilities is normalised. *)
Definition normalized (logprobs : ndarray R) : Prop :=
  forall i, (i < nrows logprobs)%nat ->
    s_sum (ncols logprobs) (fun k => exp (item logprobs i k)) = 1.

(** Row [i] of [r] is the one-hot vector of bin [k]. *)
Definition one_hot_row (r : ndarray R) (i k : nat) : Prop :=
  (k < ncols r)%nat /\
  forall j, (j < ncols r)%nat -> item r i j = if (j =? k)%nat then 1 else 0.

(** One row with two equally likely bins, and a generator whose draws are
    all 1/2. *)
Definition logprobs_halves : ndarray R := mk_array 1 2 (fun _ _ => ln (1 / 2)).
Definition rng_halves : rng_state := fun _ => 1 / 2.

(** The bin chosen in row [i]: the number of cumulative probabilities
    that the draw exceeds. *)
Definition chosen_bin (logprobs : ndarray R) (g : rng_state) (i : nat) : nat :=
  length (List.filter (fun j => Rgtb (g i) (cum_prob logprobs i j)) (seq 0 (ncols logprobs))).

(** The pre-activation [s] of a layer with input [a]. *)
Definition pre_activation {T : Type} `{Scalar T}
    (a W : ndarray T) (b : ndarray1 T) (extra_bias : ndarray T) : result (ndarray T) :=
  d ← np_dot a W;
  d1 ← np_add d (atleast_2d b);
  np_add d1 extra_bias.

(** The layers from input [a] on: the outputs [tanh s] of the layers in
    order, and the pre-activation of the last layer ([None] when there is
    no layer). *)
Fixpoint run_layers {T : Type} `{Scalar T} (a : ndarray T)
    (layers : list ((ndarray T * ndarray1 T) * ndarray T))
    : result (list (ndarray T) * option (ndarray T)) :=
  match layers with
  | [] => Ok ([], None)
  | ((W, b), extra_bias) :: rest =>
      s ← pre_activation a W b extra_bias;
      '(outs, last_s) ← run_layers (np_tanh s) rest;
      Ok (np_tanh s :: outs, Some (default s last_s))
  end.

(** The layers conform to [n] examples of width [d]: each weight matrix
    takes the width of its input, and the bias and the perturbation of a
    layer are shaped like its output. *)
Fixpoint layers_conform {T : Type} (n d : nat)
    (layers : list ((ndarray T * ndarray1 T) * ndarray T)) : Prop :=
  match layers with
  | [] => True
  | ((W, b), extra_bias) :: rest =>
      nrows W = d /\ size1 b = ncols W /\ shape extra_bias = (n, ncols W) /\
      layers_conform n (ncols W) rest
  end.

(** The width of the output of the last layer. *)
Fixpoint output_width {T : Type} (d : nat)
    (layers : list ((ndarray T * ndarray1 T) * ndarray T)) : nat :=
  match layers with
  | [] => d
  | ((W, _), _) :: rest => output_width (ncols W) rest
  end.

(** [acts] lists the input of every layer: the input [a] of the first
    one, then, for each further layer, [tanh] of the pre-activation of
    the layer before it.  The output of the last layer is not listed. *)
Fixpoint layer_inputs {T : Type} `{Scalar T} (a : ndarray T)
    (layers : list ((ndarray T * ndarray1 T) * ndarray T))
    (acts : list (ndarray T)) : Prop :=
  match layers, acts with
  | [], [] => True
  | ((W, b), extra_bias) :: rest, x :: acts' =>
      x = a /\
      exists s, pre_activation a W b extra_bias = Ok s /\
                layer_inputs (np_tanh s) rest acts'
  | _, _ => False
  end.

(** Two runs of the forward pass are compared entry by entry: the entries
    are related by [rho], and row [i] of the second run corresponds to
    row [phi i] of the first. *)
Definition rel_rows {T1 T2 : Type} (rho : T1 -> T2 -> Prop) (phi : nat -> nat) (n : nat)
    (a1 : ndarray T1) (a2 : ndarray T2) : Prop :=
  nrows a1 = n /\ nrows a2 = n /\ ncols a1 = ncols a2 /\
  forall i j, (i < n)%nat -> (j < ncols a1)%nat -> rho (item a1 (phi i) j) (item a2 i j).

Definition rel_plain {T1 T2 : Type} (rho : T1 -> T2 -> Prop)
    (w1 : ndarray T1) (w2 : ndarray T2) : Prop :=
  nrows w1 = nrows w2 /\ ncols w1 = ncols w2 /\
  forall i j, (i < nrows w1)%nat -> (j < ncols w1)%nat -> rho (item w1 i j) (item w2 i j).

Definition rel_bias {T1 T2 : Type} (rho : T1 -> T2 -> Prop)
    (b1 : ndarray1 T1) (b2 : ndarray1 T2) : Prop :=
  size1 b1 = size1 b2 /\
  forall j, (j < size1 b1)%nat -> rho (item1 b1 j) (item1 b2 j).

Definition rel_layer {T1 T2 : Type} (rho : T1 -> T2 -> Prop) (phi : nat -> nat) (n : nat)
    (l1 : (ndarray T1 * ndarray1 T1) * ndarray T1)
    (l2 : (ndarray T2 * ndarray1 T2) * ndarray T2) : Prop :=
  rel_plain rho (fst (fst l1)) (fst (fst l2)) /\
  rel_bias rho (snd (fst l1)) (snd (fst l2)) /\
  rel_rows rho phi n (snd l1) (snd l2).

(** A relation between the scalars of two runs that every operation of
    the forward pass respects.  The logarithm is only ever taken of a
    sum of exponentials (in [logsumexp]). *)
Record scalar_rel {T1 T2 : Type} {S1 : Scalar T1} {S2 : Scalar T2}
    (rho : T1 -> T2 -> Prop)
    : Prop := {
  rel_const : forall r, rho (s_const r) (s_const r);
  rel_add : forall x y x' y', rho x x' -> rho y y' -> rho (s_add x y) (s_add x' y');
  rel_sub : forall x y x' y', rho x x' -> rho y y' -> rho (s_sub x y) (s_sub x' y');
  rel_mul : forall x y x' y', rho x x' -> rho y y' -> rho (s_mul x y) (s_mul x' y');
  rel_exp : forall x x', rho x x' -> rho (s_exp x) (s_exp x');
  rel_tanh : forall x x', rho x x' -> rho (s_tanh x) (s_tanh x');
  rel_lse : forall m f g, (0 < m)%nat ->
    (forall k, (k < m)%nat -> rho (f k) (g k)) ->
    rho (s_log (s_sum m (fun k => s_exp (f k)))) (s_log (s_sum m (fun k => s_exp (g k))))
}.

(** If the first run returns, so does the second, with related values. *)
Definition ok_rel {A B : Type} (P : A -> B -> Prop) (r1 : result A) (r2 : result B) : Prop :=
  forall x, r1 = Ok x -> exists y, r2 = Ok y /\ P x y.

Definition rel_last {T1 T2 : Type} (P : ndarray T1 -> ndarray T2 -> Prop)
    (s1 : option (ndarray T1)) (s2 : option (ndarray T2)) : Prop :=
  match s1, s2 with
  | Some x, Some y => P x y
  | None, None => True
  | _, _ => False
  end.

(** The batch [a] with its rows reordered: row [i] of the result is row
    [p[i]] of [a] (numpy's [a[p]]). *)
Definition permute_rows {T : Type} (p : list nat) (a : ndarray T) : ndarray T :=
  mk_array (nrows a) (ncols a) (fun i j => item a (nth i p O) j).

(** The generator whose first [length p] draws are those of [g],
    reordered like the rows. *)
Definition permute_draws (p : list nat) (g : rng_state) : rng_state :=
  fun k => if (k <? length p)%nat then g (nth k p O) else g k.

(** The scalar returned by [model_predictive_log_likelihood]. *)
Definition log_likelihood_of {T : Type}
    (r : result (T * list (ndarray T)) * rng_state) : option T :=
  match fst r with
  | Ok (v, _) => Some v
  | Raise _ => None
  end.

(** A one-layer network with two outputs on two examples: the
    pre-activations are [(0, 0)] for the first example and [(ln 3, 0)]
    for the second, so the class probabilities are [(1/2, 1/2)] and
    [(3/4, 1/4)].  The generator draws 3/5, then 4/5. *)
Definition cex_params : list (ndarray R * ndarray1 R) :=
  [(mk_array 1 2 (fun _ j => match j with O => ln 3 | _ => 0 end),
    mk_array1 2 (fun _ => 0))].
Definition cex_inputs : ndarray R :=
  mk_array 2 1 (fun i _ => match i with O => 0 | _ => 1 end).
Definition cex_extra_biases : list (ndarray R) := [np_zeros 2 2].
Definition cex_rng : rng_state := fun k => match k with O => 3 / 5 | _ => 4 / 5 end.

(** The perturbations that [collect_activations_and_grad_samples] builds:
    zeros shaped like the bias of each layer, one row per example. *)
Definition zero_perturbations (params : list (ndarray R * ndarray1 R)) (inputs : ndarray R)
    : list (ndarray R) :=
  map (fun '(W, b) => np_zeros (T:=R) (nrows inputs) (size1 b)) params.

(** The scalar [sum(logprobs * targets)] as a function of the
    perturbations, for targets that are a fixed array of numbers. *)
Definition frozen_objective {T : Type} `{Scalar T} (targets : ndarray R)
    (params : list (ndarray R * ndarray1 R)) (inputs : ndarray R)
    (extra_biases : list (ndarray T)) : result T :=
  '(logprobs, _) ← neural_net_predict_and_activations extra_biases
                     (params_const params) (np_const inputs);
  weighted ← np_mul logprobs (np_const targets);
  Ok (np_sum weighted).

(** The derivative carried by a traced result. *)
Definition tangent_of (r : result dual) : R :=
  match r with
  | Ok v => tangent v
  | Raise _ => 0
  end.

(** The plain number under a traced number. *)
Definition primal_is (x : dual) (y : R) : Prop := primal x = y.

(** The samples reachable from a reference to the pair
    [(a_samples, g_samples)]. *)
Definition load_samples (σ : store) (l : nat)
    : result (list (list (ndarray R)) * list (list (ndarray R))) :=
  '(a_ref, g_ref) ← load_pair σ l;
  a_samples ← load_layers σ a_ref;
  g_samples ← load_layers σ g_ref;
  Ok (a_samples, g_samples).

(** A store for the script: the factor estimates [([eye 2], [eye 1])] are
    the object 4, the samples [([[x]], [[x]])] with the single batch
    [x = [[2]]] are the object 9. *)
Definition batch_two : ndarray R := mk_array 1 1 (fun _ _ => 2).

Definition script_store : store :=
  list_to_map
    [(0, ObjVal (NdArray (np_eye 2))); (1, ObjSeq [0]);
     (2, ObjVal (NdArray (np_eye 1))); (3, ObjSeq [2]);
     (4, ObjSeq [1; 3]);
     (5, ObjVal (NdArray batch_two)); (6, ObjSeq [5]); (7, ObjSeq [6]);
     (8, ObjSeq [6]);
     (9, ObjSeq [7; 8])]%nat.

(** Numbers that depend on a real parameter [t], with the operations
    taken pointwise: the forward pass on them is the forward pass as a
    function of [t]. *)
Definition Scalar_fun : Scalar (R -> R) := {|
  s_const := fun c _ => c;
  getval := fun f => f 0;
  s_add := fun f g t => f t + g t;
  s_sub := fun f g t => f t - g t;
  s_mul := fun f g t => f t * g t;
  s_exp := fun f t => exp (f t);
  s_log := fun f t => ln (f t);
  s_tanh := fun f t => tanh (f t)
|}.

(** The perturbations [x] with [t] added to entry [(i0, j0)] of the
    [l0]-th array, as numbers and as functions of [t]. *)
Definition perturb_array (a : ndarray R) (hit : bool) (i0 j0 : nat) (t : R) : ndarray R :=
  mk_array (nrows a) (ncols a)
    (fun i j => if hit && (i =? i0)%nat && (j =? j0)%nat then item a i j + t
                else item a i j).

Definition perturb (x : list (ndarray R)) (l0 i0 j0 : nat) (t : R) : list (ndarray R) :=
  imap (fun l a => perturb_array a (l =? l0)%nat i0 j0 t) x.

Definition perturb_fun_array (a : ndarray R) (hit : bool) (i0 j0 : nat)
    : ndarray (R -> R) :=
  mk_array (nrows a) (ncols a)
    (fun i j t => if hit && (i =? i0)%nat && (j =? j0)%nat then item a i j + t
                  else item a i j).

Definition perturb_fun (x : list (ndarray R)) (l0 i0 j0 : nat) : list (ndarray (R -> R)) :=
  imap (fun l a => perturb_fun_array a (l =? l0)%nat i0 j0) x.

(** The value of [sum(logprobs * targets)] at given perturbations, the
    targets being fixed. *)
Definition objective_value (targets : ndarray R)
    (params : list (ndarray R * ndarray1 R)) (inputs : ndarray R)
    (extra_biases : list (ndarray R)) : R :=
  match frozen_objective (T:=R) targets params inputs extra_biases with
  | Ok v => v
  | Raise _ => 0
  end.

(** The function [f] of [t] has, at [t = 0], the value and the
    derivative that the traced number [d] carries. *)
Definition tracked_by (f : R -> R) (d : dual) : Prop :=
  f 0 = primal d /\ derivable_pt_lim f 0 (tangent d).

(** The sum of the probabilities of row [i]. *)
Definition row_total (logprobs : ndarray R) (i : nat) : R :=
  s_sum (ncols logprobs) (fun k => exp (item logprobs i k)).

(** Every entry lies strictly between -1 and 1. *)
Definition in_tanh_range (a : ndarray R) : Prop :=
  forall i j, -1 < item a i j < 1.

(** A plain number and a traced number that carries it with derivative
    0: the traced number does not depend on the traced direction. *)
Definition untraced (r : R) (d : dual) : Prop := primal d = r /\ tangent d = 0.

(** The input of the layer that follows the layers with outputs [outs],
    in a network with input [a]. *)
Definition last_input {T : Type} (a : ndarray T) (outs : list (ndarray T)) : ndarray T :=
  List.last outs a.

(** The sum of column [j] over the rows of all the batches of a layer. *)
Definition column_sum (layer : list (ndarray R)) (j : nat) : R :=
  Rlist_sum (map (fun b => s_sum (nrows b) (fun k => item b k j)) layer).

(** The activation factor [a] of a layer of width [d] in blocks: the
    gradient-style second moment [q] of the same samples in the upper
    left, the column sums divided by the sample count in the last row and
    column, and the share of the layer's rows in the sample count in the
    corner. *)
Definition homog_blocks (layer : list (ndarray R)) (denom : nat) (v p : pyvalue) : Prop :=
  match v, p with
  | NdArray a, NdArray q =>
      let d := layer_width false layer in
      shape a = (d + 1, d + 1)%nat /\ shape q = (d, d) /\
      (forall i j, (i < d)%nat -> (j < d)%nat -> item a i j = item q i j) /\
      (forall j, (j < d)%nat ->
         item a d j = column_sum layer j / INR denom /\
         item a j d = column_sum layer j / INR denom) /\
      item a d d = INR (total_rows layer) / INR denom
  | _, _ => False
  end.

(** [np.vstack((a, b))] for arrays of one width. *)
Definition np_vstack (a b : ndarray R) : ndarray R :=
  mk_array (nrows a + nrows b) (ncols a)
    (fun i j => if (i <? nrows a)%nat then item a i j else item b (i - nrows a) j).

(** The batches [b :: rest] stacked into one batch. *)
Fixpoint concat_batches (b : ndarray R) (rest : list (ndarray R)) : ndarray R :=
  match rest with
  | [] => b
  | b' :: rest' => np_vstack b (concat_batches b' rest')
  end.

(** A layer with its batches pooled into a single batch. *)
Definition pooled (layer : list (ndarray R)) : list (ndarray R) :=
  match layer with
  | [] => []
  | b :: rest => [concat_batches b rest]
  end.

(** In the store [σ] the list objects [layers] hold references to the
    arrays [contents], layer by layer. *)
Definition holds_layers (σ : store) (layers : list nat)
    (contents : list (list (ndarray R))) : Prop :=
  Forall2 (fun layer batches =>
             exists refs, σ !! layer = Some (ObjSeq refs) /\
                          py_map (load_array σ) refs = Ok batches)
          layers contents.

(** The batch that the script takes at iteration [itr]:
    [train_images[batch_indices(itr)]]. *)
Definition batch_at (train_images : ndarray R) (itr : Z) : result (ndarray R) :=
  sl ← Script.batch_indices train_images itr;
  Ok (Script.np_slice_rows train_images sl).

(** The parameters of a network with the given layer sizes, as the
    script takes them from [init_random_params]: layer [l] has a weight
    matrix of shape [(sizes[l], sizes[l+1])] and a bias of length
    [sizes[l+1]]. *)
Fixpoint params_for (sizes : list nat) (params : list (ndarray R * ndarray1 R))
    {struct params} : Prop :=
  match params, sizes with
  | [], [_] => True
  | (W, b) :: params', m :: ((n :: _) as rest) =>
      shape W = (m, n) /\ size1 b = n /\ params_for rest params'
  | _, _ => False
  end.

(** The layers [all_samples] hold batches of the widths [widths], layer
    by layer, with [n] sample rows in every layer. *)
Definition accumulated (widths : list nat) (n : nat)
    (all_samples : list (list (ndarray R))) : Prop :=
  Forall2 (fun w layer => Forall (fun b => ncols b = w) layer /\ total_rows layer = n)
          widths all_samples.


(** numpy's [a[idx]] for a list [idx] of row numbers: row [i] of the
    result is row [idx[i]] of [a]. *)
Definition select_rows {T : Type} (idx : list nat) (a : ndarray T) : ndarray T :=
  mk_array (length idx) (ncols a) (fun i j => item a (nth i idx O) j).

(** [a2] holds the rows [idx] of the [n]-row array [a1]. *)
Definition selected {T : Type} (idx : list nat) (n : nat) (a1 a2 : ndarray T) : Prop :=
  nrows a1 = n /\ nrows a2 = length idx /\ ncols a2 = ncols a1 /\
  forall i j, (i < length idx)%nat -> (j < ncols a1)%nat ->
    item a2 i j = item a1 (nth i idx O) j.

(** A network of the script's layer sizes with all weights and biases
    zero, and 300 blank images. *)
Definition zero_params : list (ndarray R * ndarray1 R) :=
  [(np_zeros 784 200, mk_array1 200 (fun _ => 0));
   (np_zeros 200 100, mk_array1 100 (fun _ => 0));
   (np_zeros 100 10, mk_array1 10 (fun _ => 0))].
Definition blank_images : ndarray R := np_zeros 300 784.

(** The one-hot row of class 0 among two classes. *)
Definition targets_first : ndarray R :=
  mk_array 1 2 (fun _ j => if (j =? 0)%nat then 1 else 0).

(** [logprobs] is [s - logsumexp(s, axis=1, keepdims=True)]: it has the
    shape of [s], and each entry is the entry of [s] minus the logarithm
    of the sum of the exponentials of its row. *)
Definition log_softmax_of (s logprobs : ndarray R) : Prop :=
  shape logprobs = shape s /\
  forall i j, (i < nrows s)%nat -> (j < ncols s)%nat ->
    item logprobs i j = item s i j - ln (s_sum (ncols s) (fun k => exp (item s i k))).

(** No draw exceeds the total of the probabilities of its row; draw [i]
    of [g] is the draw for row [i] of [logprobs]. *)
Definition draws_within (logprobs : ndarray R) (g : rng_state) : Prop :=
  forall i, (i < nrows logprobs)%nat -> g i <= row_total logprobs i.

(** The generator after [n] draws. *)
Definition draws_from (g : rng_state) (n : nat) : rng_state := fun k => g (n + k)%nat.

(** The draws of [g] for the examples of [batch] stay within the totals
    of the class probabilities that the forward pass computes for them. *)
Definition draws_fit (params : list (ndarray R * ndarray1 R)) (batch : ndarray R)
    (g : rng_state) : Prop :=
  forall logprobs activations,
    neural_net_predict_and_activations (zero_perturbations params batch) params batch
    = Ok (logprobs, activations) ->
    draws_within logprobs g.
(** * Properties *)

(** ** Shapes, broadcasting and equality of arrays *)

Lemma broadcast_dim_same (n : nat) : broadcast_dim n n = Some n.
Proof. unfold broadcast_dim. now rewrite Nat.eqb_refl. Qed.

Lemma broadcast_dim_one_r (n : nat) : broadcast_dim n 1 = Some n.
Proof.
  unfold broadcast_dim.
  destruct (n =? 1)%nat eqn:E; [apply Nat.eqb_eq in E; now subst|].
  reflexivity.
Qed.

Lemma bidx_lt (m i : nat) : (i < m)%nat -> bidx m i = i.
Proof.
  unfold bidx. intros Hi.
  destruct (m =? 1)%nat eqn:E; [apply Nat.eqb_eq in E; lia | reflexivity].
Qed.

Lemma arr_eq_refl {T : Type} (a : ndarray T) : arr_eq a a.
Proof. repeat split. Qed.

Lemma arr_eq_sym {T : Type} (a b : ndarray T) : arr_eq a b -> arr_eq b a.
Proof.
  intros (Hr & Hc & Hi). repeat split; try congruence.
  intros i j Hi' Hj'. symmetry. apply Hi; congruence.
Qed.

Lemma arr_eq_trans {T : Type} (a b c : ndarray T) :
  arr_eq a b -> arr_eq b c -> arr_eq a c.
Proof.
  intros (Hr & Hc & Hi) (Hr' & Hc' & Hi'). repeat split; try congruence.
  intros i j Hi1 Hj1. rewrite Hi by assumption. apply Hi'; congruence.
Qed.

(** ** The exponential update (C1) *)

Lemma update_arrays (eps : R) (o n : ndarray R) :
  shape o = shape n ->
  update eps (NdArray o) (NdArray n) =
  Ok (NdArray (mk_array (nrows o) (ncols o)
        (fun i j => eps * item o (bidx (nrows o) i) (bidx (ncols o) j)
                    + (1 - eps) * item n (bidx (nrows n) i) (bidx (ncols n) j)))).
Proof.
  unfold shape. intros Hs. injection Hs as Hr Hc.
  unfold update, py_scale, py_add, np_add, np_binop, np_map. simpl.
  rewrite <- Hr, <- Hc, !broadcast_dim_same. reflexivity.
Qed.

Lemma update_blend (eps : R) (old new : pyvalue) :
  conformable old new ->
  exists res, update eps old new = Ok res /\ blend_of eps old new res.
Proof.
  destruct old as [|o|], new as [|n|]; simpl; try contradiction.
  intros Hs. eexists. split; [apply update_arrays; exact Hs|].
  simpl. split; [reflexivity|].
  intros i j Hi Hj. unfold shape in Hs. injection Hs as Hr Hc.
  rewrite <- Hr, <- Hc, !bidx_lt by assumption. reflexivity.
Qed.

Lemma map2_update_blend (eps : R) (olds news : list pyvalue) :
  Forall2 conformable olds news ->
  exists ress, py2_map2 (update eps) olds news = Ok ress /\
               Forall3 (blend_of eps) olds news ress.
Proof.
  induction 1 as [|old new olds news Hc _ IH].
  - exists []. split; [reflexivity | constructor].
  - destruct (update_blend eps old new Hc) as (res & Hres & Hb).
    destruct IH as (ress & Hress & Hbs).
    exists (res :: ress). split.
    + simpl. rewrite Hres. simpl. rewrite Hress. reflexivity.
    + now constructor.
Qed.

Lemma blend_one (old new res : pyvalue) :
  blend_of 1 old new res -> same_array res old.
Proof.
  destruct old as [|o|], new as [|n|], res as [|a|]; simpl; try contradiction.
  intros (Hs & Hi). unfold shape in Hs. injection Hs as Hr Hc.
  repeat split; try assumption.
  intros i j Hi' Hj'. rewrite Hi by congruence. lra.
Qed.

Lemma blend_zero (old new res : pyvalue) :
  conformable old new -> blend_of 0 old new res -> same_array res new.
Proof.
  destruct old as [|o|], new as [|n|], res as [|a|]; simpl; try contradiction.
  intros Hon (Hs & Hi). unfold shape in Hs, Hon.
  injection Hs as Hr Hc. injection Hon as Hr' Hc'.
  repeat split; try congruence.
  intros i j Hi' Hj'. rewrite Hi by congruence. lra.
Qed.

Lemma Forall3_blend_one (olds news ress : list pyvalue) :
  Forall3 (blend_of 1) olds news ress -> Forall2 same_array ress olds.
Proof. induction 1; constructor; eauto using blend_one. Qed.

Lemma Forall3_blend_zero (olds news ress : list pyvalue) :
  Forall2 conformable olds news ->
  Forall3 (blend_of 0) olds news ress -> Forall2 same_array ress news.
Proof.
  intros Hc H. revert Hc.
  induction H; intros Hc; inversion Hc; subst; constructor; eauto using blend_zero.
Qed.

(** C1. [update_factor_estimates] blends, layer by layer and for both
    factor types, the old estimate with the fresh one as
    [eps * old + (1 - eps) * fresh]; the default [eps] is 0.05; with
    [eps = 1] the result is the old estimate and with [eps = 0] it is the
    fresh one, exactly.  The old and the fresh estimate of a layer are
    arrays of one shape, as the sum in the rule requires. *)
Theorem update_factor_estimates_blends
    (As Gs : list pyvalue) (a_samples g_samples : list (list (ndarray R)))
    (Ahats Ghats : list pyvalue) :
  estimate_block_kron_factors a_samples true = Ok Ahats ->
  estimate_block_kron_factors g_samples false = Ok Ghats ->
  Forall2 conformable As Ahats ->
  Forall2 conformable Gs Ghats ->
  (forall eps, exists As' Gs',
      update_factor_estimates (As, Gs) (a_samples, g_samples) eps = Ok (As', Gs') /\
      Forall3 (blend_of eps) As Ahats As' /\
      Forall3 (blend_of eps) Gs Ghats Gs' /\
      (eps = 1 -> Forall2 same_array As' As /\ Forall2 same_array Gs' Gs) /\
      (eps = 0 -> Forall2 same_array As' Ahats /\ Forall2 same_array Gs' Ghats)) /\
  default_eps = 0.05 /\
  (forall old new : ndarray R, shape old = shape new ->
     (exists r, update 1 (NdArray old) (NdArray new) = Ok (NdArray r) /\ arr_eq r old) /\
     (exists r, update 0 (NdArray old) (NdArray new) = Ok (NdArray r) /\ arr_eq r new)).
Proof.
  intros HA HG HcA HcG. split; [|split].
  - intros eps.
    destruct (map2_update_blend eps As Ahats HcA) as (As' & HAs & HbA).
    destruct (map2_update_blend eps Gs Ghats HcG) as (Gs' & HGs & HbG).
    exists As', Gs'. split; [|split; [exact HbA|split; [exact HbG|split]]].
    + unfold update_factor_estimates. rewrite HA. simpl. rewrite HG. simpl.
      rewrite HAs. simpl. rewrite HGs. reflexivity.
    + intros ->. split; eauto using Forall3_blend_one.
    + intros ->. split; eauto using Forall3_blend_zero.
  - unfold default_eps. lra.
  - intros old new Hs. split.
    + destruct (update_blend 1 (NdArray old) (NdArray new) Hs) as (res & Hres & Hb).
      destruct res as [|r|]; try contradiction.
      exists r. split; [exact Hres | exact (blend_one (NdArray old) (NdArray new) _ Hb)].
    + destruct (update_blend 0 (NdArray old) (NdArray new) Hs) as (res & Hres & Hb).
      destruct res as [|r|]; try contradiction.
      exists r. split; [exact Hres | exact (blend_zero (NdArray old) (NdArray new) _ Hs Hb)].
Qed.

(** ** Sums of real numbers *)

Lemma rsum_ext (n : nat) (f g : nat -> R) :
  (forall k, (k < n)%nat -> f k = g k) -> s_sum n f = s_sum n g.
Proof.
  induction n as [|n IH]; intros Hfg; simpl; [reflexivity|].
  rewrite IH by (intros; apply Hfg; lia). rewrite Hfg by lia. reflexivity.
Qed.

Lemma rsum_plus (n : nat) (f g : nat -> R) :
  s_sum n (fun k => f k + g k) = s_sum n f + s_sum n g.
Proof. induction n as [|n IH]; simpl; [lra | rewrite IH; lra]. Qed.

Lemma rsum_scal (n : nat) (c : R) (f : nat -> R) :
  s_sum n (fun k => c * f k) = c * s_sum n f.
Proof. induction n as [|n IH]; simpl; [lra | rewrite IH; lra]. Qed.

Lemma rsum_nonneg (n : nat) (f : nat -> R) :
  (forall k, (k < n)%nat -> 0 <= f k) -> 0 <= s_sum n f.
Proof.
  induction n as [|n IH]; intros Hf; simpl; [lra|].
  assert (0 <= s_sum n f) by (apply IH; intros; apply Hf; lia).
  assert (0 <= f n) by (apply Hf; lia). lra.
Qed.

Lemma rsum_zero (n : nat) : s_sum n (fun _ => 0) = 0.
Proof. induction n as [|n IH]; simpl; [reflexivity | rewrite IH; lra]. Qed.

(** ** Outcomes of mapped functions *)

Lemma py_map_Forall2 {A B : Type} (f : A -> result B) (P : A -> B -> Prop) (l : list A) :
  Forall (fun x => exists y, f x = Ok y /\ P x y) l ->
  exists ys, py_map f l = Ok ys /\ Forall2 P l ys.
Proof.
  induction 1 as [|x l (y & Hy & HP) _ (ys & Hys & HF)].
  - exists []. split; [reflexivity | constructor].
  - exists (y :: ys). split; [|now constructor].
    simpl. rewrite Hy. simpl. rewrite Hys. reflexivity.
Qed.

Lemma py_map_total {A B : Type} (f : A -> result B) (g : A -> B) (l : list A) :
  (forall x, f x = Ok (g x)) -> py_map f l = Ok (map g l).
Proof.
  intros Hf. induction l as [|x l IH]; simpl; [reflexivity|].
  rewrite Hf. simpl. rewrite IH. reflexivity.
Qed.

(** ** The second-moment estimate (C2) *)

Lemma homog_ok (h : bool) (x : ndarray R) :
  (if h then append_homog_coord else identity) x = Ok (homog_array h x).
Proof.
  destruct h; [|reflexivity].
  unfold append_homog_coord, np_hstack, homog_array. simpl.
  rewrite Nat.eqb_refl. reflexivity.
Qed.

Lemma sumsq_ok (x : ndarray R) : sumsq x = Ok (gram x).
Proof. unfold sumsq, np_dot, transpose, gram. simpl. rewrite Nat.eqb_refl. reflexivity. Qed.

Lemma py_for_add_arrays (w : nat) (ys : list (ndarray R)) :
  Forall (fun y => nrows y = w /\ ncols y = w) ys ->
  forall acc, nrows acc = w -> ncols acc = w ->
  exists r, py_for py_add (map NdArray ys) (NdArray acc) = Ok (NdArray r) /\
            nrows r = w /\ ncols r = w /\
            forall i j, (i < w)%nat -> (j < w)%nat ->
              item r i j = item acc i j + Rlist_sum (map (fun y => item y i j) ys).
Proof.
  induction 1 as [|y ys (Hyr & Hyc) _ IH]; intros acc Har Hac.
  - exists acc. simpl. repeat split; try assumption. intros; lra.
  - simpl. unfold np_add, np_binop.
    rewrite Har, Hac, Hyr, Hyc, !broadcast_dim_same. simpl.
    destruct (IH (mk_array w w
                    (fun i j => item acc (bidx w i) (bidx w j)
                                + item y (bidx w i) (bidx w j))))
      as (r & Hr & Hrr & Hrc & Hri); [reflexivity | reflexivity |].
    exists r. repeat split; try assumption.
    intros i j Hi Hj. rewrite Hri by assumption. simpl.
    rewrite !bidx_lt by assumption. lra.
Qed.

Lemma py_sum_arrays (w : nat) (ys : list (ndarray R)) :
  ys <> [] ->
  Forall (fun y => nrows y = w /\ ncols y = w) ys ->
  exists r, py_sum (map NdArray ys) = Ok (NdArray r) /\
            nrows r = w /\ ncols r = w /\
            forall i j, (i < w)%nat -> (j < w)%nat ->
              item r i j = Rlist_sum (map (fun y => item y i j) ys).
Proof.
  destruct ys as [|y ys]; [congruence|]. intros _ HF.
  pose proof (Forall_inv HF) as (Hyr & Hyc).
  pose proof (Forall_inv_tail HF) as HF'.
  unfold py_sum. simpl.
  destruct (py_for_add_arrays w ys HF' (np_map (fun e => 0 + e) y))
    as (r & Hr & Hrr & Hrc & Hri); [exact Hyr | exact Hyc |].
  exists r. repeat split; try assumption.
  intros i j Hi Hj. rewrite Hri by assumption. simpl. lra.
Qed.

(** What [layer_sumsq] returns for a well-shaped layer. *)
Lemma layer_sumsq_ok (h : bool) (layer : list (ndarray R)) (n : nat) :
  well_shaped h layer -> (0 < n)%nat ->
  exists v,
    layer_sumsq (if h then append_homog_coord else identity) n layer = Ok v /\
    is_array v (second_moment h layer n).
Proof.
  intros (Hne & Hw) Hn. unfold layer_sumsq.
  rewrite (py_map_total _ (homog_array h)) by apply homog_ok. simpl.
  rewrite (py_map_total _ gram) by apply sumsq_ok. simpl.
  destruct (py_sum_arrays (layer_width h layer) (map gram (map (homog_array h) layer)))
    as (r & Hr & Hrr & Hrc & Hri).
  - destruct layer; [congruence | discriminate].
  - rewrite !Forall_map. eapply Forall_impl; [exact Hw|].
    intros b Hb. simpl. now split.
  - rewrite Hr. simpl.
    destruct (n =? 0)%nat eqn:E; [apply Nat.eqb_eq in E; lia|].
    eexists. split; [reflexivity|].
    simpl. repeat split; try assumption.
    intros i j Hi Hj. simpl in Hi, Hj. rewrite Hrr in Hi. rewrite Hrc in Hj.
    simpl. rewrite Hri by assumption. rewrite !map_map.
    f_equal. f_equal. apply map_ext. intros b. destruct h; reflexivity.
Qed.

Lemma estimate_ok_second_moment
    (all_samples : list (list (ndarray R))) (h : bool) (first : list (ndarray R)) :
  py_first all_samples = Ok first ->
  (0 < total_rows first)%nat ->
  Forall (well_shaped h) all_samples ->
  exists estimates,
    estimate_block_kron_factors all_samples h = Ok estimates /\
    Forall2 (fun layer v => is_array v (second_moment h layer (total_rows first)))
            all_samples estimates.
Proof.
  intros Hfirst Hn Hws.
  unfold estimate_block_kron_factors. rewrite Hfirst. simpl.
  apply py_map_Forall2.
  eapply Forall_impl; [exact Hws|].
  intros layer Hl. exact (layer_sumsq_ok h layer (total_rows first) Hl Hn).
Qed.

(** C2, as the code has it.  For every list of layers in which each layer
    has at least one batch and batches of one width, and whose first layer
    has at least one sample row, [estimate_block_kron_factors] returns,
    for each layer, the sum over that layer's batches of
    [homog(batch)^T . homog(batch)] divided by the total number of sample
    rows of the batches of the FIRST layer, one denominator for all
    layers; for a layer with as many rows as the first one this is the
    layer's own number of rows. *)
Theorem estimate_block_kron_factors_second_moment
    (all_samples : list (list (ndarray R))) (append_homog : bool)
    (first : list (ndarray R)) :
  py_first all_samples = Ok first ->
  (0 < total_rows first)%nat ->
  Forall (well_shaped append_homog) all_samples ->
  exists estimates,
    estimate_block_kron_factors all_samples append_homog = Ok estimates /\
    Forall2 (fun layer v =>
               is_array v (second_moment append_homog layer (total_rows first)) /\
               (total_rows layer = total_rows first ->
                is_array v (second_moment append_homog layer (total_rows layer))))
            all_samples estimates.
Proof.
  intros Hfirst Hn Hws.
  destruct (estimate_ok_second_moment all_samples append_homog first Hfirst Hn Hws)
    as (estimates & He & HF).
  exists estimates. split; [exact He|].
  eapply Forall2_impl; [exact HF|].
  intros layer v Ha. split; [exact Ha|]. intros ->. exact Ha.
Qed.

(** C2 as stated fails: with one row in the first layer and two rows in
    the second, the second layer's sum is divided by 1, not by its own
    2 rows. *)
Lemma estimate_block_kron_factors_own_rows_counterexample :
  ~ exists estimates,
      estimate_block_kron_factors [[batch_1x1]; [batch_2x1]] false = Ok estimates /\
      Forall2 (fun layer v => is_array v (second_moment false layer (total_rows layer)))
              [[batch_1x1]; [batch_2x1]] estimates.
Proof.
  intros (estimates & He & HF).
  assert (Hc : exists v0 v1,
             estimate_block_kron_factors [[batch_1x1]; [batch_2x1]] false = Ok [v0; NdArray v1]
             /\ item v1 0%nat 0%nat = (0 + (0 + 1 * 1 + 1 * 1)) / INR 1).
  { eexists _, _. split; reflexivity. }
  destruct Hc as (v0 & v1 & Hc & Hv1).
  rewrite Hc in He. injection He as <-.
  inversion HF as [|? ? ? ? _ HF1]; subst.
  inversion HF1 as [|? ? ? ? Hl _]; subst.
  destruct Hl as (Hrows & Hcols & Hi). specialize (Hi 0%nat 0%nat).
  rewrite Hv1 in Hi. simpl in Hi, Hrows, Hcols.
  assert (Hlt : (0 < 1)%nat) by lia.
  rewrite Hrows, Hcols in Hi. specialize (Hi Hlt Hlt). lra.
Qed.

(** ** Division by the sample count (C10) *)

Lemma py_truediv_zero (v : pyvalue) :
  match py_truediv v 0 with
  | Raise _ => True
  | Ok w => is_nonfinite w
  end.
Proof. destruct v; exact I. Qed.

Lemma py_map_no_finite {A : Type} (f : A -> result pyvalue) (l : list A) :
  (forall x, match f x with Raise _ => True | Ok w => is_nonfinite w end) ->
  no_finite_estimate (py_map f l).
Proof.
  intros Hf. induction l as [|x l IH]; simpl; [constructor|].
  specialize (Hf x). destruct (f x) as [w|e]; simpl; [|exact I].
  destruct (py_map f l) as [ws|e]; simpl in *; [|exact I].
  now constructor.
Qed.

Lemma estimate_zero_rows (all_samples : list (list (ndarray R))) (h : bool) :
  total_rows (hd [] all_samples) = 0%nat ->
  no_finite_estimate (estimate_block_kron_factors all_samples h).
Proof.
  intros Hz. unfold estimate_block_kron_factors.
  destruct all_samples as [|first rest]; [exact I|].
  simpl in Hz. unfold total_rows in Hz.
  change (py_first (first :: rest)) with (Ok first).
  change (no_finite_estimate
            (py_map (layer_sumsq (if h then append_homog_coord else identity)
                       (list_sum (map nrows first))) (first :: rest))).
  rewrite Hz.
  apply py_map_no_finite. intros layer. unfold layer_sumsq.
  destruct (py_map _ layer) as [hs|e]; simpl; [|exact I].
  destruct (py_map _ hs) as [sq|e]; simpl; [|exact I].
  destruct (py_sum _) as [total|e]; simpl; [|exact I].
  apply py_truediv_zero.
Qed.

Lemma py_add_nonfinite_r (x y : pyvalue) :
  is_nonfinite y ->
  match py_add x y with Raise _ => True | Ok w => is_nonfinite w end.
Proof.
  destruct y as [| |r c]; simpl; try contradiction. intros _.
  destruct x as [u|a|r' c']; simpl; try exact I.
  - destruct (broadcast_dim (nrows a) r), (broadcast_dim (ncols a) c); exact I.
  - destruct (broadcast_dim r' r), (broadcast_dim c' c); exact I.
Qed.

Lemma update_nonfinite (eps : R) (old new : pyvalue) :
  is_nonfinite new ->
  match update eps old new with Raise _ => True | Ok w => is_nonfinite w end.
Proof.
  intros Hn. unfold update. apply py_add_nonfinite_r.
  destruct new; simpl in *; try contradiction. exact I.
Qed.

Lemma map2_update_nonfinite (eps : R) (olds news : list pyvalue) :
  Forall is_nonfinite news ->
  no_finite_estimate (py2_map2 (update eps) olds news).
Proof.
  intros Hn. revert olds.
  induction Hn as [|new news Hnew _ IH]; intros [|old olds]; simpl; try exact I.
  - constructor.
  - pose proof (update_nonfinite eps old new Hnew) as Hu.
    destruct (update eps old new) as [w|e]; simpl; [|exact I].
    specialize (IH olds).
    destruct (py2_map2 (update eps) olds news) as [ws|e]; simpl in *; [|exact I].
    now constructor.
Qed.

Lemma init_sample_lists_raises (layer_sizes : list nat) (h : bool) :
  exists e,
    estimate_block_kron_factors (fst (init_sample_lists (A:=ndarray R) layer_sizes)) h
    = Raise e.
Proof.
  unfold init_sample_lists, estimate_block_kron_factors. simpl.
  destruct (removelast layer_sizes) as [|n ns]; simpl.
  - exists IndexError. reflexivity.
  - exists ZeroDivisionError. destruct h; reflexivity.
Qed.

Lemma list_sum_pos (l : list nat) :
  (0 < list_sum l)%nat -> exists n, In n l /\ (0 < n)%nat.
Proof.
  induction l as [|n l IH]; simpl; [lia|].
  intros Hs. destruct (Nat.eq_dec n 0%nat) as [->|Hn].
  - destruct IH as (m & Hm & Hpos); [lia|]. exists m. auto.
  - exists n. split; [now left | lia].
Qed.

(** C10. The division by the sample count is unguarded and the count is
    that of the first layer.  When the batches of the first layer hold no
    row at all, [estimate_block_kron_factors] raises or returns only
    arrays without a finite entry, and so do the activation factors of
    [update_factor_estimates]; on freshly initialised, empty sample lists
    [update_factor_estimates] raises; and whenever an estimate that is a
    finite array or number is returned, some batch of the first layer has
    at least one row. *)
Theorem estimate_block_kron_factors_division_unguarded
    (all_samples : list (list (ndarray R))) (append_homog : bool) :
  (total_rows (hd [] all_samples) = 0%nat ->
   no_finite_estimate (estimate_block_kron_factors all_samples append_homog) /\
   forall old_estimates g_samples eps,
     no_finite_estimate
       (fst <$> update_factor_estimates old_estimates (all_samples, g_samples) eps)) /\
  (forall old_estimates layer_sizes eps, exists e,
     update_factor_estimates old_estimates (init_sample_lists layer_sizes) eps = Raise e) /\
  (forall estimates,
     estimate_block_kron_factors all_samples append_homog = Ok estimates ->
     Exists (fun v => ~ is_nonfinite v) estimates ->
     exists batch, In batch (hd [] all_samples) /\ (0 < nrows batch)%nat).
Proof.
  split; [|split].
  - intros Hz. split; [now apply estimate_zero_rows|].
    intros [As Gs] g_samples eps. unfold update_factor_estimates.
    pose proof (estimate_zero_rows all_samples true Hz) as Hn.
    destruct (estimate_block_kron_factors all_samples true) as [Ahats|e]; simpl; [|exact I].
    destruct (estimate_block_kron_factors g_samples false) as [Ghats|e]; simpl; [|exact I].
    pose proof (map2_update_nonfinite eps As Ahats Hn) as HA.
    destruct (py2_map2 (update eps) As Ahats) as [As'|e]; simpl; [|exact I].
    destruct (py2_map2 (update eps) Gs Ghats) as [Gs'|e]; simpl; [|exact I].
    exact HA.
  - intros [As Gs] layer_sizes eps.
    destruct (init_sample_lists_raises layer_sizes true) as (e & He).
    exists e. unfold update_factor_estimates.
    destruct (init_sample_lists layer_sizes) as [a_samples g_samples] eqn:E.
    simpl in He. rewrite He. reflexivity.
  - intros estimates He Hex.
    destruct (Nat.eq_dec (total_rows (hd [] all_samples)) 0%nat) as [Hz|Hnz].
    + pose proof (estimate_zero_rows all_samples append_homog Hz) as Hn.
      rewrite He in Hn. simpl in Hn.
      apply Exists_exists in Hex. destruct Hex as (v & Hv & Hfin).
      rewrite Forall_forall in Hn. exfalso. apply Hfin, Hn, Hv.
    + destruct (list_sum_pos (map nrows (hd [] all_samples))) as (n & Hin & Hpos).
      { unfold total_rows in Hnz. lia. }
      apply in_map_iff in Hin. destruct Hin as (batch & <- & Hb).
      exists batch. auto.
Qed.

(** ** Symmetric positive semi-definite factors (C5) *)

Lemma rsum_swap (n m : nat) (f : nat -> nat -> R) :
  s_sum n (fun i => s_sum m (fun j => f i j)) =
  s_sum m (fun j => s_sum n (fun i => f i j)).
Proof.
  induction n as [|n IH]; simpl.
  - now rewrite rsum_zero.
  - rewrite IH, <- rsum_plus. reflexivity.
Qed.

Lemma rsum_scal2 (n : nat) (a b : R) (f : nat -> R) :
  a * s_sum n f * b = s_sum n (fun k => a * f k * b).
Proof. induction n as [|n IH]; simpl; [lra | rewrite <- IH; lra]. Qed.

Lemma rsum_prod (n m : nat) (f g : nat -> R) :
  s_sum n f * s_sum m g = s_sum n (fun i => s_sum m (fun j => f i * g j)).
Proof.
  induction n as [|n IH]; simpl; [lra|].
  rewrite <- IH, rsum_scal. lra.
Qed.

Lemma quad_form_ext (a b : ndarray R) (x : nat -> R) :
  arr_eq a b -> quad_form a x = quad_form b x.
Proof.
  intros (Hr & Hc & Hi). unfold quad_form. rewrite <- Hr, <- Hc.
  apply rsum_ext. intros i Hi'. apply rsum_ext. intros j Hj'.
  rewrite Hi by assumption. reflexivity.
Qed.

Lemma eye_sym_psd (n : nat) : sym_psd_array (np_eye n).
Proof.
  split.
  - split; [reflexivity|]. intros i j _ _. simpl.
    rewrite (Nat.eqb_sym j i). reflexivity.
  - intros x. unfold quad_form. simpl.
    apply rsum_nonneg. intros i _. apply rsum_nonneg. intros j _.
    destruct (i =? j)%nat eqn:E.
    + apply Nat.eqb_eq in E. subst. nra.
    + lra.
Qed.

Lemma quad_form_gram (y : ndarray R) (x : nat -> R) :
  quad_form (gram y) x =
  s_sum (nrows y)
    (fun k => s_sum (ncols y) (fun i => x i * item y k i)
              * s_sum (ncols y) (fun i => x i * item y k i)).
Proof.
  unfold quad_form, gram. simpl.
  transitivity
    (s_sum (ncols y) (fun i => s_sum (nrows y) (fun k =>
       s_sum (ncols y) (fun j => (x i * item y k i) * (x j * item y k j))))).
  - apply rsum_ext. intros i _.
    rewrite <- rsum_swap. apply rsum_ext. intros j _.
    rewrite rsum_scal2. apply rsum_ext. intros k _. lra.
  - rewrite rsum_swap. apply rsum_ext. intros k _.
    rewrite rsum_prod. reflexivity.
Qed.

Lemma gram_sym_psd (y : ndarray R) : sym_psd_array (gram y).
Proof.
  split.
  - split; [reflexivity|]. intros i j _ _. simpl.
    apply rsum_ext. intros k _. lra.
  - intros x. rewrite quad_form_gram.
    apply rsum_nonneg. intros k _. nra.
Qed.

(** A linear rescaling of the entries by a non-negative factor. *)
Lemma np_map_scale_sym_psd (f : R -> R) (c : R) (a : ndarray R) :
  (forall e, f e = c * e) -> 0 <= c ->
  sym_psd_array a -> sym_psd_array (np_map f a).
Proof.
  intros Hf Hc ((Hsq & Hsym) & Hpsd). split.
  - split; [exact Hsq|]. intros i j Hi Hj. simpl in *.
    rewrite Hsym by assumption. reflexivity.
  - intros x. unfold quad_form. simpl.
    assert (E : s_sum (nrows a)
                  (fun i => s_sum (ncols a) (fun j => x i * f (item a i j) * x j))
                = c * quad_form a x).
    { unfold quad_form. rewrite <- rsum_scal. apply rsum_ext. intros i _.
      rewrite <- rsum_scal. apply rsum_ext. intros j _. rewrite Hf. lra. }
    rewrite E. specialize (Hpsd x). nra.
Qed.

Lemma broadcast_dim_cases (n m q : nat) :
  broadcast_dim n m = Some q -> (q = n \/ n = 1%nat) /\ (q = m \/ m = 1%nat).
Proof.
  unfold broadcast_dim.
  destruct (n =? m)%nat eqn:E1.
  { apply Nat.eqb_eq in E1. intros [= <-]. subst. auto. }
  destruct (n =? 1)%nat eqn:E2.
  { apply Nat.eqb_eq in E2. intros [= <-]. auto. }
  destruct (m =? 1)%nat eqn:E3; [|discriminate].
  apply Nat.eqb_eq in E3. intros [= <-]. auto.
Qed.

(** The quadratic form of a symmetric positive semi-definite array that
    is broadcast to [q x q]. *)
Lemma broadcast_quad_nonneg (a : ndarray R) (q : nat) (x : nat -> R) :
  sym_psd_array a -> q = nrows a \/ nrows a = 1%nat ->
  0 <= s_sum q (fun i => s_sum q (fun j =>
         x i * item a (bidx (nrows a) i) (bidx (ncols a) j) * x j)).
Proof.
  intros ((Hsq & Hsym) & Hpsd) Hq. rewrite <- Hsq.
  destruct (Nat.eq_dec (nrows a) 1%nat) as [H1|H1].
  - rewrite H1. unfold bidx. simpl.
    assert (E : s_sum q (fun i => s_sum q (fun j => x i * item a 0%nat 0%nat * x j))
                = item a 0%nat 0%nat * (s_sum q x * s_sum q x)).
    { rewrite rsum_prod, <- rsum_scal. apply rsum_ext. intros i _.
      rewrite <- rsum_scal. apply rsum_ext. intros j _. lra. }
    rewrite E.
    assert (H00 : 0 <= item a 0%nat 0%nat).
    { specialize (Hpsd (fun _ => 1)). unfold quad_form in Hpsd.
      rewrite <- Hsq, H1 in Hpsd. simpl in Hpsd. lra. }
    nra.
  - destruct Hq as [->|]; [|contradiction].
    specialize (Hpsd x). unfold quad_form in Hpsd. rewrite <- Hsq in Hpsd.
    erewrite rsum_ext; [exact Hpsd|].
    intros i Hi. apply rsum_ext. intros j Hj.
    rewrite !bidx_lt by assumption. reflexivity.
Qed.

Lemma bidx_bound (n q i : nat) :
  q = n \/ n = 1%nat -> (i < q)%nat -> (bidx n i < n)%nat.
Proof.
  intros Hq Hi. unfold bidx.
  destruct (n =? 1)%nat eqn:E; [apply Nat.eqb_eq in E; lia|].
  apply Nat.eqb_neq in E. lia.
Qed.

Lemma np_add_sym_psd (a b r : ndarray R) :
  sym_psd_array a -> sym_psd_array b -> np_add a b = Ok r -> sym_psd_array r.
Proof.
  intros Ha Hb. unfold np_add, np_binop.
  pose proof Ha as ((Hasq & Hasym) & _). pose proof Hb as ((Hbsq & Hbsym) & _).
  rewrite <- Hasq, <- Hbsq.
  destruct (broadcast_dim (nrows a) (nrows b)) as [q|] eqn:E; [|discriminate].
  intros [= <-]. apply broadcast_dim_cases in E. destruct E as (Hqa & Hqb).
  split.
  - split; [reflexivity|]. simpl. intros i j Hi Hj.
    rewrite Hasym, Hbsym by eauto using bidx_bound. reflexivity.
  - intros x. unfold quad_form. simpl.
    pose proof (broadcast_quad_nonneg a q x Ha Hqa) as H1.
    pose proof (broadcast_quad_nonneg b q x Hb Hqb) as H2.
    rewrite <- Hasq in H1. rewrite <- Hbsq in H2.
    erewrite rsum_ext.
    + rewrite rsum_plus. apply Rplus_le_le_0_compat; [exact H1 | exact H2].
    + intros i _. simpl. rewrite <- rsum_plus. apply rsum_ext. intros j _. lra.
Qed.

Lemma py_for_add_sym_psd (ys : list (ndarray R)) :
  Forall sym_psd_array ys ->
  forall acc v, sym_psd_array acc ->
    py_for py_add (map NdArray ys) (NdArray acc) = Ok v -> sym_psd v.
Proof.
  induction 1 as [|y ys Hy _ IH]; intros acc v Hacc; simpl.
  - intros [= <-]. exact Hacc.
  - destruct (np_add acc y) as [r|e] eqn:E; simpl; [|discriminate].
    intros Hv. eapply IH; [|exact Hv]. exact (np_add_sym_psd acc y r Hacc Hy E).
Qed.

Lemma homog_gram_sym_psd (h : bool) (layer : list (ndarray R)) :
  Forall sym_psd_array (map gram (map (homog_array h) layer)).
Proof. rewrite !Forall_map. apply Forall_forall. intros b _. apply gram_sym_psd. Qed.

Lemma layer_sumsq_sym_psd (h : bool) (layer : list (ndarray R)) (n : nat) (v : pyvalue) :
  layer <> [] -> (0 < n)%nat ->
  layer_sumsq (if h then append_homog_coord else identity) n layer = Ok v ->
  sym_psd v.
Proof.
  intros Hne Hn. unfold layer_sumsq.
  rewrite (py_map_total _ (homog_array h)) by apply homog_ok. simpl.
  rewrite (py_map_total _ gram) by apply sumsq_ok. simpl.
  pose proof (homog_gram_sym_psd h layer) as HF.
  destruct layer as [|b layer]; [congruence|]. simpl in *.
  unfold py_sum. simpl.
  destruct (py_for py_add _ _) as [total|e] eqn:E; simpl; [|discriminate].
  apply py_for_add_sym_psd in E.
  - destruct total as [|a|]; simpl in E; try contradiction.
    simpl. destruct (n =? 0)%nat eqn:E0; [apply Nat.eqb_eq in E0; lia|].
    intros [= <-]. simpl.
    apply (np_map_scale_sym_psd _ (/ INR n)); [intros; unfold Rdiv; lra | | exact E].
    left. apply Rinv_0_lt_compat, lt_0_INR. exact Hn.
  - exact (Forall_inv_tail HF).
  - apply (np_map_scale_sym_psd _ 1); [intros; lra | lra | exact (Forall_inv HF)].
Qed.

Lemma py_map_Forall {A B : Type} (f : A -> result B) (P : A -> Prop) (Q : B -> Prop)
    (l : list A) (ys : list B) :
  (forall x y, P x -> f x = Ok y -> Q y) ->
  Forall P l -> py_map f l = Ok ys -> Forall Q ys.
Proof.
  intros Hf HP. revert ys.
  induction HP as [|x l Hx _ IH]; intros ys; simpl.
  - intros [= <-]. constructor.
  - destruct (f x) as [y|e] eqn:E; simpl; [|discriminate].
    destruct (py_map f l) as [ys'|e]; simpl; [|discriminate].
    intros [= <-]. constructor; eauto.
Qed.

Lemma estimate_sym_psd (all_samples : list (list (ndarray R))) (h : bool)
    (first : list (ndarray R)) (estimates : list pyvalue) :
  py_first all_samples = Ok first ->
  (0 < total_rows first)%nat ->
  Forall (fun layer => layer <> []) all_samples ->
  estimate_block_kron_factors all_samples h = Ok estimates ->
  Forall sym_psd estimates.
Proof.
  intros Hfirst Hn Hne. unfold estimate_block_kron_factors.
  rewrite Hfirst. simpl.
  apply py_map_Forall with (P := fun layer => layer <> []); [|exact Hne].
  intros layer v Hl. apply layer_sumsq_sym_psd; assumption.
Qed.

Lemma update_sym_psd (eps : R) (old new v : pyvalue) :
  0 <= eps <= 1 -> sym_psd old -> sym_psd new ->
  update eps old new = Ok v -> sym_psd v.
Proof.
  intros Heps Ho Hn.
  destruct old as [|o|]; simpl in Ho; try contradiction.
  destruct new as [|n|]; simpl in Hn; try contradiction.
  unfold update. simpl.
  destruct (np_add _ _) as [r|e] eqn:E; simpl; [|discriminate].
  intros [= <-]. simpl.
  eapply np_add_sym_psd; [| |exact E].
  - apply (np_map_scale_sym_psd _ eps); [reflexivity | lra | exact Ho].
  - apply (np_map_scale_sym_psd _ (1 - eps)); [reflexivity | lra | exact Hn].
Qed.

Lemma map2_update_sym_psd (eps : R) (olds news vs : list pyvalue) :
  0 <= eps <= 1 -> Forall sym_psd olds -> Forall sym_psd news ->
  py2_map2 (update eps) olds news = Ok vs -> Forall sym_psd vs.
Proof.
  intros Heps Ho. revert news vs.
  induction Ho as [|old olds Hold _ IH]; intros [|new news] vs Hn; simpl;
    try discriminate.
  - intros [= <-]. constructor.
  - destruct (update eps old new) as [v|e] eqn:E; simpl; [|discriminate].
    destruct (py2_map2 (update eps) olds news) as [vs'|e] eqn:E'; simpl; [|discriminate].
    intros [= <-]. constructor.
    + exact (update_sym_psd eps old new _ Heps Hold (Forall_inv Hn) E).
    + exact (IH news vs' (Forall_inv_tail Hn) E').
Qed.

Lemma init_sym_psd (layer_sizes : list nat) :
  Forall sym_psd (fst (init_factor_estimates layer_sizes)) /\
  Forall sym_psd (snd (init_factor_estimates layer_sizes)).
Proof.
  unfold init_factor_estimates. simpl.
  split; rewrite !Forall_map; apply Forall_forall; intros n _; apply eye_sym_psd.
Qed.

(** C5, as the code has it.  The matrices of [init_factor_estimates] are
    symmetric positive semi-definite; so is every value returned by
    [estimate_block_kron_factors] when the first layer holds at least one
    sample row and every layer at least one batch (and it does return on
    layers with batches of one width); and for [eps] in [[0, 1]]
    [update_factor_estimates] on such samples maps symmetric positive
    semi-definite factors to symmetric positive semi-definite factors. *)
Theorem kron_factors_sym_psd :
  (forall layer_sizes,
     Forall sym_psd (fst (init_factor_estimates layer_sizes)) /\
     Forall sym_psd (snd (init_factor_estimates layer_sizes))) /\
  (forall all_samples append_homog first,
     py_first all_samples = Ok first ->
     (0 < total_rows first)%nat ->
     Forall (fun layer => layer <> []) all_samples ->
     (forall estimates,
        estimate_block_kron_factors all_samples append_homog = Ok estimates ->
        Forall sym_psd estimates) /\
     (Forall (well_shaped append_homog) all_samples ->
      exists estimates,
        estimate_block_kron_factors all_samples append_homog = Ok estimates)) /\
  (forall As Gs a_samples g_samples eps first_a first_g As' Gs',
     0 <= eps <= 1 ->
     Forall sym_psd As -> Forall sym_psd Gs ->
     py_first a_samples = Ok first_a -> (0 < total_rows first_a)%nat ->
     Forall (fun layer => layer <> []) a_samples ->
     py_first g_samples = Ok first_g -> (0 < total_rows first_g)%nat ->
     Forall (fun layer => layer <> []) g_samples ->
     update_factor_estimates (As, Gs) (a_samples, g_samples) eps = Ok (As', Gs') ->
     Forall sym_psd As' /\ Forall sym_psd Gs').
Proof.
  split; [exact init_sym_psd|]. split.
  - intros all_samples h first Hfirst Hn Hne. split.
    + intros estimates. now apply estimate_sym_psd with (first := first).
    + intros Hws.
      destruct (estimate_ok_second_moment all_samples h first Hfirst Hn Hws)
        as (estimates & He & _).
      exists estimates. exact He.
  - intros As Gs a_samples g_samples eps fa fg As' Gs' Heps HAs HGs Hfa Hna Hnea
      Hfg Hng Hneg.
    unfold update_factor_estimates.
    destruct (estimate_block_kron_factors a_samples true) as [Ahats|e] eqn:EA;
      simpl; [|discriminate].
    destruct (estimate_block_kron_factors g_samples false) as [Ghats|e] eqn:EG;
      simpl; [|discriminate].
    destruct (py2_map2 (update eps) As Ahats) as [As1|e] eqn:E1; simpl; [|discriminate].
    destruct (py2_map2 (update eps) Gs Ghats) as [Gs1|e] eqn:E2; simpl; [|discriminate].
    intros [= <- <-]. split.
    + eapply map2_update_sym_psd; [exact Heps | exact HAs | | exact E1].
      exact (estimate_sym_psd a_samples true fa Ahats Hfa Hna Hnea EA).
    + eapply map2_update_sym_psd; [exact Heps | exact HGs | | exact E2].
      exact (estimate_sym_psd g_samples false fg Ghats Hfg Hng Hneg EG).
Qed.

(** C5 as stated fails: on a first layer whose only batch has no rows the
    division by the sample count leaves an array without a finite entry,
    which is not a positive semi-definite matrix. *)
Lemma estimate_not_sym_psd_counterexample :
  estimate_block_kron_factors [[batch_0x1]] false = Ok [NonFinite 1 1] /\
  ~ Forall sym_psd [NonFinite 1 1].
Proof.
  split; [reflexivity|].
  intros H. apply Forall_inv in H. exact H.
Qed.

(** ** Shapes of the factor estimates (C4) *)

Lemma init_factor_estimates_identities (layer_sizes : list nat) :
  Forall2 is_identity (fst (init_factor_estimates layer_sizes))
          (map (fun n => n + 1)%nat (removelast layer_sizes)) /\
  Forall2 is_identity (snd (init_factor_estimates layer_sizes)) (tl layer_sizes).
Proof.
  unfold init_factor_estimates. simpl. split.
  - induction (map (fun n => (n + 1)%nat) (removelast layer_sizes)) as [|n l IH];
      simpl; constructor; [|exact IH].
    split; [reflexivity | reflexivity].
  - induction (tl layer_sizes) as [|n l IH]; simpl; constructor; [|exact IH].
    split; [reflexivity | reflexivity].
Qed.

Lemma layers_one_batch_shapes (l : list (ndarray R)) (h : bool) (n : nat) :
  exists estimates,
    py_map (layer_sumsq (if h then append_homog_coord else identity) n) (one_batch l)
    = Ok estimates /\
    map value_shape estimates =
    map (fun b => Some (ncols (homog_array h b), ncols (homog_array h b))) l.
Proof.
  induction l as [|b l (vs & Hvs & Hsh)].
  - exists []. split; reflexivity.
  - assert (Hb : exists v,
               layer_sumsq (if h then append_homog_coord else identity) n [b] = Ok v /\
               value_shape v = Some (ncols (homog_array h b), ncols (homog_array h b))).
    { unfold layer_sumsq. simpl py_map. rewrite homog_ok. simpl. rewrite sumsq_ok. simpl.
      unfold py_sum. simpl.
      destruct (n =? 0)%nat; eexists; split; reflexivity. }
    destruct Hb as (v & Hv & Hvsh).
    exists (v :: vs). split.
    + unfold one_batch in *. simpl. rewrite Hv. simpl. rewrite Hvs. reflexivity.
    + simpl. rewrite Hvsh, Hsh. reflexivity.
Qed.

Lemma estimate_one_batch_shapes (batches : list (ndarray R)) (h : bool) :
  batches <> [] ->
  exists estimates,
    estimate_block_kron_factors (one_batch batches) h = Ok estimates /\
    map value_shape estimates =
    map (fun b => Some (ncols (homog_array h b), ncols (homog_array h b))) batches.
Proof.
  intros Hne. unfold estimate_block_kron_factors.
  destruct batches as [|b0 bs]; [congruence|].
  apply (layers_one_batch_shapes (b0 :: bs) h).
Qed.

Lemma update_shape (eps : R) (o : ndarray R) (new : pyvalue) :
  value_shape new = Some (shape o) ->
  exists v, update eps (NdArray o) new = Ok v /\ value_shape v = Some (shape o).
Proof.
  destruct new as [x|n|r c]; simpl; [discriminate| |].
  - intros Hs. assert (Hs' : shape o = shape n) by (unfold shape in *; congruence).
    rewrite (update_arrays eps o n Hs'). eexists. split; reflexivity.
  - unfold shape. intros [= -> ->]. unfold update. simpl.
    rewrite !broadcast_dim_same. eexists. split; reflexivity.
Qed.

Lemma map2_update_shapes (eps : R) (olds news : list pyvalue) :
  Forall2 (fun old new => exists o, old = NdArray o /\ value_shape new = Some (shape o))
          olds news ->
  exists vs, py2_map2 (update eps) olds news = Ok vs /\
             map value_shape vs = map value_shape olds.
Proof.
  induction 1 as [|old new olds news (o & -> & Hs) _ (vs & Hvs & Hsh)].
  - exists []. split; reflexivity.
  - destruct (update_shape eps o new Hs) as (v & Hv & Hvs').
    exists (v :: vs). split.
    + simpl py2_map2. rewrite Hv. simpl. rewrite Hvs. reflexivity.
    + simpl. rewrite Hvs', Hsh. reflexivity.
Qed.

Lemma eye_vs_estimates (widths : list nat) (estimates : list pyvalue) :
  map value_shape estimates = map (fun w => Some (w, w)) widths ->
  Forall2 (fun old new => exists o, old = NdArray o /\ value_shape new = Some (shape o))
          (map (fun n => NdArray (np_eye n)) widths) estimates.
Proof.
  revert estimates. induction widths as [|w ws IH]; intros [|v vs]; simpl;
    try discriminate.
  - constructor.
  - intros [= Hv Hvs]. constructor; [|now apply IH].
    exists (np_eye w). split; [reflexivity | exact Hv].
Qed.

Lemma update_one_batch_shapes (layer_sizes : list nat)
    (a_batches g_batches : list (ndarray R)) (eps : R) :
  (2 <= length layer_sizes)%nat ->
  map ncols a_batches = removelast layer_sizes ->
  map ncols g_batches = tl layer_sizes ->
  exists As' Gs',
    update_factor_estimates (init_factor_estimates layer_sizes)
      (one_batch a_batches, one_batch g_batches) eps = Ok (As', Gs') /\
    map value_shape As' = map (fun n => Some (n + 1, n + 1)%nat) (removelast layer_sizes) /\
    map value_shape Gs' = map (fun n => Some (n, n)) (tl layer_sizes).
Proof.
  intros Hlen Ha Hg.
  assert (Hane : a_batches <> []).
  { intros ->. simpl in Ha. destruct layer_sizes as [|x [|y l]]; simpl in *; try lia.
    discriminate. }
  assert (Hgne : g_batches <> []).
  { intros ->. simpl in Hg. destruct layer_sizes as [|x [|y l]]; simpl in *; try lia.
    discriminate. }
  destruct (estimate_one_batch_shapes a_batches true Hane) as (Ahats & HA & HAs).
  destruct (estimate_one_batch_shapes g_batches false Hgne) as (Ghats & HG & HGs).
  unfold update_factor_estimates, init_factor_estimates.
  rewrite HA. simpl mbind at 1. cbv beta. rewrite HG. simpl mbind at 1. cbv beta.
  destruct (map2_update_shapes eps
              (map (fun n => NdArray (np_eye n))
                   (map (fun n => (n + 1)%nat) (removelast layer_sizes))) Ahats)
    as (As' & HAs' & HshA).
  { apply eye_vs_estimates. rewrite HAs, <- Ha, !map_map. reflexivity. }
  destruct (map2_update_shapes eps (map (fun n => NdArray (np_eye n)) (tl layer_sizes)) Ghats)
    as (Gs' & HGs' & HshG).
  { apply eye_vs_estimates. rewrite HGs, <- Hg, !map_map. reflexivity. }
  exists As', Gs'. rewrite HAs'. simpl mbind at 1. cbv beta. rewrite HGs'.
  split; [reflexivity|].
  rewrite HshA, HshG, !map_map. split; reflexivity.
Qed.

(** C4. For the layer sizes [[784, 200, 100, 10]], [init_factor_estimates]
    returns the identity matrices of sizes 785, 201, 101 as activation
    factors and of sizes 200, 100, 10 as gradient factors; in general the
    identities of size [layer_width + 1] and [layer_width]; and one call
    of [update_factor_estimates] with one batch of samples per layer
    returns factors of the same shapes. *)
Theorem init_factor_estimates_shapes :
  (Forall2 is_identity (fst (init_factor_estimates [784; 200; 100; 10]%nat))
           [785; 201; 101]%nat /\
   Forall2 is_identity (snd (init_factor_estimates [784; 200; 100; 10]%nat))
           [200; 100; 10]%nat) /\
  (forall layer_sizes,
     Forall2 is_identity (fst (init_factor_estimates layer_sizes))
             (map (fun n => n + 1)%nat (removelast layer_sizes)) /\
     Forall2 is_identity (snd (init_factor_estimates layer_sizes)) (tl layer_sizes)) /\
  (forall a_batches g_batches eps,
     map ncols a_batches = [784; 200; 100]%nat ->
     map ncols g_batches = [200; 100; 10]%nat ->
     exists As' Gs',
       update_factor_estimates (init_factor_estimates [784; 200; 100; 10]%nat)
         (one_batch a_batches, one_batch g_batches) eps = Ok (As', Gs') /\
       map value_shape As' = [Some (785, 785); Some (201, 201); Some (101, 101)]%nat /\
       map value_shape Gs' = [Some (200, 200); Some (100, 100); Some (10, 10)]%nat) /\
  (forall layer_sizes a_batches g_batches eps,
     (2 <= length layer_sizes)%nat ->
     map ncols a_batches = removelast layer_sizes ->
     map ncols g_batches = tl layer_sizes ->
     exists As' Gs',
       update_factor_estimates (init_factor_estimates layer_sizes)
         (one_batch a_batches, one_batch g_batches) eps = Ok (As', Gs') /\
       map value_shape As' = map value_shape (fst (init_factor_estimates layer_sizes)) /\
       map value_shape Gs' = map value_shape (snd (init_factor_estimates layer_sizes))).
Proof.
  split; [exact (init_factor_estimates_identities [784; 200; 100; 10]%nat)|].
  split; [exact init_factor_estimates_identities|]. split.
  - intros a_batches g_batches eps Ha Hg.
    apply (update_one_batch_shapes [784; 200; 100; 10]%nat a_batches g_batches eps);
      [simpl; lia | exact Ha | exact Hg].
  - intros layer_sizes a_batches g_batches eps Hlen Ha Hg.
    destruct (update_one_batch_shapes layer_sizes a_batches g_batches eps Hlen Ha Hg)
      as (As' & Gs' & Hu & HA & HG).
    exists As', Gs'. split; [exact Hu|].
    rewrite HA, HG. unfold init_factor_estimates. simpl.
    rewrite !map_map. split; reflexivity.
Qed.

(** ** Sampling from log-probabilities (C3) *)

Lemma Rgtb_true (x y : R) : Rgtb x y = true <-> x > y.
Proof. unfold Rgtb. destruct (Rgt_dec x y); split; intros; try discriminate; tauto. Qed.

Lemma Rgtb_false (x y : R) : Rgtb x y = false <-> x <= y.
Proof.
  unfold Rgtb. destruct (Rgt_dec x y); split; intros;
    try discriminate; try reflexivity; lra.
Qed.

Lemma broadcast_dim_one_l (n : nat) : broadcast_dim 1 n = Some n.
Proof.
  unfold broadcast_dim.
  destruct (1 =? n)%nat eqn:E; [apply Nat.eqb_eq in E; now subst|].
  reflexivity.
Qed.

(** The number of indices below [d] that satisfy a downward-closed
    predicate is the first index that fails it. *)
Lemma count_prefix (p : nat -> bool) (d : nat) :
  (forall j j', (j <= j')%nat -> (j' < d)%nat -> p j' = true -> p j = true) ->
  let k := length (List.filter p (seq 0 d)) in
  (k <= d)%nat /\ (forall j, (j < k)%nat -> p j = true) /\ ((k < d)%nat -> p k = false).
Proof.
  induction d as [|d IH]; intros Hmono; cbv zeta.
  - simpl. repeat split; intros; lia.
  - rewrite seq_S, List.filter_app, length_app. simpl.
    destruct IH as (Hle & Htrue & Hfalse).
    { intros j j' Hj Hj'. apply Hmono; lia. }
    set (k := length (List.filter p (seq 0 d))) in *.
    destruct (p d) eqn:Ed; simpl.
    + assert (Hk : k = d).
      { destruct (Nat.eq_dec k d) as [|Hne]; [assumption|].
        assert (Hlt : (k < d)%nat) by lia.
        specialize (Hfalse Hlt).
        rewrite (Hmono k d) in Hfalse; [discriminate | lia | lia | exact Ed]. }
      rewrite Hk. repeat split; try lia.
      intros j Hj. apply (Hmono j d); [lia | lia | exact Ed].
    + rewrite Nat.add_0_r. repeat split; try lia; [exact Htrue|].
      intros Hlt. destruct (Nat.eq_dec k d) as [->|Hne]; [exact Ed|].
      apply Hfalse. lia.
Qed.

Lemma cum_prob_mono (logprobs : ndarray R) (i j j' : nat) :
  (j <= j')%nat -> cum_prob logprobs i j <= cum_prob logprobs i j'.
Proof.
  induction 1 as [|j' _ IH]; [lra|].
  unfold cum_prob in *. simpl in *.
  pose proof (exp_pos (item logprobs i (S j'))). lra.
Qed.

Lemma chosen_bin_spec (logprobs : ndarray R) (g : rng_state) (i : nat) :
  uniform01 g -> normalized logprobs -> (i < nrows logprobs)%nat ->
  (chosen_bin logprobs g i < ncols logprobs)%nat /\
  g i <= cum_prob logprobs i (chosen_bin logprobs g i) /\
  forall j, (j < chosen_bin logprobs g i)%nat -> cum_prob logprobs i j < g i.
Proof.
  intros Hg Hn Hi. unfold chosen_bin.
  destruct (count_prefix (fun j => Rgtb (g i) (cum_prob logprobs i j)) (ncols logprobs))
    as (Hle & Htrue & Hfalse).
  { intros j j' Hj _. rewrite !Rgtb_true.
    pose proof (cum_prob_mono logprobs i j j' Hj). lra. }
  set (k := length (List.filter _ _)) in *.
  specialize (Hn i Hi). specialize (Hg i).
  assert (Hlt : (k < ncols logprobs)%nat).
  { destruct (Nat.eq_dec k (ncols logprobs)) as [Hk|]; [|lia].
    destruct (ncols logprobs) as [|d] eqn:Ed.
    - simpl in Hn. lra.
    - specialize (Htrue d). rewrite Rgtb_true in Htrue.
      unfold cum_prob in Htrue. rewrite Hn in Htrue.
      assert (g i > 1) by (apply Htrue; lia). lra. }
  split; [exact Hlt|]. split.
  - apply Rgtb_false, Hfalse, Hlt.
  - intros j Hj. specialize (Htrue j Hj). rewrite Rgtb_true in Htrue. lra.
Qed.

(** The mask [npr.rand(N, 1) > cumvals] counts, in row [i], the chosen
    bin. *)
Lemma sample_indices (logprobs : ndarray R) (g : rng_state) :
  exists mask,
    np_gt (fst (npr_rand (nrows logprobs) 1 g)) (np_cumsum1 (np_exp logprobs)) = Ok mask /\
    forall i, (i < nrows logprobs)%nat -> np_count1 mask i = chosen_bin logprobs g i.
Proof.
  unfold np_gt, np_binop. simpl.
  rewrite broadcast_dim_same, broadcast_dim_one_l.
  eexists. split; [reflexivity|].
  intros i Hi. unfold np_count1, chosen_bin. simpl.
  f_equal. apply List.filter_ext_in. intros j Hj. apply in_seq in Hj.
  rewrite (bidx_lt (nrows logprobs) i), !(bidx_lt (ncols logprobs) j) by lia.
  replace (i * 1 + bidx 1 j)%nat with i by (unfold bidx; simpl; lia).
  reflexivity.
Qed.

Lemma np_take_rows_ok {T : Type} (a : ndarray T) (n : nat) (indices : nat -> nat) :
  (forall i, (i < n)%nat -> (indices i < nrows a)%nat) ->
  np_take_rows a n indices = Ok (mk_array n (ncols a) (fun i j => item a (indices i) j)).
Proof.
  intros Hi. unfold np_take_rows.
  replace (forallb _ _) with true; [reflexivity|].
  symmetry. apply forallb_forall. intros i Hin. apply in_seq in Hin.
  apply Nat.ltb_lt, Hi. lia.
Qed.

Lemma sample_discrete_from_log_spec (logprobs : ndarray R) (g : rng_state) :
  uniform01 g -> normalized logprobs ->
  exists r,
    fst (sample_discrete_from_log logprobs g) = Ok r /\
    shape r = shape logprobs /\
    forall i, (i < nrows logprobs)%nat ->
      one_hot_row r i (chosen_bin logprobs g i).
Proof.
  intros Hg Hn. unfold sample_discrete_from_log.
  destruct (sample_indices logprobs g) as (mask & Hmask & Hidx).
  simpl in *. rewrite Hmask. simpl.
  rewrite np_take_rows_ok.
  - eexists. split; [reflexivity|]. split; [reflexivity|].
    intros i Hi. simpl.
    destruct (chosen_bin_spec logprobs g i Hg Hn Hi) as (Hlt & _).
    split; [simpl; exact Hlt|].
    intros j Hj. simpl. rewrite (Hidx i Hi), Nat.eqb_sym. reflexivity.
  - intros i Hi. simpl. rewrite (Hidx i Hi).
    apply (chosen_bin_spec logprobs g i Hg Hn Hi).
Qed.

(** C3, as the code has it.  For an [N x D] array of normalised
    log-probabilities and draws in [[0, 1)], [sample_discrete_from_log]
    returns an [N x D] array with exactly one 1 per row and zeros
    elsewhere; the 1 of a row is in the first bin whose cumulative
    probability is at least the draw of that row (every earlier bin is
    strictly below the draw); the generator has advanced by [N] draws. *)
Theorem sample_discrete_from_log_one_hot (logprobs : ndarray R) (g : rng_state) :
  uniform01 g -> normalized logprobs ->
  exists r,
    fst (sample_discrete_from_log logprobs g) = Ok r /\
    shape r = shape logprobs /\
    (forall i, (i < nrows logprobs)%nat ->
       exists k,
         one_hot_row r i k /\
         g i <= cum_prob logprobs i k /\
         forall j, (j < k)%nat -> cum_prob logprobs i j < g i) /\
    forall k, snd (sample_discrete_from_log logprobs g) k = g (nrows logprobs + k)%nat.
Proof.
  intros Hg Hn.
  destruct (sample_discrete_from_log_spec logprobs g Hg Hn) as (r & Hr & Hs & Hrow).
  exists r. split; [exact Hr|]. split; [exact Hs|]. split.
  - intros i Hi. exists (chosen_bin logprobs g i).
    split; [exact (Hrow i Hi)|].
    apply (chosen_bin_spec logprobs g i Hg Hn Hi).
  - intros k. unfold sample_discrete_from_log. simpl.
    rewrite Nat.mul_1_r. reflexivity.
Qed.

Lemma exp_ln_half : exp (ln (1 / 2)) = 1 / 2.
Proof. apply exp_ln. lra. Qed.

Lemma rng_halves_uniform : uniform01 rng_halves.
Proof. intros k. unfold rng_halves. lra. Qed.

Lemma logprobs_halves_normalized : normalized logprobs_halves.
Proof. intros i _. simpl. rewrite exp_ln_half. lra. Qed.

(** C3 as stated fails on a tie: with two bins of probability 1/2 and the
    draw 1/2, the first bin whose cumulative probability exceeds the draw
    is bin 1, but the 1 is placed in bin 0. *)
Lemma sample_discrete_from_log_tie_counterexample :
  exists r,
    fst (sample_discrete_from_log logprobs_halves rng_halves) = Ok r /\
    item r 0%nat 0%nat = 1 /\ item r 0%nat 1%nat = 0 /\
    ~ rng_halves 0%nat < cum_prob logprobs_halves 0 0 /\
    rng_halves 0%nat < cum_prob logprobs_halves 0 1.
Proof.
  destruct (sample_discrete_from_log_spec logprobs_halves rng_halves
              rng_halves_uniform logprobs_halves_normalized) as (r & Hr & Hs & Hrow).
  assert (H0 : (0 < nrows logprobs_halves)%nat) by (simpl; lia).
  destruct (chosen_bin_spec logprobs_halves rng_halves 0 rng_halves_uniform
              logprobs_halves_normalized H0) as (_ & _ & Hbelow).
  assert (Hk : chosen_bin logprobs_halves rng_halves 0 = 0%nat).
  { destruct (chosen_bin logprobs_halves rng_halves 0) as [|k]; [reflexivity|].
    specialize (Hbelow 0%nat ltac:(lia)).
    unfold cum_prob, rng_halves in Hbelow. simpl in Hbelow.
    rewrite exp_ln_half in Hbelow. lra. }
  specialize (Hrow 0%nat H0). rewrite Hk in Hrow. destruct Hrow as (_ & Hrow).
  assert (Hc : ncols r = 2%nat) by (unfold shape in Hs; simpl in Hs; congruence).
  exists r. split; [exact Hr|].
  split; [apply (Hrow 0%nat); lia|].
  split; [apply (Hrow 1%nat); lia|].
  unfold cum_prob, rng_halves. simpl. rewrite exp_ln_half. split; lra.
Qed.

(** ** The augmented forward pass (C6) *)

Lemma py_last_app {A : Type} (l : list A) (x : A) : py_last (l ++ [x]) = Ok x.
Proof. unfold py_last. rewrite rev_app_distr. reflexivity. Qed.

Lemma py_for_cons {S X : Type} (body : S -> X -> result S) (x : X) (l : list X) (s : S) :
  py_for body (x :: l) s = s' ← body s x; py_for body l s'.
Proof. reflexivity. Qed.

Section ForwardLoop.
Context {T : Type} `{Scalar T}.

Lemma forward_step_pre (acts : list (ndarray T)) (a W : ndarray T) (b : ndarray1 T)
    (extra_bias : ndarray T) (s0 : option (ndarray T)) :
  forward_step (acts ++ [a], s0) ((W, b), extra_bias) =
  s ← pre_activation a W b extra_bias;
  Ok ((acts ++ [a]) ++ [np_tanh s], Some s).
Proof.
  unfold forward_step, pre_activation. rewrite py_last_app. simpl.
  destruct (np_dot a W) as [d|e]; simpl; [|reflexivity].
  destruct (np_add d (atleast_2d b)) as [d1|e]; simpl; [|reflexivity].
  destruct (np_add d1 extra_bias) as [s|e]; reflexivity.
Qed.

(** The loop computes [run_layers]. *)
Lemma forward_loop (layers : list ((ndarray T * ndarray1 T) * ndarray T)) :
  forall (acts : list (ndarray T)) (a : ndarray T) (s0 : option (ndarray T)),
    py_for forward_step layers (acts ++ [a], s0) =
    '(outs, last_s) ← run_layers a layers;
    Ok (acts ++ [a] ++ outs,
        match last_s with Some s => Some s | None => s0 end).
Proof.
  induction layers as [|[[W b] eb] rest IH]; intros acts a s0.
  - simpl. reflexivity.
  - rewrite py_for_cons, forward_step_pre. simpl run_layers.
    destruct (pre_activation a W b eb) as [s|e]; simpl; [|reflexivity].
    rewrite IH.
    destruct (run_layers (np_tanh s) rest) as [[outs last_s]|e]; simpl; [|reflexivity].
    rewrite <- !app_assoc. simpl.
    destruct last_s; reflexivity.
Qed.

Lemma neural_net_predict_and_activations_run
    (extra_biases : list (ndarray T)) (params : list (ndarray T * ndarray1 T))
    (inputs : ndarray T) :
  neural_net_predict_and_activations extra_biases params inputs =
  '(outs, last_s) ← run_layers inputs (py_zip params extra_biases);
  match last_s with
  | None => Raise UnboundLocalError
  | Some s =>
      lse ← logsumexp s;
      logprobs ← np_sub s lse;
      Ok (logprobs, removelast (inputs :: outs))
  end.
Proof.
  unfold neural_net_predict_and_activations.
  rewrite (forward_loop _ [] inputs None). simpl.
  destruct (run_layers inputs (py_zip params extra_biases)) as [[outs last_s]|e];
    simpl; [|reflexivity].
  destruct last_s; reflexivity.
Qed.

Lemma run_layers_inputs (layers : list ((ndarray T * ndarray1 T) * ndarray T)) :
  forall a outs last_s,
    layers <> [] ->
    run_layers a layers = Ok (outs, last_s) ->
    layer_inputs a layers (removelast (a :: outs)) /\
    length outs = length layers /\
    exists s, last_s = Some s.
Proof.
  induction layers as [|[[W b] eb] rest IH]; intros a outs last_s Hne; [congruence|].
  simpl run_layers.
  destruct (pre_activation a W b eb) as [s|e] eqn:Es; simpl; [|discriminate].
  destruct (run_layers (np_tanh s) rest) as [[outs' last']|e] eqn:Er; simpl;
    [|discriminate].
  intros [= <- <-].
  destruct rest as [|layer rest'].
  - simpl in Er. injection Er as <- <-. simpl. rewrite Es.
    split; [|split; [reflexivity | eauto]].
    split; [reflexivity|]. exists s. split; reflexivity.
  - destruct (IH (np_tanh s) outs' last' ltac:(discriminate) Er) as (Hin & Hlen & s' & ->).
    split; [|split; [simpl; now rewrite Hlen | eauto]].
    change (removelast (a :: np_tanh s :: outs'))
      with (a :: removelast (np_tanh s :: outs')).
    simpl layer_inputs. rewrite Es.
    split; [reflexivity|]. exists s. split; [reflexivity | exact Hin].
Qed.

End ForwardLoop.

Section ForwardShapes.
Context {T : Type} `{Scalar T}.

Lemma pre_activation_conform (a W : ndarray T) (b : ndarray1 T) (extra_bias : ndarray T) :
  ncols a = nrows W -> size1 b = ncols W ->
  shape extra_bias = (nrows a, ncols W) ->
  exists s, pre_activation a W b extra_bias = Ok s /\
            nrows s = nrows a /\ ncols s = ncols W.
Proof.
  intros Ha Hb He. unfold shape in He. injection He as Her Hec.
  unfold pre_activation, np_dot. rewrite Ha, Nat.eqb_refl. simpl.
  unfold np_add, np_binop. simpl.
  rewrite broadcast_dim_one_r, Hb, broadcast_dim_same. simpl.
  rewrite Her, Hec, !broadcast_dim_same. simpl.
  eexists. split; [reflexivity|]. split; reflexivity.
Qed.

Lemma run_layers_conform (layers : list ((ndarray T * ndarray1 T) * ndarray T)) :
  forall a,
    layers_conform (nrows a) (ncols a) layers ->
    exists outs last_s,
      run_layers a layers = Ok (outs, last_s) /\
      forall s, last_s = Some s ->
        nrows s = nrows a /\ ncols s = output_width (ncols a) layers.
Proof.
  induction layers as [|[[W b] eb] rest IH]; intros a Hc.
  - exists [], None. split; [reflexivity | discriminate].
  - simpl in Hc. destruct Hc as (HW & Hb & He & Hrest).
    destruct (pre_activation_conform a W b eb) as (s & Hs & Hsr & Hsc);
      [congruence | exact Hb | exact He |].
    destruct (IH (np_tanh s)) as (outs & last_s & Hrun & Hlast).
    { simpl. rewrite Hsr, Hsc. exact Hrest. }
    simpl run_layers. rewrite Hs. simpl. rewrite Hrun. simpl.
    eexists _, _. split; [reflexivity|].
    intros s' [= <-]. simpl output_width.
    destruct last_s as [s''|]; simpl.
    + destruct (Hlast s'' eq_refl) as (Hr & Hcw). simpl in Hr, Hcw.
      rewrite Hr, Hcw, Hsr, Hsc. split; reflexivity.
    + destruct rest as [|[[W' b'] eb'] rest'].
      * simpl. split; [exact Hsr | exact Hsc].
      * simpl in Hrun.
        destruct (pre_activation (np_tanh s) W' b' eb') as [s1|];
          simpl in Hrun; [|discriminate].
        destruct (run_layers (np_tanh s1) rest') as [[? ?]|];
          simpl in Hrun; discriminate.
Qed.

End ForwardShapes.

Lemma rsum_pos (n : nat) (f : nat -> R) :
  (0 < n)%nat -> (forall k, 0 < f k) -> 0 < s_sum n f.
Proof.
  intros Hn Hf. destruct n as [|n]; [lia|]. simpl.
  assert (0 <= s_sum n f) by (apply rsum_nonneg; intros; left; apply Hf).
  specialize (Hf n). lra.
Qed.

Lemma rsum_div (n : nat) (c : R) (f : nat -> R) :
  s_sum n (fun k => f k / c) = s_sum n f / c.
Proof. induction n as [|n IH]; simpl; [lra | rewrite IH; lra]. Qed.

(** Subtracting the log-sum-exp of each row normalises the row. *)
Lemma log_softmax_normalized (s : ndarray R) :
  (0 < ncols s)%nat ->
  exists lse logprobs,
    logsumexp s = Ok lse /\ np_sub s lse = Ok logprobs /\
    shape logprobs = shape s /\
    forall i, (i < nrows s)%nat ->
      s_sum (ncols logprobs) (fun j => exp (item logprobs i j)) = 1.
Proof.
  intros Hd. unfold logsumexp.
  destruct (ncols s =? 0)%nat eqn:E; [apply Nat.eqb_eq in E; lia|].
  eexists _, _. split; [reflexivity|].
  unfold np_sub, np_binop. simpl.
  rewrite broadcast_dim_same, broadcast_dim_one_r.
  split; [reflexivity|]. split; [reflexivity|].
  intros i Hi. simpl.
  set (S := s_sum (ncols s) (fun j => exp (item s i j))).
  assert (HS : 0 < S) by (apply rsum_pos; [exact Hd | intros; apply exp_pos]).
  rewrite (rsum_ext _ _ (fun j => exp (item s i j) / S)).
  - rewrite rsum_div. fold S. field. lra.
  - intros j Hj. rewrite (bidx_lt (nrows s) i), (bidx_lt (ncols s) j) by assumption.
    fold S. unfold Rminus. rewrite exp_plus, exp_Ropp, exp_ln by exact HS.
    reflexivity.
Qed.

Lemma length_py_zip {A B : Type} (l1 : list A) (l2 : list B) :
  length l1 = length l2 -> length (py_zip l1 l2) = length l1.
Proof.
  revert l2. induction l1 as [|x l1 IH]; intros [|y l2]; simpl; try discriminate; auto.
Qed.

Lemma length_removelast_cons {A : Type} (x : A) (l : list A) :
  length (removelast (x :: l)) = length l.
Proof.
  revert x. induction l as [|y l IH]; intros x; [reflexivity|].
  change (removelast (x :: y :: l)) with (x :: removelast (y :: l)).
  change (length (x :: removelast (y :: l))) with (S (length (removelast (y :: l)))).
  rewrite IH. reflexivity.
Qed.

Lemma forward_pass_spec
    (extra_biases : list (ndarray R)) (params : list (ndarray R * ndarray1 R))
    (inputs : ndarray R) :
  params <> [] ->
  length extra_biases = length params ->
  layers_conform (nrows inputs) (ncols inputs) (py_zip params extra_biases) ->
  (0 < output_width (ncols inputs) (py_zip params extra_biases))%nat ->
  exists logprobs activations,
    neural_net_predict_and_activations extra_biases params inputs
    = Ok (logprobs, activations) /\
    shape logprobs
    = (nrows inputs, output_width (ncols inputs) (py_zip params extra_biases)) /\
    (forall i, (i < nrows inputs)%nat ->
       s_sum (ncols logprobs) (fun j => exp (item logprobs i j)) = 1) /\
    length activations = length params /\
    layer_inputs inputs (py_zip params extra_biases) activations.
Proof.
  intros Hne Hlen Hc Hw.
  rewrite neural_net_predict_and_activations_run.
  destruct (run_layers_conform (py_zip params extra_biases) inputs Hc)
    as (outs & last_s & Hrun & Hlast).
  rewrite Hrun. simpl.
  assert (Hzne : py_zip params extra_biases <> []).
  { destruct params, extra_biases; simpl in *; congruence. }
  destruct (run_layers_inputs _ inputs outs last_s Hzne Hrun) as (Hin & Hl & s & ->).
  destruct (Hlast s eq_refl) as (Hsr & Hsc).
  destruct (log_softmax_normalized s) as (lse & logprobs & Hlse & Hsub & Hsh & Hnorm);
    [rewrite Hsc; exact Hw|].
  rewrite Hlse. simpl. rewrite Hsub. simpl.
  exists logprobs, (removelast (inputs :: outs)).
  split; [reflexivity|]. split; [|split; [|split]].
  - rewrite Hsh. unfold shape. now rewrite Hsr, Hsc.
  - intros i Hi. apply Hnorm. now rewrite Hsr.
  - rewrite length_removelast_cons, Hl, length_py_zip by congruence. reflexivity.
  - exact Hin.
Qed.

Lemma last_cons {A : Type} (x d : A) (l : list A) : List.last (x :: l) d = List.last l x.
Proof.
  revert x d. induction l as [|y l IH]; intros x d; [reflexivity|].
  change (List.last (x :: y :: l) d) with (List.last (y :: l) d).
  rewrite !IH. reflexivity.
Qed.

(** Running one more layer after the others. *)
Lemma run_layers_app {T : Type} `{Scalar T}
    (layers : list ((ndarray T * ndarray1 T) * ndarray T))
    (W : ndarray T) (b : ndarray1 T) (eb : ndarray T) :
  forall a,
    run_layers a (layers ++ [((W, b), eb)]) =
    '(outs, _) ← run_layers a layers;
    s ← pre_activation (last_input a outs) W b eb;
    Ok (outs ++ [np_tanh s], Some s).
Proof.
  induction layers as [|[[W0 b0] eb0] rest IH]; intros a.
  - simpl. destruct (pre_activation a W b eb) as [s|e]; reflexivity.
  - simpl app. simpl run_layers.
    destruct (pre_activation a W0 b0 eb0) as [s0|e]; simpl; [|reflexivity].
    rewrite IH.
    destruct (run_layers (np_tanh s0) rest) as [[outs last_s]|e];
      cbn [mbind result_bind]; [|reflexivity].
    unfold last_input. rewrite last_cons.
    destruct (pre_activation (List.last outs (np_tanh s0)) W b eb) as [s|e]; reflexivity.
Qed.

Lemma py_zip_app {A B : Type} (l1 l1' : list A) (l2 l2' : list B) :
  length l1 = length l2 ->
  py_zip (l1 ++ l1') (l2 ++ l2') = py_zip l1 l2 ++ py_zip l1' l2'.
Proof.
  revert l2. induction l1 as [|x l1 IH]; intros [|y l2]; simpl; try discriminate.
  - reflexivity.
  - intros [= Hl]. f_equal. now apply IH.
Qed.

(** The log-probabilities are the log-softmax of the pre-activation of
    the last layer. *)
Lemma final_layer_log_softmax
    (extra_biases : list (ndarray R)) (params : list (ndarray R * ndarray1 R))
    (inputs logprobs : ndarray R) (activations : list (ndarray R)) :
  params <> [] ->
  length extra_biases = length params ->
  neural_net_predict_and_activations extra_biases params inputs
  = Ok (logprobs, activations) ->
  exists front W b ebs eb s,
    params = front ++ [(W, b)] /\ extra_biases = ebs ++ [eb] /\
    pre_activation (List.last activations inputs) W b eb = Ok s /\
    log_softmax_of s logprobs.
Proof.
  intros Hne Hlen Hrun.
  destruct (exists_last Hne) as (front & [W b] & Hp).
  assert (Hebne : extra_biases <> []).
  { intros ->. destruct params; simpl in Hlen; congruence. }
  destruct (exists_last Hebne) as (ebs & eb & He).
  assert (Hlf : length front = length ebs).
  { rewrite Hp, He, !length_app in Hlen. simpl in Hlen. lia. }
  exists front, W, b, ebs, eb.
  rewrite neural_net_predict_and_activations_run in Hrun.
  rewrite Hp, He, (py_zip_app front [(W, b)] ebs [eb] Hlf) in Hrun.
  cbn [py_zip] in Hrun. rewrite run_layers_app in Hrun.
  destruct (run_layers inputs (py_zip front ebs)) as [[outs0 l0]|] eqn:E0;
    cbn [mbind result_bind] in Hrun; [|discriminate].
  destruct (pre_activation (last_input inputs outs0) W b eb) as [s|] eqn:Es;
    cbn [mbind result_bind] in Hrun; [|discriminate].
  unfold logsumexp in Hrun.
  destruct (ncols s =? 0)%nat eqn:Ec; cbn [mbind result_bind] in Hrun; [discriminate|].
  unfold np_sub, np_binop in Hrun. cbn [nrows ncols] in Hrun.
  rewrite broadcast_dim_same, broadcast_dim_one_r in Hrun.
  cbn [mbind result_bind] in Hrun. injection Hrun as <- <-.
  exists s. split; [exact Hp|]. split; [exact He|].
  change (match outs0 ++ [np_tanh s] with
          | [] => []
          | _ :: _ => inputs :: removelast (outs0 ++ [np_tanh s])
          end) with (removelast ((inputs :: outs0) ++ [np_tanh s])).
  rewrite removelast_last, last_cons. split; [exact Es|].
  split; [reflexivity|].
  intros i j Hi Hj. cbn [item]. rewrite !bidx_lt by assumption. reflexivity.
Qed.

(** C6.  For a network with at least one layer and at least one output
    unit, parameters and perturbations of conforming shapes, and any
    input batch, [neural_net_predict_and_activations] returns
    log-probabilities whose rows are normalised (the exponentials of a
    row sum to 1, so its log-sum-exp is 0) and a list with one entry per
    layer holding the input of that layer: first the input batch itself,
    then [tanh] of each pre-activation but the last.  The
    log-probabilities are those of the final layer: they have one row
    per example and one column per output unit, and they are
    [s - logsumexp(s)] for the pre-activation [s] that the last layer
    computes from the last listed activation.  It is a function of its
    three arguments alone. *)
Theorem neural_net_predict_and_activations_contract
    (extra_biases : list (ndarray R)) (params : list (ndarray R * ndarray1 R))
    (inputs : ndarray R) :
  params <> [] ->
  length extra_biases = length params ->
  layers_conform (nrows inputs) (ncols inputs) (py_zip params extra_biases) ->
  (0 < output_width (ncols inputs) (py_zip params extra_biases))%nat ->
  exists logprobs activations,
    neural_net_predict_and_activations extra_biases params inputs
    = Ok (logprobs, activations) /\
    nrows logprobs = nrows inputs /\
    (forall i, (i < nrows logprobs)%nat ->
       s_sum (ncols logprobs) (fun j => exp (item logprobs i j)) = 1 /\
       ln (s_sum (ncols logprobs) (fun j => exp (item logprobs i j))) = 0) /\
    (exists zero, logsumexp logprobs = Ok zero /\
       forall i, (i < nrows logprobs)%nat -> item zero i 0%nat = 0) /\
    length activations = length params /\
    hd_error activations = Some inputs /\
    layer_inputs inputs (py_zip params extra_biases) activations /\
    shape logprobs
    = (nrows inputs, output_width (ncols inputs) (py_zip params extra_biases)) /\
    exists front W b ebs eb s,
      params = front ++ [(W, b)] /\ extra_biases = ebs ++ [eb] /\
      pre_activation (List.last activations inputs) W b eb = Ok s /\
      log_softmax_of s logprobs.
Proof.
  intros Hne Hlen Hc Hw.
  destruct (forward_pass_spec extra_biases params inputs Hne Hlen Hc Hw)
    as (logprobs & activations & Hrun & Hsh & Hnorm & Hl & Hin).
  pose proof Hsh as Hsh'.
  unfold shape in Hsh. injection Hsh as Hr Hcw.
  exists logprobs, activations.
  split; [exact Hrun|]. split; [exact Hr|].
  split; [|split; [|split; [exact Hl|split; [|split; [exact Hin|split; [exact Hsh'|]]]]]].
  - intros i Hi. rewrite Hnorm by congruence. split; [reflexivity | apply ln_1].
  - unfold logsumexp.
    destruct (ncols logprobs =? 0)%nat eqn:E; [apply Nat.eqb_eq in E; lia|].
    eexists. split; [reflexivity|].
    intros i Hi. simpl. rewrite Hnorm by congruence. apply ln_1.
  - destruct (py_zip params extra_biases) as [|[[W b] eb] rest] eqn:Ez;
      destruct activations as [|x acts]; simpl in Hin; try contradiction.
    + destruct params, extra_biases; simpl in *; congruence.
    + destruct Hin as (-> & _). reflexivity.
  - exact (final_layer_log_softmax extra_biases params inputs logprobs activations
             Hne Hlen Hrun).
Qed.

(** ** Two runs of the forward pass, compared row by row *)

Section Relational.
Context {T1 T2 : Type} `{S1 : Scalar T1} `{S2 : Scalar T2}.
Variable rho : T1 -> T2 -> Prop.
Variable phi : nat -> nat.
Variable n : nat.
Hypothesis phi_bound : forall i, (i < n)%nat -> (phi i < n)%nat.
Hypothesis rho_ok : scalar_rel rho.

Lemma s_sum_rel (m : nat) (f : nat -> T1) (g : nat -> T2) :
  (forall k, (k < m)%nat -> rho (f k) (g k)) -> rho (s_sum m f) (s_sum m g).
Proof using phi_bound rho_ok.
  induction m as [|m IH]; intros Hfg; simpl; [apply (rel_const rho rho_ok)|].
  apply (rel_add rho rho_ok); [apply IH; intros; apply Hfg; lia | apply Hfg; lia].
Qed.

Lemma np_dot_rel (a1 W1 : ndarray T1) (a2 W2 : ndarray T2) :
  rel_rows rho phi n a1 a2 -> rel_plain rho W1 W2 ->
  ok_rel (rel_rows rho phi n) (np_dot a1 W1) (np_dot a2 W2).
Proof using phi_bound rho_ok.
  intros (Hr1 & Hr2 & Hc & Ha) (HWr & HWc & HW) x. unfold np_dot.
  rewrite <- Hc, <- HWr.
  destruct (ncols a1 =? nrows W1)%nat eqn:E; [|discriminate].
  apply Nat.eqb_eq in E. intros [= <-].
  eexists. split; [reflexivity|].
  repeat split; simpl; try assumption.
  intros i j Hi Hj. apply s_sum_rel. intros k Hk.
  apply (rel_mul rho rho_ok); [apply Ha; assumption | apply HW; [lia | assumption]].
Qed.

Lemma np_binop_rel (op1 : T1 -> T1 -> T1) (op2 : T2 -> T2 -> T2)
    (a1 b1 : ndarray T1) (a2 b2 : ndarray T2) :
  (forall x y x' y', rho x x' -> rho y y' -> rho (op1 x y) (op2 x' y')) ->
  rel_rows rho phi n a1 a2 -> rel_rows rho phi n b1 b2 ->
  ok_rel (rel_rows rho phi n) (np_binop op1 a1 b1) (np_binop op2 a2 b2).
Proof using phi_bound.
  intros Hop (Har1 & Har2 & Hac & Ha) (Hbr1 & Hbr2 & Hbc & Hb) x. unfold np_binop.
  rewrite Har1, Har2, Hbr1, Hbr2, <- Hac, <- Hbc, !broadcast_dim_same.
  destruct (broadcast_dim (ncols a1) (ncols b1)) as [c|] eqn:E; [|discriminate].
  intros [= <-]. eexists. split; [reflexivity|].
  apply broadcast_dim_cases in E. destruct E as (Hca & Hcb).
  repeat split; simpl.
  intros i j Hi Hj.
  rewrite (bidx_lt n (phi i)), (bidx_lt n i) by auto.
  apply Hop; [apply Ha | apply Hb]; eauto using bidx_bound.
Qed.

Lemma np_binop_bias_rel (op1 : T1 -> T1 -> T1) (op2 : T2 -> T2 -> T2)
    (a1 : ndarray T1) (b1 : ndarray1 T1) (a2 : ndarray T2) (b2 : ndarray1 T2) :
  (forall x y x' y', rho x x' -> rho y y' -> rho (op1 x y) (op2 x' y')) ->
  rel_rows rho phi n a1 a2 -> rel_bias rho b1 b2 ->
  ok_rel (rel_rows rho phi n)
    (np_binop op1 a1 (atleast_2d b1)) (np_binop op2 a2 (atleast_2d b2)).
Proof using phi_bound.
  intros Hop (Har1 & Har2 & Hac & Ha) (Hbs & Hb) x. unfold np_binop. simpl.
  rewrite Har1, Har2, <- Hac, <- Hbs, !broadcast_dim_one_r.
  destruct (broadcast_dim (ncols a1) (size1 b1)) as [c|] eqn:E; [|discriminate].
  intros [= <-]. eexists. split; [reflexivity|].
  apply broadcast_dim_cases in E. destruct E as (Hca & Hcb).
  repeat split; simpl.
  intros i j Hi Hj.
  rewrite (bidx_lt n (phi i)), (bidx_lt n i) by auto.
  apply Hop; [apply Ha | apply Hb]; eauto using bidx_bound.
Qed.

Lemma np_map_rel (f1 : T1 -> T1) (f2 : T2 -> T2) (a1 : ndarray T1) (a2 : ndarray T2) :
  (forall x x', rho x x' -> rho (f1 x) (f2 x')) ->
  rel_rows rho phi n a1 a2 -> rel_rows rho phi n (np_map f1 a1) (np_map f2 a2).
Proof using Type.
  intros Hf (Hr1 & Hr2 & Hc & Ha). repeat split; simpl; try assumption.
  intros i j Hi Hj. apply Hf, Ha; assumption.
Qed.

Lemma logsumexp_rel (s1 : ndarray T1) (s2 : ndarray T2) :
  rel_rows rho phi n s1 s2 ->
  ok_rel (rel_rows rho phi n) (logsumexp s1) (logsumexp s2).
Proof using phi_bound rho_ok.
  intros (Hr1 & Hr2 & Hc & Hs) x. unfold logsumexp. rewrite <- Hc.
  destruct (ncols s1 =? 0)%nat eqn:E; [discriminate|]. apply Nat.eqb_neq in E.
  intros [= <-]. eexists. split; [reflexivity|].
  repeat split; simpl; try assumption.
  intros i j Hi _. apply (rel_lse rho rho_ok); [lia|].
  intros k Hk. apply Hs; assumption.
Qed.

Lemma pre_activation_rel (a1 W1 : ndarray T1) (b1 : ndarray1 T1) (e1 : ndarray T1)
    (a2 W2 : ndarray T2) (b2 : ndarray1 T2) (e2 : ndarray T2) :
  rel_rows rho phi n a1 a2 -> rel_plain rho W1 W2 -> rel_bias rho b1 b2 ->
  rel_rows rho phi n e1 e2 ->
  ok_rel (rel_rows rho phi n) (pre_activation a1 W1 b1 e1) (pre_activation a2 W2 b2 e2).
Proof using phi_bound rho_ok.
  intros Ha HW Hb He s1. unfold pre_activation.
  destruct (np_dot a1 W1) as [d1|] eqn:Ed; simpl; [|discriminate].
  destruct (np_dot_rel a1 W1 a2 W2 Ha HW d1 Ed) as (d2 & -> & Hd). simpl.
  destruct (np_add d1 (atleast_2d b1)) as [c1|] eqn:Ec; simpl; [|discriminate].
  destruct (np_binop_bias_rel s_add s_add d1 b1 d2 b2 (rel_add rho rho_ok) Hd Hb c1 Ec)
    as (c2 & Hc2 & Hc).
  change (np_add d2 (atleast_2d b2) = Ok c2) in Hc2. rewrite Hc2. simpl.
  intros Hs. exact (np_binop_rel s_add s_add c1 e1 c2 e2 (rel_add rho rho_ok) Hc He s1 Hs).
Qed.

Lemma run_layers_rel
    (layers1 : list ((ndarray T1 * ndarray1 T1) * ndarray T1))
    (layers2 : list ((ndarray T2 * ndarray1 T2) * ndarray T2)) :
  Forall2 (rel_layer rho phi n) layers1 layers2 ->
  forall a1 a2, rel_rows rho phi n a1 a2 ->
    ok_rel (fun r1 r2 => rel_last (rel_rows rho phi n) (snd r1) (snd r2))
      (run_layers a1 layers1) (run_layers a2 layers2).
Proof using phi_bound rho_ok.
  induction 1 as [|[[W1 b1] e1] [[W2 b2] e2] rest1 rest2 (HW & Hb & He) _ IH];
    intros a1 a2 Ha x.
  - simpl. intros [= <-]. eexists. split; [reflexivity | exact I].
  - simpl in HW, Hb, He. simpl run_layers.
    destruct (pre_activation a1 W1 b1 e1) as [s1|] eqn:Es; simpl; [|discriminate].
    destruct (pre_activation_rel a1 W1 b1 e1 a2 W2 b2 e2 Ha HW Hb He s1 Es)
      as (s2 & -> & Hs). simpl.
    destruct (run_layers (np_tanh s1) rest1) as [[outs1 last1]|] eqn:Er; simpl;
      [|discriminate].
    destruct (IH (np_tanh s1) (np_tanh s2) (np_map_rel _ _ s1 s2 (rel_tanh rho rho_ok) Hs) _ Er)
      as ([outs2 last2] & -> & Hlast). simpl in *.
    intros [= <-]. eexists. split; [reflexivity|]. simpl.
    destruct last1, last2; simpl in *; try contradiction; assumption.
Qed.

Lemma forward_rel
    (ebs1 : list (ndarray T1)) (params1 : list (ndarray T1 * ndarray1 T1))
    (inputs1 : ndarray T1)
    (ebs2 : list (ndarray T2)) (params2 : list (ndarray T2 * ndarray1 T2))
    (inputs2 : ndarray T2) :
  rel_rows rho phi n inputs1 inputs2 ->
  Forall2 (rel_layer rho phi n) (py_zip params1 ebs1) (py_zip params2 ebs2) ->
  ok_rel (fun r1 r2 => rel_rows rho phi n (fst r1) (fst r2))
    (neural_net_predict_and_activations ebs1 params1 inputs1)
    (neural_net_predict_and_activations ebs2 params2 inputs2).
Proof using phi_bound rho_ok.
  intros Hin Hl x. rewrite !neural_net_predict_and_activations_run.
  destruct (run_layers inputs1 _) as [[outs1 last1]|] eqn:Er; simpl; [|discriminate].
  destruct (run_layers_rel _ _ Hl inputs1 inputs2 Hin _ Er) as ([outs2 last2] & -> & Hlast).
  simpl in *.
  destruct last1 as [s1|], last2 as [s2|]; simpl in Hlast; try contradiction;
    [|discriminate].
  destruct (logsumexp s1) as [l1|] eqn:El; simpl; [|discriminate].
  destruct (logsumexp_rel s1 s2 Hlast l1 El) as (l2 & -> & Hlse). simpl.
  destruct (np_sub s1 l1) as [lp1|] eqn:Es; simpl; [|discriminate].
  destruct (np_binop_rel s_sub s_sub s1 l1 s2 l2 (rel_sub rho rho_ok) Hlast Hlse lp1 Es)
    as (lp2 & Hlp2 & Hlp).
  change (np_sub s2 l2 = Ok lp2) in Hlp2. rewrite Hlp2. simpl.
  intros [= <-]. eexists. split; [reflexivity | exact Hlp].
Qed.

End Relational.

(** The relations between runs that are used below. *)
Lemma scalar_rel_of_log {T1 T2 : Type} `{Scalar T1} `{Scalar T2} (rho : T1 -> T2 -> Prop) :
  (forall r, rho (s_const r) (s_const r)) ->
  (forall x y x' y', rho x x' -> rho y y' -> rho (s_add x y) (s_add x' y')) ->
  (forall x y x' y', rho x x' -> rho y y' -> rho (s_sub x y) (s_sub x' y')) ->
  (forall x y x' y', rho x x' -> rho y y' -> rho (s_mul x y) (s_mul x' y')) ->
  (forall x x', rho x x' -> rho (s_exp x) (s_exp x')) ->
  (forall x x', rho x x' -> rho (s_tanh x) (s_tanh x')) ->
  (forall x x', rho x x' -> rho (s_log x) (s_log x')) ->
  scalar_rel rho.
Proof.
  intros Hconst Hadd Hsub Hmul Hexp Htanh Hlog.
  split; try assumption.
  intros m f g _ Hfg. apply Hlog.
  induction m as [|m IH]; simpl; [apply Hconst|].
  apply Hadd; [apply IH; intros; apply Hfg; lia | apply Hexp, Hfg; lia].
Qed.

Lemma eq_scalar_rel : scalar_rel (T1:=R) (T2:=R) eq.
Proof. apply scalar_rel_of_log; intros; subst; reflexivity. Qed.

Lemma primal_is_scalar_rel : scalar_rel (T1:=dual) (T2:=R) primal_is.
Proof. apply scalar_rel_of_log; unfold primal_is; simpl; intros; subst; reflexivity. Qed.

Lemma primal_of_scalar_rel : scalar_rel (T1:=R) (T2:=dual) (fun x y => x = primal y).
Proof. apply scalar_rel_of_log; simpl; intros; subst; reflexivity. Qed.

(** ** The sampled-target log-likelihood (C8) *)

Lemma model_predictive_log_likelihood_fst {T : Type} `{Scalar T}
    (extra_biases : list (ndarray T)) (params : list (ndarray T * ndarray1 T))
    (inputs : ndarray T) (g : rng_state) :
  fst (model_predictive_log_likelihood extra_biases params inputs g) =
  '(logprobs, activations) ← neural_net_predict_and_activations extra_biases params inputs;
  targets ← fst (sample_discrete_from_log (np_getval logprobs) g);
  weighted ← np_mul logprobs (np_const targets);
  Ok (np_sum weighted, activations).
Proof.
  unfold model_predictive_log_likelihood.
  destruct (neural_net_predict_and_activations extra_biases params inputs)
    as [[logprobs activations]|e]; simpl; [|reflexivity].
  destruct (sample_discrete_from_log (np_getval logprobs) g) as [sampled g'].
  reflexivity.
Qed.

Lemma np_take_rows_inv {T : Type} (a : ndarray T) (n : nat) (indices : nat -> nat)
    (x : ndarray T) :
  np_take_rows a n indices = Ok x ->
  (forall i, (i < n)%nat -> (indices i < nrows a)%nat) /\
  x = mk_array n (ncols a) (fun i j => item a (indices i) j).
Proof.
  unfold np_take_rows. destruct (forallb _ _) eqn:E; [|discriminate].
  intros [= <-]. split; [|reflexivity].
  intros i Hi. rewrite forallb_forall in E.
  apply Nat.ltb_lt, E, in_seq. lia.
Qed.

Lemma chosen_bin_rel (phi : nat -> nat) (n : nat) (lp1 lp2 : ndarray R)
    (g1 g2 : rng_state) (i : nat) :
  rel_rows eq phi n lp1 lp2 -> g1 (phi i) = g2 i -> (i < n)%nat ->
  chosen_bin lp2 g2 i = chosen_bin lp1 g1 (phi i).
Proof.
  intros (Hr1 & Hr2 & Hc & Hlp) Hg Hi. unfold chosen_bin.
  rewrite <- Hc, <- Hg. f_equal. apply List.filter_ext_in.
  intros j Hj. apply in_seq in Hj. f_equal. unfold cum_prob.
  apply rsum_ext. intros k Hk. rewrite Hlp by lia. reflexivity.
Qed.

Lemma sample_rel (phi : nat -> nat) (n : nat) (lp1 lp2 : ndarray R) (g1 g2 : rng_state) :
  (forall i, (i < n)%nat -> (phi i < n)%nat) ->
  rel_rows eq phi n lp1 lp2 ->
  (forall i, (i < n)%nat -> g1 (phi i) = g2 i) ->
  ok_rel (rel_rows eq phi n)
    (fst (sample_discrete_from_log lp1 g1)) (fst (sample_discrete_from_log lp2 g2)).
Proof.
  intros Hphi Hlp Hg x. pose proof Hlp as (Hr1 & Hr2 & Hc & _).
  unfold sample_discrete_from_log.
  destruct (sample_indices lp1 g1) as (mask1 & Hm1 & Hi1).
  destruct (sample_indices lp2 g2) as (mask2 & Hm2 & Hi2).
  simpl in *. rewrite Hm1, Hm2. simpl.
  intros Hx. apply np_take_rows_inv in Hx. destruct Hx as (Hb & ->).
  simpl in Hb. rewrite Hr1 in *. rewrite Hr2 in *.
  assert (Hidx : forall i, (i < n)%nat -> np_count1 mask2 i = np_count1 mask1 (phi i)).
  { intros i Hi. rewrite Hi2, Hi1 by auto.
    apply (chosen_bin_rel phi n); auto. }
  rewrite np_take_rows_ok.
  - eexists. split; [reflexivity|].
    repeat split; simpl; try congruence.
    intros i j Hi Hj. rewrite Hidx by assumption. reflexivity.
  - intros i Hi. simpl. rewrite Hidx, <- Hc by assumption. apply Hb, Hphi, Hi.
Qed.

Lemma Rlist_sum_app (l1 l2 : list R) :
  Rlist_sum (l1 ++ l2) = Rlist_sum l1 + Rlist_sum l2.
Proof. induction l1 as [|x l1 IH]; simpl; [lra | rewrite IH; lra]. Qed.

Lemma rsum_as_list (n : nat) (f : nat -> R) :
  s_sum n f = Rlist_sum (map f (seq 0 n)).
Proof.
  induction n as [|n IH]; [reflexivity|].
  rewrite seq_S, map_app, Rlist_sum_app, <- IH. simpl. lra.
Qed.

Lemma Rlist_sum_perm (l l' : list R) : Permutation l l' -> Rlist_sum l = Rlist_sum l'.
Proof. induction 1; simpl; lra. Qed.

(** A sum over the examples does not depend on their order. *)
Lemma rsum_perm (n : nat) (phi : nat -> nat) (f : nat -> R) :
  Permutation (map phi (seq 0 n)) (seq 0 n) ->
  s_sum n (fun i => f (phi i)) = s_sum n f.
Proof.
  intros Hp. rewrite !rsum_as_list, <- (map_map phi f).
  apply Rlist_sum_perm, Permutation_map, Hp.
Qed.

Lemma map_nth_seq {A : Type} (p : list A) (d : A) :
  map (fun i => nth i p d) (seq 0 (length p)) = p.
Proof.
  induction p as [|x p IH]; [reflexivity|].
  simpl. f_equal. rewrite <- seq_shift, map_map. exact IH.
Qed.

Lemma perm_nth_bound (p : list nat) (n i : nat) :
  Permutation p (seq 0 n) -> (i < n)%nat -> (nth i p O < n)%nat.
Proof.
  intros Hp Hi. pose proof (Permutation_length Hp) as Hl. rewrite length_seq in Hl.
  assert (Hin : In (nth i p O) (seq 0 n)).
  { eapply Permutation_in; [exact Hp|]. apply nth_In. lia. }
  apply in_seq in Hin. lia.
Qed.

Lemma rel_layers_same_params (phi : nat -> nat) (n : nat)
    (params : list (ndarray R * ndarray1 R)) (ebs1 ebs2 : list (ndarray R)) :
  Forall2 (rel_rows eq phi n) ebs1 ebs2 ->
  Forall2 (rel_layer eq phi n) (py_zip params ebs1) (py_zip params ebs2).
Proof.
  intros H. revert params.
  induction H as [|e1 e2 ebs1 ebs2 He _ IH]; intros [|[W b] params]; simpl;
    try constructor.
  - split; [|split]; simpl; [repeat split | repeat split | exact He].
  - apply IH.
Qed.

(** The log-likelihood of a run equals that of the run on reordered rows
    when every row keeps its draw. *)
Lemma log_likelihood_rel (phi : nat -> nat) (n : nat)
    (params : list (ndarray R * ndarray1 R))
    (ebs1 ebs2 : list (ndarray R)) (inputs1 inputs2 : ndarray R) (g1 g2 : rng_state)
    (v : R) (acts : list (ndarray R)) :
  (forall i, (i < n)%nat -> (phi i < n)%nat) ->
  Permutation (map phi (seq 0 n)) (seq 0 n) ->
  rel_rows eq phi n inputs1 inputs2 ->
  Forall2 (rel_rows eq phi n) ebs1 ebs2 ->
  (forall i, (i < n)%nat -> g1 (phi i) = g2 i) ->
  fst (model_predictive_log_likelihood ebs1 params inputs1 g1) = Ok (v, acts) ->
  exists acts',
    fst (model_predictive_log_likelihood ebs2 params inputs2 g2) = Ok (v, acts').
Proof.
  intros Hphi Hperm Hin Hebs Hg. rewrite !model_predictive_log_likelihood_fst.
  destruct (neural_net_predict_and_activations ebs1 params inputs1)
    as [[lp1 acts1]|] eqn:E1; [|discriminate].
  destruct (forward_rel (T1:=R) (T2:=R) eq phi n Hphi eq_scalar_rel)
    with (x := (lp1, acts1))
         (ebs1 := ebs1) (params1 := params) (inputs1 := inputs1)
         (ebs2 := ebs2) (params2 := params) (inputs2 := inputs2)
    as ([lp2 acts2] & -> & Hlp); try assumption.
  { now apply rel_layers_same_params. }
  cbn [fst snd] in Hlp. cbn [mbind result_bind].
  destruct (fst (sample_discrete_from_log (np_getval lp1) g1)) as [t1|] eqn:Et;
    [|discriminate].
  assert (Hgv : rel_rows eq phi n (np_getval lp1) (np_getval lp2)).
  { destruct Hlp as (? & ? & ? & Hi). repeat split; simpl; try assumption;
      intros i j Hi' Hj; now rewrite Hi. }
  destruct (sample_rel phi n _ _ g1 g2 Hphi Hgv Hg t1 Et) as (t2 & -> & Ht).
  cbn [mbind result_bind].
  assert (Hct : rel_rows eq phi n (np_const (T:=R) t1) (np_const (T:=R) t2)).
  { destruct Ht as (? & ? & ? & Hi). repeat split; simpl; try assumption;
      intros i j Hi' Hj; now rewrite Hi. }
  destruct (np_mul lp1 (np_const t1)) as [w1|] eqn:Ew; [|discriminate].
  destruct (np_binop_rel (T1:=R) (T2:=R) eq phi n Hphi Rmult Rmult
              lp1 (np_const t1) lp2 (np_const t2))
    with (x := w1) as (w2 & Hw2 & Hw); try assumption.
  { intros; subst; reflexivity. }
  change (np_mul lp2 (np_const t2) = Ok w2) in Hw2. rewrite Hw2.
  cbn [mbind result_bind].
  intros [= <- <-]. exists acts2. f_equal. f_equal.
  destruct Hw as (Hr1 & Hr2 & Hc & Hi).
  unfold np_sum. rewrite Hr1, Hr2.
  rewrite <- (rsum_perm n phi (fun i => s_sum (ncols w1) (fun j => item w1 i j)) Hperm).
  apply rsum_ext. intros i Hi'. rewrite <- Hc. apply rsum_ext. intros j Hj.
  symmetry. apply Hi; assumption.
Qed.

(** C8, as the code has it.  The draws are taken in row order, so the
    log-likelihood of [model_predictive_log_likelihood] is unchanged by a
    reordering of the examples (inputs and perturbations) only when the
    draws of the generator are reordered with them, each example keeping
    its own draw. *)
Theorem model_predictive_log_likelihood_permutation
    (p : list nat) (extra_biases : list (ndarray R))
    (params : list (ndarray R * ndarray1 R)) (inputs : ndarray R) (g : rng_state)
    (v : R) (activations : list (ndarray R)) :
  Permutation p (seq 0 (nrows inputs)) ->
  Forall (fun extra_bias => nrows extra_bias = nrows inputs) extra_biases ->
  fst (model_predictive_log_likelihood extra_biases params inputs g)
  = Ok (v, activations) ->
  log_likelihood_of
    (model_predictive_log_likelihood (map (permute_rows p) extra_biases) params
       (permute_rows p inputs) (permute_draws p g))
  = Some v.
Proof.
  intros Hp Hebs Hrun.
  pose proof (Permutation_length Hp) as Hl. rewrite length_seq in Hl.
  destruct (log_likelihood_rel (fun i => nth i p O) (nrows inputs) params
              extra_biases (map (permute_rows p) extra_biases)
              inputs (permute_rows p inputs) g (permute_draws p g) v activations)
    as (acts' & Hrun'); try assumption.
  - intros i Hi. now apply perm_nth_bound.
  - rewrite <- Hl at 1. rewrite map_nth_seq. exact Hp.
  - repeat split.
  - clear Hrun. induction Hebs as [|eb ebs Heb _ IH]; simpl; [constructor|].
    constructor; [|exact IH]. repeat split; simpl; congruence.
  - intros i Hi. unfold permute_draws.
    replace (i <? length p)%nat with true; [reflexivity|].
    symmetry. apply Nat.ltb_lt. lia.
  - unfold log_likelihood_of. rewrite Hrun'. reflexivity.
Qed.

Lemma rsum_pick (n k : nat) (f : nat -> R) (h : nat -> R) :
  (k < n)%nat ->
  (forall j, (j < n)%nat -> h j = if (j =? k)%nat then 1 else 0) ->
  s_sum n (fun j => f j * h j) = f k.
Proof.
  induction n as [|n IH]; intros Hk Hh; [lia|]. simpl.
  destruct (Nat.eq_dec k n) as [->|Hne].
  - rewrite (Hh n) by lia. rewrite Nat.eqb_refl.
    rewrite (rsum_ext n _ (fun _ => 0)), rsum_zero; [lra|].
    intros j Hj. rewrite Hh by lia.
    destruct (j =? n)%nat eqn:E; [apply Nat.eqb_eq in E; lia | lra].
  - rewrite IH by (try lia; intros; apply Hh; lia).
    rewrite (Hh n) by lia.
    destruct (n =? k)%nat eqn:E; [apply Nat.eqb_eq in E; lia | lra].
Qed.

(** The log-likelihood under the sampled targets is the sum, over the
    examples, of the log-probability of the sampled class. *)
Lemma log_likelihood_value
    (extra_biases : list (ndarray R)) (params : list (ndarray R * ndarray1 R))
    (inputs : ndarray R) (g : rng_state) (lp : ndarray R) (acts : list (ndarray R)) :
  neural_net_predict_and_activations extra_biases params inputs = Ok (lp, acts) ->
  uniform01 g -> normalized lp ->
  exists v,
    fst (model_predictive_log_likelihood extra_biases params inputs g) = Ok (v, acts) /\
    v = s_sum (nrows lp) (fun i => item lp i (chosen_bin lp g i)).
Proof.
  intros Hrun Hg Hn. rewrite model_predictive_log_likelihood_fst, Hrun.
  cbn [mbind result_bind].
  assert (Hn' : normalized (np_getval lp)).
  { intros i Hi. simpl in *. apply Hn. exact Hi. }
  destruct (sample_discrete_from_log_spec (np_getval lp) g Hg Hn') as (t & -> & Hs & Hrow).
  cbn [mbind result_bind].
  unfold shape in Hs. simpl in Hs. injection Hs as Hr Hc.
  unfold np_mul, np_binop. simpl. rewrite Hr, Hc, !broadcast_dim_same.
  cbn [mbind result_bind].
  eexists. split; [reflexivity|].
  unfold np_sum. simpl. apply rsum_ext. intros i Hi.
  rewrite (rsum_ext _ _ (fun j => item lp i j * item t i j)).
  - specialize (Hrow i Hi). destruct Hrow as (Hlt & Hrow).
    rewrite Hc in Hlt, Hrow.
    apply (rsum_pick _ (chosen_bin lp g i)); [exact Hlt | exact Hrow].
  - intros j Hj. rewrite !bidx_lt by assumption. reflexivity.
Qed.

Lemma chosen_bin_unique (logprobs : ndarray R) (g : rng_state) (i k : nat) :
  uniform01 g -> normalized logprobs -> (i < nrows logprobs)%nat ->
  g i <= cum_prob logprobs i k ->
  (forall j, (j < k)%nat -> cum_prob logprobs i j < g i) ->
  chosen_bin logprobs g i = k.
Proof.
  intros Hg Hn Hi Hk Hbelow.
  destruct (chosen_bin_spec logprobs g i Hg Hn Hi) as (_ & Hc & Hcbelow).
  destruct (Nat.lt_trichotomy (chosen_bin logprobs g i) k) as [Hlt|[Heq|Hgt]].
  - specialize (Hbelow _ Hlt). lra.
  - exact Heq.
  - specialize (Hcbelow _ Hgt). lra.
Qed.

Lemma exp_neg_ln (c : R) : 0 < c -> exp (- ln c) = / c.
Proof. intros Hc. rewrite exp_Ropp, exp_ln by exact Hc. reflexivity. Qed.

Lemma exp_ln_minus_ln (a c : R) : 0 < a -> 0 < c -> exp (ln a - ln c) = a / c.
Proof.
  intros Ha Hc. unfold Rminus. rewrite exp_plus, exp_Ropp, !exp_ln by assumption.
  reflexivity.
Qed.

Lemma cex_rng_uniform : uniform01 cex_rng.
Proof. intros [|k]; simpl; lra. Qed.

(** The forward pass on the two examples, in both orders. *)
Lemma cex_forward :
  exists lp acts,
    neural_net_predict_and_activations cex_extra_biases cex_params cex_inputs
    = Ok (lp, acts) /\
    shape lp = (2, 2)%nat /\
    item lp 0%nat 0%nat = - ln 2 /\ item lp 0%nat 1%nat = - ln 2 /\
    item lp 1%nat 0%nat = ln 3 - ln 4 /\ item lp 1%nat 1%nat = - ln 4.
Proof.
  eexists _, _. split; [reflexivity|]. split; [reflexivity|]. simpl.
  replace (0 + 0 * ln 3 + 0 + 0) with 0 by lra.
  replace (0 + 0 * 0 + 0 + 0) with 0 by lra.
  replace (0 + 1 * ln 3 + 0 + 0) with (ln 3) by lra.
  replace (0 + 1 * 0 + 0 + 0) with 0 by lra.
  rewrite exp_0, exp_ln by lra.
  replace (0 + 1 + 1) with 2 by lra. replace (0 + 3 + 1) with 4 by lra.
  repeat split; lra.
Qed.

Lemma cex_forward_swapped :
  exists lp acts,
    neural_net_predict_and_activations
      (map (permute_rows [1; 0]%nat) cex_extra_biases) cex_params
      (permute_rows [1; 0]%nat cex_inputs)
    = Ok (lp, acts) /\
    shape lp = (2, 2)%nat /\
    item lp 0%nat 0%nat = ln 3 - ln 4 /\ item lp 0%nat 1%nat = - ln 4 /\
    item lp 1%nat 0%nat = - ln 2 /\ item lp 1%nat 1%nat = - ln 2.
Proof.
  eexists _, _. split; [reflexivity|]. split; [reflexivity|]. simpl.
  replace (0 + 0 * ln 3 + 0 + 0) with 0 by lra.
  replace (0 + 0 * 0 + 0 + 0) with 0 by lra.
  replace (0 + 1 * ln 3 + 0 + 0) with (ln 3) by lra.
  replace (0 + 1 * 0 + 0 + 0) with 0 by lra.
  rewrite exp_0, exp_ln by lra.
  replace (0 + 1 + 1) with 2 by lra. replace (0 + 3 + 1) with 4 by lra.
  repeat split; lra.
Qed.

(** The log-likelihood of two examples with two classes, from the
    classes that the draws select. *)
Lemma two_examples_log_likelihood
    (extra_biases : list (ndarray R)) (params : list (ndarray R * ndarray1 R))
    (inputs : ndarray R) (g : rng_state) (lp : ndarray R) (acts : list (ndarray R))
    (k0 k1 : nat) :
  neural_net_predict_and_activations extra_biases params inputs = Ok (lp, acts) ->
  shape lp = (2, 2)%nat ->
  uniform01 g ->
  exp (item lp 0%nat 0%nat) + exp (item lp 0%nat 1%nat) = 1 ->
  exp (item lp 1%nat 0%nat) + exp (item lp 1%nat 1%nat) = 1 ->
  g 0%nat <= cum_prob lp 0 k0 -> (forall j, (j < k0)%nat -> cum_prob lp 0 j < g 0%nat) ->
  g 1%nat <= cum_prob lp 1 k1 -> (forall j, (j < k1)%nat -> cum_prob lp 1 j < g 1%nat) ->
  log_likelihood_of (model_predictive_log_likelihood extra_biases params inputs g)
  = Some (0 + item lp 0%nat k0 + item lp 1%nat k1).
Proof.
  intros Hrun Hs Hg H0 H1 Hk0 Hb0 Hk1 Hb1.
  unfold shape in Hs. injection Hs as Hr Hc.
  assert (Hn : normalized lp).
  { intros i Hi. rewrite Hc. simpl. rewrite Hr in Hi.
    destruct i as [|[|i]]; [lra | lra | lia]. }
  destruct (log_likelihood_value extra_biases params inputs g lp acts Hrun Hg Hn)
    as (v & Hv & ->).
  unfold log_likelihood_of. rewrite Hv, Hr. simpl.
  rewrite (chosen_bin_unique lp g 0 k0), (chosen_bin_unique lp g 1 k1);
    try assumption; try (rewrite Hr; lia).
  reflexivity.
Qed.

(** C8 as stated fails: with the generator in the same state, swapping
    the two examples (and their perturbation rows) changes the
    log-likelihood, because each draw stays with its position and now
    meets the other example. *)
Lemma model_predictive_log_likelihood_permutation_counterexample :
  [1; 0]%nat ≡ₚ seq 0 (nrows cex_inputs) /\
  exists v v',
    log_likelihood_of
      (model_predictive_log_likelihood cex_extra_biases cex_params cex_inputs cex_rng)
    = Some v /\
    log_likelihood_of
      (model_predictive_log_likelihood
         (map (permute_rows [1; 0]%nat) cex_extra_biases) cex_params
         (permute_rows [1; 0]%nat cex_inputs) cex_rng)
    = Some v' /\
    v <> v'.
Proof.
  split; [simpl; apply perm_swap|].
  destruct cex_forward as (lp & acts & Hrun & Hs & H00 & H01 & H10 & H11).
  destruct cex_forward_swapped as (lp' & acts' & Hrun' & Hs' & H00' & H01' & H10' & H11').
  assert (E2 : exp (- ln 2) = 1 / 2) by (rewrite exp_neg_ln; lra).
  assert (E4 : exp (- ln 4) = 1 / 4) by (rewrite exp_neg_ln; lra).
  assert (E34 : exp (ln 3 - ln 4) = 3 / 4) by (rewrite exp_ln_minus_ln; lra).
  exists (0 + item lp 0%nat 1%nat + item lp 1%nat 1%nat),
         (0 + item lp' 0%nat 0%nat + item lp' 1%nat 1%nat).
  split; [|split].
  - apply (two_examples_log_likelihood _ _ _ _ lp acts 1 1 Hrun Hs cex_rng_uniform);
      unfold cum_prob; simpl; rewrite ?H00, ?H01, ?H10, ?H11, ?E2, ?E4, ?E34; try lra;
      intros j Hj; assert (j = 0%nat) as -> by lia; simpl;
      rewrite ?H00, ?H10, ?E2, ?E34; lra.
  - apply (two_examples_log_likelihood _ _ _ _ lp' acts' 0 1 Hrun' Hs' cex_rng_uniform);
      unfold cum_prob; simpl; rewrite ?H00', ?H01', ?H10', ?H11', ?E2, ?E4, ?E34; try lra;
      intros j Hj; try lia; assert (j = 0%nat) as -> by lia; simpl;
      rewrite ?H00', ?H10', ?E2, ?E34; lra.
  - rewrite H01, H11, H00', H11'.
    assert (0 < ln 3) by (rewrite <- ln_1; apply ln_increasing; lra).
    lra.
Qed.

(** ** Gradient samples and the sampled targets (C7) *)

Lemma s_sum_ext {T : Type} `{Scalar T} (n : nat) (f g : nat -> T) :
  (forall k, (k < n)%nat -> f k = g k) -> s_sum n f = s_sum n g.
Proof.
  induction n as [|n IH]; intros Hfg; simpl; [reflexivity|].
  rewrite IH by (intros; apply Hfg; lia). rewrite Hfg by lia. reflexivity.
Qed.

Lemma seeded_rel (n i0 j0 : nat) (x : list (ndarray R)) :
  Forall (fun a => nrows a = n) x ->
  forall hit : nat -> bool,
    Forall2 (rel_rows primal_is (fun i => i) n)
      (imap (fun l a => seed_array a (hit l) i0 j0) x) x.
Proof.
  induction 1 as [|a x Ha _ IH]; intros hit; simpl; constructor.
  - repeat split; simpl; assumption.
  - apply (IH (fun l => hit (S l))).
Qed.

Lemma const_rel (n : nat) (x : list (ndarray R)) :
  Forall (fun a => nrows a = n) x ->
  Forall2 (rel_rows primal_is (fun i => i) n) (map (np_const (T:=dual)) x) x.
Proof.
  induction 1 as [|a x Ha _ IH]; simpl; constructor; [|exact IH].
  repeat split; simpl; assumption.
Qed.

Lemma rel_layers_const (n : nat) (params : list (ndarray R * ndarray1 R))
    (ebs1 : list (ndarray dual)) (ebs2 : list (ndarray R)) :
  Forall2 (rel_rows primal_is (fun i => i) n) ebs1 ebs2 ->
  Forall2 (rel_layer primal_is (fun i => i) n)
    (py_zip (params_const params) ebs1) (py_zip params ebs2).
Proof.
  intros H. revert params.
  induction H as [|e1 e2 ebs1 ebs2 He _ IH]; intros [|[W b] params]; simpl;
    try constructor.
  - split; [|split]; simpl; [repeat split | repeat split | exact He].
  - apply IH.
Qed.

Lemma zero_perturbations_rows (params : list (ndarray R * ndarray1 R)) (inputs : ndarray R) :
  Forall (fun a => nrows a = nrows inputs) (zero_perturbations params inputs).
Proof.
  unfold zero_perturbations. rewrite Forall_map. apply Forall_forall.
  intros [W b] _. reflexivity.
Qed.

(** The plain numbers of a traced forward pass are those of the plain
    forward pass, whatever the direction that is traced. *)
Lemma traced_forward_primal (params : list (ndarray R * ndarray1 R)) (inputs : ndarray R)
    (ebs_traced : list (ndarray dual)) (ebs : list (ndarray R))
    (lp_traced : ndarray dual) (acts_traced : list (ndarray dual)) :
  Forall2 (rel_rows primal_is (fun i => i) (nrows inputs)) ebs_traced ebs ->
  neural_net_predict_and_activations ebs_traced (params_const params) (np_const inputs)
  = Ok (lp_traced, acts_traced) ->
  exists lp acts,
    neural_net_predict_and_activations ebs params inputs = Ok (lp, acts) /\
    rel_rows eq (fun i => i) (nrows inputs) (np_getval lp_traced) lp.
Proof.
  intros Hebs Hrun.
  destruct (forward_rel (T1:=dual) (T2:=R) primal_is (fun i => i) (nrows inputs)
              (fun i Hi => Hi) primal_is_scalar_rel)
    with (x := (lp_traced, acts_traced))
         (ebs1 := ebs_traced) (params1 := params_const (T:=dual) params)
         (inputs1 := np_const (T:=dual) inputs)
         (ebs2 := ebs) (params2 := params) (inputs2 := inputs)
    as ([lp acts] & Hrun' & Hlp); try assumption.
  - repeat split.
  - now apply rel_layers_const.
  - exists lp, acts. split; [exact Hrun'|].
    destruct Hlp as (Hr1 & Hr2 & Hc & Hi). simpl in *.
    repeat split; simpl; assumption.
Qed.

Lemma rel_rows_eq_sym (n : nat) (a b : ndarray R) :
  rel_rows eq (fun i => i) n a b -> rel_rows eq (fun i => i) n b a.
Proof.
  intros (Hr1 & Hr2 & Hc & Hi). repeat split; try congruence.
  intros i j Hi' Hj. symmetry. apply Hi; congruence.
Qed.

(** Weighting traced log-probabilities by two equal arrays of plain
    targets gives the same traced sum. *)
Lemma weighted_sum_ext (n : nat) (lp : ndarray dual) (t t' : ndarray R) :
  nrows lp = n -> rel_rows eq (fun i => i) n t t' ->
  (w ← np_mul lp (np_const t); Ok (np_sum w)) =
  (w ← np_mul lp (np_const t'); Ok (np_sum w)).
Proof.
  intros Hl (Hr1 & Hr2 & Hc & Hi). unfold np_mul, np_binop. simpl.
  rewrite Hr1, Hr2, <- Hc.
  destruct (broadcast_dim (nrows lp) n) as [r|] eqn:Er; [|reflexivity].
  destruct (broadcast_dim (ncols lp) (ncols t)) as [c|] eqn:Ec; [|reflexivity].
  cbn [mbind result_bind]. f_equal. unfold np_sum. simpl.
  apply broadcast_dim_cases in Er, Ec.
  apply s_sum_ext. intros i Hi'. apply s_sum_ext. intros j Hj.
  assert (E : item t (bidx n i) (bidx (ncols t) j)
              = item t' (bidx n i) (bidx (ncols t) j)).
  { apply Hi.
    - rewrite Hl in Er. destruct Er as (_ & Er). eapply bidx_bound; eauto.
    - destruct Ec as (_ & Ec). eapply bidx_bound; eauto. }
  simpl. rewrite E. reflexivity.
Qed.

Lemma collect_inv (params : list (ndarray R * ndarray1 R)) (inputs : ndarray R)
    (g : rng_state) (a_samples g_samples : list (ndarray R)) :
  fst (collect_activations_and_grad_samples params inputs g) = Ok (a_samples, g_samples) ->
  (exists v aux,
     fst (model_predictive_log_likelihood (T:=dual)
            (map np_const (zero_perturbations params inputs))
            (params_const params) (np_const inputs) g) = Ok (v, aux)) /\
  g_samples =
  imap (fun l a =>
          mk_array (nrows a) (ncols a)
            (fun i j =>
               match fst (model_predictive_log_likelihood (T:=dual)
                            (seed (zero_perturbations params inputs) l i j)
                            (params_const params) (np_const inputs) g) with
               | Ok (v, _) => tangent v
               | Raise _ => 0
               end))
       (zero_perturbations params inputs).
Proof.
  unfold collect_activations_and_grad_samples, grad_and_aux. cbn [fst].
  fold (zero_perturbations params inputs).
  destruct (fst (model_predictive_log_likelihood
                   (map np_const (zero_perturbations params inputs))
                   (params_const params) (np_const inputs) g))
    as [[v aux]|] eqn:E; [|discriminate].
  cbn [mbind result_bind]. intros [= <- <-].
  split; [eauto | reflexivity].
Qed.

(** The observed run: the plain forward pass at zero perturbation and the
    targets sampled from it. *)
Lemma observed_run (params : list (ndarray R * ndarray1 R)) (inputs : ndarray R)
    (g : rng_state) (v : dual) (aux : list (ndarray dual)) :
  fst (model_predictive_log_likelihood (T:=dual)
         (map np_const (zero_perturbations params inputs))
         (params_const params) (np_const inputs) g) = Ok (v, aux) ->
  exists lp acts targets,
    neural_net_predict_and_activations (zero_perturbations params inputs) params inputs
    = Ok (lp, acts) /\
    fst (sample_discrete_from_log lp g) = Ok targets /\
    nrows targets = nrows inputs.
Proof.
  rewrite model_predictive_log_likelihood_fst.
  destruct (neural_net_predict_and_activations _ _ _) as [[lp_t acts_t]|] eqn:Erun;
    [|discriminate].
  cbn [mbind result_bind].
  destruct (traced_forward_primal params inputs _ (zero_perturbations params inputs)
              lp_t acts_t (const_rel _ _ (zero_perturbations_rows params inputs)) Erun)
    as (lp & acts & Hrun & Hlp).
  destruct (fst (sample_discrete_from_log (np_getval lp_t) g)) as [t|] eqn:Et;
    [|discriminate].
  intros _.
  destruct (sample_rel (fun i => i) (nrows inputs) (np_getval lp_t) lp g g)
    with (x := t) as (targets & Htargets & Hrel); auto.
  exists lp, acts, targets. split; [exact Hrun|]. split; [exact Htargets|].
  destruct Hrel as (_ & Hn & _). exact Hn.
Qed.

Lemma gradient_entry_frozen (params : list (ndarray R * ndarray1 R)) (inputs : ndarray R)
    (g : rng_state) (lp : ndarray R) (acts : list (ndarray R)) (targets : ndarray R)
    (l i j : nat) :
  neural_net_predict_and_activations (zero_perturbations params inputs) params inputs
  = Ok (lp, acts) ->
  fst (sample_discrete_from_log lp g) = Ok targets ->
  match fst (model_predictive_log_likelihood (T:=dual)
               (seed (zero_perturbations params inputs) l i j)
               (params_const params) (np_const inputs) g) with
  | Ok (v, _) => tangent v
  | Raise _ => 0
  end
  = tangent_of (frozen_objective targets params inputs
                  (seed (zero_perturbations params inputs) l i j)).
Proof.
  intros Hrun Htargets.
  rewrite model_predictive_log_likelihood_fst. unfold frozen_objective.
  destruct (neural_net_predict_and_activations (T:=dual)
              (seed (zero_perturbations params inputs) l i j)
              (params_const params) (np_const inputs))
    as [[lp_t acts_t]|] eqn:Erun; [|reflexivity].
  cbn [mbind result_bind].
  destruct (traced_forward_primal params inputs _ (zero_perturbations params inputs)
              lp_t acts_t
              (seeded_rel _ i j _ (zero_perturbations_rows params inputs) _) Erun)
    as (lp' & acts' & Hrun' & Hlp).
  rewrite Hrun in Hrun'. injection Hrun' as <- <-.
  destruct (sample_rel (fun i => i) (nrows inputs) lp (np_getval lp_t) g g)
    with (x := targets) as (t & Ht & Hrel); auto using rel_rows_eq_sym.
  rewrite Ht. cbn [mbind result_bind].
  assert (Hn : nrows lp_t = nrows inputs) by (destruct Hlp as (Hn & _); exact Hn).
  pose proof (weighted_sum_ext (nrows inputs) lp_t t targets Hn
                (rel_rows_eq_sym _ _ _ Hrel)) as Hw.
  destruct (np_mul lp_t (np_const t)) as [w|]; destruct (np_mul lp_t (np_const targets)) as [w'|];
    cbn [mbind result_bind] in *; try discriminate; [|reflexivity].
  injection Hw as ->. reflexivity.
Qed.


(** ** Traced numbers carry derivatives *)

Lemma cosh_neq_0 (x : R) : cosh x <> 0.
Proof.
  unfold cosh. pose proof (exp_pos x). pose proof (exp_pos (- x)). lra.
Qed.

Lemma derivable_pt_lim_tanh (x : R) : derivable_pt_lim tanh x (1 - tanh x * tanh x).
Proof.
  pose proof (cosh_neq_0 x) as Hc.
  replace (1 - tanh x * tanh x)
    with ((cosh x * cosh x - sinh x * sinh x) / Rsqr (cosh x))
    by (unfold tanh, Rsqr; field; exact Hc).
  exact (derivable_pt_lim_div sinh cosh x _ _
           (derivable_pt_lim_sinh x) (derivable_pt_lim_cosh x) Hc).
Qed.

Lemma derivable_pt_lim_ext (f g : R -> R) (x l : R) :
  (forall t, f t = g t) -> derivable_pt_lim f x l -> derivable_pt_lim g x l.
Proof.
  intros Hfg Hf eps Heps. destruct (Hf eps Heps) as (delta & Hd).
  exists delta. intros h Hh Hlt. rewrite <- !Hfg. now apply Hd.
Qed.

Lemma fun_sum_apply (m : nat) (F : nat -> R -> R) (t : R) :
  s_sum (H:=Scalar_fun) m F t = s_sum (T:=R) m (fun k => F k t).
Proof. induction m as [|m IH]; simpl; [reflexivity | now rewrite IH]. Qed.

Lemma tracked_const (c : R) : tracked_by (fun _ => c) (s_const c).
Proof. split; [reflexivity|]. apply (derivable_pt_lim_const c 0). Qed.

Lemma tracked_add (f g : R -> R) (d e : dual) :
  tracked_by f d -> tracked_by g e -> tracked_by (fun t => f t + g t) (s_add d e).
Proof.
  intros (Hf & Hf') (Hg & Hg'). split; simpl; [congruence|].
  apply (derivable_pt_lim_plus f g 0 _ _ Hf' Hg').
Qed.

Lemma tracked_sub (f g : R -> R) (d e : dual) :
  tracked_by f d -> tracked_by g e -> tracked_by (fun t => f t - g t) (s_sub d e).
Proof.
  intros (Hf & Hf') (Hg & Hg'). split; simpl; [congruence|].
  apply (derivable_pt_lim_minus f g 0 _ _ Hf' Hg').
Qed.

Lemma tracked_mul (f g : R -> R) (d e : dual) :
  tracked_by f d -> tracked_by g e -> tracked_by (fun t => f t * g t) (s_mul d e).
Proof.
  intros (Hf & Hf') (Hg & Hg'). split; simpl; [congruence|].
  rewrite <- Hf, <- Hg.
  apply (derivable_pt_lim_mult f g 0 _ _ Hf' Hg').
Qed.

Lemma tracked_exp (f : R -> R) (d : dual) :
  tracked_by f d -> tracked_by (fun t => exp (f t)) (s_exp d).
Proof.
  intros (Hf & Hf'). split; simpl; [congruence|].
  rewrite <- Hf, Rmult_comm.
  apply (derivable_pt_lim_comp f exp 0 _ _ Hf' (derivable_pt_lim_exp (f 0))).
Qed.

Lemma tracked_tanh (f : R -> R) (d : dual) :
  tracked_by f d -> tracked_by (fun t => tanh (f t)) (s_tanh d).
Proof.
  intros (Hf & Hf'). split; simpl; [congruence|].
  rewrite <- Hf, Rmult_comm.
  apply (derivable_pt_lim_comp f tanh 0 _ _ Hf' (derivable_pt_lim_tanh (f 0))).
Qed.

Lemma tracked_log (f : R -> R) (d : dual) :
  0 < f 0 -> tracked_by f d -> tracked_by (fun t => ln (f t)) (s_log d).
Proof.
  intros Hpos (Hf & Hf'). split; simpl; [congruence|].
  rewrite <- Hf. unfold Rdiv. rewrite Rmult_comm.
  apply (derivable_pt_lim_comp f ln 0 _ _ Hf' (derivable_pt_lim_ln (f 0) Hpos)).
Qed.

(** The arithmetic of traced numbers is differentiation by the chain
    rule: it is respected by every operation of the forward pass. *)
Lemma tracked_scalar_rel : scalar_rel (S1:=Scalar_fun) (T2:=dual) tracked_by.
Proof.
  split.
  - exact tracked_const.
  - intros f g d e. apply tracked_add.
  - intros f g d e. apply tracked_sub.
  - intros f g d e. apply tracked_mul.
  - intros f d. apply tracked_exp.
  - intros f d. apply tracked_tanh.
  - intros m f g Hm Hfg.
    apply (tracked_log (s_sum (H:=Scalar_fun) m (fun k => s_exp (Scalar:=Scalar_fun) (f k)))).
    + rewrite fun_sum_apply. apply rsum_pos; [exact Hm|]. intros k. apply exp_pos.
    + induction m as [|m IH]; [apply tracked_const|].
      apply tracked_add; [|apply tracked_exp, Hfg; lia].
      destruct m as [|m']; [apply tracked_const|].
      apply IH; [lia | intros; apply Hfg; lia].
Qed.

(** Evaluating the parameter at [t]. *)
Lemma eval_scalar_rel (t : R) :
  scalar_rel (S1:=Scalar_fun) (T2:=R) (fun f y => f t = y).
Proof. apply scalar_rel_of_log; simpl; intros; subst; reflexivity. Qed.

(** Whether a run returns depends on the shapes only. *)
Lemma any_scalar_rel {T1 T2 : Type} (S1 : Scalar T1) (S2 : Scalar T2) :
  scalar_rel (S1:=S1) (S2:=S2) (fun _ _ => True).
Proof. split; intros; exact I. Qed.

Lemma rel_layers_params_const {T1 T2 : Type} {S1 : Scalar T1} {S2 : Scalar T2}
    (rho : T1 -> T2 -> Prop) (phi : nat -> nat) (n : nat)
    (params : list (ndarray R * ndarray1 R))
    (ebs1 : list (ndarray T1)) (ebs2 : list (ndarray T2)) :
  scalar_rel rho ->
  Forall2 (rel_rows rho phi n) ebs1 ebs2 ->
  Forall2 (rel_layer rho phi n)
    (py_zip (params_const params) ebs1) (py_zip (params_const params) ebs2).
Proof.
  intros Hrho H. revert params.
  induction H as [|e1 e2 ebs1 ebs2 He _ IH]; intros [|[W b] params]; simpl;
    try constructor.
  - split; [|split]; simpl; [| |exact He].
    + repeat split. intros i j _ _. apply (rel_const rho Hrho).
    + repeat split. intros j _. apply (rel_const rho Hrho).
  - apply IH.
Qed.

(** Two runs of the objective on related perturbations. *)
Lemma frozen_objective_rel {T1 T2 : Type} {S1 : Scalar T1} {S2 : Scalar T2}
    (rho : T1 -> T2 -> Prop) (targets : ndarray R)
    (params : list (ndarray R * ndarray1 R)) (inputs : ndarray R)
    (ebs1 : list (ndarray T1)) (ebs2 : list (ndarray T2)) :
  scalar_rel rho ->
  nrows targets = nrows inputs ->
  Forall2 (rel_rows rho (fun i => i) (nrows inputs)) ebs1 ebs2 ->
  ok_rel rho (frozen_objective targets params inputs ebs1)
             (frozen_objective targets params inputs ebs2).
Proof.
  intros Hrho Ht Hebs x. unfold frozen_objective.
  destruct (neural_net_predict_and_activations ebs1 _ _) as [[lp1 acts1]|] eqn:E1;
    [|discriminate].
  destruct (forward_rel rho (fun i => i) (nrows inputs) (fun i Hi => Hi) Hrho)
    with (x := (lp1, acts1))
         (ebs1 := ebs1) (params1 := params_const (T:=T1) params)
         (inputs1 := np_const (T:=T1) inputs)
         (ebs2 := ebs2) (params2 := params_const (T:=T2) params)
         (inputs2 := np_const (T:=T2) inputs)
    as ([lp2 acts2] & -> & Hlp); try assumption.
  { repeat split. intros i j _ _. apply (rel_const rho Hrho). }
  { now apply rel_layers_params_const. }
  cbn [fst] in Hlp. cbn [mbind result_bind].
  destruct (np_mul lp1 (np_const targets)) as [w1|] eqn:Ew; [|discriminate].
  destruct (np_binop_rel rho (fun i => i) (nrows inputs) (fun i Hi => Hi) s_mul s_mul
              lp1 (np_const targets) lp2 (np_const targets) (rel_mul rho Hrho))
    with (x := w1) as (w2 & Hw2 & Hw); try assumption.
  { repeat split; try assumption. intros i j _ _. apply (rel_const rho Hrho). }
  change (np_mul lp2 (np_const targets) = Ok w2) in Hw2. rewrite Hw2.
  cbn [mbind result_bind]. intros [= <-].
  eexists. split; [reflexivity|].
  destruct Hw as (Hr1 & Hr2 & Hc & Hi). unfold np_sum. rewrite Hr1, Hr2, <- Hc.
  apply (s_sum_rel rho (fun i => i) (nrows inputs) (fun i Hi => Hi) Hrho). intros i Hi'.
  apply (s_sum_rel rho (fun i => i) (nrows inputs) (fun i Hi => Hi) Hrho). intros j Hj.
  apply Hi; assumption.
Qed.

Lemma imap_rel {T1 T2 : Type} (rho : T1 -> T2 -> Prop) (n : nat)
    (F1 : bool -> ndarray R -> ndarray T1) (F2 : bool -> ndarray R -> ndarray T2)
    (x : list (ndarray R)) :
  (forall b a, nrows a = n -> rel_rows rho (fun i => i) n (F1 b a) (F2 b a)) ->
  Forall (fun a => nrows a = n) x ->
  forall hit : nat -> bool,
    Forall2 (rel_rows rho (fun i => i) n)
      (imap (fun l a => F1 (hit l) a) x) (imap (fun l a => F2 (hit l) a) x).
Proof.
  intros HF. induction 1 as [|a x Ha _ IH]; intros hit; simpl; constructor.
  - now apply HF.
  - apply (IH (fun l => hit (S l))).
Qed.

Lemma perturb_tracked (i0 j0 : nat) (b : bool) (a : ndarray R) :
  rel_rows tracked_by (fun i => i) (nrows a)
    (perturb_fun_array a b i0 j0) (seed_array a b i0 j0).
Proof.
  split; [reflexivity|]. split; [reflexivity|]. split; [reflexivity|].
  intros i' j' _ _. simpl.
  destruct (b && (i' =? i0)%nat && (j' =? j0)%nat).
  - split; simpl; [lra|].
    replace 1 with (0 + 1) by lra.
    apply (derivable_pt_lim_plus (fun _ => item a i' j') id 0 0 1);
      [apply derivable_pt_lim_const | apply derivable_pt_lim_id].
  - split; simpl; [reflexivity|]. apply (derivable_pt_lim_const (item a i' j') 0).
Qed.

(** The derivative carried by the traced objective is the derivative of
    the objective as a function of the perturbed entry. *)
Lemma tangent_is_derivative (targets : ndarray R)
    (params : list (ndarray R * ndarray1 R)) (inputs : ndarray R) (l i j : nat) :
  nrows targets = nrows inputs ->
  derivable_pt_lim
    (fun t => objective_value targets params inputs
                (perturb (zero_perturbations params inputs) l i j t))
    0
    (tangent_of (frozen_objective targets params inputs
                   (seed (zero_perturbations params inputs) l i j))).
Proof.
  intros Ht. set (x := zero_perturbations params inputs).
  pose proof (zero_perturbations_rows params inputs) as Hx. fold x in Hx.
  destruct (frozen_objective targets params inputs (seed x l i j)) as [d|e] eqn:Ed.
  - (* the traced run returns: so does the run on functions of [t] *)
    destruct (frozen_objective_rel (S1:=Scalar_dual) (S2:=Scalar_fun) (fun _ _ => True)
                targets params inputs (seed x l i j) (perturb_fun x l i j)
                (any_scalar_rel _ _) Ht) with (x := d) as (F & HF & _); [|exact Ed|].
    { apply (imap_rel _ _ (fun b a => seed_array a b i j)
               (fun b a => perturb_fun_array a b i j)); [|exact Hx].
      intros b a Ha. repeat split; assumption. }
    destruct (frozen_objective_rel (S1:=Scalar_fun) (S2:=Scalar_dual) tracked_by
                targets params inputs (perturb_fun x l i j) (seed x l i j)
                tracked_scalar_rel Ht) with (x := F) as (d' & Hd' & Htr); [|exact HF|].
    { apply (imap_rel _ _ (fun b a => perturb_fun_array a b i j)
               (fun b a => seed_array a b i j)); [|exact Hx].
      intros b a <-. apply perturb_tracked. }
    rewrite Ed in Hd'. injection Hd' as <-. simpl.
    apply (derivable_pt_lim_ext F); [|exact (proj2 Htr)].
    intros t. unfold objective_value.
    destruct (frozen_objective_rel (S1:=Scalar_fun) (S2:=Scalar_R) (fun f y => f t = y)
                targets params inputs (perturb_fun x l i j) (perturb x l i j t)
                (eval_scalar_rel t) Ht) with (x := F) as (y & -> & Hy); [|exact HF|].
    { apply (imap_rel _ _ (fun b a => perturb_fun_array a b i j)
               (fun b a => perturb_array a b i j t)); [|exact Hx].
      intros b a Ha. repeat split; assumption. }
    exact Hy.
  - (* the traced run raises: so does every plain run, whose value is 0 *)
    simpl. apply (derivable_pt_lim_ext (fun _ => 0)); [|apply derivable_pt_lim_const].
    intros t. unfold objective_value.
    destruct (frozen_objective targets params inputs (perturb x l i j t)) as [y|] eqn:Ey;
      [|reflexivity].
    destruct (frozen_objective_rel (S1:=Scalar_R) (S2:=Scalar_dual) (fun _ _ => True)
                targets params inputs (perturb x l i j t) (seed x l i j)
                (any_scalar_rel _ _) Ht) with (x := y) as (d & Hd & _); [|exact Ey|].
    { apply (imap_rel _ _ (fun b a => perturb_array a b i j t)
               (fun b a => seed_array a b i j)); [|exact Hx].
      intros b a Ha. repeat split; assumption. }
    rewrite Ed in Hd. discriminate.
Qed.

(** C7.  The gradient samples of [collect_activations_and_grad_samples]
    are, entry by entry and layer by layer, the derivative with respect
    to the injected perturbation of the scalar [sum(logprobs * targets)]
    in which the targets are held fixed at the values that were sampled
    in the observed (untraced) run: each entry is what the traced
    objective with constant targets carries, and it is the derivative at
    0 of that objective as a function of the perturbed entry.  Nothing is
    differentiated through the sampling of the targets. *)
Theorem collect_grad_samples_targets_constant
    (params : list (ndarray R * ndarray1 R)) (inputs : ndarray R) (g : rng_state)
    (a_samples g_samples : list (ndarray R)) :
  fst (collect_activations_and_grad_samples params inputs g) = Ok (a_samples, g_samples) ->
  exists logprobs activations targets,
    neural_net_predict_and_activations (zero_perturbations params inputs) params inputs
    = Ok (logprobs, activations) /\
    fst (sample_discrete_from_log logprobs g) = Ok targets /\
    length g_samples = length params /\
    forall l extra_bias g_sample,
      zero_perturbations params inputs !! l = Some extra_bias ->
      g_samples !! l = Some g_sample ->
      shape g_sample = shape extra_bias /\
      forall i j,
        item g_sample i j =
        tangent_of (frozen_objective targets params inputs
                      (seed (zero_perturbations params inputs) l i j)) /\
        derivable_pt_lim
          (fun t => objective_value targets params inputs
                      (perturb (zero_perturbations params inputs) l i j t))
          0 (item g_sample i j).
Proof.
  intros Hc. apply collect_inv in Hc. destruct Hc as ((v & aux & Hv) & ->).
  destruct (observed_run params inputs g v aux Hv)
    as (lp & acts & targets & Hrun & Ht & Hrows).
  exists lp, acts, targets. split; [exact Hrun|]. split; [exact Ht|]. split.
  - rewrite length_imap. unfold zero_perturbations. apply length_map.
  - intros l eb gs Heb Hgs.
    rewrite list_lookup_imap, Heb in Hgs. simpl in Hgs. injection Hgs as <-.
    split; [reflexivity|].
    intros i j. simpl.
    rewrite (gradient_entry_frozen params inputs g lp acts targets l i j Hrun Ht).
    split; [reflexivity|].
    apply tangent_is_derivative. exact Hrows.
Qed.

Lemma rel_layers_traced (n : nat) (params : list (ndarray R * ndarray1 R))
    (ebs : list (ndarray R)) :
  Forall (fun a => nrows a = n) ebs ->
  Forall2 (rel_layer (fun (x : R) (y : dual) => x = primal y) (fun i => i) n)
    (py_zip params ebs)
    (py_zip (params_const (T:=dual) params) (map (np_const (T:=dual)) ebs)).
Proof.
  intros H. revert params.
  induction H as [|eb ebs Heb _ IH]; intros [|[W b] params]; simpl; try constructor.
  - split; [|split]; simpl; repeat split; assumption.
  - apply IH.
Qed.

(** [collect_activations_and_grad_samples] returns on a conforming
    network. *)
Lemma collect_returns (params : list (ndarray R * ndarray1 R)) (inputs : ndarray R)
    (g : rng_state) :
  params <> [] ->
  layers_conform (nrows inputs) (ncols inputs)
    (py_zip params (zero_perturbations params inputs)) ->
  (0 < output_width (ncols inputs) (py_zip params (zero_perturbations params inputs)))%nat ->
  uniform01 g ->
  exists a_samples g_samples,
    fst (collect_activations_and_grad_samples params inputs g) = Ok (a_samples, g_samples).
Proof.
  intros Hne Hc Hw Hg.
  destruct (forward_pass_spec (zero_perturbations params inputs) params inputs)
    as (lp & acts & Hrun & Hs & Hnorm & _); try assumption.
  { unfold zero_perturbations. apply length_map. }
  destruct (forward_rel (T1:=R) (T2:=dual) (fun x y => x = primal y) (fun i => i)
              (nrows inputs) (fun i Hi => Hi) primal_of_scalar_rel)
    with (x := (lp, acts))
         (ebs1 := zero_perturbations params inputs) (params1 := params) (inputs1 := inputs)
         (ebs2 := map (np_const (T:=dual)) (zero_perturbations params inputs))
         (params2 := params_const (T:=dual) params)
         (inputs2 := np_const (T:=dual) inputs)
    as ([lp_t acts_t] & Hrun_t & Hlp); try assumption.
  - repeat split.
  - apply rel_layers_traced, zero_perturbations_rows.
  - cbn [fst] in Hlp. destruct Hlp as (Hr1 & Hr2 & Hcol & Hi).
    unfold shape in Hs. injection Hs as Hsr Hsc.
    assert (Hn : normalized (np_getval lp_t)).
    { intros i Hi'. simpl in *. rewrite <- Hcol.
      rewrite <- (Hnorm i) by congruence.
      apply rsum_ext. intros k Hk. rewrite <- Hi by congruence. reflexivity. }
    destruct (sample_discrete_from_log_spec (np_getval lp_t) g Hg Hn)
      as (t & Ht & Hts & _).
    unfold shape in Hts. simpl in Hts. injection Hts as Htr Htc.
    unfold collect_activations_and_grad_samples, grad_and_aux. cbn [fst].
    fold (zero_perturbations params inputs).
    rewrite model_predictive_log_likelihood_fst, Hrun_t. cbn [mbind result_bind].
    rewrite Ht. cbn [mbind result_bind].
    unfold np_mul, np_binop. simpl. rewrite Htr, Htc, !broadcast_dim_same.
    cbn [mbind result_bind]. eauto.
Qed.

(** ** Object identity: what the update step changes (C9) *)

Lemma alloc_spec (o : obj) (σ : store) :
  σ !! fst (alloc o σ) = None /\
  snd (alloc o σ) = <[fst (alloc o σ) := o]> σ.
Proof.
  unfold alloc. simpl. split; [|reflexivity].
  apply not_elem_of_dom, is_fresh.
Qed.

Lemma alloc_subseteq (o : obj) (σ : store) : σ ⊆ snd (alloc o σ).
Proof.
  destruct (alloc_spec o σ) as (Hf & ->). now apply insert_subseteq.
Qed.

Lemma alloc_lookup (o : obj) (σ : store) : snd (alloc o σ) !! fst (alloc o σ) = Some o.
Proof. destruct (alloc_spec o σ) as (_ & ->). apply lookup_insert_eq. Qed.

Lemma load_val_mono (σ σ' : store) (l : nat) (v : pyvalue) :
  σ ⊆ σ' -> load_val σ l = Ok v -> load_val σ' l = Ok v.
Proof.
  intros Hsub. unfold load_val.
  destruct (σ !! l) as [[v'|items]|] eqn:E; try discriminate.
  intros [= <-]. now rewrite (lookup_weaken _ _ _ _ E Hsub).
Qed.

Lemma load_seq_mono (σ σ' : store) (l : nat) (items : list nat) :
  σ ⊆ σ' -> load_seq σ l = Ok items -> load_seq σ' l = Ok items.
Proof.
  intros Hsub. unfold load_seq.
  destruct (σ !! l) as [[v'|items']|] eqn:E; try discriminate.
  intros [= <-]. now rewrite (lookup_weaken _ _ _ _ E Hsub).
Qed.

Lemma py_map_mono {A B : Type} (f f' : A -> result B) (l : list A) (ys : list B) :
  (forall x y, f x = Ok y -> f' x = Ok y) ->
  py_map f l = Ok ys -> py_map f' l = Ok ys.
Proof.
  intros Hf. revert ys. induction l as [|x l IH]; intros ys; simpl; [auto|].
  destruct (f x) as [y|] eqn:E; [|discriminate]. cbn [mbind result_bind].
  rewrite (Hf x y E). cbn [mbind result_bind].
  destruct (py_map f l) as [ys'|]; [|discriminate]. cbn [mbind result_bind].
  rewrite (IH ys' eq_refl). auto.
Qed.

Lemma load_values_mono (σ σ' : store) (l : nat) (vs : list pyvalue) :
  σ ⊆ σ' -> load_values σ l = Ok vs -> load_values σ' l = Ok vs.
Proof.
  intros Hsub. unfold load_values.
  destruct (load_seq σ l) as [items|] eqn:E; [|discriminate].
  rewrite (load_seq_mono σ σ' l items Hsub E). cbn [mbind result_bind].
  apply py_map_mono. intros x y. now apply load_val_mono.
Qed.

Lemma load_pair_mono (σ σ' : store) (l : nat) (xy : nat * nat) :
  σ ⊆ σ' -> load_pair σ l = Ok xy -> load_pair σ' l = Ok xy.
Proof.
  intros Hsub. unfold load_pair.
  destruct (load_seq σ l) as [items|] eqn:E; [|discriminate].
  now rewrite (load_seq_mono σ σ' l items Hsub E).
Qed.

(** Whatever was read through a reference before new objects were
    allocated is read through it afterwards. *)
Lemma load_estimates_mono (σ σ' : store) (l : nat) (est : list pyvalue * list pyvalue) :
  σ ⊆ σ' -> load_estimates σ l = Ok est -> load_estimates σ' l = Ok est.
Proof.
  intros Hsub. unfold load_estimates.
  destruct (load_pair σ l) as [[a b]|] eqn:E; [|discriminate].
  rewrite (load_pair_mono σ σ' l _ Hsub E). cbn [mbind result_bind].
  destruct (load_values σ a) as [As|] eqn:EA; [|discriminate].
  rewrite (load_values_mono σ σ' a As Hsub EA). cbn [mbind result_bind].
  destruct (load_values σ b) as [Gs|] eqn:EG; [|discriminate].
  rewrite (load_values_mono σ σ' b Gs Hsub EG). auto.
Qed.

Lemma alloc_values_spec (vs : list pyvalue) :
  forall σ : store,
    σ ⊆ snd (alloc_values vs σ) /\
    py_map (load_val (snd (alloc_values vs σ))) (fst (alloc_values vs σ)) = Ok vs.
Proof.
  induction vs as [|v vs IH]; intros σ; cbn [alloc_values].
  - split; [apply map_subseteq_spec; auto | reflexivity].
  - destruct (alloc (ObjVal v) σ) as [l σ1] eqn:E1.
    destruct (alloc_values vs σ1) as [ls σ2] eqn:E2. cbn [fst snd py_map].
    pose proof (alloc_subseteq (ObjVal v) σ) as H1.
    pose proof (alloc_lookup (ObjVal v) σ) as Hl.
    rewrite E1 in H1, Hl. cbn [fst snd] in H1, Hl.
    destruct (IH σ1) as (H2 & Hload). rewrite E2 in H2, Hload. cbn [fst snd] in H2, Hload.
    split; [etrans; eassumption|].
    assert (Hv : load_val σ2 l = Ok v).
    { unfold load_val. now rewrite (lookup_weaken _ _ _ _ Hl H2). }
    simpl. rewrite Hv. cbn [mbind result_bind]. rewrite Hload. reflexivity.
Qed.

(** The store after [update_factor_estimates]: the old store with new
    objects added, among them the returned pair of estimates. *)
Lemma update_factor_estimates_st_spec (old_estimates samples : nat) (eps : R) (σ : store)
    (est new_est : list pyvalue * list pyvalue)
    (smp : list (list (ndarray R)) * list (list (ndarray R))) :
  load_estimates σ old_estimates = Ok est ->
  load_samples σ samples = Ok smp ->
  update_factor_estimates est smp eps = Ok new_est ->
  exists l' σ',
    update_factor_estimates_st old_estimates samples eps σ = (Ok l', σ') /\
    σ ⊆ σ' /\ σ !! l' = None /\
    load_estimates σ' l' = Ok new_est.
Proof.
  unfold load_estimates, load_samples, update_factor_estimates_st.
  destruct (load_pair σ old_estimates) as [[As_ref Gs_ref]|]; [|discriminate].
  cbn [mbind result_bind].
  destruct (load_values σ As_ref) as [As|]; [|discriminate]. cbn [mbind result_bind].
  destruct (load_values σ Gs_ref) as [Gs|]; [|discriminate]. cbn [mbind result_bind].
  intros [= <-].
  destruct (load_pair σ samples) as [[a_ref g_ref]|]; [|discriminate].
  cbn [mbind result_bind].
  destruct (load_layers σ a_ref) as [a_samples|]; [|discriminate]. cbn [mbind result_bind].
  destruct (load_layers σ g_ref) as [g_samples|]; [|discriminate]. cbn [mbind result_bind].
  intros [= <-] ->. destruct new_est as [As' Gs'].
  destruct (alloc_values As' σ) as [As_items σ1] eqn:E1.
  destruct (alloc (ObjSeq As_items) σ1) as [As_new σ2] eqn:E2.
  destruct (alloc_values Gs' σ2) as [Gs_items σ3] eqn:E3.
  destruct (alloc (ObjSeq Gs_items) σ3) as [Gs_new σ4] eqn:E4.
  destruct (alloc (ObjSeq [As_new; Gs_new]) σ4) as [res σ5] eqn:E5.
  exists res, σ5. split; [reflexivity|].
  destruct (alloc_values_spec As' σ) as (S1 & L1). rewrite E1 in S1, L1. cbn [fst snd] in S1, L1.
  pose proof (alloc_subseteq (ObjSeq As_items) σ1) as S2.
  pose proof (alloc_lookup (ObjSeq As_items) σ1) as L2.
  rewrite E2 in S2, L2. cbn [fst snd] in S2, L2.
  destruct (alloc_values_spec Gs' σ2) as (S3 & L3). rewrite E3 in S3, L3. cbn [fst snd] in S3, L3.
  pose proof (alloc_subseteq (ObjSeq Gs_items) σ3) as S4.
  pose proof (alloc_lookup (ObjSeq Gs_items) σ3) as L4.
  rewrite E4 in S4, L4. cbn [fst snd] in S4, L4.
  pose proof (alloc_subseteq (ObjSeq [As_new; Gs_new]) σ4) as S5.
  pose proof (alloc_lookup (ObjSeq [As_new; Gs_new]) σ4) as L5.
  destruct (alloc_spec (ObjSeq [As_new; Gs_new]) σ4) as (F5 & _).
  rewrite E5 in S5, L5, F5. cbn [fst snd] in S5, L5, F5.
  assert (S04 : σ ⊆ σ4) by (etrans; [exact S1|]; etrans; [exact S2|]; etrans; eassumption).
  split; [etrans; eassumption|]. split.
  - destruct (σ !! res) as [o|] eqn:E; [|reflexivity].
    rewrite (lookup_weaken _ _ _ _ E S04) in F5. discriminate.
  - unfold load_pair, load_values, load_seq. rewrite L5. cbn [mbind result_bind].
    assert (S25 : σ2 ⊆ σ5) by (etrans; [exact S3|]; etrans; eassumption).
    rewrite (lookup_weaken _ _ _ _ L2 S25). cbn [mbind result_bind].
    rewrite (py_map_mono (load_val σ1) (load_val σ5) As_items As').
    + cbn [mbind result_bind].
      rewrite (lookup_weaken _ _ _ _ L4 S5). cbn [mbind result_bind].
      rewrite (py_map_mono (load_val σ3) (load_val σ5) Gs_items Gs').
      * reflexivity.
      * intros x y. apply load_val_mono. etrans; eassumption.
      * exact L3.
    + intros x y. apply load_val_mono. etrans; [exact S2|exact S25].
    + exact L1.
Qed.

Lemma update_factor_estimates_st_inv (old_estimates samples : nat) (eps : R) (σ σ' : store)
    (l' : nat) :
  update_factor_estimates_st old_estimates samples eps σ = (Ok l', σ') ->
  exists est smp new_est,
    load_estimates σ old_estimates = Ok est /\
    load_samples σ samples = Ok smp /\
    update_factor_estimates est smp eps = Ok new_est.
Proof.
  unfold update_factor_estimates_st, load_estimates, load_samples.
  destruct (load_pair σ old_estimates) as [[As_ref Gs_ref]|]; cbn [mbind result_bind];
    [|discriminate].
  destruct (load_pair σ samples) as [[a_ref g_ref]|]; cbn [mbind result_bind];
    [|discriminate].
  destruct (load_values σ As_ref) as [As|]; cbn [mbind result_bind]; [|discriminate].
  destruct (load_values σ Gs_ref) as [Gs|]; cbn [mbind result_bind]; [|discriminate].
  destruct (load_layers σ a_ref) as [a_samples|]; cbn [mbind result_bind]; [|discriminate].
  destruct (load_layers σ g_ref) as [g_samples|]; cbn [mbind result_bind]; [|discriminate].
  destruct (update_factor_estimates (As, Gs) (a_samples, g_samples) eps)
    as [new_est|] eqn:E; [|discriminate].
  intros _. eauto 10.
Qed.

Lemma update_factor_estimates_st_raise (old_estimates samples : nat) (eps : R)
    (σ σ' : store) (e : exn) :
  update_factor_estimates_st old_estimates samples eps σ = (Raise e, σ') -> σ' = σ.
Proof.
  unfold update_factor_estimates_st.
  destruct (_ ≫= _) as [[As' Gs']|e']; [|now intros [= _ <-]].
  destruct (alloc_values As' σ) as [? σ1].
  destruct (alloc _ σ1) as [? σ2].
  destruct (alloc_values Gs' σ2) as [? σ3].
  destruct (alloc _ σ3) as [? σ4].
  destruct (alloc _ σ4) as [? σ5].
  discriminate.
Qed.

(** C9, as the code has it.  [update_factor_estimates] changes no
    object: the store after the call is the store before it with new
    objects added, so what [old_estimates] refers to still holds the old
    matrices; the updated matrices are in a new pair of new lists, whose
    reference is returned (the script then rebinds [factor_estimates] to
    it).  A call that raises leaves the store as it was. *)
Theorem update_factor_estimates_returns_fresh
    (old_estimates samples : nat) (eps : R) (σ σ' : store) (l' : nat) :
  update_factor_estimates_st old_estimates samples eps σ = (Ok l', σ') ->
  σ ⊆ σ' /\
  σ !! l' = None /\
  (exists est smp new_est,
     load_estimates σ old_estimates = Ok est /\
     load_samples σ samples = Ok smp /\
     update_factor_estimates est smp eps = Ok new_est /\
     load_estimates σ' old_estimates = Ok est /\
     load_estimates σ' l' = Ok new_est) /\
  (forall e σ'',
     update_factor_estimates_st old_estimates samples eps σ = (Raise e, σ'') -> σ'' = σ).
Proof.
  intros Hcall.
  destruct (update_factor_estimates_st_inv _ _ _ _ _ _ Hcall)
    as (est & smp & new_est & Hest & Hsmp & Hnew).
  destruct (update_factor_estimates_st_spec old_estimates samples eps σ est new_est smp
              Hest Hsmp Hnew) as (l1 & σ1 & Hcall1 & Hsub & Hfresh & Hload).
  rewrite Hcall in Hcall1. injection Hcall1 as <- <-.
  split; [exact Hsub|]. split; [exact Hfresh|]. split.
  - exists est, smp, new_est.
    repeat split; try assumption.
    exact (load_estimates_mono σ σ' old_estimates est Hsub Hest).
  - intros e σ''. apply update_factor_estimates_st_raise.
Qed.

Lemma script_store_estimates :
  load_estimates script_store 4 = Ok ([NdArray (np_eye 2)], [NdArray (np_eye 1)]).
Proof. reflexivity. Qed.

Lemma script_store_samples :
  load_samples script_store 9 = Ok ([[batch_two]], [[batch_two]]).
Proof. reflexivity. Qed.

(** C9 as stated fails: after the update step on the store of the
    script, [old_estimates] still refers to the identity matrices, while
    the updated activation factor, held by the new pair, is another
    matrix (its first entry is 0.05 * 1 + 0.95 * 4). *)
Lemma update_factor_estimates_in_place_counterexample :
  exists l' σ' new_As new_Gs,
    update_factor_estimates_st 4 9 default_eps script_store = (Ok l', σ') /\
    load_estimates σ' 4 = Ok ([NdArray (np_eye 2)], [NdArray (np_eye 1)]) /\
    script_store !! l' = None /\
    load_estimates σ' l' = Ok (new_As, new_Gs) /\
    ~ Forall2 same_array new_As [NdArray (np_eye 2)].
Proof.
  assert (Hnew : exists r Gs,
             update_factor_estimates ([NdArray (np_eye 2)], [NdArray (np_eye 1)])
               ([[batch_two]], [[batch_two]]) default_eps = Ok ([NdArray r], Gs) /\
             item r 0%nat 0%nat
             = default_eps * 1 + (1 - default_eps) * ((0 + (0 + 2 * 2)) / INR 1)).
  { eexists _, _. split; reflexivity. }
  destruct Hnew as (r & Gs & Hnew & Hr).
  destruct (update_factor_estimates_st_spec 4 9 default_eps script_store _ _ _
              script_store_estimates script_store_samples Hnew)
    as (l' & σ' & Hcall & Hsub & Hfresh & Hload).
  exists l', σ', [NdArray r], Gs.
  split; [exact Hcall|]. split; [|split; [exact Hfresh|split; [exact Hload|]]].
  - exact (load_estimates_mono _ _ _ _ Hsub script_store_estimates).
  - intros HF. apply Forall2_cons_1 in HF. destruct HF as ((_ & _ & Hi) & _).
    specialize (Hi 0%nat 0%nat). rewrite Hr in Hi. simpl in Hi.
    unfold default_eps in Hi.
    assert (Hshape : (0 < nrows r)%nat /\ (0 < ncols r)%nat).
    { unfold update_factor_estimates in Hnew. simpl in Hnew.
      injection Hnew as <- _. simpl. lia. }
    destruct Hshape as (H1 & H2). specialize (Hi H1 H2). lra.
Qed.

(** [append_samples], by contrast, changes the list objects it is given. *)
Lemma list_append_st_in_place (l x : nat) (items : list nat) (σ : store) :
  σ !! l = Some (ObjSeq items) ->
  exists σ', list_append_st l x σ = (Ok tt, σ') /\
             σ' !! l = Some (ObjSeq (items ++ [x])).
Proof.
  intros Hl. unfold list_append_st. rewrite Hl.
  eexists. split; [reflexivity | apply lookup_insert_eq].
Qed.

(** * The theorems at concrete inputs *)

Lemma update_factor_estimates_blends_witness :
  exists Ahats Ghats,
    estimate_block_kron_factors [[batch_two]] true = Ok Ahats /\
    estimate_block_kron_factors [[batch_two]] false = Ok Ghats /\
    Forall2 conformable [NdArray (np_eye 2)] Ahats /\
    Forall2 conformable [NdArray (np_eye 1)] Ghats /\
    exists As' Gs',
      update_factor_estimates ([NdArray (np_eye 2)], [NdArray (np_eye 1)])
        ([[batch_two]], [[batch_two]]) default_eps = Ok (As', Gs') /\
      Forall3 (blend_of default_eps) [NdArray (np_eye 2)] Ahats As'.
Proof.
  eexists _, _.
  assert (HA : Forall2 conformable [NdArray (np_eye 2)]
                 [NdArray (np_map (fun e => e / INR 1)
                    (np_map (fun e => 0 + e) (gram (homog_array true batch_two))))]).
  { repeat constructor. }
  assert (HG : Forall2 conformable [NdArray (np_eye 1)]
                 [NdArray (np_map (fun e => e / INR 1)
                    (np_map (fun e => 0 + e) (gram (homog_array false batch_two))))]).
  { repeat constructor. }
  split; [reflexivity|]. split; [reflexivity|]. split; [exact HA|]. split; [exact HG|].
  destruct (update_factor_estimates_blends
              [NdArray (np_eye 2)] [NdArray (np_eye 1)] [[batch_two]] [[batch_two]]
              _ _ eq_refl eq_refl HA HG) as (Hblend & _).
  destruct (Hblend default_eps) as (As' & Gs' & Hu & HbA & _).
  exists As', Gs'. split; [exact Hu | exact HbA].
Defined.

Lemma estimate_block_kron_factors_second_moment_witness :
  exists estimates,
    estimate_block_kron_factors [[batch_1x1]; [batch_1x1]] true = Ok estimates /\
    Forall2 (fun layer v =>
               is_array v (second_moment true layer (total_rows [batch_1x1])) /\
               (total_rows layer = total_rows [batch_1x1] ->
                is_array v (second_moment true layer (total_rows layer))))
            [[batch_1x1]; [batch_1x1]] estimates.
Proof.
  apply (estimate_block_kron_factors_second_moment
           [[batch_1x1]; [batch_1x1]] true [batch_1x1]).
  - reflexivity.
  - vm_compute. lia.
  - repeat constructor; discriminate.
Defined.

Lemma sample_discrete_from_log_one_hot_witness :
  exists r,
    fst (sample_discrete_from_log logprobs_halves rng_halves) = Ok r /\
    shape r = shape logprobs_halves /\
    (forall i, (i < nrows logprobs_halves)%nat ->
       exists k,
         one_hot_row r i k /\
         rng_halves i <= cum_prob logprobs_halves i k /\
         forall j, (j < k)%nat -> cum_prob logprobs_halves i j < rng_halves i) /\
    forall k, snd (sample_discrete_from_log logprobs_halves rng_halves) k
              = rng_halves (nrows logprobs_halves + k)%nat.
Proof.
  apply (sample_discrete_from_log_one_hot logprobs_halves rng_halves).
  - intros k. unfold rng_halves. lra.
  - intros i _. simpl. rewrite exp_ln_half. lra.
Defined.

Lemma init_factor_estimates_shapes_witness :
  exists As' Gs',
    update_factor_estimates (init_factor_estimates [784; 200; 100; 10]%nat)
      (one_batch [np_zeros 1 784; np_zeros 1 200; np_zeros 1 100],
       one_batch [np_zeros 1 200; np_zeros 1 100; np_zeros 1 10]) default_eps
    = Ok (As', Gs') /\
    map value_shape As' = [Some (785, 785); Some (201, 201); Some (101, 101)]%nat /\
    map value_shape Gs' = [Some (200, 200); Some (100, 100); Some (10, 10)]%nat.
Proof.
  destruct init_factor_estimates_shapes as (_ & _ & Hupdate & _).
  apply (Hupdate [np_zeros 1 784; np_zeros 1 200; np_zeros 1 100]
                 [np_zeros 1 200; np_zeros 1 100; np_zeros 1 10] default_eps);
    reflexivity.
Defined.

Lemma kron_factors_sym_psd_witness :
  (forall estimates,
     estimate_block_kron_factors [[batch_1x1]] true = Ok estimates ->
     Forall sym_psd estimates) /\
  exists estimates, estimate_block_kron_factors [[batch_1x1]] true = Ok estimates.
Proof.
  destruct kron_factors_sym_psd as (_ & Hest & _).
  destruct (Hest [[batch_1x1]] true [batch_1x1]) as (Hpsd & Hret).
  - reflexivity.
  - vm_compute. lia.
  - repeat constructor; discriminate.
  - split; [exact Hpsd|]. apply Hret. repeat constructor; discriminate.
Defined.

Lemma neural_net_predict_and_activations_contract_witness :
  exists logprobs activations,
    neural_net_predict_and_activations cex_extra_biases cex_params cex_inputs
    = Ok (logprobs, activations) /\
    nrows logprobs = nrows cex_inputs /\
    (forall i, (i < nrows logprobs)%nat ->
       s_sum (ncols logprobs) (fun j => exp (item logprobs i j)) = 1 /\
       ln (s_sum (ncols logprobs) (fun j => exp (item logprobs i j))) = 0) /\
    (exists zero, logsumexp logprobs = Ok zero /\
       forall i, (i < nrows logprobs)%nat -> item zero i 0%nat = 0) /\
    length activations = length cex_params /\
    hd_error activations = Some cex_inputs /\
    layer_inputs cex_inputs (py_zip cex_params cex_extra_biases) activations /\
    shape logprobs
    = (nrows cex_inputs,
       output_width (ncols cex_inputs) (py_zip cex_params cex_extra_biases)) /\
    exists front W b ebs eb s,
      cex_params = front ++ [(W, b)] /\ cex_extra_biases = ebs ++ [eb] /\
      pre_activation (List.last activations cex_inputs) W b eb = Ok s /\
      log_softmax_of s logprobs.
Proof.
  apply (neural_net_predict_and_activations_contract
           cex_extra_biases cex_params cex_inputs).
  - discriminate.
  - reflexivity.
  - simpl. repeat split.
  - simpl. lia.
Defined.

Lemma cex_collect_returns :
  exists a_samples g_samples,
    fst (collect_activations_and_grad_samples cex_params cex_inputs cex_rng)
    = Ok (a_samples, g_samples).
Proof.
  apply collect_returns.
  - discriminate.
  - simpl. repeat split.
  - simpl. lia.
  - exact cex_rng_uniform.
Qed.

Lemma collect_grad_samples_targets_constant_witness :
  exists a_samples g_samples,
    fst (collect_activations_and_grad_samples cex_params cex_inputs cex_rng)
    = Ok (a_samples, g_samples) /\
    exists logprobs activations targets,
      neural_net_predict_and_activations (zero_perturbations cex_params cex_inputs)
        cex_params cex_inputs = Ok (logprobs, activations) /\
      fst (sample_discrete_from_log logprobs cex_rng) = Ok targets /\
      length g_samples = length cex_params /\
      forall l extra_bias g_sample,
        zero_perturbations cex_params cex_inputs !! l = Some extra_bias ->
        g_samples !! l = Some g_sample ->
        shape g_sample = shape extra_bias /\
        forall i j,
          item g_sample i j =
          tangent_of (frozen_objective targets cex_params cex_inputs
                        (seed (zero_perturbations cex_params cex_inputs) l i j)) /\
          derivable_pt_lim
            (fun t => objective_value targets cex_params cex_inputs
                        (perturb (zero_perturbations cex_params cex_inputs) l i j t))
            0 (item g_sample i j).
Proof.
  destruct cex_collect_returns as (a_samples & g_samples & Hc).
  exists a_samples, g_samples. split; [exact Hc|].
  exact (collect_grad_samples_targets_constant cex_params cex_inputs cex_rng
           a_samples g_samples Hc).
Defined.

Lemma cex_log_likelihood_returns :
  exists v acts,
    fst (model_predictive_log_likelihood cex_extra_biases cex_params cex_inputs cex_rng)
    = Ok (v, acts).
Proof.
  destruct cex_forward as (lp & acts & Hrun & Hs & H00 & H01 & H10 & H11).
  assert (E2 : exp (- ln 2) = 1 / 2) by (rewrite exp_neg_ln; lra).
  assert (E4 : exp (- ln 4) = 1 / 4) by (rewrite exp_neg_ln; lra).
  assert (E34 : exp (ln 3 - ln 4) = 3 / 4) by (rewrite exp_ln_minus_ln; lra).
  unfold shape in Hs. injection Hs as Hr Hc.
  assert (Hn : normalized lp).
  { intros i Hi. rewrite Hc. simpl. rewrite Hr in Hi.
    destruct i as [|[|i]]; [| |lia]; rewrite ?H00, ?H01, ?H10, ?H11, ?E2, ?E4, ?E34; lra. }
  destruct (log_likelihood_value _ _ _ cex_rng lp acts Hrun cex_rng_uniform Hn)
    as (v & Hv & _).
  eauto.
Qed.

Lemma model_predictive_log_likelihood_permutation_witness :
  exists v,
    log_likelihood_of
      (model_predictive_log_likelihood cex_extra_biases cex_params cex_inputs cex_rng)
    = Some v /\
    log_likelihood_of
      (model_predictive_log_likelihood
         (map (permute_rows [1; 0]%nat) cex_extra_biases) cex_params
         (permute_rows [1; 0]%nat cex_inputs) (permute_draws [1; 0]%nat cex_rng))
    = Some v.
Proof.
  destruct cex_log_likelihood_returns as (v & acts & Hrun).
  exists v. split.
  - unfold log_likelihood_of. rewrite Hrun. reflexivity.
  - apply (model_predictive_log_likelihood_permutation
             [1; 0]%nat cex_extra_biases cex_params cex_inputs cex_rng v acts).
    + simpl. apply perm_swap.
    + repeat constructor.
    + exact Hrun.
Defined.

Lemma update_factor_estimates_returns_fresh_witness :
  exists l' σ',
    update_factor_estimates_st 4 9 default_eps script_store = (Ok l', σ') /\
    script_store ⊆ σ' /\ script_store !! l' = None.
Proof.
  assert (Hnew : exists new_est,
             update_factor_estimates ([NdArray (np_eye 2)], [NdArray (np_eye 1)])
               ([[batch_two]], [[batch_two]]) default_eps = Ok new_est).
  { eexists. reflexivity. }
  destruct Hnew as (new_est & Hnew).
  destruct (update_factor_estimates_st_spec 4 9 default_eps script_store _ _ _
              script_store_estimates script_store_samples Hnew)
    as (l' & σ' & Hcall & _).
  exists l', σ'. split; [exact Hcall|].
  destruct (update_factor_estimates_returns_fresh 4 9 default_eps script_store σ' l' Hcall)
    as (Hsub & Hfresh & _).
  split; [exact Hsub | exact Hfresh].
Defined.

Lemma estimate_block_kron_factors_division_unguarded_witness :
  total_rows (hd [] [[batch_0x1]]) = 0%nat /\
  no_finite_estimate (estimate_block_kron_factors [[batch_0x1]] true).
Proof.
  split; [reflexivity|].
  destruct (estimate_block_kron_factors_division_unguarded [[batch_0x1]] true)
    as (Hzero & _).
  destruct (Hzero eq_refl) as (Hest & _). exact Hest.
Defined.
(** * Further properties of the code *)

(** ** When sampling returns *)

Lemma chosen_bin_range (logprobs : ndarray R) (g : rng_state) (i : nat) :
  (chosen_bin logprobs g i <= ncols logprobs)%nat /\
  ((chosen_bin logprobs g i < ncols logprobs)%nat <->
   (0 < ncols logprobs)%nat /\ g i <= row_total logprobs i).
Proof.
  unfold chosen_bin.
  destruct (count_prefix (fun j => Rgtb (g i) (cum_prob logprobs i j)) (ncols logprobs))
    as (Hle & Htrue & Hfalse).
  { intros j j' Hj _. rewrite !Rgtb_true.
    pose proof (cum_prob_mono logprobs i j j' Hj). lra. }
  set (k := length (List.filter _ _)) in *.
  split; [exact Hle|]. split.
  - intros Hlt. split; [lia|].
    specialize (Hfalse Hlt). apply Rgtb_false in Hfalse.
    pose proof (cum_prob_mono logprobs i k (ncols logprobs - 1) ltac:(lia)) as Hm.
    unfold row_total. unfold cum_prob in Hm at 2.
    replace (S (ncols logprobs - 1)) with (ncols logprobs) in Hm by lia. lra.
  - intros (Hd & Hg).
    destruct (Nat.eq_dec k (ncols logprobs)) as [Hk|]; [|lia].
    specialize (Htrue (ncols logprobs - 1)%nat ltac:(lia)).
    apply Rgtb_true in Htrue. unfold cum_prob in Htrue.
    replace (S (ncols logprobs - 1)) with (ncols logprobs) in Htrue by lia.
    unfold row_total in Hg. lra.
Qed.

(** The sample is the selection of rows of the identity by the count of
    exceeded bins. *)
Lemma sample_discrete_from_log_take (logprobs : ndarray R) (g : rng_state) :
  exists mask,
    (forall i, (i < nrows logprobs)%nat -> np_count1 mask i = chosen_bin logprobs g i) /\
    fst (sample_discrete_from_log logprobs g) =
    np_take_rows (np_eye (ncols logprobs)) (nrows logprobs) (np_count1 mask).
Proof.
  unfold sample_discrete_from_log.
  destruct (sample_indices logprobs g) as (mask & Hmask & Hidx).
  simpl in *. rewrite Hmask. simpl. exists mask. split; [exact Hidx | reflexivity].
Qed.

Lemma np_take_rows_raises {T : Type} (a : ndarray T) (n : nat) (indices : nat -> nat)
    (e : exn) :
  np_take_rows a n indices = Raise e -> e = IndexError.
Proof.
  unfold np_take_rows. destruct (forallb _ _); [discriminate|]. now intros [= <-].
Qed.

(** X1.  [sample_discrete_from_log] does not check that the rows are
    normalised.  It returns exactly when every row has a bin whose
    cumulative probability reaches the draw of the row, that is when the
    array has a column and no draw exceeds the sum of the probabilities of
    its row; the result is then one-hot in the chosen bin.  Otherwise the
    count of exceeded bins is [D] and [np.eye(D)[indices]] raises
    [IndexError]; no other exception is raised. *)
Theorem sample_discrete_from_log_returns_iff (logprobs : ndarray R) (g : rng_state) :
  ((exists r, fst (sample_discrete_from_log logprobs g) = Ok r) <->
   (forall i, (i < nrows logprobs)%nat ->
      (0 < ncols logprobs)%nat /\ g i <= row_total logprobs i)) /\
  (forall r, fst (sample_discrete_from_log logprobs g) = Ok r ->
     shape r = shape logprobs /\
     forall i, (i < nrows logprobs)%nat -> one_hot_row r i (chosen_bin logprobs g i)) /\
  (forall e, fst (sample_discrete_from_log logprobs g) = Raise e -> e = IndexError).
Proof.
  destruct (sample_discrete_from_log_take logprobs g) as (mask & Hidx & ->).
  split; [split|split].
  - intros (r & Hr) i Hi. apply np_take_rows_inv in Hr. destruct Hr as (Hb & _).
    specialize (Hb i Hi). simpl in Hb. rewrite (Hidx i Hi) in Hb.
    apply (chosen_bin_range logprobs g i). exact Hb.
  - intros Hall. eexists. apply np_take_rows_ok.
    intros i Hi. simpl. rewrite (Hidx i Hi).
    apply (chosen_bin_range logprobs g i). exact (Hall i Hi).
  - intros r Hr. apply np_take_rows_inv in Hr. destruct Hr as (Hb & ->).
    split; [reflexivity|].
    intros i Hi. specialize (Hb i Hi). simpl in Hb. rewrite (Hidx i Hi) in Hb.
    split; [exact Hb|].
    intros j Hj. simpl. rewrite (Hidx i Hi), Nat.eqb_sym. reflexivity.
  - intros e. apply np_take_rows_raises.
Qed.

Lemma sample_discrete_from_log_inv (logprobs : ndarray R) (g : rng_state) (r : ndarray R) :
  fst (sample_discrete_from_log logprobs g) = Ok r ->
  shape r = shape logprobs /\
  forall i, (i < nrows logprobs)%nat -> one_hot_row r i (chosen_bin logprobs g i).
Proof.
  destruct (sample_discrete_from_log_take logprobs g) as (mask & Hidx & ->).
  intros Hr. apply np_take_rows_inv in Hr. destruct Hr as (Hb & ->).
  split; [reflexivity|].
  intros i Hi. specialize (Hb i Hi). simpl in Hb. rewrite (Hidx i Hi) in Hb.
  split; [exact Hb|].
  intros j Hj. simpl. rewrite (Hidx i Hi), Nat.eqb_sym. reflexivity.
Qed.

Lemma sample_discrete_from_log_ok_iff (logprobs : ndarray R) (g : rng_state) :
  (exists r, fst (sample_discrete_from_log logprobs g) = Ok r) <->
  (forall i, (i < nrows logprobs)%nat ->
     (0 < ncols logprobs)%nat /\ g i <= row_total logprobs i).
Proof.
  destruct (sample_discrete_from_log_take logprobs g) as (mask & Hidx & ->).
  split.
  - intros (r & Hr) i Hi. apply np_take_rows_inv in Hr. destruct Hr as (Hb & _).
    specialize (Hb i Hi). simpl in Hb. rewrite (Hidx i Hi) in Hb.
    apply (chosen_bin_range logprobs g i). exact Hb.
  - intros Hall. eexists. apply np_take_rows_ok.
    intros i Hi. simpl. rewrite (Hidx i Hi).
    apply (chosen_bin_range logprobs g i). exact (Hall i Hi).
Qed.

Lemma sample_discrete_from_log_raises (logprobs : ndarray R) (g : rng_state) (e : exn) :
  fst (sample_discrete_from_log logprobs g) = Raise e -> e = IndexError.
Proof.
  destruct (sample_discrete_from_log_take logprobs g) as (mask & _ & ->).
  apply np_take_rows_raises.
Qed.

(** Either every draw is within the total of its row, or some draw
    exceeds it. *)
Lemma draws_within_dec (logprobs : ndarray R) (g : rng_state) :
  draws_within logprobs g \/
  exists i, (i < nrows logprobs)%nat /\ row_total logprobs i < g i.
Proof.
  unfold draws_within. induction (nrows logprobs) as [|n IH].
  - left. intros i Hi. lia.
  - destruct IH as [IH|(i & Hi & Hgt)]; [|right; exists i; split; [lia | exact Hgt]].
    destruct (Rle_lt_dec (g n) (row_total logprobs n)) as [Hle|Hlt].
    + left. intros i Hi. destruct (Nat.eq_dec i n) as [->|]; [exact Hle | apply IH; lia].
    + right. exists n. split; [lia | exact Hlt].
Qed.

Lemma draws_within_normalized (logprobs : ndarray R) (g : rng_state) :
  uniform01 g -> normalized logprobs -> draws_within logprobs g.
Proof.
  intros Hg Hn i Hi. unfold row_total. rewrite (Hn i Hi). pose proof (Hg i). lra.
Qed.

(** ** The exceptions of the forward pass *)

Lemma np_binop_raises {A B C : Type} (op : A -> B -> C) (a : ndarray A) (b : ndarray B)
    (e : exn) :
  np_binop op a b = Raise e -> e = ValueError.
Proof.
  unfold np_binop.
  destruct (broadcast_dim (nrows a) (nrows b)), (broadcast_dim (ncols a) (ncols b));
    try discriminate; now intros [= <-].
Qed.

Section ForwardExceptions.
Context {T : Type} `{Scalar T}.

Lemma np_dot_raises (a b : ndarray T) (e : exn) :
  np_dot a b = Raise e -> e = ValueError.
Proof. unfold np_dot. destruct (_ =? _)%nat; [discriminate | now intros [= <-]]. Qed.

Lemma logsumexp_raises (a : ndarray T) (e : exn) :
  logsumexp a = Raise e -> e = ValueError.
Proof. unfold logsumexp. destruct (_ =? _)%nat; [now intros [= <-] | discriminate]. Qed.

Lemma pre_activation_raises (a W : ndarray T) (b : ndarray1 T) (extra_bias : ndarray T)
    (e : exn) :
  pre_activation a W b extra_bias = Raise e -> e = ValueError.
Proof.
  unfold pre_activation.
  destruct (np_dot a W) as [d|e'] eqn:Ed; simpl; [|intros [= <-]; eauto using np_dot_raises].
  destruct (np_add d (atleast_2d b)) as [d1|e'] eqn:E1; simpl;
    [|intros [= <-]; eauto using np_binop_raises].
  apply np_binop_raises.
Qed.

Lemma run_layers_raises (layers : list ((ndarray T * ndarray1 T) * ndarray T)) :
  forall a e, run_layers a layers = Raise e -> e = ValueError.
Proof.
  induction layers as [|[[W b] eb] rest IH]; intros a e; simpl; [discriminate|].
  destruct (pre_activation a W b eb) as [s|e'] eqn:Es; simpl;
    [|intros [= <-]; eauto using pre_activation_raises].
  destruct (run_layers (np_tanh s) rest) as [[outs last_s]|e'] eqn:Er; simpl;
    [discriminate|].
  intros [= <-]. eauto.
Qed.

Lemma py_zip_nil {A B : Type} (l1 : list A) (l2 : list B) :
  py_zip l1 l2 = [] <-> l1 = [] \/ l2 = [].
Proof.
  destruct l1, l2; simpl; split; intros; auto; try discriminate;
    destruct H0; discriminate.
Qed.

(** X2.  The forward pass raises [UnboundLocalError] exactly when there
    is no layer to run, that is when the parameter list or the list of
    perturbations is empty ([s] is then never assigned); every other
    exception it raises is the [ValueError] of a shape mismatch. *)
Theorem neural_net_predict_and_activations_exceptions
    (extra_biases : list (ndarray T)) (params : list (ndarray T * ndarray1 T))
    (inputs : ndarray T) :
  (neural_net_predict_and_activations extra_biases params inputs = Raise UnboundLocalError
   <-> params = [] \/ extra_biases = []) /\
  (forall e, neural_net_predict_and_activations extra_biases params inputs = Raise e ->
     e = UnboundLocalError \/ e = ValueError).
Proof.
  rewrite neural_net_predict_and_activations_run.
  destruct (run_layers inputs (py_zip params extra_biases)) as [[outs last_s]|e'] eqn:Er.
  - cbn [mbind result_bind].
    destruct (py_zip params extra_biases) as [|layer rest] eqn:Ez.
    + simpl in Er. injection Er as <- <-.
      split; [|intros e [= <-]; now left].
      split; [intros _; now apply py_zip_nil | reflexivity].
    + destruct (run_layers_inputs (layer :: rest) inputs outs last_s ltac:(discriminate) Er)
        as (_ & _ & s & ->).
      assert (Hne : ~ (params = [] \/ extra_biases = [])).
      { intros Hn. apply py_zip_nil in Hn. congruence. }
      assert (Hv : forall e,
                 (lse ← logsumexp s; logprobs ← np_sub s lse;
                  Ok (logprobs, removelast (inputs :: outs))) = Raise e ->
                 e = ValueError).
      { intros e. destruct (logsumexp s) as [lse|e'] eqn:El; simpl;
          [|intros [= <-]; eauto using logsumexp_raises].
        destruct (np_sub s lse) as [lp|e'] eqn:Es; simpl; [discriminate|].
        intros [= <-]. eauto using np_binop_raises. }
      split.
      * split; [|tauto]. intros Hr. apply Hv in Hr. discriminate.
      * intros e He. right. now apply Hv.
  - cbn [mbind result_bind]. pose proof (run_layers_raises _ _ _ Er) as ->.
    split.
    + split; [discriminate|].
      intros Hn. apply py_zip_nil in Hn. rewrite Hn in Er. discriminate.
    + intros e [= <-]. now right.
Qed.

End ForwardExceptions.

(** ** Lists of different lengths in the forward pass *)

Lemma py_zip_firstn {A B : Type} (l1 : list A) (l2 : list B) :
  py_zip l1 l2 =
  py_zip (firstn (Nat.min (length l1) (length l2)) l1)
         (firstn (Nat.min (length l1) (length l2)) l2).
Proof.
  revert l2. induction l1 as [|x l1 IH]; intros [|y l2]; simpl; try reflexivity.
  f_equal. apply IH.
Qed.

Lemma py_zip_app_l {A B : Type} (l1 more : list A) (l2 : list B) :
  length l1 = length l2 -> py_zip (l1 ++ more) l2 = py_zip l1 l2.
Proof.
  revert l2. induction l1 as [|x l1 IH]; intros [|y l2]; simpl; try discriminate.
  - intros _. now destruct more.
  - intros [= Hl]. f_equal. now apply IH.
Qed.

Lemma py_zip_app_r {A B : Type} (l1 : list A) (l2 more : list B) :
  length l1 = length l2 -> py_zip l1 (l2 ++ more) = py_zip l1 l2.
Proof.
  revert l2. induction l1 as [|x l1 IH]; intros [|y l2]; simpl; try discriminate.
  - reflexivity.
  - intros [= Hl]. f_equal. now apply IH.
Qed.

(** X3.  The forward pass does not compare the number of perturbations
    with the number of layers: [zip] stops at the shorter list, so the
    network is silently cut to the first [min(len(params),
    len(extra_biases))] layers.  Layers without a perturbation are not
    run, and perturbations without a layer are ignored. *)
Theorem neural_net_predict_and_activations_zip_truncates {T : Type} `{Scalar T}
    (extra_biases : list (ndarray T)) (params : list (ndarray T * ndarray1 T))
    (inputs : ndarray T) :
  (let k := Nat.min (length params) (length extra_biases) in
   neural_net_predict_and_activations extra_biases params inputs =
   neural_net_predict_and_activations (firstn k extra_biases) (firstn k params) inputs) /\
  (forall more_layers more_biases,
     length extra_biases = length params ->
     neural_net_predict_and_activations extra_biases (params ++ more_layers) inputs =
     neural_net_predict_and_activations extra_biases params inputs /\
     neural_net_predict_and_activations (extra_biases ++ more_biases) params inputs =
     neural_net_predict_and_activations extra_biases params inputs).
Proof.
  split.
  - cbv zeta. rewrite !neural_net_predict_and_activations_run.
    rewrite <- py_zip_firstn. reflexivity.
  - intros more_layers more_biases Hl.
    rewrite !neural_net_predict_and_activations_run.
    rewrite py_zip_app_l, py_zip_app_r by congruence. split; reflexivity.
Qed.

(** ** The values of the forward pass *)

Lemma tanh_range (x : R) : -1 < tanh x < 1.
Proof.
  unfold tanh, sinh, cosh.
  pose proof (exp_pos x) as Ha. pose proof (exp_pos (- x)) as Hb.
  replace ((exp x - exp (- x)) / 2 / ((exp x + exp (- x)) / 2))
    with ((exp x - exp (- x)) / (exp x + exp (- x))) by (field; lra).
  split.
  - apply (Rmult_lt_reg_r (exp x + exp (- x))); [lra|].
    unfold Rdiv. rewrite Rmult_assoc, Rinv_l by lra. lra.
  - apply (Rmult_lt_reg_r (exp x + exp (- x))); [lra|].
    unfold Rdiv. rewrite Rmult_assoc, Rinv_l by lra. lra.
Qed.

Lemma run_layers_outs_tanh (layers : list ((ndarray R * ndarray1 R) * ndarray R)) :
  forall a outs last_s,
    run_layers a layers = Ok (outs, last_s) -> Forall in_tanh_range outs.
Proof.
  induction layers as [|[[W b] eb] rest IH]; intros a outs last_s; simpl.
  - intros [= <- _]. constructor.
  - destruct (pre_activation a W b eb) as [s|e]; simpl; [|discriminate].
    destruct (run_layers (np_tanh s) rest) as [[outs' last']|e] eqn:Er; simpl;
      [|discriminate].
    intros [= <- _]. constructor; [|eauto].
    intros i j. simpl. apply tanh_range.
Qed.

Lemma Forall_removelast {A : Type} (P : A -> Prop) (l : list A) :
  Forall P l -> Forall P (removelast l).
Proof.
  induction 1 as [|x l Hx Hl IH]; [constructor|].
  destruct l as [|y l]; [constructor|].
  change (removelast (x :: y :: l)) with (x :: removelast (y :: l)).
  constructor; assumption.
Qed.

Lemma rsum_term_le (n k : nat) (f : nat -> R) :
  (forall j, (j < n)%nat -> 0 <= f j) -> (k < n)%nat -> f k <= s_sum n f.
Proof.
  induction n as [|n IH]; intros Hf Hk; [lia|]. simpl.
  assert (0 <= s_sum n f) by (apply rsum_nonneg; intros; apply Hf; lia).
  assert (0 <= f n) by (apply Hf; lia).
  destruct (Nat.eq_dec k n) as [->|Hne]; [lra|].
  assert (f k <= s_sum n f) by (apply IH; [intros; apply Hf; lia | lia]). lra.
Qed.

Lemma normalized_nonpos (lp : ndarray R) (i j : nat) :
  normalized lp -> (i < nrows lp)%nat -> (j < ncols lp)%nat -> item lp i j <= 0.
Proof.
  intros Hn Hi Hj.
  assert (He : exp (item lp i j) <= 1).
  { rewrite <- (Hn i Hi).
    apply (rsum_term_le (ncols lp) j (fun k => exp (item lp i k))); [|exact Hj].
    intros k _. left. apply exp_pos. }
  destruct (Rle_or_lt (item lp i j) 0) as [|Hpos]; [assumption|].
  apply exp_increasing in Hpos. rewrite exp_0 in Hpos. lra.
Qed.

Lemma length_py_zip_min {A B : Type} (l1 : list A) (l2 : list B) :
  length (py_zip l1 l2) = Nat.min (length l1) (length l2).
Proof.
  revert l2. induction l1 as [|x l1 IH]; intros [|y l2]; simpl; try reflexivity.
  now rewrite IH.
Qed.

(** What the forward pass returns, whenever it returns. *)
Lemma forward_pass_values
    (extra_biases : list (ndarray R)) (params : list (ndarray R * ndarray1 R))
    (inputs lp : ndarray R) (acts : list (ndarray R)) :
  neural_net_predict_and_activations extra_biases params inputs = Ok (lp, acts) ->
  normalized lp /\ (0 < ncols lp)%nat /\
  Forall in_tanh_range (tl acts) /\
  hd_error acts = Some inputs /\
  length acts = Nat.min (length params) (length extra_biases).
Proof.
  rewrite neural_net_predict_and_activations_run.
  destruct (run_layers inputs (py_zip params extra_biases)) as [[outs last_s]|e] eqn:Er;
    [|discriminate].
  cbn [mbind result_bind].
  destruct last_s as [s|]; [|discriminate].
  destruct (logsumexp s) as [lse|e] eqn:El; [|discriminate]. cbn [mbind result_bind].
  destruct (np_sub s lse) as [lp'|e] eqn:Es; [|discriminate]. cbn [mbind result_bind].
  intros [= <- <-].
  assert (Hd : (0 < ncols s)%nat).
  { unfold logsumexp in El. destruct (ncols s =? 0)%nat eqn:E; [discriminate|].
    apply Nat.eqb_neq in E. lia. }
  destruct (log_softmax_normalized s Hd) as (lse' & lp'' & Hl' & Hs' & Hsh & Hnorm).
  rewrite El in Hl'. injection Hl' as <-. rewrite Es in Hs'. injection Hs' as <-.
  unfold shape in Hsh. injection Hsh as Hr Hc.
  pose proof (run_layers_outs_tanh _ _ _ _ Er) as Hout.
  assert (Hne : py_zip params extra_biases <> []).
  { intros Hz. rewrite Hz in Er. discriminate. }
  destruct (run_layers_inputs _ inputs outs (Some s) Hne Er) as (_ & Hlen & _).
  split; [intros i Hi; apply Hnorm; congruence|].
  split; [lia|].
  split.
  { destruct outs as [|o outs]; [constructor|].
    change (removelast (inputs :: o :: outs)) with (inputs :: removelast (o :: outs)).
    apply Forall_removelast, Hout. }
  split.
  { destruct outs as [|o outs]; [|reflexivity].
    destruct (py_zip params extra_biases); [congruence | discriminate]. }
  rewrite <- length_py_zip_min, <- Hlen. exact (length_removelast_cons inputs outs).
Qed.

(** X4.  Whenever the forward pass returns, whatever the shapes it was
    given: the rows of the log-probabilities are normalised, so every
    log-probability is at most 0; there is at least one class; the first
    activation is the input batch itself and every further activation is
    an output of [tanh], with entries strictly between -1 and 1; and
    there are as many activations as layers that were run. *)
Theorem forward_pass_value_ranges
    (extra_biases : list (ndarray R)) (params : list (ndarray R * ndarray1 R))
    (inputs logprobs : ndarray R) (activations : list (ndarray R)) :
  neural_net_predict_and_activations extra_biases params inputs
  = Ok (logprobs, activations) ->
  normalized logprobs /\
  (0 < ncols logprobs)%nat /\
  (forall i j, (i < nrows logprobs)%nat -> (j < ncols logprobs)%nat ->
     item logprobs i j <= 0) /\
  hd_error activations = Some inputs /\
  Forall in_tanh_range (tl activations) /\
  length activations = Nat.min (length params) (length extra_biases).
Proof.
  intros Hrun.
  destruct (forward_pass_values _ _ _ _ _ Hrun) as (Hn & Hd & Ht & Hh & Hl).
  split; [exact Hn|]. split; [exact Hd|]. split; [|auto].
  intros i j Hi Hj. now apply normalized_nonpos.
Qed.

(** ** The value of the sampled-target log-likelihood *)

Lemma model_predictive_log_likelihood_snd {T : Type} `{Scalar T}
    (extra_biases : list (ndarray T)) (params : list (ndarray T * ndarray1 T))
    (inputs : ndarray T) (g : rng_state) (lp : ndarray T) (acts : list (ndarray T)) :
  neural_net_predict_and_activations extra_biases params inputs = Ok (lp, acts) ->
  forall k, snd (model_predictive_log_likelihood extra_biases params inputs g) k
            = g (nrows lp + k)%nat.
Proof.
  intros Hrun k. unfold model_predictive_log_likelihood. rewrite Hrun.
  unfold sample_discrete_from_log. simpl. rewrite Nat.mul_1_r. reflexivity.
Qed.

(** The sampled-target log-likelihood once the forward pass has
    returned: it returns when no draw exceeds the total of its row, and
    it raises only [IndexError], only when some draw does. *)
Lemma log_likelihood_outcome {T : Type} `{Scalar T}
    (extra_biases : list (ndarray T)) (params : list (ndarray T * ndarray1 T))
    (inputs : ndarray T) (g : rng_state) (lp : ndarray T) (acts : list (ndarray T)) :
  neural_net_predict_and_activations extra_biases params inputs = Ok (lp, acts) ->
  (0 < ncols lp)%nat ->
  (draws_within (np_getval lp) g ->
   exists t,
     fst (sample_discrete_from_log (np_getval lp) g) = Ok t /\
     shape t = shape lp /\
     (forall i, (i < nrows lp)%nat -> one_hot_row t i (chosen_bin (np_getval lp) g i)) /\
     fst (model_predictive_log_likelihood extra_biases params inputs g)
     = Ok (np_sum (mk_array (nrows lp) (ncols lp)
                     (fun i j => s_mul (item lp i j) (s_const (item t i j)))), acts)) /\
  (forall e,
     fst (model_predictive_log_likelihood extra_biases params inputs g) = Raise e ->
     e = IndexError /\
     exists i, (i < nrows lp)%nat /\ row_total (np_getval lp) i < g i).
Proof.
  intros Hrun Hd.
  assert (Hret : draws_within (np_getval lp) g ->
                 exists t,
                   fst (sample_discrete_from_log (np_getval lp) g) = Ok t /\
                   shape t = shape lp /\
                   (forall i, (i < nrows lp)%nat ->
                      one_hot_row t i (chosen_bin (np_getval lp) g i)) /\
                   fst (model_predictive_log_likelihood extra_biases params inputs g)
                   = Ok (np_sum (mk_array (nrows lp) (ncols lp)
                                   (fun i j => s_mul (item lp i j) (s_const (item t i j)))),
                         acts)).
  { intros Hw.
    destruct (proj2 (sample_discrete_from_log_ok_iff (np_getval lp) g)) as (t & Ht).
    { intros i Hi. split; [exact Hd | exact (Hw i Hi)]. }
    destruct (sample_discrete_from_log_inv _ _ _ Ht) as (Hs & Hrow).
    exists t. split; [exact Ht|]. split; [exact Hs|]. split; [exact Hrow|].
    rewrite model_predictive_log_likelihood_fst, Hrun. cbn [mbind result_bind].
    rewrite Ht. cbn [mbind result_bind].
    unfold shape in Hs. simpl in Hs. injection Hs as Hr Hc.
    unfold np_mul, np_binop. simpl. rewrite Hr, Hc, !broadcast_dim_same.
    cbn [mbind result_bind]. do 2 f_equal. unfold np_sum. simpl.
    apply s_sum_ext. intros i Hi. apply s_sum_ext. intros j Hj.
    rewrite !bidx_lt by assumption. reflexivity. }
  split; [exact Hret|].
  intros e He.
  destruct (draws_within_dec (np_getval lp) g) as [Hw|Hex].
  - destruct (Hret Hw) as (t & _ & _ & _ & Hv). rewrite Hv in He. discriminate.
  - split; [|exact Hex].
    rewrite model_predictive_log_likelihood_fst, Hrun in He. cbn [mbind result_bind] in He.
    destruct (fst (sample_discrete_from_log (np_getval lp) g)) as [t|e'] eqn:Et.
    + destruct (sample_discrete_from_log_inv _ _ _ Et) as (Hs & _).
      unfold shape in Hs. simpl in Hs. injection Hs as Hr Hc.
      cbn [mbind result_bind] in He.
      unfold np_mul, np_binop in He. simpl in He.
      rewrite Hr, Hc, !broadcast_dim_same in He. discriminate.
    + cbn [mbind result_bind] in He. injection He as <-.
      exact (sample_discrete_from_log_raises _ _ _ Et).
Qed.

(** X5.  Once the forward pass has returned,
    [model_predictive_log_likelihood] returns whenever no draw exceeds
    the total of the computed probabilities of its row: its scalar is
    then the sum over the examples of the log-probability of the class
    that the draw of the example selects, hence at most 0, and the
    activations are those of the forward pass.  The sampled index is not
    checked: the only exception is the [IndexError] of
    [np.eye(D)[indices]], raised only when some draw exceeds the total of
    its row.  In both cases the generator has advanced by one draw per
    example. *)
Theorem model_predictive_log_likelihood_value
    (extra_biases : list (ndarray R)) (params : list (ndarray R * ndarray1 R))
    (inputs : ndarray R) (g : rng_state)
    (logprobs : ndarray R) (activations : list (ndarray R)) :
  neural_net_predict_and_activations extra_biases params inputs
  = Ok (logprobs, activations) ->
  (draws_within logprobs g ->
   exists v,
     fst (model_predictive_log_likelihood extra_biases params inputs g)
     = Ok (v, activations) /\
     v = s_sum (nrows logprobs) (fun i => item logprobs i (chosen_bin logprobs g i)) /\
     v <= 0) /\
  (forall e,
     fst (model_predictive_log_likelihood extra_biases params inputs g) = Raise e ->
     e = IndexError /\
     exists i, (i < nrows logprobs)%nat /\ row_total logprobs i < g i) /\
  forall k, snd (model_predictive_log_likelihood extra_biases params inputs g) k
            = g (nrows logprobs + k)%nat.
Proof.
  intros Hrun.
  destruct (forward_pass_values _ _ _ _ _ Hrun) as (Hn & Hd & _).
  destruct (log_likelihood_outcome extra_biases params inputs g logprobs activations
              Hrun Hd) as (Hret & Hraise).
  split; [|split].
  - intros Hw. destruct (Hret Hw) as (t & _ & Hs & Hrow & Hv).
    unfold shape in Hs. injection Hs as Hr Hc.
    eexists. split; [exact Hv|].
    assert (Hval : np_sum (mk_array (nrows logprobs) (ncols logprobs)
                             (fun i j => s_mul (item logprobs i j) (s_const (item t i j))))
                   = s_sum (nrows logprobs)
                       (fun i => item logprobs i (chosen_bin logprobs g i))).
    { unfold np_sum. simpl. apply rsum_ext. intros i Hi.
      destruct (Hrow i Hi) as (Hlt & Hone). rewrite Hc in Hlt, Hone.
      apply (rsum_pick _ (chosen_bin logprobs g i)); [exact Hlt | exact Hone]. }
    split; [exact Hval|]. rewrite Hval.
    assert (Hle : 0 <= s_sum (nrows logprobs)
                         (fun i => -1 * item logprobs i (chosen_bin logprobs g i))).
    { apply rsum_nonneg. intros i Hi.
      destruct (Hrow i Hi) as (Hlt & _). rewrite Hc in Hlt.
      assert (Hx : item logprobs i (chosen_bin logprobs g i) <= 0)
        by exact (normalized_nonpos logprobs i _ Hn Hi Hlt).
      lra. }
    rewrite rsum_scal in Hle. lra.
  - exact Hraise.
  - exact (model_predictive_log_likelihood_snd _ _ _ g _ _ Hrun).
Qed.

(** ** The activations of two related runs *)

Lemma Forall2_removelast {A B : Type} (P : A -> B -> Prop) (l1 : list A) (l2 : list B) :
  Forall2 P l1 l2 -> Forall2 P (removelast l1) (removelast l2).
Proof.
  induction 1 as [|x y l1 l2 Hxy Hl IH]; [constructor|].
  destruct Hl as [|x' y' l1' l2' Hxy' Hl']; [constructor|].
  change (Forall2 P (x :: removelast (x' :: l1')) (y :: removelast (y' :: l2'))).
  constructor; assumption.
Qed.

Section RelationalActivations.
Context {T1 T2 : Type} `{S1 : Scalar T1} `{S2 : Scalar T2}.
Variable rho : T1 -> T2 -> Prop.
Variable phi : nat -> nat.
Variable n : nat.
Hypothesis phi_bound : forall i, (i < n)%nat -> (phi i < n)%nat.
Hypothesis rho_ok : scalar_rel rho.

Lemma run_layers_rel_outs
    (layers1 : list ((ndarray T1 * ndarray1 T1) * ndarray T1))
    (layers2 : list ((ndarray T2 * ndarray1 T2) * ndarray T2)) :
  Forall2 (rel_layer rho phi n) layers1 layers2 ->
  forall a1 a2, rel_rows rho phi n a1 a2 ->
    ok_rel (fun r1 r2 => Forall2 (rel_rows rho phi n) (fst r1) (fst r2) /\
                         rel_last (rel_rows rho phi n) (snd r1) (snd r2))
      (run_layers a1 layers1) (run_layers a2 layers2).
Proof using phi_bound rho_ok.
  induction 1 as [|[[W1 b1] e1] [[W2 b2] e2] rest1 rest2 (HW & Hb & He) _ IH];
    intros a1 a2 Ha x.
  - simpl. intros [= <-]. eexists. split; [reflexivity|]. split; [constructor | exact I].
  - simpl in HW, Hb, He. simpl run_layers.
    destruct (pre_activation a1 W1 b1 e1) as [s1|] eqn:Es; simpl; [|discriminate].
    destruct (pre_activation_rel rho phi n phi_bound rho_ok
                a1 W1 b1 e1 a2 W2 b2 e2 Ha HW Hb He s1 Es) as (s2 & -> & Hs). simpl.
    destruct (run_layers (np_tanh s1) rest1) as [[outs1 last1]|] eqn:Er; simpl;
      [|discriminate].
    pose proof (np_map_rel rho phi n _ _ s1 s2 (rel_tanh rho rho_ok) Hs) as Ht.
    destruct (IH (np_tanh s1) (np_tanh s2) Ht _ Er) as ([outs2 last2] & -> & Houts & Hlast).
    simpl in *.
    intros [= <-]. eexists. split; [reflexivity|]. simpl.
    split; [constructor; assumption|].
    destruct last1, last2; simpl in *; try contradiction; assumption.
Qed.

Lemma forward_rel_activations
    (ebs1 : list (ndarray T1)) (params1 : list (ndarray T1 * ndarray1 T1))
    (inputs1 : ndarray T1)
    (ebs2 : list (ndarray T2)) (params2 : list (ndarray T2 * ndarray1 T2))
    (inputs2 : ndarray T2) :
  rel_rows rho phi n inputs1 inputs2 ->
  Forall2 (rel_layer rho phi n) (py_zip params1 ebs1) (py_zip params2 ebs2) ->
  ok_rel (fun r1 r2 => rel_rows rho phi n (fst r1) (fst r2) /\
                       Forall2 (rel_rows rho phi n) (snd r1) (snd r2))
    (neural_net_predict_and_activations ebs1 params1 inputs1)
    (neural_net_predict_and_activations ebs2 params2 inputs2).
Proof using phi_bound rho_ok.
  intros Hin Hl x. rewrite !neural_net_predict_and_activations_run.
  destruct (run_layers inputs1 _) as [[outs1 last1]|] eqn:Er; simpl; [|discriminate].
  destruct (run_layers_rel_outs _ _ Hl inputs1 inputs2 Hin _ Er)
    as ([outs2 last2] & -> & Houts & Hlast).
  simpl in Houts, Hlast. cbn [mbind result_bind].
  destruct last1 as [s1|], last2 as [s2|]; simpl in Hlast; try contradiction;
    [|discriminate].
  destruct (logsumexp s1) as [l1|] eqn:El; simpl; [|discriminate].
  destruct (logsumexp_rel rho phi n phi_bound rho_ok s1 s2 Hlast l1 El) as (l2 & -> & Hlse).
  simpl.
  destruct (np_sub s1 l1) as [lp1|] eqn:Es; simpl; [|discriminate].
  destruct (np_binop_rel rho phi n phi_bound s_sub s_sub s1 l1 s2 l2
              (rel_sub rho rho_ok) Hlast Hlse lp1 Es) as (lp2 & Hlp2 & Hlp).
  change (np_sub s2 l2 = Ok lp2) in Hlp2. rewrite Hlp2. simpl.
  intros [= <-]. eexists. split; [reflexivity|]. split; [exact Hlp|].
  cbn [snd].
  apply (Forall2_removelast _ (inputs1 :: outs1) (inputs2 :: outs2)).
  constructor; assumption.
Qed.

End RelationalActivations.

(** ** The activation samples *)

Lemma collect_inv_activations (params : list (ndarray R * ndarray1 R)) (inputs : ndarray R)
    (g : rng_state) (a_samples g_samples : list (ndarray R)) :
  fst (collect_activations_and_grad_samples params inputs g) = Ok (a_samples, g_samples) ->
  exists lp_t acts_t,
    neural_net_predict_and_activations (T:=dual)
      (map np_const (zero_perturbations params inputs))
      (params_const params) (np_const inputs) = Ok (lp_t, acts_t) /\
    a_samples = map np_getval acts_t.
Proof.
  unfold collect_activations_and_grad_samples, grad_and_aux. cbn [fst].
  fold (zero_perturbations params inputs).
  rewrite model_predictive_log_likelihood_fst.
  destruct (neural_net_predict_and_activations _ _ _) as [[lp_t acts_t]|] eqn:Erun;
    [|discriminate].
  cbn [mbind result_bind].
  destruct (fst (sample_discrete_from_log (np_getval lp_t) g)) as [t|]; [|discriminate].
  cbn [mbind result_bind].
  destruct (np_mul lp_t (np_const t)) as [w|]; [|discriminate].
  cbn [mbind result_bind]. intros [= <- _]. eauto.
Qed.

Lemma collect_snd (params : list (ndarray R * ndarray1 R)) (inputs : ndarray R)
    (g : rng_state) :
  snd (collect_activations_and_grad_samples params inputs g) =
  snd (model_predictive_log_likelihood (T:=dual)
         (map np_const (zero_perturbations params inputs))
         (params_const params) (np_const inputs) g).
Proof. reflexivity. Qed.

(** The activation samples are those of the plain run. *)
Lemma collect_activations_plain
    (params : list (ndarray R * ndarray1 R)) (inputs : ndarray R) (g : rng_state)
    (a_samples g_samples : list (ndarray R)) :
  fst (collect_activations_and_grad_samples params inputs g) = Ok (a_samples, g_samples) ->
  exists logprobs activations,
    neural_net_predict_and_activations (zero_perturbations params inputs) params inputs
    = Ok (logprobs, activations) /\
    Forall2 arr_eq a_samples activations /\
    Forall (fun a => nrows a = nrows inputs) a_samples /\
    forall k, snd (collect_activations_and_grad_samples params inputs g) k
              = g (nrows inputs + k)%nat.
Proof.
  intros Hc. destruct (collect_inv_activations _ _ _ _ _ Hc) as (lp_t & acts_t & Hrun_t & ->).
  destruct (forward_rel_activations (T1:=dual) (T2:=R) primal_is (fun i => i)
              (nrows inputs) (fun i Hi => Hi) primal_is_scalar_rel)
    with (x := (lp_t, acts_t))
         (ebs1 := map (np_const (T:=dual)) (zero_perturbations params inputs))
         (params1 := params_const (T:=dual) params)
         (inputs1 := np_const (T:=dual) inputs)
         (ebs2 := zero_perturbations params inputs) (params2 := params) (inputs2 := inputs)
    as ([lp acts] & Hrun & Hlp & Hacts); try assumption.
  { repeat split. }
  { apply rel_layers_const, const_rel, zero_perturbations_rows. }
  cbn [fst snd] in Hlp, Hacts.
  exists lp, acts. split; [exact Hrun|]. split; [|split].
  - clear -Hacts. induction Hacts as [|a_t a acts_t acts (Hr1 & Hr2 & Hcol & Hi) _ IH];
      simpl; constructor; [|exact IH].
    repeat split; simpl; try congruence.
    intros i j Hi' Hj. apply Hi; [congruence | exact Hj].
  - rewrite Forall_map. clear -Hacts.
    induction Hacts as [|a_t a acts_t acts (Hr1 & _) _ IH]; constructor; [exact Hr1 | exact IH].
  - intros k. rewrite collect_snd.
    rewrite (model_predictive_log_likelihood_snd _ _ _ g _ _ Hrun_t).
    destruct Hlp as (Hr1 & _). rewrite Hr1. reflexivity.
Qed.

(** X6.  The activation samples that
    [collect_activations_and_grad_samples] returns are read off the
    traced run, and they are the activations of the plain forward pass at
    zero perturbation: one per layer, the first being the input batch,
    each with one row per example.  The call advances the generator by
    one draw per example. *)
Theorem collect_activation_samples
    (params : list (ndarray R * ndarray1 R)) (inputs : ndarray R) (g : rng_state)
    (a_samples g_samples : list (ndarray R)) :
  fst (collect_activations_and_grad_samples params inputs g) = Ok (a_samples, g_samples) ->
  exists logprobs activations,
    neural_net_predict_and_activations (zero_perturbations params inputs) params inputs
    = Ok (logprobs, activations) /\
    Forall2 arr_eq a_samples activations /\
    hd_error activations = Some inputs /\
    length a_samples = length params /\
    Forall (fun a => nrows a = nrows inputs) a_samples /\
    forall k, snd (collect_activations_and_grad_samples params inputs g) k
              = g (nrows inputs + k)%nat.
Proof.
  intros Hc.
  destruct (collect_activations_plain _ _ _ _ _ Hc) as (lp & acts & Hrun & Hacts & Hrows & Hg).
  exists lp, acts. split; [exact Hrun|]. split; [exact Hacts|].
  destruct (forward_pass_values _ _ _ _ _ Hrun) as (_ & _ & _ & Hhd & Hlen).
  split; [exact Hhd|]. split; [|split; [exact Hrows | exact Hg]].
  rewrite (Forall2_length _ _ _ Hacts), Hlen.
  unfold zero_perturbations. rewrite length_map. lia.
Qed.

(** ** The gradient sample of the last layer *)

Lemma dual_sum (n : nat) (f : nat -> dual) :
  s_sum n f = mk_dual (s_sum n (fun k => primal (f k))) (s_sum n (fun k => tangent (f k))).
Proof.
  induction n as [|n IH]; simpl; [reflexivity|]. rewrite IH. reflexivity.
Qed.

Lemma untraced_scalar_rel : scalar_rel (T1:=R) (T2:=dual) untraced.
Proof.
  apply scalar_rel_of_log; unfold untraced; simpl.
  - intros r. split; reflexivity.
  - intros x y x' y' (<- & ->) (<- & ->). split; [reflexivity | lra].
  - intros x y x' y' (<- & ->) (<- & ->). split; [reflexivity | lra].
  - intros x y x' y' (<- & ->) (<- & ->). split; [reflexivity | lra].
  - intros x x' (<- & ->). split; [reflexivity | lra].
  - intros x x' (<- & ->). split; [reflexivity | lra].
  - intros x x' (<- & ->). split; [reflexivity | unfold Rdiv; lra].
Qed.

Lemma Forall2_last {A B : Type} (P : A -> B -> Prop) (l1 : list A) (l2 : list B)
    (d1 : A) (d2 : B) :
  P d1 d2 -> Forall2 P l1 l2 -> P (List.last l1 d1) (List.last l2 d2).
Proof.
  intros Hd HF. revert d1 d2 Hd.
  induction HF as [|x y l1 l2 Hxy _ IH]; intros d1 d2 Hd; [exact Hd|].
  rewrite !last_cons. now apply IH.
Qed.

Lemma seed_front_untraced (N i0 j0 : nat) (x : list (ndarray R)) :
  Forall (fun a => nrows a = N) x ->
  forall hit : nat -> bool,
    (forall l, (l < length x)%nat -> hit l = false) ->
    Forall2 (rel_rows untraced (fun i => i) N) x
      (imap (fun l a => seed_array a (hit l) i0 j0) x).
Proof.
  induction 1 as [|a x Ha _ IH]; intros hit Hhit; simpl; constructor.
  - rewrite (Hhit 0%nat) by (simpl; lia).
    repeat split; simpl; assumption.
  - apply (IH (fun l => hit (S l))). intros l Hl. apply Hhit. simpl. lia.
Qed.

Lemma rel_layers_untraced (N : nat) (params : list (ndarray R * ndarray1 R))
    (ebs : list (ndarray R)) (ebs_d : list (ndarray dual)) :
  Forall2 (rel_rows untraced (fun i => i) N) ebs ebs_d ->
  Forall2 (rel_layer untraced (fun i => i) N)
    (py_zip params ebs) (py_zip (params_const (T:=dual) params) ebs_d).
Proof.
  intros H. revert params.
  induction H as [|e1 e2 ebs1 ebs2 He _ IH]; intros [|[W b] params]; simpl;
    try constructor.
  - split; [|split]; simpl; [| |exact He]; repeat split.
  - apply IH.
Qed.

(** The pre-activation of the traced layer: its plain numbers are those
    of the plain run, and only the traced entry carries a derivative. *)
Lemma last_pre_activation_traced (N i0 j0 : nat) (a : ndarray R) (a_d : ndarray dual)
    (W : ndarray R) (b : ndarray1 R) (s : ndarray R) :
  rel_rows untraced (fun i => i) N a a_d ->
  size1 b = ncols W ->
  pre_activation a W b (np_zeros N (size1 b)) = Ok s ->
  exists s_d,
    pre_activation a_d (np_const W) (np_const1 b)
      (seed_array (np_zeros N (size1 b)) true i0 j0) = Ok s_d /\
    nrows s = N /\ nrows s_d = N /\ ncols s = ncols W /\ ncols s_d = ncols W /\
    forall i j, (i < N)%nat -> (j < ncols W)%nat ->
      primal (item s_d i j) = item s i j /\
      tangent (item s_d i j) = if (i =? i0)%nat && (j =? j0)%nat then 1 else 0.
Proof.
  intros Ha Hb. unfold pre_activation.
  destruct (np_dot a W) as [d0|] eqn:E0; cbn [mbind result_bind]; [|discriminate].
  destruct (np_dot_rel untraced (fun i => i) N (fun i Hi => Hi) untraced_scalar_rel
              a W a_d (np_const W)) with (x := d0) as (d0_d & -> & Hd0); try assumption.
  { repeat split. }
  cbn [mbind result_bind].
  destruct (np_add d0 (atleast_2d b)) as [d1|] eqn:E1; cbn [mbind result_bind];
    [|discriminate].
  destruct (np_binop_bias_rel untraced (fun i => i) N (fun i Hi => Hi) s_add s_add
              d0 b d0_d (np_const1 b) (rel_add untraced untraced_scalar_rel))
    with (x := d1) as (d1_d & Hd1_d & Hd1); try assumption.
  { repeat split. }
  change (np_add d0_d (atleast_2d (np_const1 b)) = Ok d1_d) in Hd1_d.
  rewrite Hd1_d. cbn [mbind result_bind].
  assert (Hc1 : ncols d1 = ncols W).
  { unfold np_dot in E0. destruct (_ =? _)%nat; [|discriminate]. injection E0 as <-.
    unfold np_add, np_binop in E1. simpl in E1.
    rewrite broadcast_dim_one_r, Hb, broadcast_dim_same in E1. injection E1 as <-.
    reflexivity. }
  destruct Hd1 as (Hr1 & Hr1d & Hcd & Hent).
  unfold np_add, np_binop. simpl.
  rewrite Hr1, Hr1d, <- Hcd, Hc1, Hb, !broadcast_dim_same.
  intros [= <-]. eexists. split; [reflexivity|]. simpl.
  repeat split; try reflexivity.
  - rewrite !bidx_lt by assumption.
    destruct (Hent i j) as (Hp & _); [assumption | lia|]. rewrite Hp. reflexivity.
  - rewrite !bidx_lt by assumption.
    destruct (Hent i j) as (_ & Ht); [assumption | lia|]. rewrite Ht. lra.
Qed.

Lemma rsum_delta (n k : nat) (f : nat -> R) :
  (k < n)%nat ->
  s_sum n (fun j => (if (j =? k)%nat then 1 else 0) * f j) = f k.
Proof.
  intros Hk.
  rewrite (rsum_ext _ _ (fun j => f j * (if (j =? k)%nat then 1 else 0))) by (intros; lra).
  apply rsum_pick; [exact Hk | reflexivity].

Qed.

(** The log-probabilities of the traced layer: the derivative of entry
    [(i, j)] along the perturbation of entry [(i0, j0)] is
    [[j = j0] - exp(logprobs[i, j0])] in row [i0] and 0 in the other
    rows. *)
Lemma log_softmax_traced (N i0 j0 : nat) (s : ndarray R) (s_d : ndarray dual)
    (lse lp : ndarray R) :
  nrows s = N -> nrows s_d = N -> ncols s_d = ncols s ->
  (forall i j, (i < N)%nat -> (j < ncols s)%nat ->
     primal (item s_d i j) = item s i j /\
     tangent (item s_d i j) = if (i =? i0)%nat && (j =? j0)%nat then 1 else 0) ->
  (j0 < ncols s)%nat ->
  logsumexp s = Ok lse -> np_sub s lse = Ok lp ->
  exists lse_d lp_d,
    logsumexp s_d = Ok lse_d /\ np_sub s_d lse_d = Ok lp_d /\
    nrows lp = N /\ ncols lp = ncols s /\ nrows lp_d = N /\ ncols lp_d = ncols s /\
    forall i j, (i < N)%nat -> (j < ncols s)%nat ->
      primal (item lp_d i j) = item lp i j /\
      tangent (item lp_d i j) =
      if (i =? i0)%nat then (if (j =? j0)%nat then 1 else 0) - exp (item lp i j0) else 0.
Proof.
  intros Hr Hrd Hcd Hent Hj0 Hlse Hlp. unfold logsumexp in *. rewrite Hcd.
  destruct (ncols s =? 0)%nat eqn:E; [discriminate|]. injection Hlse as <-.
  unfold np_sub, np_binop in Hlp. simpl in Hlp.
  rewrite Hr, broadcast_dim_same, broadcast_dim_one_r in Hlp. injection Hlp as <-.
  eexists _, _. split; [reflexivity|].
  unfold np_sub, np_binop. simpl.
  rewrite Hrd, Hcd, broadcast_dim_same, broadcast_dim_one_r.
  split; [reflexivity|].
  simpl. repeat split; try reflexivity.
  - rewrite !bidx_lt by assumption. rewrite dual_sum. simpl.
    destruct (Hent i j) as (-> & _); try assumption.
    f_equal. f_equal. apply rsum_ext. intros k Hk.
    destruct (Hent i k) as (-> & _); try assumption. reflexivity.
  - rewrite !bidx_lt by assumption. rewrite dual_sum. simpl.
    destruct (Hent i j) as (_ & ->); try assumption.
    set (Z := s_sum (ncols s) (fun k => exp (primal (item s_d i k)))).
    assert (HZ : Z = s_sum (ncols s) (fun k => exp (item s i k))).
    { apply rsum_ext. intros k Hk.
      destruct (Hent i k) as (-> & _); try assumption. reflexivity. }
    assert (HZpos : 0 < Z).
    { rewrite HZ. apply rsum_pos; [|intros; apply exp_pos].
      apply Nat.eqb_neq in E. lia. }
    rewrite (rsum_ext _ _
               (fun k => (if (k =? j0)%nat then 1 else 0)
                         * ((if (i =? i0)%nat then 1 else 0) * exp (item s i k)))).
    2:{ intros k Hk. destruct (Hent i k) as (-> & ->); try assumption.
        destruct (i =? i0)%nat, (k =? j0)%nat; simpl; lra. }
    rewrite rsum_delta by assumption.
    rewrite <- HZ.
    destruct (i =? i0)%nat; simpl.
    + replace (exp (item s i j0 - ln Z)) with (exp (item s i j0) / Z).
      * destruct (j =? j0)%nat; unfold Rdiv; lra.
      * unfold Rminus. rewrite exp_plus, exp_Ropp, exp_ln by exact HZpos. reflexivity.
    + unfold Rdiv. lra.
Qed.

Lemma weighted_sum_tangent (N c i0 j0 : nat) (lp : ndarray R) (lp_d : ndarray dual)
    (targets : ndarray R) :
  nrows lp_d = N -> ncols lp_d = c -> nrows targets = N -> ncols targets = c ->
  (forall i j, (i < N)%nat -> (j < c)%nat ->
     primal (item lp_d i j) = item lp i j /\
     tangent (item lp_d i j) =
     if (i =? i0)%nat then (if (j =? j0)%nat then 1 else 0) - exp (item lp i j0) else 0) ->
  (i0 < N)%nat -> (j0 < c)%nat ->
  exists w,
    np_mul lp_d (np_const targets) = Ok w /\
    tangent (np_sum w) =
    item targets i0 j0 - exp (item lp i0 j0) * s_sum c (fun j => item targets i0 j).
Proof.
  intros Hr Hc Htr Htc Hent Hi0 Hj0.
  unfold np_mul, np_binop. simpl. rewrite Hr, Hc, Htr, Htc, !broadcast_dim_same.
  eexists. split; [reflexivity|].
  unfold np_sum. simpl. rewrite dual_sum. simpl.
  set (F := fun i => s_sum c (fun j =>
                ((if (j =? j0)%nat then 1 else 0) - exp (item lp i j0)) * item targets i j)).
  rewrite (rsum_ext _ _ (fun i => (if (i =? i0)%nat then 1 else 0) * F i)).
  - rewrite rsum_delta by assumption. unfold F.
    rewrite (rsum_ext _ _
               (fun j => (if (j =? j0)%nat then 1 else 0) * item targets i0 j
                         + - exp (item lp i0 j0) * item targets i0 j)) by (intros; ring).
    rewrite rsum_plus, rsum_delta, rsum_scal by assumption.
    replace (s_sum c (item targets i0)) with (s_sum c (fun j => item targets i0 j))
      by reflexivity.
    ring.
  - intros i Hi. rewrite dual_sum. simpl. unfold F.
    destruct (i =? i0)%nat eqn:Ei.
    + rewrite Rmult_1_l. apply rsum_ext. intros j Hj.
      rewrite !bidx_lt by assumption.
      destruct (Hent i j Hi Hj) as (_ & ->). rewrite Ei. lra.
    + rewrite Rmult_0_l.
      rewrite (rsum_ext _ _ (fun _ => 0)); [apply rsum_zero|].
      intros j Hj. rewrite !bidx_lt by assumption.
      destruct (Hent i j Hi Hj) as (_ & ->). rewrite Ei. lra.
Qed.

Lemma run_layers_ok_front {T : Type} `{Scalar T}
    (layers : list ((ndarray T * ndarray1 T) * ndarray T))
    (W : ndarray T) (b : ndarray1 T) (eb : ndarray T) (a : ndarray T)
    (outs : list (ndarray T)) (last_s : option (ndarray T)) :
  run_layers a (layers ++ [((W, b), eb)]) = Ok (outs, last_s) ->
  exists outs0 last0 s,
    run_layers a layers = Ok (outs0, last0) /\
    pre_activation (last_input a outs0) W b eb = Ok s /\
    outs = outs0 ++ [np_tanh s] /\ last_s = Some s.
Proof.
  rewrite run_layers_app.
  destruct (run_layers a layers) as [[outs0 last0]|]; cbn [mbind result_bind];
    [|discriminate].
  destruct (pre_activation (last_input a outs0) W b eb) as [s|] eqn:Es;
    cbn [mbind result_bind]; [|discriminate].
  intros [= <- <-]. exists outs0, last0, s. repeat split. exact Es.
Qed.

Lemma zero_perturbations_app (front : list (ndarray R * ndarray1 R))
    (W : ndarray R) (b : ndarray1 R) (inputs : ndarray R) :
  zero_perturbations (front ++ [(W, b)]) inputs =
  zero_perturbations front inputs ++ [np_zeros (nrows inputs) (size1 b)].
Proof. unfold zero_perturbations. rewrite map_app. reflexivity. Qed.

Lemma seed_last (x : list (ndarray R)) (z : ndarray R) (i0 j0 : nat) :
  seed (x ++ [z]) (length x) i0 j0 =
  imap (fun l a => seed_array a (l =? length x)%nat i0 j0) x ++ [seed_array z true i0 j0].
Proof.
  unfold seed. rewrite imap_app. simpl.
  rewrite Nat.add_0_r, Nat.eqb_refl. reflexivity.
Qed.

(** The derivative that the traced objective carries when the traced
    entry belongs to the perturbation of the last layer. *)
Lemma frozen_objective_last_layer
    (front : list (ndarray R * ndarray1 R)) (W : ndarray R) (b : ndarray1 R)
    (inputs lp : ndarray R) (acts : list (ndarray R)) (targets : ndarray R) (i0 j0 : nat) :
  size1 b = ncols W ->
  neural_net_predict_and_activations
    (zero_perturbations (front ++ [(W, b)]) inputs) (front ++ [(W, b)]) inputs
  = Ok (lp, acts) ->
  shape targets = shape lp ->
  nrows lp = nrows inputs /\ ncols lp = size1 b /\
  ((i0 < nrows lp)%nat -> (j0 < ncols lp)%nat ->
   tangent_of (frozen_objective targets (front ++ [(W, b)]) inputs
                 (seed (zero_perturbations (front ++ [(W, b)]) inputs) (length front) i0 j0))
   = item targets i0 j0
     - exp (item lp i0 j0) * s_sum (ncols lp) (fun j => item targets i0 j)).
Proof.
  intros Hb Hrun Hts.
  set (N := nrows inputs).
  assert (Hlen : length (zero_perturbations front inputs) = length front)
    by (unfold zero_perturbations; apply length_map).
  rewrite zero_perturbations_app in *.
  rewrite <- Hlen. rewrite seed_last. rewrite Hlen.
  rewrite neural_net_predict_and_activations_run in Hrun.
  rewrite py_zip_app in Hrun by congruence. simpl py_zip in Hrun.
  destruct (run_layers inputs _) as [[outs last_s]|] eqn:Er; [|discriminate].
  cbn [mbind result_bind] in Hrun.
  destruct (run_layers_ok_front _ _ _ _ _ _ _ Er) as (outs0 & last0 & s & Er0 & Es & -> & ->).
  destruct (logsumexp s) as [lse|] eqn:El; [|discriminate].
  cbn [mbind result_bind] in Hrun.
  destruct (np_sub s lse) as [lp'|] eqn:Esub; [|discriminate].
  cbn [mbind result_bind] in Hrun. injection Hrun as -> _.
  (* the layers before the traced one *)
  pose proof (seed_front_untraced N i0 j0 (zero_perturbations front inputs)
                (zero_perturbations_rows front inputs)
                (fun l => (l =? length front)%nat)) as Hseeds.
  cbv beta in Hseeds.
  assert (Hfront : forall l, (l < length (zero_perturbations front inputs))%nat ->
                             (l =? length front)%nat = false).
  { intros l Hl. apply Nat.eqb_neq. lia. }
  specialize (Hseeds Hfront).
  assert (Hin : rel_rows untraced (fun i => i) N inputs (np_const (T:=dual) inputs)).
  { repeat split. }
  destruct (run_layers_rel_outs untraced (fun i => i) N (fun i Hi => Hi) untraced_scalar_rel
              _ _ (rel_layers_untraced N front _ _ Hseeds) inputs (np_const inputs) Hin
              _ Er0) as ([outs_d last_d] & Er_d & Houts & _).
  cbn [fst snd] in Houts.
  assert (Ha : rel_rows untraced (fun i => i) N
                 (last_input inputs outs0) (last_input (np_const inputs) outs_d)).
  { unfold last_input. now apply Forall2_last. }
  destruct (last_pre_activation_traced N i0 j0 _ _ W b s Ha Hb Es)
    as (s_d & Es_d & Hsr & Hsdr & Hsc & Hsdc & Hent).
  rewrite <- Hsc in Hent.
  assert (Hlpshape : nrows lp = N /\ ncols lp = ncols s).
  { unfold logsumexp in El. destruct (ncols s =? 0)%nat; [discriminate|].
    injection El as <-. unfold np_sub, np_binop in Esub. simpl in Esub.
    rewrite broadcast_dim_same, broadcast_dim_one_r in Esub. injection Esub as <-.
    split; [exact Hsr | reflexivity]. }
  destruct Hlpshape as (Hlr & Hlc).
  split; [exact Hlr|]. split; [congruence|]. intros Hi0 Hj0.
  destruct (log_softmax_traced N i0 j0 s s_d lse lp Hsr Hsdr ltac:(congruence) Hent
              ltac:(congruence) El Esub)
    as (lse_d & lp_d & El_d & Esub_d & _ & _ & Hdr & Hdc & Hlp).
  unfold shape in Hts. injection Hts as Htr Htc.
  destruct (weighted_sum_tangent N (ncols s) i0 j0 lp lp_d targets Hdr Hdc
              ltac:(congruence) ltac:(congruence) Hlp ltac:(congruence) ltac:(congruence))
    as (w & Hw & Htan).
  subst N.
  unfold frozen_objective. rewrite neural_net_predict_and_activations_run.
  unfold params_const. rewrite map_app. simpl map.
  rewrite py_zip_app.
  2:{ rewrite length_map, length_imap. congruence. }
  simpl py_zip. rewrite run_layers_app.
  fold (params_const (T:=dual) front). rewrite Er_d. cbn [mbind result_bind].
  rewrite Es_d. cbn [mbind result_bind].
  rewrite El_d. cbn [mbind result_bind]. rewrite Esub_d. cbn [mbind result_bind].
  rewrite Hw. cbn [mbind result_bind]. simpl tangent_of.
  rewrite Htan, Hlc. reflexivity.
Qed.

Lemma one_hot_row_sum (r : ndarray R) (i k : nat) :
  one_hot_row r i k -> s_sum (ncols r) (fun j => item r i j) = 1.
Proof.
  intros (Hk & Hrow).
  rewrite (rsum_ext _ _ (fun j => 1 * item r i j)) by (intros; lra).
  apply (rsum_pick (ncols r) k (fun _ => 1)); assumption.
Qed.

(** X7.  In a network whose last bias has one entry per output unit, the
    gradient sample of the last layer is the sampled one-hot targets
    minus the predicted class probabilities, entry by entry: the
    derivative of [sum(logprobs * targets)] with respect to the
    perturbation of the last pre-activation.  Every row of it sums to
    zero. *)
Theorem last_layer_gradient_sample
    (front : list (ndarray R * ndarray1 R)) (W : ndarray R) (b : ndarray1 R)
    (inputs : ndarray R) (g : rng_state) (a_samples g_samples : list (ndarray R)) :
  size1 b = ncols W ->
  fst (collect_activations_and_grad_samples (front ++ [(W, b)]) inputs g)
  = Ok (a_samples, g_samples) ->
  exists logprobs activations targets g_last,
    neural_net_predict_and_activations
      (zero_perturbations (front ++ [(W, b)]) inputs) (front ++ [(W, b)]) inputs
    = Ok (logprobs, activations) /\
    fst (sample_discrete_from_log logprobs g) = Ok targets /\
    last g_samples = Some g_last /\
    shape g_last = shape logprobs /\
    forall i, (i < nrows logprobs)%nat ->
      (forall j, (j < ncols logprobs)%nat ->
         item g_last i j = item targets i j - exp (item logprobs i j)) /\
      s_sum (ncols logprobs) (fun j => item g_last i j) = 0.
Proof.
  intros Hb Hc. apply collect_inv in Hc. destruct Hc as ((v & aux & Hv) & ->).
  destruct (observed_run _ inputs g v aux Hv) as (lp & acts & targets & Hrun & Ht & Hrows).
  destruct (sample_discrete_from_log_inv lp g targets Ht) as (Hts & Hhot).
  destruct (forward_pass_values _ _ _ _ _ Hrun) as (Hnorm & _).
  assert (Hlen : length (zero_perturbations front inputs) = length front)
    by (unfold zero_perturbations; apply length_map).
  pose proof (fun i j => frozen_objective_last_layer front W b inputs lp acts targets i j
                           Hb Hrun Hts) as Hlast.
  destruct (Hlast 0%nat 0%nat) as (Hlr & Hlc & _).
  assert (Hentry : forall i j, (i < nrows lp)%nat -> (j < ncols lp)%nat ->
            tangent_of (frozen_objective targets (front ++ [(W, b)]) inputs
                          (seed (zero_perturbations (front ++ [(W, b)]) inputs)
                             (length front) i j))
            = item targets i j - exp (item lp i j)).
  { intros i j Hi Hj. destruct (Hlast i j) as (_ & _ & ->); try assumption.
    unfold shape in Hts. injection Hts as _ Htc. rewrite <- Htc.
    rewrite (one_hot_row_sum targets i _ (Hhot i Hi)). lra. }
  exists lp, acts, targets,
    (mk_array (nrows inputs) (size1 b)
       (fun i j =>
          match fst (model_predictive_log_likelihood (T:=dual)
                       (seed (zero_perturbations (front ++ [(W, b)]) inputs)
                          (length front) i j)
                       (params_const (front ++ [(W, b)])) (np_const inputs) g) with
          | Ok (v0, _) => tangent v0
          | Raise _ => 0
          end)).
  split; [exact Hrun|]. split; [exact Ht|]. split.
  { rewrite <- Hlen. rewrite zero_perturbations_app, imap_app. simpl imap.
    rewrite last_snoc, Nat.add_0_r. reflexivity. }
  split; [unfold shape; simpl; congruence|].
  cbn [item].
  assert (Hg : forall i j, (i < nrows lp)%nat -> (j < ncols lp)%nat ->
            match fst (model_predictive_log_likelihood (T:=dual)
                         (seed (zero_perturbations (front ++ [(W, b)]) inputs)
                            (length front) i j)
                         (params_const (front ++ [(W, b)])) (np_const inputs) g) with
            | Ok (v0, _) => tangent v0
            | Raise _ => 0
            end = item targets i j - exp (item lp i j)).
  { intros i j Hi Hj.
    rewrite (gradient_entry_frozen _ inputs g lp acts targets _ i j Hrun Ht).
    now apply Hentry. }
  intros i Hi. split.
  - intros j Hj. now apply Hg.
  - rewrite (rsum_ext _ _ (fun j => item targets i j + -1 * exp (item lp i j))).
    + rewrite (rsum_plus (ncols lp) (fun j => item targets i j)
                 (fun j => -1 * exp (item lp i j))).
      rewrite rsum_scal, (Hnorm i Hi).
      unfold shape in Hts. injection Hts as _ Htc. rewrite <- Htc.
      rewrite (one_hot_row_sum targets i _ (Hhot i Hi)). lra.
    + intros j Hj. rewrite Hg by assumption. lra.
Qed.

(** ** Appending samples *)

Lemma append_samples_lookup {A : Type} (all_samples : list (list A)) (new_samples : list A) :
  forall l,
    append_samples all_samples new_samples !! l =
    match all_samples !! l, new_samples !! l with
    | Some layer_samples, Some new_layer_samples =>
        Some (layer_samples ++ [new_layer_samples])
    | old, _ => old
    end.
Proof.
  revert new_samples.
  induction all_samples as [|layer rest IH]; intros [|x news] l; simpl; try reflexivity.
  - destruct l; simpl; [reflexivity|]. destruct (rest !! l); reflexivity.
  - destruct l as [|l]; simpl; [reflexivity|]. apply IH.
Qed.

Lemma length_append_samples {A : Type} (all_samples : list (list A)) (new_samples : list A) :
  length (append_samples all_samples new_samples) = length all_samples.
Proof.
  revert new_samples.
  induction all_samples as [|layer rest IH]; intros [|x news]; simpl; try reflexivity.
  now rewrite IH.
Qed.

(** X8.  [append_samples] keeps the number of layers and puts the new
    sample of a layer after the samples that the layer already holds.
    The lengths of the two lists are not compared: [zip] stops at the
    shorter one, so a layer for which no new sample is given silently
    keeps its list unchanged, and new samples beyond the last layer are
    dropped. *)
Theorem append_samples_appends {A : Type} (all_samples : list (list A)) (new_samples : list A) :
  length (append_samples all_samples new_samples) = length all_samples /\
  (forall l layer_samples new_layer_samples,
     all_samples !! l = Some layer_samples ->
     new_samples !! l = Some new_layer_samples ->
     append_samples all_samples new_samples !! l
     = Some (layer_samples ++ [new_layer_samples])) /\
  (forall l, (length new_samples <= l)%nat ->
     append_samples all_samples new_samples !! l = all_samples !! l).
Proof.
  split; [apply length_append_samples|]. split.
  - intros l layer x Hl Hx. rewrite append_samples_lookup, Hl, Hx. reflexivity.
  - intros l Hl. rewrite append_samples_lookup.
    rewrite (lookup_ge_None_2 new_samples l Hl).
    destruct (all_samples !! l); reflexivity.
Qed.

Lemma fold_append_samples_lookup {A : Type} (news : list (list A)) :
  forall (all_samples : list (list A)) l layer_samples,
    Forall (fun new_samples => length new_samples = length all_samples) news ->
    all_samples !! l = Some layer_samples ->
    exists batches,
      fold_left append_samples news all_samples !! l = Some (layer_samples ++ batches) /\
      Forall2 (fun new_samples batch => new_samples !! l = Some batch) news batches.
Proof.
  induction news as [|new news IH]; intros all_samples l layer Hlen Hl.
  - exists []. rewrite app_nil_r. split; [exact Hl | constructor].
  - pose proof (Forall_inv Hlen) as Hn. pose proof (Forall_inv_tail Hlen) as Hns.
    assert (Hx : exists x, new !! l = Some x).
    { apply lookup_lt_is_Some. rewrite Hn. eapply lookup_lt_Some, Hl. }
    destruct Hx as (x & Hx).
    destruct (IH (append_samples all_samples new) l (layer ++ [x])) as (batches & Hb & HF).
    + eapply Forall_impl; [exact Hns|]. intros new' Hn'. cbv beta in *.
      now rewrite length_append_samples.
    + rewrite append_samples_lookup, Hl, Hx. reflexivity.
    + exists (x :: batches). split.
      * simpl. rewrite Hb, <- app_assoc. reflexivity.
      * constructor; assumption.
Qed.

(** X9.  Starting from the empty lists of [init_sample_lists], a series
    of calls of [append_samples] with one sample per layer leaves, in
    every layer, exactly the samples given for that layer, in the order
    of the calls. *)
Theorem append_samples_call_order {A : Type} (layer_sizes : list nat)
    (news : list (list A)) (l : nat) :
  Forall (fun new_samples => length new_samples = length (removelast layer_sizes)) news ->
  (l < length (removelast layer_sizes))%nat ->
  exists batches,
    fold_left append_samples news (fst (init_sample_lists layer_sizes)) !! l = Some batches /\
    length batches = length news /\
    Forall2 (fun new_samples batch => new_samples !! l = Some batch) news batches.
Proof.
  intros Hlen Hl. unfold init_sample_lists. cbn [fst].
  destruct (fold_append_samples_lookup news
              (map (fun _ => []) (removelast layer_sizes)) l [])
    as (batches & Hb & HF).
  - eapply Forall_impl; [exact Hlen|]. intros new Hn. cbv beta in *.
    now rewrite length_map.
  - rewrite list_lookup_fmap.
    destruct (lookup_lt_is_Some_2 (removelast layer_sizes) l Hl) as (n & ->). reflexivity.
  - exists batches. split; [exact Hb|]. split; [|exact HF].
    symmetry. exact (Forall2_length _ _ _ HF).
Qed.

(** ** The homogeneous coordinate in the activation factor *)

Lemma Rlist_sum_map_ext {A : Type} (f g : A -> R) (l : list A) :
  Forall (fun x => f x = g x) l -> Rlist_sum (map f l) = Rlist_sum (map g l).
Proof. induction 1 as [|x l Hx _ IH]; simpl; [reflexivity | now rewrite Hx, IH]. Qed.

Lemma rsum_ones (n : nat) : s_sum n (fun _ => 1 * 1) = INR n.
Proof.
  induction n as [|n IH]; [reflexivity|].
  rewrite S_INR. simpl. rewrite IH. lra.
Qed.

Lemma Rlist_sum_rows (layer : list (ndarray R)) :
  Rlist_sum (map (fun b => INR (nrows b)) layer) = INR (total_rows layer).
Proof.
  unfold total_rows. induction layer as [|b layer IH]; simpl; [reflexivity|].
  rewrite plus_INR, IH. reflexivity.
Qed.

Lemma well_shaped_widths (h : bool) (layer : list (ndarray R)) :
  well_shaped h layer ->
  well_shaped false layer /\
  layer_width h layer = (layer_width false layer + if h then 1 else 0)%nat /\
  Forall (fun b => ncols b = layer_width false layer) layer.
Proof.
  intros (Hne & Hw). destruct layer as [|b0 layer]; [congruence|].
  assert (HF : Forall (fun b => ncols b = ncols b0) (b0 :: layer)).
  { eapply Forall_impl; [exact Hw|]. intros b. simpl. destruct h; simpl; lia. }
  split; [split; [discriminate | exact HF]|].
  split; [|exact HF].
  simpl. destruct h; simpl; lia.
Qed.

Lemma homog_item_inner (b : ndarray R) (k i : nat) :
  (i < ncols b)%nat -> item (homog_array true b) k i = item b k i.
Proof. intros Hi. simpl. apply Nat.ltb_lt in Hi. now rewrite Hi. Qed.

Lemma homog_item_last (b : ndarray R) (k : nat) :
  item (homog_array true b) k (ncols b) = 1.
Proof. simpl. now rewrite Nat.ltb_irrefl. Qed.

(** The entries of the second moment with the homogeneous coordinate. *)
Lemma second_moment_blocks (layer : list (ndarray R)) (n : nat) :
  well_shaped true layer ->
  let d := layer_width false layer in
  shape (second_moment true layer n) = (d + 1, d + 1)%nat /\
  shape (second_moment false layer n) = (d, d) /\
  (forall i j, (i < d)%nat -> (j < d)%nat ->
     item (second_moment true layer n) i j = item (second_moment false layer n) i j) /\
  (forall j, (j < d)%nat ->
     item (second_moment true layer n) d j = column_sum layer j / INR n /\
     item (second_moment true layer n) j d = column_sum layer j / INR n) /\
  item (second_moment true layer n) d d = INR (total_rows layer) / INR n.
Proof.
  intros Hws. destruct (well_shaped_widths true layer Hws) as (_ & Hw & Hcols).
  cbv zeta. set (d := layer_width false layer) in *.
  split; [unfold shape; simpl; now rewrite Hw|].
  split; [reflexivity|]. split; [|split].
  - intros i j Hi Hj. simpl. f_equal. apply Rlist_sum_map_ext.
    eapply Forall_impl; [exact Hcols|]. intros b Hb. cbv beta in *.
    apply rsum_ext. intros k _.
    change (item (homog_array true b) k i * item (homog_array true b) k j
            = item b k i * item b k j).
    rewrite !homog_item_inner by lia. reflexivity.
  - intros j Hj. unfold column_sum. simpl.
    split; f_equal; apply Rlist_sum_map_ext;
      (eapply Forall_impl; [exact Hcols|]); intros b Hb; cbv beta in *;
      apply rsum_ext; intros k _; rewrite <- Hb.
    + change (item (homog_array true b) k (ncols b) * item (homog_array true b) k j
              = item b k j).
      rewrite homog_item_last, homog_item_inner by lia. lra.
    + change (item (homog_array true b) k j * item (homog_array true b) k (ncols b)
              = item b k j).
      rewrite homog_item_last, homog_item_inner by lia. lra.
  - simpl. f_equal. rewrite <- Rlist_sum_rows. apply Rlist_sum_map_ext.
    eapply Forall_impl; [exact Hcols|]. intros b Hb. cbv beta in *.
    rewrite <- rsum_ones. apply rsum_ext. intros k _.
    rewrite <- Hb.
    change (item (homog_array true b) k (ncols b) * item (homog_array true b) k (ncols b)
            = 1 * 1).
    rewrite homog_item_last. reflexivity.
Qed.

Lemma Forall2_Forall3 {A B C : Type} (S : A -> Prop) (P : A -> B -> Prop)
    (Q : A -> C -> Prop) (T : A -> B -> C -> Prop) (l : list A) (l2 : list B) (l3 : list C) :
  (forall a b c, S a -> P a b -> Q a c -> T a b c) ->
  Forall S l -> Forall2 P l l2 -> Forall2 Q l l3 -> Forall3 T l l2 l3.
Proof.
  intros HT HS HP. revert l3 HS.
  induction HP as [|a b l l2 Hab _ IH]; intros l3 HS HQ; inversion HQ; subst.
  - constructor.
  - constructor; [|apply IH; [exact (Forall_inv_tail HS) | assumption]].
    apply HT; [exact (Forall_inv HS) | assumption | assumption].
Qed.

(** X10.  With [append_homog=True] the estimate of a layer of width [d]
    is a [(d+1) x (d+1)] matrix in blocks: its upper left [d x d] block
    is the estimate that the same samples give without the homogeneous
    coordinate; its last row and last column hold, for each unit, the
    sum of the unit's activations divided by the sample count (the mean
    activation); and its corner is the number of rows of the layer
    divided by the sample count, which is 1 for a layer with as many
    rows as the first one. *)
Theorem activation_factor_blocks
    (all_samples : list (list (ndarray R))) (first : list (ndarray R)) :
  py_first all_samples = Ok first ->
  (0 < total_rows first)%nat ->
  Forall (well_shaped true) all_samples ->
  exists Ahats plain,
    estimate_block_kron_factors all_samples true = Ok Ahats /\
    estimate_block_kron_factors all_samples false = Ok plain /\
    Forall3 (fun layer v p =>
               homog_blocks layer (total_rows first) v p /\
               (total_rows layer = total_rows first ->
                exists a, v = NdArray a /\
                          item a (layer_width false layer) (layer_width false layer) = 1))
            all_samples Ahats plain.
Proof.
  intros Hfirst Hn Hws.
  destruct (estimate_ok_second_moment all_samples true first Hfirst Hn Hws)
    as (Ahats & HA & HFA).
  assert (Hws' : Forall (well_shaped false) all_samples).
  { eapply Forall_impl; [exact Hws|]. intros layer Hl.
    apply (well_shaped_widths true layer Hl). }
  destruct (estimate_ok_second_moment all_samples false first Hfirst Hn Hws')
    as (plain & HP & HFP).
  exists Ahats, plain. split; [exact HA|]. split; [exact HP|].
  apply (Forall2_Forall3 (well_shaped true)
           (fun layer v => is_array v (second_moment true layer (total_rows first)))
           (fun layer v => is_array v (second_moment false layer (total_rows first))));
    try assumption.
  intros layer v p Hl Hv Hp.
  destruct v as [|a|]; simpl in Hv; try contradiction.
  destruct p as [|q|]; simpl in Hp; try contradiction.
  destruct (second_moment_blocks layer (total_rows first) Hl)
    as (Hsa & Hsq & Hin & Hlast & Hcorner).
  destruct Hv as (Har & Hac & Hai). destruct Hp as (Hqr & Hqc & Hqi).
  unfold shape in Hsa. injection Hsa as Hsar Hsac. clear Hsq.
  simpl in Hqr, Hqc, Har, Hac, Hsar, Hsac.
  set (d := layer_width false layer) in *.
  assert (Hblocks : homog_blocks layer (total_rows first) (NdArray a) (NdArray q)).
  { simpl. fold d.
    split; [unfold shape; congruence|]. split; [unfold shape; congruence|].
    split; [|split].
    - intros i j Hi Hj. rewrite Hai, Hqi by lia. now apply Hin.
    - intros j Hj. rewrite !Hai by lia. now apply Hlast.
    - rewrite Hai by lia. exact Hcorner. }
  split; [exact Hblocks|].
  intros Hrows. exists a. split; [reflexivity|].
  destruct Hblocks as (_ & _ & _ & _ & Hdd).
  transitivity (INR (total_rows layer) / INR (total_rows first)); [exact Hdd|].
  rewrite Hrows. field. apply not_0_INR. lia.
Qed.

(** ** One denominator for all batches *)

Lemma rsum_app (n m : nat) (f : nat -> R) :
  s_sum (n + m) f = s_sum n f + s_sum m (fun k => f (n + k)%nat).
Proof.
  induction m as [|m IH]; [rewrite Nat.add_0_r; simpl; lra|].
  rewrite Nat.add_succ_r. simpl. rewrite IH. lra.
Qed.

Lemma homog_vstack (h : bool) (a b : ndarray R) (k i : nat) :
  ncols a = ncols b ->
  item (homog_array h (np_vstack a b)) k i =
  if (k <? nrows a)%nat then item (homog_array h a) k i
  else item (homog_array h b) (k - nrows a) i.
Proof.
  intros Hc. destruct h; simpl; [|reflexivity].
  rewrite <- Hc. destruct (i <? ncols a)%nat, (k <? nrows a)%nat; reflexivity.
Qed.

Lemma concat_batches_rows (h : bool) (rest : list (ndarray R)) :
  forall b i j,
    Forall (fun b' => ncols b' = ncols b) rest ->
    nrows (concat_batches b rest) = total_rows (b :: rest) /\
    ncols (concat_batches b rest) = ncols b /\
    s_sum (nrows (concat_batches b rest))
      (fun k => item (homog_array h (concat_batches b rest)) k i
                * item (homog_array h (concat_batches b rest)) k j)
    = Rlist_sum (map (fun b' => s_sum (nrows b')
                                  (fun k => item (homog_array h b') k i
                                            * item (homog_array h b') k j))
                     (b :: rest)).
Proof.
  induction rest as [|b' rest IH]; intros b i j Hw.
  - simpl. unfold total_rows. simpl. split; [lia|]. split; [reflexivity | lra].
  - pose proof (Forall_inv Hw) as Hb'. pose proof (Forall_inv_tail Hw) as Hrest.
    destruct (IH b' i j) as (Hr & Hc & Hs).
    { eapply Forall_impl; [exact Hrest|]. intros x Hx. cbv beta in *. congruence. }
    change (concat_batches b (b' :: rest)) with (np_vstack b (concat_batches b' rest)).
    split; [|split; [reflexivity|]].
    + simpl. rewrite Hr. reflexivity.
    + change (nrows (np_vstack b (concat_batches b' rest)))
        with (nrows b + nrows (concat_batches b' rest))%nat.
      rewrite rsum_app.
      change (map ?f (b :: b' :: rest)) with (f b :: map f (b' :: rest)).
      change (Rlist_sum (?x :: ?l)) with (x + Rlist_sum l).
      rewrite <- Hs. f_equal.
      * apply rsum_ext. intros k Hk.
        rewrite !homog_vstack by congruence.
        apply Nat.ltb_lt in Hk. rewrite Hk. reflexivity.
      * apply rsum_ext. intros k Hk.
        rewrite !homog_vstack by congruence.
        replace (nrows b + k <? nrows b)%nat with false
          by (symmetry; apply Nat.ltb_ge; lia).
        replace (nrows b + k - nrows b)%nat with k by lia. reflexivity.
Qed.

Lemma pooled_second_moment (h : bool) (layer : list (ndarray R)) (n : nat) :
  well_shaped h layer ->
  well_shaped h (pooled layer) /\
  total_rows (pooled layer) = total_rows layer /\
  arr_eq (second_moment h layer n) (second_moment h (pooled layer) n).
Proof.
  intros Hws. destruct (well_shaped_widths h layer Hws) as (_ & _ & Hcols).
  destruct layer as [|b rest]; [destruct Hws; congruence|].
  simpl in Hcols. pose proof (Forall_inv_tail Hcols) as Hrest.
  assert (Hfacts := fun i j => concat_batches_rows h rest b i j Hrest).
  destruct (Hfacts 0%nat 0%nat) as (Hr & Hc & _).
  assert (Hw : ncols (homog_array h (concat_batches b rest)) = ncols (homog_array h b)).
  { destruct h; simpl; congruence. }
  split; [|split].
  - split; [discriminate|]. repeat constructor.
  - unfold pooled, total_rows at 1. simpl. rewrite Hr. lia.
  - unfold pooled. split; [simpl; congruence|]. split; [simpl; congruence|].
    intros i j _ _.
    change (item (second_moment h (b :: rest) n) i j
            = item (second_moment h [concat_batches b rest] n) i j).
    unfold second_moment. cbn [item].
    destruct (Hfacts i j) as (_ & _ & Hs).
    f_equal. rewrite <- Hs.
    change (map ?f [?x]) with [f x]. simpl Rlist_sum. lra.
Qed.

Lemma Forall2_join {A B C : Type} (S : A -> Prop) (P : A -> B -> Prop)
    (Q : A -> C -> Prop) (T : B -> C -> Prop) (l : list A) (l2 : list B) (l3 : list C) :
  (forall a b c, S a -> P a b -> Q a c -> T b c) ->
  Forall S l -> Forall2 P l l2 -> Forall2 Q l l3 -> Forall2 T l2 l3.
Proof.
  intros HT HS HP. revert l3 HS.
  induction HP as [|a b l l2 Hab _ IH]; intros l3 HS HQ; inversion HQ; subst.
  - constructor.
  - constructor; [|apply IH; [exact (Forall_inv_tail HS) | assumption]].
    eapply HT; [exact (Forall_inv HS) | eassumption | eassumption].
Qed.

(** X11.  The estimates depend on the samples of a layer only through
    the pool of their rows: stacking the batches of every layer into one
    batch leaves every estimate unchanged (numbers being exact).  The
    sum of the per-batch products is divided once by the total count; it
    is not an average of per-batch estimates. *)
Theorem estimate_block_kron_factors_pooled
    (all_samples : list (list (ndarray R))) (append_homog : bool)
    (first : list (ndarray R)) :
  py_first all_samples = Ok first ->
  (0 < total_rows first)%nat ->
  Forall (well_shaped append_homog) all_samples ->
  exists estimates estimates',
    estimate_block_kron_factors all_samples append_homog = Ok estimates /\
    estimate_block_kron_factors (map pooled all_samples) append_homog = Ok estimates' /\
    Forall2 same_array estimates estimates'.
Proof.
  intros Hfirst Hn Hws.
  destruct (estimate_ok_second_moment all_samples append_homog first Hfirst Hn Hws)
    as (est & He & HF).
  assert (Hfirst' : py_first (map pooled all_samples) = Ok (pooled first)).
  { destruct all_samples as [|f rest]; [discriminate|].
    simpl in *. congruence. }
  assert (Hwsf : well_shaped append_homog first).
  { destruct all_samples as [|f rest]; [discriminate|].
    simpl in Hfirst. injection Hfirst as <-. exact (Forall_inv Hws). }
  destruct (pooled_second_moment append_homog first 0 Hwsf) as (_ & Hrows & _).
  destruct (estimate_ok_second_moment (map pooled all_samples) append_homog
              (pooled first) Hfirst') as (est' & He' & HF').
  { rewrite Hrows. exact Hn. }
  { rewrite Forall_map. eapply Forall_impl; [exact Hws|].
    intros layer Hl. apply (pooled_second_moment append_homog layer 0 Hl). }
  exists est, est'. split; [exact He|]. split; [exact He'|].
  apply Forall2_fmap_l in HF'.
  apply (Forall2_join (well_shaped append_homog) _ _ same_array all_samples est est'
           ) with (2 := Hws) (3 := HF) (4 := HF').
  intros layer v v' Hl Hv Hv'. cbv beta in *. rewrite Hrows in Hv'.
  destruct v as [|a|]; simpl in Hv; try contradiction.
  destruct v' as [|a'|]; simpl in Hv'; try contradiction.
  simpl.
  destruct (pooled_second_moment append_homog layer (total_rows first) Hl) as (_ & _ & Hsm).
  eapply arr_eq_trans; [exact Hv|].
  eapply arr_eq_trans; [exact Hsm|]. apply arr_eq_sym. exact Hv'.
Qed.

(** ** Batches of different widths *)

Lemma layer_sumsq_ragged (h : bool) (n : nat) (b1 b2 : ndarray R) (rest : list (ndarray R)) :
  broadcast_dim (ncols (homog_array h b1)) (ncols (homog_array h b2)) = None ->
  layer_sumsq (if h then append_homog_coord else identity) n (b1 :: b2 :: rest)
  = Raise ValueError.
Proof.
  intros Hb. unfold layer_sumsq.
  rewrite (py_map_total _ (homog_array h)) by apply homog_ok.
  cbn [mbind result_bind].
  rewrite (py_map_total _ gram) by apply sumsq_ok. cbn [mbind result_bind].
  unfold py_sum. simpl map. rewrite !py_for_cons.
  change (py_add (PyNum 0) (NdArray (gram (homog_array h b1))))
    with (Ok (NdArray (np_map (fun e => 0 + e) (gram (homog_array h b1))))).
  cbn [mbind result_bind].
  assert (E : py_add (NdArray (np_map (fun e => 0 + e) (gram (homog_array h b1))))
                     (NdArray (gram (homog_array h b2))) = Raise ValueError).
  { unfold py_add, np_add, np_binop. simpl nrows. rewrite Hb. reflexivity. }
  rewrite py_for_cons, E. reflexivity.
Qed.

(** X12.  The batches of a layer are only added up, never compared: when
    the first two batches of the first layer have widths (after the
    homogeneous coordinate is appended) that numpy cannot broadcast
    against each other, the sum of their products raises [ValueError]. *)
Theorem estimate_block_kron_factors_ragged_layer
    (b1 b2 : ndarray R) (rest : list (ndarray R)) (others : list (list (ndarray R)))
    (append_homog : bool) :
  broadcast_dim (ncols (homog_array append_homog b1)) (ncols (homog_array append_homog b2))
  = None ->
  estimate_block_kron_factors ((b1 :: b2 :: rest) :: others) append_homog
  = Raise ValueError.
Proof.
  intros Hb. unfold estimate_block_kron_factors.
  change (py_first ((b1 :: b2 :: rest) :: others)) with (Ok (b1 :: b2 :: rest)).
  cbn [mbind result_bind py_map].
  rewrite (layer_sumsq_ragged append_homog _ b1 b2 rest Hb). reflexivity.
Qed.

(** ** Lists of different lengths in the update *)

Lemma py_map_length {A B : Type} (f : A -> result B) (l : list A) (ys : list B) :
  py_map f l = Ok ys -> length ys = length l.
Proof.
  revert ys. induction l as [|x l IH]; intros ys; simpl.
  - now intros [= <-].
  - destruct (f x) as [y|]; cbn [mbind result_bind]; [|discriminate].
    destruct (py_map f l) as [ys'|]; cbn [mbind result_bind]; [|discriminate].
    intros [= <-]. simpl. now rewrite (IH ys').
Qed.

Lemma py2_map2_length {A B C : Type} (f : A -> B -> result C)
    (l1 : list A) (l2 : list B) (zs : list C) :
  py2_map2 f l1 l2 = Ok zs -> length l1 = length l2 /\ length zs = length l1.
Proof.
  revert l2 zs. induction l1 as [|x l1 IH]; intros [|y l2] zs; simpl; try discriminate.
  - now intros [= <-].
  - destruct (f x y) as [z|]; cbn [mbind result_bind]; [|discriminate].
    destruct (py2_map2 f l1 l2) as [zs'|] eqn:E; cbn [mbind result_bind]; [|discriminate].
    intros [= <-]. destruct (IH l2 zs' E) as (H1 & H2). simpl. split; congruence.
Qed.

Lemma py2_map2_mismatch {A B C : Type} (f : A -> B -> result C)
    (l1 : list A) (l2 : list B) :
  length l1 <> length l2 ->
  (forall x y, In x l1 -> In y l2 -> exists z, f x y = Ok z) ->
  py2_map2 f l1 l2 = Raise TypeError.
Proof.
  revert l2. induction l1 as [|x l1 IH]; intros [|y l2] Hl Hf; simpl in *;
    try reflexivity; try congruence.
  destruct (Hf x y) as (z & ->); auto. cbn [mbind result_bind].
  rewrite IH; [reflexivity | congruence | auto].
Qed.

Lemma estimate_length (all_samples : list (list (ndarray R))) (h : bool)
    (estimates : list pyvalue) :
  estimate_block_kron_factors all_samples h = Ok estimates ->
  length estimates = length all_samples.
Proof.
  unfold estimate_block_kron_factors.
  destruct (py_first all_samples); cbn [mbind result_bind]; [|discriminate].
  apply py_map_length.
Qed.

(** X13.  [update_factor_estimates] never pairs up lists of different
    lengths silently.  When it returns, there were as many old
    activation (gradient) factors as layers of activation (gradient)
    samples, and it returns as many factors as it was given; Python 2's
    [map] pads the shorter list with [None], so when the estimates can
    be computed and blended but the number of old activation factors
    differs from the number of layers, the call raises [TypeError]. *)
Theorem update_factor_estimates_lengths
    (As Gs : list pyvalue) (a_samples g_samples : list (list (ndarray R))) (eps : R) :
  (forall As' Gs',
     update_factor_estimates (As, Gs) (a_samples, g_samples) eps = Ok (As', Gs') ->
     length As = length a_samples /\ length Gs = length g_samples /\
     length As' = length As /\ length Gs' = length Gs) /\
  (forall Ahats Ghats,
     estimate_block_kron_factors a_samples true = Ok Ahats ->
     estimate_block_kron_factors g_samples false = Ok Ghats ->
     (forall old new, In old As -> In new Ahats -> exists v, update eps old new = Ok v) ->
     length As <> length a_samples ->
     update_factor_estimates (As, Gs) (a_samples, g_samples) eps = Raise TypeError).
Proof.
  split.
  - intros As' Gs'. unfold update_factor_estimates.
    destruct (estimate_block_kron_factors a_samples true) as [Ahats|] eqn:EA;
      cbn [mbind result_bind]; [|discriminate].
    destruct (estimate_block_kron_factors g_samples false) as [Ghats|] eqn:EG;
      cbn [mbind result_bind]; [|discriminate].
    destruct (py2_map2 (update eps) As Ahats) as [As1|] eqn:E1;
      cbn [mbind result_bind]; [|discriminate].
    destruct (py2_map2 (update eps) Gs Ghats) as [Gs1|] eqn:E2;
      cbn [mbind result_bind]; [|discriminate].
    intros [= <- <-].
    apply py2_map2_length in E1, E2. apply estimate_length in EA, EG.
    destruct E1, E2. repeat split; congruence.
  - intros Ahats Ghats EA EG Hupd Hlen. unfold update_factor_estimates.
    rewrite EA, EG. cbn [mbind result_bind].
    rewrite (py2_map2_mismatch (update eps) As Ahats); [reflexivity | | exact Hupd].
    apply estimate_length in EA. congruence.
Qed.

(** ** The sample lists as objects *)

Lemma alloc_empty_lists_spec (n : nat) :
  forall σ : store,
    σ ⊆ snd (alloc_empty_lists n σ) /\
    length (fst (alloc_empty_lists n σ)) = n /\
    NoDup (fst (alloc_empty_lists n σ)) /\
    Forall (fun l => σ !! l = None /\ snd (alloc_empty_lists n σ) !! l = Some (ObjSeq []))
           (fst (alloc_empty_lists n σ)).
Proof.
  induction n as [|n IH]; intros σ; cbn [alloc_empty_lists].
  - split; [apply map_subseteq_spec; auto|]. split; [reflexivity|].
    split; constructor.
  - destruct (alloc (ObjSeq []) σ) as [l σ1] eqn:E1.
    destruct (alloc_empty_lists n σ1) as [ls σ2] eqn:E2. cbn [fst snd].
    destruct (alloc_spec (ObjSeq []) σ) as (Hf & Hs). rewrite E1 in Hf, Hs.
    cbn [fst snd] in Hf, Hs.
    pose proof (alloc_subseteq (ObjSeq []) σ) as H1.
    pose proof (alloc_lookup (ObjSeq []) σ) as Hl.
    rewrite E1 in H1, Hl. cbn [fst snd] in H1, Hl.
    destruct (IH σ1) as (H2 & Hlen & Hnd & Hall). rewrite E2 in H2, Hlen, Hnd, Hall.
    cbn [fst snd] in H2, Hlen, Hnd, Hall.
    split; [etrans; eassumption|]. split; [simpl; now rewrite Hlen|].
    rewrite Forall_forall in Hall.
    split.
    + constructor; [|exact Hnd].
      intros Hin.
      destruct (Hall l Hin) as (Hnone & _). congruence.
    + constructor.
      * split; [exact Hf|]. exact (lookup_weaken _ _ _ _ Hl H2).
      * apply Forall_forall. intros l' Hl'. destruct (Hall l' Hl') as (Hn & Hs').
        split; [|exact Hs'].
        destruct (σ !! l') as [o|] eqn:E; [|reflexivity].
        rewrite (lookup_weaken _ _ _ _ E H1) in Hn. discriminate.
Qed.

Lemma lookup_none_weaken (σ σ' : store) (l : nat) :
  σ ⊆ σ' -> σ' !! l = None -> σ !! l = None.
Proof.
  intros Hsub Hn. destruct (σ !! l) as [o|] eqn:E; [|reflexivity].
  rewrite (lookup_weaken _ _ _ _ E Hsub) in Hn. discriminate.
Qed.

Lemma py_map_empty_layers (σ : store) (items : list nat) :
  Forall (fun l => σ !! l = Some (ObjSeq [])) items ->
  py_map (fun layer => batches ← load_seq σ layer; py_map (load_array σ) batches) items
  = Ok (map (fun _ => []) items).
Proof.
  induction 1 as [|l items Hl _ IH]; [reflexivity|].
  assert (E : load_seq σ l = Ok []) by (unfold load_seq; now rewrite Hl).
  cbn [py_map]. rewrite E. cbn [mbind result_bind py_map].
  rewrite IH. reflexivity.
Qed.

Lemma map_const_length {A B C : Type} (c : C) (l : list A) (l' : list B) :
  length l = length l' -> map (fun _ => c) l = map (fun _ => c) l'.
Proof.
  revert l'. induction l as [|x l IH]; intros [|y l']; simpl; try discriminate; auto.
  intros [= H]. f_equal. now apply IH.
Qed.

(** X14.  [init_sample_lists] builds every list anew: in the store after
    the call the result refers to a list of two lists, which refer to
    one empty list per layer boundary each; these inner lists are all
    distinct objects, none of which existed before, so that appending to
    the list of one layer cannot change the list of another layer or of
    the other kind of sample.  Nothing that existed before is changed. *)
Theorem init_sample_lists_st_fresh (layer_sizes : list nat) (σ : store) :
  exists a_ref g_ref a_items g_items,
    let r := fst (init_sample_lists_st layer_sizes σ) in
    let σ' := snd (init_sample_lists_st layer_sizes σ) in
    σ ⊆ σ' /\ σ !! r = None /\
    σ' !! r = Some (ObjSeq [a_ref; g_ref]) /\
    σ' !! a_ref = Some (ObjSeq a_items) /\
    σ' !! g_ref = Some (ObjSeq g_items) /\
    length a_items = length (removelast layer_sizes) /\
    length g_items = length (removelast layer_sizes) /\
    NoDup (a_items ++ g_items) /\
    Forall (fun l => σ !! l = None /\ σ' !! l = Some (ObjSeq [])) (a_items ++ g_items) /\
    load_samples σ' r = Ok (init_sample_lists layer_sizes).
Proof.
  unfold init_sample_lists_st. cbv zeta.
  set (n := length (removelast layer_sizes)).
  destruct (alloc_empty_lists_spec n σ) as (S1 & Hl1 & Hnd1 & Hall1).
  destruct (alloc_empty_lists n σ) as [a_items σ1]. cbn [fst snd] in *.
  pose proof (alloc_subseteq (ObjSeq a_items) σ1) as S2.
  pose proof (alloc_lookup (ObjSeq a_items) σ1) as L2.
  destruct (alloc (ObjSeq a_items) σ1) as [a_ref σ2]. cbn [fst snd] in *.
  destruct (alloc_empty_lists_spec n σ2) as (S3 & Hl3 & Hnd3 & Hall3).
  destruct (alloc_empty_lists n σ2) as [g_items σ3]. cbn [fst snd] in *.
  pose proof (alloc_subseteq (ObjSeq g_items) σ3) as S4.
  pose proof (alloc_lookup (ObjSeq g_items) σ3) as L4.
  destruct (alloc (ObjSeq g_items) σ3) as [g_ref σ4]. cbn [fst snd] in *.
  pose proof (alloc_subseteq (ObjSeq [a_ref; g_ref]) σ4) as S5.
  pose proof (alloc_lookup (ObjSeq [a_ref; g_ref]) σ4) as L5.
  destruct (alloc_spec (ObjSeq [a_ref; g_ref]) σ4) as (F5 & _).
  destruct (alloc (ObjSeq [a_ref; g_ref]) σ4) as [r σ5]. cbn [fst snd] in *.
  assert (S02 : σ ⊆ σ2) by (etrans; eassumption).
  assert (S04 : σ ⊆ σ4) by (etrans; [exact S02|]; etrans; eassumption).
  assert (S15 : σ1 ⊆ σ5) by (etrans; [exact S2|]; etrans; [exact S3|]; etrans; eassumption).
  assert (S35 : σ3 ⊆ σ5) by (etrans; eassumption).
  assert (Hall : Forall (fun l => σ !! l = None /\ σ5 !! l = Some (ObjSeq []))
                   (a_items ++ g_items)).
  { apply Forall_app. split.
    - eapply Forall_impl; [exact Hall1|]. intros l (Hn & Hs). cbv beta.
      split; [exact Hn|]. exact (lookup_weaken _ _ _ _ Hs S15).
    - eapply Forall_impl; [exact Hall3|]. intros l (Hn & Hs). cbv beta.
      split; [exact (lookup_none_weaken _ _ _ S02 Hn)|].
      exact (lookup_weaken _ _ _ _ Hs S35). }
  exists a_ref, g_ref, a_items, g_items.
  split; [etrans; eassumption|].
  split; [exact (lookup_none_weaken _ _ _ S04 F5)|].
  split; [exact L5|].
  assert (La : σ5 !! a_ref = Some (ObjSeq a_items)).
  { apply (lookup_weaken _ _ _ _ L2). etrans; [exact S3|]. exact S35. }
  assert (Lg : σ5 !! g_ref = Some (ObjSeq g_items))
    by exact (lookup_weaken _ _ _ _ L4 S5).
  split; [exact La|]. split; [exact Lg|].
  split; [exact Hl1|]. split; [exact Hl3|]. split; [|split; [exact Hall|]].
  - apply NoDup_app. split; [exact Hnd1|]. split; [|exact Hnd3].
    intros l Hin1 Hin3.
    rewrite Forall_forall in Hall1, Hall3.
    destruct (Hall1 l Hin1) as (_ & Hs1). destruct (Hall3 l Hin3) as (Hn2 & _).
    rewrite (lookup_weaken _ _ _ _ Hs1 S2) in Hn2. discriminate.
  - apply Forall_app in Hall. destruct Hall as (Ha & Hg).
    unfold load_samples, load_pair, load_seq. rewrite L5. cbn [mbind result_bind].
    assert (Ea : load_seq σ5 a_ref = Ok a_items) by (unfold load_seq; now rewrite La).
    assert (Eg : load_seq σ5 g_ref = Ok g_items) by (unfold load_seq; now rewrite Lg).
    unfold load_layers. rewrite Ea. cbn [mbind result_bind].
    rewrite py_map_empty_layers
      by (eapply Forall_impl; [exact Ha|]; intros l Hl; exact (proj2 Hl)).
    cbn [mbind result_bind].
    rewrite Eg. cbn [mbind result_bind].
    rewrite py_map_empty_layers
      by (eapply Forall_impl; [exact Hg|]; intros l Hl; exact (proj2 Hl)).
    cbn [mbind result_bind]. unfold init_sample_lists.
    rewrite (map_const_length [] a_items (removelast layer_sizes)) by exact Hl1.
    rewrite (map_const_length [] g_items (removelast layer_sizes)) by exact Hl3.
    reflexivity.
Qed.

(** ** Appending in place *)

Lemma load_array_inv (σ : store) (l : nat) (a : ndarray R) :
  load_array σ l = Ok a <-> σ !! l = Some (ObjVal (NdArray a)).
Proof.
  unfold load_array, load_val.
  destruct (σ !! l) as [[[x|b|r c]|items]|]; cbn [mbind result_bind]; split;
    intros E; try discriminate; congruence.
Qed.

Lemma load_seq_inv (σ : store) (l : nat) (items : list nat) :
  load_seq σ l = Ok items <-> σ !! l = Some (ObjSeq items).
Proof.
  unfold load_seq. destruct (σ !! l) as [[v|items']|]; split; intros E;
    try discriminate; congruence.
Qed.

Lemma py_zip_lookup {A B : Type} (l1 : list A) (l2 : list B) (k : nat) :
  py_zip l1 l2 !! k =
  match l1 !! k, l2 !! k with
  | Some x, Some y => Some (x, y)
  | _, _ => None
  end.
Proof.
  revert l2 k. induction l1 as [|x l1 IH]; intros [|y l2] [|k]; simpl; try reflexivity.
  - destruct (l1 !! k); reflexivity.
  - apply IH.
Qed.

Lemma py_zip_elem {A B : Type} (l1 : list A) (l2 : list B) (x : A) (y : B) :
  (x, y) ∈ py_zip l1 l2 <-> exists k, l1 !! k = Some x /\ l2 !! k = Some y.
Proof.
  rewrite list_elem_of_lookup. split; intros (k & Hk); exists k.
  - rewrite py_zip_lookup in Hk.
    destruct (l1 !! k), (l2 !! k); try discriminate. injection Hk as -> ->. auto.
  - destruct Hk as (H1 & H2). rewrite py_zip_lookup, H1, H2. reflexivity.
Qed.

Lemma py_zip_fst_sublist {A B : Type} (l1 : list A) (l2 : list B) :
  map fst (py_zip l1 l2) = firstn (Nat.min (length l1) (length l2)) l1.
Proof.
  revert l2. induction l1 as [|x l1 IH]; intros [|y l2]; simpl; try reflexivity.
  f_equal. apply IH.
Qed.

Lemma NoDup_firstn {A : Type} (n : nat) (l : list A) : NoDup l -> NoDup (firstn n l).
Proof.
  intros Hnd. rewrite <- (firstn_skipn n l) in Hnd.
  apply NoDup_app in Hnd. tauto.
Qed.

(** The appends of [append_samples], one list object after the other. *)
Lemma append_each_st_spec (pairs : list (nat * nat)) :
  forall σ : store,
    NoDup (map fst pairs) ->
    Forall (fun p => exists items, σ !! fst p = Some (ObjSeq items)) pairs ->
    exists σ',
      append_each_st pairs σ = (Ok tt, σ') /\
      dom σ' = dom σ /\
      (forall l, l ∉ map fst pairs -> σ' !! l = σ !! l) /\
      Forall (fun p => exists items,
                σ !! fst p = Some (ObjSeq items) /\
                σ' !! fst p = Some (ObjSeq (items ++ [snd p]))) pairs.
Proof.
  induction pairs as [|[l x] rest IH]; intros σ Hnd Hseq.
  - exists σ. split; [reflexivity|]. split; [reflexivity|]. split; [auto | constructor].
  - simpl in Hnd. apply NoDup_cons in Hnd. destruct Hnd as (Hl & Hnd).
    pose proof (Forall_inv Hseq) as (items & Hitems). cbn [fst] in Hitems.
    pose proof (Forall_inv_tail Hseq) as Hrest.
    cbn [append_each_st]. unfold list_append_st. rewrite Hitems.
    set (σ1 := <[l := ObjSeq (items ++ [x])]> σ).
    assert (Hne : forall p, p ∈ rest -> fst p <> l).
    { intros p Hp E. apply Hl. apply list_elem_of_fmap. exists p. auto. }
    destruct (IH σ1 Hnd) as (σ' & Hrun & Hdom & Hout & Hin).
    { apply Forall_forall. intros p Hp. rewrite Forall_forall in Hrest.
      destruct (Hrest p Hp) as (its & Hits). exists its.
      unfold σ1. rewrite lookup_insert_ne by (apply not_eq_sym, Hne, Hp). exact Hits. }
    exists σ'. split; [exact Hrun|]. split; [|split].
    + rewrite Hdom. unfold σ1. apply dom_insert_lookup_L. rewrite Hitems. eauto.
    + intros l' Hl'. simpl in Hl'. apply not_elem_of_cons in Hl'. destruct Hl' as (Hll & Hl').
      rewrite (Hout l' Hl'). unfold σ1. apply lookup_insert_ne. congruence.
    + constructor.
      * exists items. cbn [fst snd]. split; [exact Hitems|].
        rewrite (Hout l Hl). unfold σ1. apply lookup_insert_eq.
      * apply Forall_forall. intros p Hp. rewrite Forall_forall in Hin.
        destruct (Hin p Hp) as (its & H1 & H2). exists its. split; [|exact H2].
        unfold σ1 in H1. rewrite lookup_insert_ne in H1 by (apply not_eq_sym, Hne, Hp).
        exact H1.
Qed.

Lemma py_map_layers_holds (σ : store) (layers : list nat)
    (contents : list (list (ndarray R))) :
  py_map (fun layer => batches ← load_seq σ layer; py_map (load_array σ) batches) layers
  = Ok contents <->
  holds_layers σ layers contents.
Proof.
  unfold holds_layers. split.
  - revert contents. induction layers as [|l layers IH]; intros contents; cbn [py_map].
    + intros [= <-]. constructor.
    + destruct (load_seq σ l) as [refs|] eqn:El; cbn [mbind result_bind]; [|discriminate].
      destruct (py_map (load_array σ) refs) as [c|] eqn:Ec; cbn [mbind result_bind];
        [|discriminate].
      destruct (py_map _ layers) as [cs|] eqn:Em; cbn [mbind result_bind]; [|discriminate].
      intros [= <-]. constructor; [|apply IH; reflexivity].
      exists refs. split; [now apply load_seq_inv | exact Ec].
  - induction 1 as [|l c layers cs (refs & Hl & Hc) _ IH]; [reflexivity|].
    apply load_seq_inv in Hl. cbn [py_map]. rewrite Hl. cbn [mbind result_bind].
    rewrite Hc. cbn [mbind result_bind]. rewrite IH. reflexivity.
Qed.

Lemma load_layers_holds (σ : store) (r : nat) (contents : list (list (ndarray R))) :
  load_layers σ r = Ok contents <->
  exists layers, σ !! r = Some (ObjSeq layers) /\ holds_layers σ layers contents.
Proof.
  unfold load_layers. split.
  - destruct (load_seq σ r) as [layers|] eqn:E; cbn [mbind result_bind]; [|discriminate].
    apply load_seq_inv in E. intros Hm. exists layers. split; [exact E|].
    now apply py_map_layers_holds.
  - intros (layers & E & HF). apply load_seq_inv in E. rewrite E. cbn [mbind result_bind].
    now apply py_map_layers_holds.
Qed.

Lemma py_map_app {A B : Type} (f : A -> result B) (l1 l2 : list A) (y1 y2 : list B) :
  py_map f l1 = Ok y1 -> py_map f l2 = Ok y2 -> py_map f (l1 ++ l2) = Ok (y1 ++ y2).
Proof.
  revert y1. induction l1 as [|x l1 IH]; intros y1; simpl.
  - now intros [= <-].
  - destruct (f x) as [y|]; cbn [mbind result_bind]; [|discriminate].
    destruct (py_map f l1) as [ys|]; cbn [mbind result_bind]; [|discriminate].
    intros [= <-] H2. rewrite (IH ys eq_refl H2). reflexivity.
Qed.

Lemma py_map_lookup {A B : Type} (f : A -> result B) (l : list A) (ys : list B) :
  py_map f l = Ok ys ->
  length ys = length l /\
  forall k x, l !! k = Some x -> exists y, ys !! k = Some y /\ f x = Ok y.
Proof.
  revert ys. induction l as [|x l IH]; intros ys; simpl.
  - intros [= <-]. split; [reflexivity|]. intros k x Hk. discriminate.
  - destruct (f x) as [y|] eqn:Ey; cbn [mbind result_bind]; [|discriminate].
    destruct (py_map f l) as [ys'|]; cbn [mbind result_bind]; [|discriminate].
    intros [= <-]. destruct (IH ys' eq_refl) as (Hlen & Hk).
    split; [simpl; congruence|].
    intros [|k] x' Hx; simpl in *; [injection Hx as <-; eauto | eauto].
Qed.

Lemma holds_layers_seq (σ : store) (layers : list nat) (contents : list (list (ndarray R)))
    (l : nat) :
  holds_layers σ layers contents -> l ∈ layers ->
  exists refs, σ !! l = Some (ObjSeq refs) /\
               Forall (fun ref => exists a, σ !! ref = Some (ObjVal (NdArray a))) refs.
Proof.
  intros HF Hl. unfold holds_layers in HF.
  apply list_elem_of_lookup in Hl. destruct Hl as (k & Hk).
  destruct (Forall2_lookup_l _ _ _ _ _ HF Hk) as (c & _ & refs & Hrefs & Hc).
  exists refs. split; [exact Hrefs|].
  apply Forall_forall. intros ref Hin.
  apply list_elem_of_lookup in Hin. destruct Hin as (i & Hi).
  destruct (py_map_lookup _ _ _ Hc) as (_ & Hlk).
  destruct (Hlk i ref Hi) as (a & _ & Ha). exists a. now apply load_array_inv.
Qed.

(** X15.  [append_samples] changes the list objects that [all_samples]
    holds, and nothing else.  When these are distinct lists of arrays
    (as [init_sample_lists] builds them) and [new_samples] is a list of
    arrays, the call returns; afterwards
    [all_samples] is the same object holding the same list objects, and
    what can be read through it is what the functional description of
    [append_samples] gives: every layer with a new sample has that
    sample appended.  No object is created, and every object other than
    those lists is unchanged, [new_samples] among them. *)
Theorem append_samples_st_refines (σ : store) (all_ref new_ref : nat)
    (layers news : list nat) (all_samples : list (list (ndarray R)))
    (new_samples : list (ndarray R)) :
  σ !! all_ref = Some (ObjSeq layers) ->
  NoDup layers ->
  load_layers σ all_ref = Ok all_samples ->
  σ !! new_ref = Some (ObjSeq news) ->
  py_map (load_array σ) news = Ok new_samples ->
  exists σ',
    append_samples_st all_ref new_ref σ = (Ok tt, σ') /\
    σ' !! all_ref = Some (ObjSeq layers) /\
    load_layers σ' all_ref = Ok (append_samples all_samples new_samples) /\
    dom σ' = dom σ /\
    (forall l, l ∉ layers -> σ' !! l = σ !! l).
Proof.
  intros Hall Hnd Hload Hnew Hnews.
  apply load_layers_holds in Hload. destruct Hload as (layers' & Hall' & Hholds).
  rewrite Hall in Hall'. injection Hall' as <-.
  assert (Hsub : forall l, l ∈ map fst (py_zip layers news) -> l ∈ layers).
  { intros l. rewrite py_zip_fst_sublist. apply (subseteq_take _ layers). }
  destruct (append_each_st_spec (py_zip layers news) σ) as (σ' & Hrun & Hdom & Hout & Hin).
  { rewrite py_zip_fst_sublist. now apply NoDup_firstn. }
  { apply Forall_forall. intros [l x] Hp. cbn [fst].
    destruct (holds_layers_seq σ layers all_samples l Hholds) as (refs & Hrefs & _).
    - apply Hsub. apply list_elem_of_fmap. exists (l, x). auto.
    - eauto. }
  assert (Hself : all_ref ∉ layers).
  { intros Hin'.
    destruct (holds_layers_seq σ layers all_samples all_ref Hholds Hin')
      as (refs & Hrefs & Harr).
    rewrite Hall in Hrefs. injection Hrefs as <-.
    rewrite Forall_forall in Harr. destruct (Harr all_ref Hin') as (a & Ha).
    congruence. }
  assert (Hkeep : forall l, l ∉ layers -> σ' !! l = σ !! l).
  { intros l Hl. apply Hout. intros Hl'. apply Hl, Hsub, Hl'. }
  assert (Harrays : forall ref a, load_array σ ref = Ok a -> load_array σ' ref = Ok a).
  { intros ref a Ha. apply load_array_inv in Ha. apply load_array_inv.
    rewrite Hkeep; [exact Ha|].
    intros Hin'. destruct (holds_layers_seq σ layers all_samples ref Hholds Hin')
      as (refs & Hrefs & _). congruence. }
  exists σ'. split.
  { unfold append_samples_st.
    rewrite (proj2 (load_seq_inv σ all_ref layers) Hall).
    rewrite (proj2 (load_seq_inv σ new_ref news) Hnew). exact Hrun. }
  split; [rewrite (Hkeep all_ref Hself); exact Hall|].
  split; [|split; [exact Hdom | exact Hkeep]].
  apply load_layers_holds. exists layers.
  split; [rewrite (Hkeep all_ref Hself); exact Hall|].
  unfold holds_layers in *.
  apply Forall2_same_length_lookup. split.
  { rewrite length_append_samples. exact (Forall2_length _ _ _ Hholds). }
  intros k l c' Hk Hc'.
  destruct (Forall2_lookup_l _ _ _ _ _ Hholds Hk) as (c & Hc & refs & Hrefs & Hcontent).
  rewrite append_samples_lookup, Hc in Hc'.
  destruct (py_map_lookup _ _ _ Hnews) as (Hlen & Hlk).
  destruct (news !! k) as [x|] eqn:Ex.
  - destruct (Hlk k x Ex) as (a & Ha & Hxa). rewrite Ha in Hc'. injection Hc' as <-.
    assert (Hp : (l, x) ∈ py_zip layers news) by (apply py_zip_elem; eauto).
    rewrite Forall_forall in Hin. destruct (Hin (l, x) Hp) as (items & Hi1 & Hi2).
    cbn [fst snd] in Hi1, Hi2. rewrite Hrefs in Hi1. injection Hi1 as <-.
    exists (refs ++ [x]). split; [exact Hi2|].
    apply py_map_app.
    + exact (py_map_mono _ _ _ _ Harrays Hcontent).
    + cbn [py_map]. rewrite (Harrays x a Hxa). reflexivity.
  - assert (Hnone : new_samples !! k = None).
    { apply lookup_ge_None. rewrite Hlen. now apply lookup_ge_None. }
    rewrite Hnone in Hc'. injection Hc' as <-.
    exists refs. split; [|exact (py_map_mono _ _ _ _ Harrays Hcontent)].
    rewrite Hout; [exact Hrefs|].
    intros Hl'. rewrite py_zip_fst_sublist in Hl'.
    apply list_elem_of_lookup in Hl'. destruct Hl' as (i & Hi).
    apply lookup_take_Some in Hi. destruct Hi as (Hi & Hlt).
    assert (i = k) by (eapply NoDup_lookup; eassumption). subst i.
    apply lookup_ge_None in Ex. lia.
Qed.

(** ** The minibatches of the script *)

Lemma num_batches_ceiling (train_images : ndarray R) :
  exists q : nat,
    Script.num_batches train_images = Z.of_nat q /\
    (nrows train_images <= q * Script.batch_size)%nat /\
    ((0 < nrows train_images)%nat ->
     (0 < q)%nat /\ ((q - 1) * Script.batch_size < nrows train_images)%nat).
Proof.
  unfold Script.num_batches, Script.batch_size.
  set (n := nrows train_images).
  exists ((n + (256 - 1)) / 256)%nat. split; [reflexivity|].
  pose proof (Nat.div_mod_eq (n + (256 - 1)) 256) as Hdm.
  pose proof (Nat.mod_upper_bound (n + (256 - 1)) 256 ltac:(lia)) as Hub.
  set (q := ((n + (256 - 1)) / 256)%nat) in *.
  set (r := ((n + (256 - 1)) mod 256)%nat) in *.
  split; [lia|]. intros Hn. split; lia.
Qed.

Lemma py_slice_bound_nat (len s : nat) :
  Script.py_slice_bound len (Z.of_nat s) = Nat.min len s.
Proof.
  unfold Script.py_slice_bound.
  destruct (Z.of_nat s <? 0)%Z eqn:E; [apply Z.ltb_lt in E; lia|]. lia.
Qed.

(** The slice that [batch_indices] returns and the batch that it
    selects. *)
Lemma batch_at_spec (train_images : ndarray R) (itr : Z) :
  (0 < nrows train_images)%nat ->
  exists (idx : nat) (batch : ndarray R),
    Z.of_nat idx = (itr mod Script.num_batches train_images)%Z /\
    Script.batch_indices train_images itr
    = Ok (Z.of_nat (idx * Script.batch_size),
          Z.of_nat (idx * Script.batch_size + Script.batch_size)) /\
    batch_at train_images itr = Ok batch /\
    (idx * Script.batch_size < nrows train_images)%nat /\
    nrows batch
    = Nat.min Script.batch_size (nrows train_images - idx * Script.batch_size) /\
    ncols batch = ncols train_images /\
    forall i j, item batch i j = item train_images (idx * Script.batch_size + i) j.
Proof.
  intros Hn.
  destruct (num_batches_ceiling train_images) as (q & Hq & Hle & Hpos).
  destruct (Hpos Hn) as (Hq0 & Hlt).
  pose proof (Z.mod_pos_bound itr (Z.of_nat q) ltac:(lia)) as Hmod.
  set (idx := Z.to_nat (itr mod Z.of_nat q)).
  assert (Hidx : Z.of_nat idx = (itr mod Z.of_nat q)%Z) by (unfold idx; lia).
  assert (Hidx_lt : (idx < q)%nat) by lia.
  assert (Hstart : (idx * Script.batch_size < nrows train_images)%nat).
  { unfold Script.batch_size in *. nia. }
  assert (Hbi : Script.batch_indices train_images itr
                = Ok (Z.of_nat (idx * Script.batch_size),
                      Z.of_nat (idx * Script.batch_size + Script.batch_size))).
  { unfold Script.batch_indices. cbv zeta. rewrite Hq.
    destruct (Z.of_nat q =? 0)%Z eqn:E; [apply Z.eqb_eq in E; lia|].
    rewrite <- Hidx. f_equal. f_equal; lia. }
  eexists idx, _. split; [now rewrite Hq|]. split; [exact Hbi|].
  unfold batch_at. rewrite Hbi. cbn [mbind result_bind].
  split; [reflexivity|]. split; [exact Hstart|].
  unfold Script.np_slice_rows. cbn [fst snd nrows ncols item].
  rewrite !py_slice_bound_nat.
  split; [lia|]. split; [reflexivity|].
  intros i j. f_equal. lia.
Qed.

(** X16.  On a non-empty data set, [batch_indices] returns for every
    iteration number, negative ones included, a slice that starts at a
    multiple of the batch size inside the data; the batch that the
    script takes with it is never empty, has at most [batch_size] rows
    (fewer only at the end of the data) and holds the rows of the data
    from the start of the slice on.  The number of batches is the
    quotient of the number of rows by the batch size, rounded up.  On an
    empty data set the number of batches is 0 and [batch_indices] raises
    [ZeroDivisionError]. *)
Theorem batch_indices_in_range (train_images : ndarray R) (itr : Z) :
  ((0 < nrows train_images)%nat ->
   exists (idx : nat) (batch : ndarray R),
     Z.of_nat idx = (itr mod Script.num_batches train_images)%Z /\
     Script.batch_indices train_images itr
     = Ok (Z.of_nat (idx * Script.batch_size),
           Z.of_nat (idx * Script.batch_size + Script.batch_size)) /\
     batch_at train_images itr = Ok batch /\
     (idx * Script.batch_size < nrows train_images)%nat /\
     (1 <= nrows batch <= Script.batch_size)%nat /\
     nrows batch
     = Nat.min Script.batch_size (nrows train_images - idx * Script.batch_size) /\
     ncols batch = ncols train_images /\
     forall i j, item batch i j = item train_images (idx * Script.batch_size + i) j) /\
  (exists q : nat,
     Script.num_batches train_images = Z.of_nat q /\
     (nrows train_images <= q * Script.batch_size)%nat /\
     (q * Script.batch_size < nrows train_images + Script.batch_size)%nat) /\
  (nrows train_images = 0%nat ->
   Script.batch_indices train_images itr = Raise ZeroDivisionError).
Proof.
  split; [|split].
  - intros Hn.
    destruct (batch_at_spec train_images itr Hn)
      as (idx & batch & Hidx & Hbi & Hb & Hstart & Hrows & Hcols & Hitems).
    exists idx, batch. repeat split; try assumption.
    + rewrite Hrows. unfold Script.batch_size in *. lia.
    + rewrite Hrows. lia.
  - destruct (num_batches_ceiling train_images) as (q & Hq & Hle & Hpos).
    exists q. split; [exact Hq|]. split; [exact Hle|].
    destruct (Nat.eq_dec (nrows train_images) 0%nat) as [Hz|Hnz].
    + unfold Script.num_batches in Hq. rewrite Hz in Hq.
      assert (q = 0%nat) by (apply Nat2Z.inj; rewrite <- Hq; reflexivity).
      subst q. unfold Script.batch_size. lia.
    + destruct Hpos as (Hq0 & Hlt); [lia|]. unfold Script.batch_size in *. lia.
  - intros Hz. unfold Script.batch_indices, Script.num_batches. rewrite Hz. reflexivity.
Qed.

(** X17.  The batches of the iterations [0 .. num_batches - 1] tile the
    data set: row [r] of the data is row [r mod batch_size] of the batch
    of iteration [r / batch_size]; and the iterations repeat with period
    [num_batches]. *)
Theorem batch_indices_tile (train_images : ndarray R) :
  (forall r, (r < nrows train_images)%nat ->
     exists batch,
       (Z.of_nat (r / Script.batch_size) < Script.num_batches train_images)%Z /\
       batch_at train_images (Z.of_nat (r / Script.batch_size)) = Ok batch /\
       (r mod Script.batch_size < nrows batch)%nat /\
       forall j, item batch (r mod Script.batch_size) j = item train_images r j) /\
  (forall itr,
     Script.batch_indices train_images (itr + Script.num_batches train_images)
     = Script.batch_indices train_images itr).
Proof.
  split.
  - intros r Hr.
    assert (Hn : (0 < nrows train_images)%nat) by lia.
    destruct (num_batches_ceiling train_images) as (q & Hq & Hle & Hpos).
    destruct (Hpos Hn) as (Hq0 & Hlt).
    pose proof (Nat.div_mod_eq r Script.batch_size) as Hdm.
    pose proof (Nat.mod_upper_bound r Script.batch_size) as Hub.
    unfold Script.batch_size in Hub at 1. specialize (Hub ltac:(lia)).
    set (k := (r / Script.batch_size)%nat) in *.
    set (m := (r mod Script.batch_size)%nat) in *.
    assert (Hk : (k < q)%nat).
    { unfold Script.batch_size in *. nia. }
    destruct (batch_at_spec train_images (Z.of_nat k) Hn)
      as (idx & batch & Hidx & _ & Hb & Hstart & Hrows & _ & Hitems).
    rewrite Hq, Z.mod_small in Hidx by lia. apply Nat2Z.inj in Hidx. subst idx.
    exists batch. split; [lia|]. split; [exact Hb|]. split.
    + rewrite Hrows. unfold Script.batch_size in *. lia.
    + intros j. rewrite Hitems. f_equal. unfold Script.batch_size in *. lia.
  - intros itr. unfold Script.batch_indices. cbv zeta.
    destruct (Script.num_batches train_images =? 0)%Z eqn:E; [reflexivity|].
    apply Z.eqb_neq in E.
    replace (itr + Script.num_batches train_images)%Z
      with (itr + 1 * Script.num_batches train_images)%Z by lia.
    rewrite Z.mod_add by exact E. reflexivity.
Qed.

(** ** The script from the first sample to the updated factors *)

Lemma params_for_conform (params : list (ndarray R * ndarray1 R)) :
  forall (d : nat) (sizes : list nat) (N : nat),
    params_for (d :: sizes) params ->
    layers_conform N d
      (py_zip params (map (fun '(W, b) => np_zeros (T:=R) N (size1 b)) params)) /\
    output_width d
      (py_zip params (map (fun '(W, b) => np_zeros (T:=R) N (size1 b)) params))
    = List.last sizes d /\
    map (fun p => nrows (fst p)) params = removelast (d :: sizes) /\
    map (fun p => size1 (snd p)) params = sizes.
Proof.
  induction params as [|[W b] params IH]; intros d sizes N Hp.
  - simpl in Hp. destruct sizes; [|contradiction]. repeat split.
  - simpl in Hp. destruct sizes as [|n sizes]; [contradiction|].
    destruct Hp as (HW & Hb & Hp). unfold shape in HW. injection HW as HWr HWc.
    destruct (IH n sizes N Hp) as (Hc & Hw & Hr & Hs).
    cbn [map py_zip layers_conform output_width fst snd].
    rewrite HWc, Hb. split; [|split; [|split]].
    + split; [exact HWr|]. split; [reflexivity|]. split; [reflexivity | exact Hc].
    + rewrite Hw. symmetry. apply last_cons.
    + rewrite Hr, HWr. destruct sizes; reflexivity.
    + rewrite Hs. reflexivity.
Qed.

Lemma layer_inputs_shapes (layers : list ((ndarray R * ndarray1 R) * ndarray R)) :
  forall (a : ndarray R) (acts : list (ndarray R)),
    layers_conform (nrows a) (ncols a) layers ->
    layer_inputs a layers acts ->
    map ncols acts = map (fun layer => nrows (fst (fst layer))) layers.
Proof.
  induction layers as [|[[W b] eb] rest IH]; intros a [|x acts] Hc Hin; simpl in Hin;
    try contradiction; [reflexivity|].
  destruct Hin as (-> & s & Hs & Hin). simpl in Hc. destruct Hc as (HW & Hb & He & Hrest).
  destruct (pre_activation_conform a W b eb) as (s' & Hs' & Hsr & Hsc);
    [congruence | exact Hb | exact He |].
  rewrite Hs in Hs'. injection Hs' as <-.
  cbn [map fst]. f_equal; [congruence|].
  apply (IH (np_tanh s)); [|exact Hin]. simpl. rewrite Hsr, Hsc. exact Hrest.
Qed.

Lemma Forall2_arr_eq_ncols (l1 l2 : list (ndarray R)) :
  Forall2 arr_eq l1 l2 -> map ncols l1 = map ncols l2.
Proof.
  induction 1 as [|a b l1 l2 (_ & Hc & _) _ IH]; simpl; [reflexivity | congruence].
Qed.

Lemma map_imap_same {A B C : Type} (f : B -> C) (f0 : A -> C) (F : nat -> A -> B)
    (x : list A) :
  (forall l a, f (F l a) = f0 a) -> map f (imap F x) = map f0 x.
Proof.
  intros HF. revert F HF. induction x as [|a x IH]; intros F HF; simpl; [reflexivity|].
  rewrite HF. f_equal. apply IH. intros l a'. apply HF.
Qed.

(** What [collect_activations_and_grad_samples] returns for the
    parameters of a network with given layer sizes. *)
(** Once the plain forward pass at zero perturbation has returned,
    [collect_activations_and_grad_samples] returns when no draw exceeds
    the total of its row, and raises nothing but [IndexError]. *)
Lemma collect_outcome (params : list (ndarray R * ndarray1 R)) (inputs : ndarray R)
    (g : rng_state) (lp : ndarray R) (acts : list (ndarray R)) :
  neural_net_predict_and_activations (zero_perturbations params inputs) params inputs
  = Ok (lp, acts) ->
  (draws_within lp g ->
   exists a_samples g_samples,
     fst (collect_activations_and_grad_samples params inputs g)
     = Ok (a_samples, g_samples)) /\
  (forall e,
     fst (collect_activations_and_grad_samples params inputs g) = Raise e ->
     e = IndexError).
Proof.
  intros Hrun.
  destruct (forward_pass_values _ _ _ _ _ Hrun) as (_ & Hd & _).
  destruct (forward_rel (T1:=R) (T2:=dual) (fun x y => x = primal y) (fun i => i)
              (nrows inputs) (fun i Hi => Hi) primal_of_scalar_rel)
    with (x := (lp, acts))
         (ebs1 := zero_perturbations params inputs) (params1 := params) (inputs1 := inputs)
         (ebs2 := map (np_const (T:=dual)) (zero_perturbations params inputs))
         (params2 := params_const (T:=dual) params)
         (inputs2 := np_const (T:=dual) inputs)
    as ([lp_t acts_t] & Hrun_t & Hlp); try assumption.
  { repeat split. }
  { apply rel_layers_traced, zero_perturbations_rows. }
  cbn [fst] in Hlp. destruct Hlp as (Hr1 & Hr2 & Hcol & Hi).
  assert (Hd_t : (0 < ncols lp_t)%nat) by (rewrite <- Hcol; exact Hd).
  destruct (log_likelihood_outcome _ _ _ g lp_t acts_t Hrun_t Hd_t) as (Hret & Hraise).
  unfold collect_activations_and_grad_samples, grad_and_aux. cbn [fst].
  fold (zero_perturbations params inputs).
  split.
  - intros Hw. destruct Hret as (t & _ & _ & _ & Hv).
    { intros i Hi'. simpl in Hi'. unfold row_total. simpl. rewrite <- Hcol.
      rewrite (rsum_ext _ _ (fun k => exp (item lp i k))).
      - apply Hw. congruence.
      - intros k Hk. rewrite <- Hi by congruence. reflexivity. }
    rewrite Hv. cbn [mbind result_bind]. eauto.
  - intros e He.
    destruct (fst (model_predictive_log_likelihood
                     (map np_const (zero_perturbations params inputs))
                     (params_const params) (np_const inputs) g))
      as [[v aux]|e'] eqn:E; cbn [mbind result_bind] in He; [discriminate|].
    injection He as <-. exact (proj1 (Hraise e' eq_refl)).
Qed.

(** The forward pass at zero perturbation returns on a network of the
    shapes that the layer sizes prescribe. *)
Lemma params_for_forward (d : nat) (sizes : list nat)
    (params : list (ndarray R * ndarray1 R)) (inputs : ndarray R) :
  params_for (d :: sizes) params ->
  sizes <> [] -> (0 < List.last sizes d)%nat ->
  ncols inputs = d ->
  exists lp acts,
    neural_net_predict_and_activations (zero_perturbations params inputs) params inputs
    = Ok (lp, acts) /\
    layer_inputs inputs (py_zip params (zero_perturbations params inputs)) acts.
Proof.
  intros Hp Hne Hlast Hd.
  destruct (params_for_conform params d sizes (nrows inputs) Hp) as (Hc & Hw & Hr & Hs).
  fold (zero_perturbations params inputs) in Hc, Hw.
  assert (Hpne : params <> []).
  { intros ->. simpl in Hs. congruence. }
  destruct (forward_pass_spec (zero_perturbations params inputs) params inputs)
    as (lp & acts & Hrun & _ & _ & _ & Hin); try assumption.
  { unfold zero_perturbations. apply length_map. }
  { rewrite Hd. exact Hc. }
  { rewrite Hd, Hw. exact Hlast. }
  eauto.
Qed.

Lemma collect_shapes (d : nat) (sizes : list nat)
    (params : list (ndarray R * ndarray1 R)) (inputs : ndarray R) (g : rng_state)
    (a_samples g_samples : list (ndarray R)) :
  params_for (d :: sizes) params ->
  sizes <> [] -> (0 < List.last sizes d)%nat ->
  ncols inputs = d ->
  fst (collect_activations_and_grad_samples params inputs g) = Ok (a_samples, g_samples) ->
  map ncols a_samples = removelast (d :: sizes) /\
  Forall (fun a => nrows a = nrows inputs) a_samples /\
  map ncols g_samples = sizes /\
  Forall (fun a => nrows a = nrows inputs) g_samples /\
  forall k, snd (collect_activations_and_grad_samples params inputs g) k
            = g (nrows inputs + k)%nat.
Proof.
  intros Hp Hne Hlast Hd Hcol.
  destruct (params_for_conform params d sizes (nrows inputs) Hp) as (Hc & Hw & Hr & Hs).
  fold (zero_perturbations params inputs) in Hc, Hw.
  destruct (collect_activations_plain _ _ _ _ _ Hcol)
    as (lp & acts & Hrun & Hacts & Hrows & Hsnd).
  destruct (params_for_forward d sizes params inputs Hp Hne Hlast Hd)
    as (lp' & acts' & Hrun' & Hin).
  rewrite Hrun in Hrun'. injection Hrun' as <- <-.
  split; [|split; [exact Hrows|]].
  { rewrite (Forall2_arr_eq_ncols _ _ Hacts).
    rewrite (layer_inputs_shapes (py_zip params (zero_perturbations params inputs))
               inputs acts); [|rewrite Hd; exact Hc | exact Hin].
    rewrite <- Hr. clear. unfold zero_perturbations.
    induction params as [|[W b] params IH]; simpl; [reflexivity | now rewrite IH]. }
  apply collect_inv in Hcol. destruct Hcol as (_ & ->).
  split; [|split; [|exact Hsnd]].
  - rewrite (map_imap_same ncols ncols) by reflexivity.
    rewrite <- Hs. unfold zero_perturbations. clear.
    induction params as [|[W b] params IH]; simpl; [reflexivity | now rewrite IH].
  - apply Forall_forall. intros a Ha.
    apply list_elem_of_lookup in Ha. destruct Ha as (l & Hl).
    rewrite list_lookup_imap in Hl.
    destruct (zero_perturbations params inputs !! l) as [z|] eqn:Ez; [|discriminate].
    simpl in Hl. injection Hl as <-. simpl.
    pose proof (zero_perturbations_rows params inputs) as Hz.
    rewrite Forall_forall in Hz. apply Hz. eapply list_elem_of_lookup_2, Ez.
Qed.

Lemma accumulated_init {A : Type} (widths : list nat) (l : list A) :
  length widths = length l ->
  accumulated widths 0 (map (fun _ => []) l).
Proof.
  unfold accumulated. revert l.
  induction widths as [|w widths IH]; intros [|x l]; simpl; try discriminate.
  - constructor.
  - intros [= Hl]. constructor; [|now apply IH]. split; [constructor | reflexivity].
Qed.

Lemma total_rows_app (l1 l2 : list (ndarray R)) :
  total_rows (l1 ++ l2) = (total_rows l1 + total_rows l2)%nat.
Proof.
  unfold total_rows. induction l1 as [|b l1 IH]; simpl; [reflexivity|]. rewrite IH. lia.
Qed.

Lemma accumulated_append (widths : list nat) (n N : nat)
    (all_samples : list (list (ndarray R))) (new_samples : list (ndarray R)) :
  accumulated widths n all_samples ->
  map ncols new_samples = widths ->
  Forall (fun a => nrows a = N) new_samples ->
  accumulated widths (n + N) (append_samples all_samples new_samples) /\
  Forall (fun layer => layer <> []) (append_samples all_samples new_samples).
Proof.
  unfold accumulated. intros Hacc. revert new_samples.
  induction Hacc as [|w layer widths all_samples (Hw & Hn) _ IH]; intros [|x news];
    simpl; try discriminate.
  - intros _ _. split; constructor.
  - intros [= Hx Hnews] Hrows.
    destruct (IH news Hnews (Forall_inv_tail Hrows)) as (IH1 & IH2).
    split; constructor; try assumption.
    + split.
      * apply Forall_app. split; [exact Hw|]. constructor; [exact Hx | constructor].
      * rewrite total_rows_app, Hn. unfold total_rows at 1. simpl.
        rewrite (Forall_inv Hrows). lia.
    + intros E. apply app_eq_nil in E. destruct E as (_ & E). discriminate.
Qed.

(** The estimates from accumulated samples: they exist, they are
    symmetric positive semi-definite, and their sizes are the widths of
    the layers (plus one with the homogeneous coordinate). *)
Lemma estimate_accumulated (h : bool) (widths : list nat) (n : nat)
    (all_samples : list (list (ndarray R))) :
  accumulated widths n all_samples ->
  Forall (fun layer => layer <> []) all_samples ->
  widths <> [] -> (0 < n)%nat ->
  exists estimates,
    estimate_block_kron_factors all_samples h = Ok estimates /\
    map value_shape estimates
    = map (fun w => Some (w + (if h then 1 else 0), w + (if h then 1 else 0))%nat) widths /\
    Forall sym_psd estimates.
Proof.
  intros Hacc Hne Hw Hn. unfold accumulated in Hacc.
  assert (Hfirst : exists first, py_first all_samples = Ok first /\ total_rows first = n).
  { destruct Hacc as [|w layer widths' rest (_ & Hrows) _]; [congruence|].
    exists layer. split; [reflexivity | exact Hrows]. }
  destruct Hfirst as (first & Hfirst & Hrows).
  assert (Hwidth : Forall2 (fun w layer => well_shaped h layer /\
                               layer_width h layer = (w + (if h then 1 else 0))%nat)
                     widths all_samples).
  { clear Hfirst Hw Hrows. revert Hne.
    induction Hacc as [|w layer widths' rest (Hcols & _) _ IH]; intros Hne;
      constructor; [|exact (IH (Forall_inv_tail Hne))].
    pose proof (Forall_inv Hne) as Hl.
    destruct layer as [|b0 layer]; [congruence|].
    assert (Hlw : layer_width h (b0 :: layer) = (w + (if h then 1 else 0))%nat).
    { simpl. rewrite <- (Forall_inv Hcols). destruct h; simpl; lia. }
    split; [|exact Hlw]. split; [discriminate|]. rewrite Hlw.
    eapply Forall_impl; [exact Hcols|]. intros b Hb. cbv beta in *.
    destruct h; simpl; lia. }
  destruct (estimate_ok_second_moment all_samples h first Hfirst) as (est & He & HF).
  { rewrite Hrows. exact Hn. }
  { clear -Hwidth. induction Hwidth as [|w layer ws rest (Hws & _) _ IH]; constructor;
      assumption. }
  exists est. split; [exact He|]. split.
  - clear -Hwidth HF. revert est HF.
    induction Hwidth as [|w layer ws rest (_ & Hlw) _ IH]; intros est HF;
      inversion HF as [|? v ? est' Hv HF']; subst; [reflexivity|].
    simpl. rewrite (IH est' HF'). f_equal.
    destruct v as [|r|]; simpl in Hv; try contradiction.
    destruct Hv as (Hr & Hc & _). simpl in Hr, Hc.
    simpl. unfold shape. rewrite Hr, Hc, Hlw. reflexivity.
  - apply (estimate_sym_psd all_samples h first est Hfirst);
      [rewrite Hrows; exact Hn | exact Hne | exact He].
Qed.

Lemma eye_value_shapes (widths : list nat) :
  map value_shape (map (fun n => NdArray (np_eye n)) widths)
  = map (fun w => Some (w, w)) widths.
Proof. induction widths as [|w ws IH]; simpl; [reflexivity | now rewrite IH]. Qed.

(** The update of freshly initialised factors from accumulated samples. *)
Lemma update_accumulated (sizes : list nat) (n m : nat)
    (a_samples g_samples : list (list (ndarray R))) (eps : R) :
  (2 <= length sizes)%nat ->
  accumulated (removelast sizes) n a_samples ->
  Forall (fun layer => layer <> []) a_samples ->
  accumulated (tl sizes) m g_samples ->
  Forall (fun layer => layer <> []) g_samples ->
  (0 < n)%nat -> (0 < m)%nat ->
  exists As' Gs',
    update_factor_estimates (init_factor_estimates sizes) (a_samples, g_samples) eps
    = Ok (As', Gs') /\
    map value_shape As' = map (fun w => Some (w + 1, w + 1)%nat) (removelast sizes) /\
    map value_shape Gs' = map (fun w => Some (w, w)) (tl sizes) /\
    (0 <= eps <= 1 -> Forall sym_psd As' /\ Forall sym_psd Gs').
Proof.
  intros Hlen HA HAne HG HGne Hn Hm.
  assert (Hrl : removelast sizes <> [] /\ tl sizes <> []).
  { destruct sizes as [|x [|y l]]; simpl in *; try lia. split; [|discriminate].
    destruct l; discriminate. }
  destruct Hrl as (Hrl & Htl).
  destruct (estimate_accumulated true _ n a_samples HA HAne Hrl Hn) as (Ahats & EA & HshA & HpA).
  destruct (estimate_accumulated false _ m g_samples HG HGne Htl Hm) as (Ghats & EG & HshG & HpG).
  assert (HshG' : map value_shape Ghats = map (fun w => Some (w, w)) (tl sizes)).
  { rewrite HshG. apply map_ext. intros w. now rewrite Nat.add_0_r. }
  unfold update_factor_estimates, init_factor_estimates.
  rewrite EA. cbn [mbind result_bind]. rewrite EG. cbn [mbind result_bind].
  destruct (map2_update_shapes eps
              (map (fun n => NdArray (np_eye n))
                   (map (fun n => (n + 1)%nat) (removelast sizes))) Ahats)
    as (As' & HAs' & HsA).
  { apply eye_vs_estimates. rewrite HshA, map_map. reflexivity. }
  destruct (map2_update_shapes eps (map (fun n => NdArray (np_eye n)) (tl sizes)) Ghats)
    as (Gs' & HGs' & HsG).
  { apply eye_vs_estimates. exact HshG'. }
  exists As', Gs'. rewrite HAs'. cbn [mbind result_bind]. rewrite HGs'.
  cbn [mbind result_bind].
  split; [reflexivity|]. split; [|split].
  - rewrite HsA, eye_value_shapes, map_map. reflexivity.
  - rewrite HsG, eye_value_shapes. reflexivity.
  - intros Heps. destruct (init_sym_psd sizes) as (HiA & HiG).
    unfold init_factor_estimates in HiA, HiG. cbn [fst snd] in HiA, HiG.
    split.
    + exact (map2_update_sym_psd eps _ _ _ Heps HiA HpA HAs').
    + exact (map2_update_sym_psd eps _ _ _ Heps HiG HpG HGs').
Qed.

Lemma collect_samples_batch (train_images : ndarray R)
    (params : list (ndarray R * ndarray1 R)) (itr : Z)
    (all_samples : list (list (ndarray R)) * list (list (ndarray R))) (g : rng_state)
    (batch : ndarray R) :
  batch_at train_images itr = Ok batch ->
  Script.collect_samples train_images params itr all_samples g =
  match collect_activations_and_grad_samples params batch g with
  | (Raise e, g') => (Raise e, g')
  | (Ok (a_samples, g_samples), g') =>
      (Ok (append_samples (fst all_samples) a_samples,
           append_samples (snd all_samples) g_samples), g')
  end.
Proof.
  unfold batch_at, Script.collect_samples.
  destruct (Script.batch_indices train_images itr) as [sl|]; cbn [mbind result_bind];
    [|discriminate].
  intros [= <-]. reflexivity.
Qed.

(** One call of [collect_samples] of the script that returns. *)
Lemma collect_samples_accumulates (train_images : ndarray R)
    (params : list (ndarray R * ndarray1 R)) (itr : Z)
    (all_samples all_samples' : list (list (ndarray R)) * list (list (ndarray R)))
    (g g' : rng_state) (batch : ndarray R) (d : nat) (sizes : list nat) (n : nat) :
  batch_at train_images itr = Ok batch ->
  ncols batch = d ->
  params_for (d :: sizes) params ->
  sizes <> [] -> (0 < List.last sizes d)%nat ->
  accumulated (removelast (d :: sizes)) n (fst all_samples) ->
  accumulated sizes n (snd all_samples) ->
  Script.collect_samples train_images params itr all_samples g = (Ok all_samples', g') ->
  accumulated (removelast (d :: sizes)) (n + nrows batch) (fst all_samples') /\
  Forall (fun layer => layer <> []) (fst all_samples') /\
  accumulated sizes (n + nrows batch) (snd all_samples') /\
  Forall (fun layer => layer <> []) (snd all_samples') /\
  forall k, g' k = g (nrows batch + k)%nat.
Proof.
  intros Hb Hd Hp Hne Hlast HA HG.
  rewrite (collect_samples_batch _ _ _ _ _ _ Hb).
  destruct (collect_activations_and_grad_samples params batch g) as [r g1] eqn:Ecol.
  destruct r as [[a_s g_s]|]; [|discriminate].
  intros [= <- <-].
  destruct (collect_shapes d sizes params batch g a_s g_s Hp Hne Hlast Hd)
    as (Hac & Har & Hgc & Hgr & Hsnd); [rewrite Ecol; reflexivity|].
  rewrite Ecol in Hsnd. cbn [snd] in Hsnd.
  destruct (accumulated_append _ n (nrows batch) _ a_s HA Hac Har) as (HA' & HAne).
  destruct (accumulated_append _ n (nrows batch) _ g_s HG Hgc Hgr) as (HG' & HGne).
  cbn [fst snd]. repeat split; assumption.
Qed.

(** Whether a call of [collect_samples] of the script returns. *)
Lemma collect_samples_outcome (train_images : ndarray R)
    (params : list (ndarray R * ndarray1 R)) (itr : Z)
    (all_samples : list (list (ndarray R)) * list (list (ndarray R)))
    (g : rng_state) (batch : ndarray R) (d : nat) (sizes : list nat) :
  batch_at train_images itr = Ok batch ->
  ncols batch = d ->
  params_for (d :: sizes) params ->
  sizes <> [] -> (0 < List.last sizes d)%nat ->
  (draws_fit params batch g ->
   exists all_samples',
     fst (Script.collect_samples train_images params itr all_samples g) = Ok all_samples') /\
  (forall e,
     fst (Script.collect_samples train_images params itr all_samples g) = Raise e ->
     e = IndexError).
Proof.
  intros Hb Hd Hp Hne Hlast.
  rewrite (collect_samples_batch _ _ _ _ _ _ Hb).
  destruct (params_for_forward d sizes params batch Hp Hne Hlast Hd)
    as (lp & acts & Hrun & _).
  destruct (collect_outcome params batch g lp acts Hrun) as (Hret & Hraise).
  destruct (collect_activations_and_grad_samples params batch g) as [r g1].
  cbn [fst] in Hret, Hraise. split.
  - intros Hfit. destruct (Hret (Hfit lp acts Hrun)) as (a_s & g_s & ->).
    cbn [fst]. eauto.
  - intros e He. destruct r as [[a_s g_s]|e']; cbn [fst] in He; [discriminate|].
    injection He as <-. exact (Hraise e' eq_refl).
Qed.

Lemma draws_fit_ext (params : list (ndarray R * ndarray1 R)) (batch : ndarray R)
    (g g' : rng_state) :
  (forall k, g' k = g k) -> draws_fit params batch g -> draws_fit params batch g'.
Proof.
  intros Hg Hfit lp acts Hrun i Hi. rewrite Hg. exact (Hfit lp acts Hrun i Hi).
Qed.

Lemma draws_fit_uniform (params : list (ndarray R * ndarray1 R)) (batch : ndarray R)
    (g : rng_state) :
  uniform01 g -> draws_fit params batch g.
Proof.
  intros Hg lp acts Hrun. apply draws_within_normalized; [exact Hg|].
  exact (proj1 (forward_pass_values _ _ _ _ _ Hrun)).
Qed.

(** X18.  The script, from the initialisation of the K-FAC side
    information on, on a non-empty data set of rows of width 784 and
    parameters of the shapes that the layer sizes prescribe.  It runs to
    its end whenever, in each of the three batches, no draw exceeds the
    total of the class probabilities computed for its example: the
    three calls of [collect_samples] and the update of the factor
    estimates return, the final activation factors have the shapes
    (785, 785), (201, 201), (101, 101), the final gradient factors the
    shapes (200, 200), (100, 100), (10, 10), all of them are symmetric
    positive semi-definite, the sample lists are empty again, and the
    generator has advanced by one draw for every row of the three
    batches.  The only exception that it can raise is the [IndexError]
    of the unchecked sampled index. *)
Theorem script_runs (train_images : ndarray R)
    (params : list (ndarray R * ndarray1 R)) (g : rng_state) :
  (0 < nrows train_images)%nat ->
  ncols train_images = 784%nat ->
  params_for Script.layer_sizes params ->
  exists batch0 batch1 batch2,
    batch_at train_images 0 = Ok batch0 /\
    batch_at train_images 1 = Ok batch1 /\
    batch_at train_images 2 = Ok batch2 /\
    (draws_fit params batch0 g ->
     draws_fit params batch1 (draws_from g (nrows batch0)) ->
     draws_fit params batch2 (draws_from g (nrows batch0 + nrows batch1)) ->
     exists As' Gs',
       fst (Script.main train_images params g)
       = Ok ((As', Gs'), init_sample_lists Script.layer_sizes) /\
       map value_shape As' = [Some (785, 785); Some (201, 201); Some (101, 101)]%nat /\
       map value_shape Gs' = [Some (200, 200); Some (100, 100); Some (10, 10)]%nat /\
       Forall sym_psd As' /\ Forall sym_psd Gs' /\
       forall k, snd (Script.main train_images params g) k
                 = g (nrows batch0 + nrows batch1 + nrows batch2 + k)%nat) /\
    (forall e, fst (Script.main train_images params g) = Raise e -> e = IndexError).
Proof.
  intros Hn Hcols Hp.
  destruct (batch_at_spec train_images 0 Hn) as (i0 & b0 & _ & _ & Hb0 & _ & Hr0 & Hc0 & _).
  destruct (batch_at_spec train_images 1 Hn) as (i1 & b1 & _ & _ & Hb1 & _ & Hr1 & Hc1 & _).
  destruct (batch_at_spec train_images 2 Hn) as (i2 & b2 & _ & _ & Hb2 & Hs2 & Hr2 & Hc2 & _).
  assert (Hpos : (0 < nrows b2)%nat).
  { rewrite Hr2. unfold Script.batch_size in *. lia. }
  set (sizes := [200; 100; 10]%nat).
  change Script.layer_sizes with (784%nat :: sizes) in Hp.
  assert (Hne : sizes <> []) by discriminate.
  assert (Hlast : (0 < List.last sizes 784)%nat) by (simpl; lia).
  assert (Hd0 : ncols b0 = 784%nat) by congruence.
  assert (Hd1 : ncols b1 = 784%nat) by congruence.
  assert (Hd2 : ncols b2 = 784%nat) by congruence.
  (* The script after each call that returns. *)
  assert (Hstep : forall all1 g1 all2 g2 all3 g3,
             Script.collect_samples train_images params 0
               (init_sample_lists (784%nat :: sizes)) g = (Ok all1, g1) ->
             Script.collect_samples train_images params 1 all1 g1 = (Ok all2, g2) ->
             Script.collect_samples train_images params 2 all2 g2 = (Ok all3, g3) ->
             (forall k, g3 k = g (nrows b0 + nrows b1 + nrows b2 + k)%nat) /\
             exists As' Gs',
               update_factor_estimates (init_factor_estimates (784%nat :: sizes))
                 all3 default_eps = Ok (As', Gs') /\
               map value_shape As'
               = [Some (785, 785); Some (201, 201); Some (101, 101)]%nat /\
               map value_shape Gs'
               = [Some (200, 200); Some (100, 100); Some (10, 10)]%nat /\
               Forall sym_psd As' /\ Forall sym_psd Gs').
  { intros all1 g1 all2 g2 all3 g3 E1 E2 E3.
    destruct (collect_samples_accumulates train_images params 0
                (init_sample_lists (784%nat :: sizes)) all1 g g1 b0 784 sizes 0
                Hb0 Hd0 Hp Hne Hlast)
      as (HA1 & _ & HG1 & _ & Hk1); [| |exact E1|].
    { apply accumulated_init. reflexivity. }
    { apply accumulated_init. reflexivity. }
    destruct (collect_samples_accumulates train_images params 1 all1 all2 g1 g2 b1 784
                sizes _ Hb1 Hd1 Hp Hne Hlast HA1 HG1 E2)
      as (HA2 & _ & HG2 & _ & Hk2).
    destruct (collect_samples_accumulates train_images params 2 all2 all3 g2 g3 b2 784
                sizes _ Hb2 Hd2 Hp Hne Hlast HA2 HG2 E3)
      as (HA3 & HAne & HG3 & HGne & Hk3).
    split.
    { intros k. rewrite Hk3, Hk2, Hk1. f_equal. lia. }
    destruct all3 as [a_samples g_samples]. cbn [fst snd] in *.
    destruct (update_accumulated (784%nat :: sizes) _ _ a_samples g_samples default_eps
                ltac:(simpl; lia) HA3 HAne HG3 HGne ltac:(lia) ltac:(lia))
      as (As' & Gs' & Hu & HsA & HsG & Hpsd).
    destruct Hpsd as (HpA & HpG); [unfold default_eps; lra|].
    exists As', Gs'. repeat split; assumption. }
  exists b0, b1, b2.
  split; [exact Hb0|]. split; [exact Hb1|]. split; [exact Hb2|].
  unfold Script.main. cbv zeta.
  change Script.layer_sizes with (784%nat :: sizes).
  destruct (Script.collect_samples train_images params 0
              (init_sample_lists (784%nat :: sizes)) g) as [r1 g1] eqn:E1.
  destruct (collect_samples_outcome train_images params 0
              (init_sample_lists (784%nat :: sizes)) g b0 784 sizes Hb0 Hd0 Hp Hne Hlast)
    as (Hret1 & Hraise1).
  rewrite E1 in Hret1, Hraise1. cbn [fst] in Hret1, Hraise1.
  destruct r1 as [all1|e1]; cycle 1.
  { split.
    - intros Hf0 _ _. destruct (Hret1 Hf0) as (? & ?). discriminate.
    - intros e [= <-]. exact (Hraise1 e1 eq_refl). }
  assert (Hk1 : forall k, g1 k = g (nrows b0 + k)%nat).
  { destruct (collect_samples_accumulates train_images params 0
                (init_sample_lists (784%nat :: sizes)) all1 g g1 b0 784 sizes 0
                Hb0 Hd0 Hp Hne Hlast) as (_ & _ & _ & _ & Hk); [| |exact E1|exact Hk];
      apply accumulated_init; reflexivity. }
  destruct (Script.collect_samples train_images params 1 all1 g1) as [r2 g2] eqn:E2.
  destruct (collect_samples_outcome train_images params 1 all1 g1 b1 784 sizes
              Hb1 Hd1 Hp Hne Hlast) as (Hret2 & Hraise2).
  rewrite E2 in Hret2, Hraise2. cbn [fst] in Hret2, Hraise2.
  destruct r2 as [all2|e2]; cycle 1.
  { split.
    - intros _ Hf1 _. destruct Hret2 as (? & ?); [|discriminate].
      apply (draws_fit_ext params b1 (draws_from g (nrows b0))); [exact Hk1 | exact Hf1].
    - intros e [= <-]. exact (Hraise2 e2 eq_refl). }
  destruct (Script.collect_samples train_images params 2 all2 g2) as [r3 g3] eqn:E3.
  destruct (collect_samples_outcome train_images params 2 all2 g2 b2 784 sizes
              Hb2 Hd2 Hp Hne Hlast) as (Hret3 & Hraise3).
  rewrite E3 in Hret3, Hraise3. cbn [fst] in Hret3, Hraise3.
  assert (Hk2 : forall k, g2 k = g (nrows b0 + nrows b1 + k)%nat).
  { assert (HA1 : accumulated (removelast (784%nat :: sizes)) (0 + nrows b0) (fst all1) /\
                  accumulated sizes (0 + nrows b0) (snd all1)).
    { destruct (collect_samples_accumulates train_images params 0
                  (init_sample_lists (784%nat :: sizes)) all1 g g1 b0 784 sizes 0
                  Hb0 Hd0 Hp Hne Hlast) as (HA & _ & HG & _); [| |exact E1|split; assumption];
        apply accumulated_init; reflexivity. }
    destruct HA1 as (HA1 & HG1).
    destruct (collect_samples_accumulates train_images params 1 all1 all2 g1 g2 b1 784
                sizes _ Hb1 Hd1 Hp Hne Hlast HA1 HG1 E2) as (_ & _ & _ & _ & Hk).
    intros k. rewrite Hk, Hk1. f_equal. lia. }
  destruct r3 as [all3|e3]; cycle 1.
  { split.
    - intros _ _ Hf2. destruct Hret3 as (? & ?); [|discriminate].
      apply (draws_fit_ext params b2 (draws_from g (nrows b0 + nrows b1)));
        [exact Hk2 | exact Hf2].
    - intros e [= <-]. exact (Hraise3 e3 eq_refl). }
  destruct (Hstep all1 g1 all2 g2 all3 g3 eq_refl E2 E3)
    as (Hk3 & As' & Gs' & Hu & HsA & HsG & HpA & HpG).
  rewrite Hu. cbn [fst snd]. split.
  - intros _ _ _. exists As', Gs'.
    split; [reflexivity|]. split; [exact HsA|]. split; [exact HsG|].
    split; [exact HpA|]. split; [exact HpG | exact Hk3].
  - intros e He. discriminate.
Qed.

(** ** The log-likelihood of given targets *)

Lemma np_mul_raises (a b : ndarray R) (e : exn) : np_mul a b = Raise e -> e = ValueError.
Proof. apply np_binop_raises. Qed.

(** X19.  [log_likelihood] adds up the products of the predicted
    log-probabilities with the targets.  For one-hot targets of the shape
    of the predictions it is the sum, over the examples, of the
    log-probability that the predictor gives to the labelled class; when
    the rows of the predictions are normalised it is at most 0.  Targets
    that cannot be broadcast against the predictions raise
    [ValueError]; an exception of the predictor is passed on. *)
Theorem log_likelihood_one_hot
    (neural_net_predict : list (ndarray R * ndarray1 R) -> ndarray R -> result (ndarray R))
    (params : list (ndarray R * ndarray1 R)) (inputs targets : ndarray R) :
  (forall logprobs (label : nat -> nat),
     neural_net_predict params inputs = Ok logprobs ->
     shape targets = shape logprobs ->
     (forall i, (i < nrows logprobs)%nat -> one_hot_row targets i (label i)) ->
     log_likelihood neural_net_predict params inputs targets
     = Ok (s_sum (nrows logprobs) (fun i => item logprobs i (label i))) /\
     (normalized logprobs ->
      s_sum (nrows logprobs) (fun i => item logprobs i (label i)) <= 0)) /\
  (forall logprobs,
     neural_net_predict params inputs = Ok logprobs ->
     (broadcast_dim (nrows logprobs) (nrows targets) = None \/
      broadcast_dim (ncols logprobs) (ncols targets) = None) ->
     log_likelihood neural_net_predict params inputs targets = Raise ValueError) /\
  (forall e,
     neural_net_predict params inputs = Raise e ->
     log_likelihood neural_net_predict params inputs targets = Raise e).
Proof.
  split; [|split].
  - intros lp label Hrun Hs Hhot. unfold shape in Hs. injection Hs as Hr Hc.
    split.
    + unfold log_likelihood. rewrite Hrun. cbn [mbind result_bind].
      unfold np_mul, np_binop. rewrite Hr, Hc, !broadcast_dim_same.
      cbn [mbind result_bind]. f_equal.
      unfold np_sum. cbn [nrows ncols item].
      apply rsum_ext. intros i Hi.
      rewrite (rsum_ext _ _ (fun j => item lp i j * item targets i j)).
      * destruct (Hhot i Hi) as (Hlt & Hrow). rewrite Hc in Hlt, Hrow.
        apply (rsum_pick _ (label i)); [exact Hlt | exact Hrow].
      * intros j Hj. rewrite !bidx_lt by assumption. reflexivity.
    + intros Hn.
      assert (Hle : 0 <= s_sum (nrows lp) (fun i => -1 * item lp i (label i))).
      { apply rsum_nonneg. intros i Hi.
        destruct (Hhot i Hi) as (Hlt & _). rewrite Hc in Hlt.
        pose proof (normalized_nonpos lp i _ Hn Hi Hlt). lra. }
      rewrite rsum_scal in Hle. lra.
  - intros lp Hrun Hb. unfold log_likelihood. rewrite Hrun. cbn [mbind result_bind].
    unfold np_mul, np_binop.
    destruct Hb as [-> | Hb]; [reflexivity|]. rewrite Hb.
    destruct (broadcast_dim (nrows lp) (nrows targets)); reflexivity.
  - intros e Hrun. unfold log_likelihood. rewrite Hrun. reflexivity.
Qed.

(** ** The interval of draws of a class *)

(** X20.  The sampler is the inverse of the cumulative distribution: in
    a normalised row, with a draw from [[0, 1)], the sample of the row is
    the one-hot vector of class [k] exactly when the draw lies above the
    cumulative probability of the classes before [k] and at or below the
    cumulative probability up to [k]; the length of this interval is the
    probability of class [k]. *)
Theorem sampled_class_interval (logprobs : ndarray R) (g : rng_state) (r : ndarray R)
    (i k : nat) :
  uniform01 g -> normalized logprobs ->
  fst (sample_discrete_from_log logprobs g) = Ok r ->
  (i < nrows logprobs)%nat -> (k < ncols logprobs)%nat ->
  (one_hot_row r i k <->
   (forall j, (j < k)%nat -> cum_prob logprobs i j < g i) /\
   g i <= cum_prob logprobs i k) /\
  cum_prob logprobs i k
  = match k with
    | O => exp (item logprobs i 0%nat)
    | S k' => cum_prob logprobs i k' + exp (item logprobs i k)
    end.
Proof.
  intros Hg Hn Hr Hi Hk.
  destruct (sample_discrete_from_log_inv logprobs g r Hr) as (Hs & Hrow).
  specialize (Hrow i Hi). unfold shape in Hs. injection Hs as _ Hc.
  assert (Hiff : one_hot_row r i k <-> chosen_bin logprobs g i = k).
  { split.
    - intros (Hkr & Hk1). destruct Hrow as (_ & Hc1).
      specialize (Hk1 k Hkr). specialize (Hc1 k Hkr).
      rewrite Nat.eqb_refl in Hk1. rewrite Hk1 in Hc1.
      destruct (k =? chosen_bin logprobs g i)%nat eqn:E.
      + apply Nat.eqb_eq in E. congruence.
      + lra.
    - intros <-. exact Hrow. }
  split.
  - rewrite Hiff. split.
    + intros <-. destruct (chosen_bin_spec logprobs g i Hg Hn Hi) as (_ & Hle & Hlt).
      split; assumption.
    + intros (Hlt & Hle). now apply chosen_bin_unique.
  - unfold cum_prob. destruct k; simpl; lra.
Qed.

(** ** The examples of a batch are processed independently *)

Lemma s_sum_pointwise {T : Type} `{Scalar T} (m : nat) (f g : nat -> T) :
  (forall k, (k < m)%nat -> f k = g k) -> s_sum m f = s_sum m g.
Proof.
  induction m as [|m IH]; intros Hfg; simpl; [reflexivity|].
  rewrite IH, Hfg by (intros; try apply Hfg; lia). reflexivity.
Qed.

Section RowSelection.
Context {T : Type} `{Scalar T}.
Variable idx : list nat.
Variable n : nat.
Hypothesis idx_bound : Forall (fun r => (r < n)%nat) idx.

Lemma idx_nth_bound (i : nat) : (i < length idx)%nat -> (nth i idx O < n)%nat.
Proof using idx_bound.
  intros Hi. rewrite List.Forall_forall in idx_bound.
  apply idx_bound, nth_In, Hi.
Qed.

Lemma select_rows_selected (a : ndarray T) :
  nrows a = n -> selected idx n a (select_rows idx a).
Proof using Type.
  intros Hn. repeat split; simpl; auto.
Qed.

Lemma selected_arr_eq (a1 a2 : ndarray T) :
  selected idx n a1 a2 -> arr_eq a2 (select_rows idx a1).
Proof using Type.
  intros (Hr1 & Hr2 & Hc & Ha). repeat split; simpl; auto.
  intros i j Hi Hj. apply Ha; congruence.
Qed.

Lemma np_dot_selected (a1 a2 W : ndarray T) :
  selected idx n a1 a2 ->
  ok_rel (selected idx n) (np_dot a1 W) (np_dot a2 W).
Proof using Type.
  intros (Hr1 & Hr2 & Hc & Ha) x. unfold np_dot. rewrite Hc.
  destruct (ncols a1 =? nrows W)%nat eqn:E; [|discriminate].
  intros [= <-]. eexists. split; [reflexivity|].
  repeat split; simpl; try assumption.
  intros i j Hi Hj. apply s_sum_pointwise. intros k Hk.
  rewrite Ha by assumption. reflexivity.
Qed.

Lemma np_binop_selected (op : T -> T -> T) (a1 b1 a2 b2 : ndarray T) :
  selected idx n a1 a2 -> selected idx n b1 b2 ->
  ok_rel (selected idx n) (np_binop op a1 b1) (np_binop op a2 b2).
Proof using idx_bound.
  intros (Har1 & Har2 & Hac & Ha) (Hbr1 & Hbr2 & Hbc & Hb) x. unfold np_binop.
  rewrite Har1, Har2, Hbr1, Hbr2, Hac, Hbc, !broadcast_dim_same.
  destruct (broadcast_dim (ncols a1) (ncols b1)) as [c|] eqn:E; [|discriminate].
  intros [= <-]. eexists. split; [reflexivity|].
  apply broadcast_dim_cases in E. destruct E as (Hca & Hcb).
  repeat split; simpl.
  intros i j Hi Hj.
  rewrite (bidx_lt n (nth i idx O)), (bidx_lt (length idx) i)
    by auto using idx_nth_bound.
  rewrite Ha, Hb by eauto using bidx_bound. reflexivity.
Qed.

Lemma np_binop_bias_selected (op : T -> T -> T) (a1 a2 : ndarray T) (b : ndarray1 T) :
  selected idx n a1 a2 ->
  ok_rel (selected idx n) (np_binop op a1 (atleast_2d b)) (np_binop op a2 (atleast_2d b)).
Proof using idx_bound.
  intros (Har1 & Har2 & Hac & Ha) x. unfold np_binop. simpl.
  rewrite Har1, Har2, Hac, !broadcast_dim_one_r.
  destruct (broadcast_dim (ncols a1) (size1 b)) as [c|] eqn:E; [|discriminate].
  intros [= <-]. eexists. split; [reflexivity|].
  apply broadcast_dim_cases in E. destruct E as (Hca & Hcb).
  repeat split; simpl.
  intros i j Hi Hj.
  rewrite (bidx_lt n (nth i idx O)), (bidx_lt (length idx) i)
    by auto using idx_nth_bound.
  rewrite Ha by eauto using bidx_bound. reflexivity.
Qed.

Lemma np_map_selected (f : T -> T) (a1 a2 : ndarray T) :
  selected idx n a1 a2 -> selected idx n (np_map f a1) (np_map f a2).
Proof using Type.
  intros (Hr1 & Hr2 & Hc & Ha). repeat split; simpl; try assumption.
  intros i j Hi Hj. rewrite Ha by assumption. reflexivity.
Qed.

Lemma logsumexp_selected (s1 s2 : ndarray T) :
  selected idx n s1 s2 ->
  ok_rel (selected idx n) (logsumexp s1) (logsumexp s2).
Proof using Type.
  intros (Hr1 & Hr2 & Hc & Hs) x. unfold logsumexp. rewrite Hc.
  destruct (ncols s1 =? 0)%nat eqn:E; [discriminate|].
  intros [= <-]. eexists. split; [reflexivity|].
  repeat split; simpl; try assumption.
  intros i j Hi _. f_equal. apply s_sum_pointwise. intros k Hk.
  rewrite Hs by assumption. reflexivity.
Qed.

Lemma pre_activation_selected (a1 a2 W : ndarray T) (b : ndarray1 T) (e1 e2 : ndarray T) :
  selected idx n a1 a2 -> selected idx n e1 e2 ->
  ok_rel (selected idx n) (pre_activation a1 W b e1) (pre_activation a2 W b e2).
Proof using idx_bound.
  intros Ha He s1. unfold pre_activation.
  destruct (np_dot a1 W) as [d1|] eqn:Ed; simpl; [|discriminate].
  destruct (np_dot_selected a1 a2 W Ha d1 Ed) as (d2 & -> & Hd). simpl.
  destruct (np_add d1 (atleast_2d b)) as [c1|] eqn:Ec; simpl; [|discriminate].
  destruct (np_binop_bias_selected s_add d1 d2 b Hd c1 Ec) as (c2 & Hc2 & Hc).
  change (np_add d2 (atleast_2d b) = Ok c2) in Hc2. rewrite Hc2. simpl.
  intros Hs. exact (np_binop_selected s_add c1 e1 c2 e2 Hc He s1 Hs).
Qed.

Lemma run_layers_selected
    (layers1 layers2 : list ((ndarray T * ndarray1 T) * ndarray T)) :
  Forall2 (fun l1 l2 => fst l1 = fst l2 /\ selected idx n (snd l1) (snd l2))
    layers1 layers2 ->
  forall a1 a2, selected idx n a1 a2 ->
    ok_rel (fun r1 r2 => Forall2 (selected idx n) (fst r1) (fst r2) /\
                         rel_last (selected idx n) (snd r1) (snd r2))
      (run_layers a1 layers1) (run_layers a2 layers2).
Proof using idx_bound.
  induction 1 as [|[[W1 b1] e1] [[W2 b2] e2] rest1 rest2 (HW & He) _ IH];
    intros a1 a2 Ha x.
  - simpl. intros [= <-]. eexists. split; [reflexivity|]. split; [constructor | exact I].
  - simpl in HW, He. injection HW as <- <-. simpl run_layers.
    destruct (pre_activation a1 W1 b1 e1) as [s1|] eqn:Es; simpl; [|discriminate].
    destruct (pre_activation_selected a1 a2 W1 b1 e1 e2 Ha He s1 Es) as (s2 & -> & Hs).
    simpl.
    destruct (run_layers (np_tanh s1) rest1) as [[outs1 last1]|] eqn:Er; simpl;
      [|discriminate].
    destruct (IH (np_tanh s1) (np_tanh s2) (np_map_selected _ s1 s2 Hs) _ Er)
      as ([outs2 last2] & -> & Houts & Hlast). simpl in *.
    intros [= <-]. eexists. split; [reflexivity|]. simpl. split.
    + constructor; [apply np_map_selected, Hs | exact Houts].
    + destruct last1, last2; simpl in *; try contradiction; assumption.
Qed.

Lemma py_zip_selected (params : list (ndarray T * ndarray1 T)) :
  forall ebs : list (ndarray T),
    Forall (fun eb => nrows eb = n) ebs ->
    Forall2 (fun l1 l2 => fst l1 = fst l2 /\ selected idx n (snd l1) (snd l2))
      (py_zip params ebs) (py_zip params (map (select_rows idx) ebs)).
Proof using Type.
  induction params as [|p params IH]; intros [|eb ebs] Hn; simpl; try constructor.
  - inversion Hn as [|? ? Hh Ht]. split; [reflexivity|].
    apply select_rows_selected, Hh.
  - apply IH. inversion Hn as [|? ? Hh Ht]. exact Ht.
Qed.

Lemma Forall2_removelast_cons {A B : Type} (P : A -> B -> Prop) :
  forall (l1 : list A) (l2 : list B) x y,
    P x y -> Forall2 P l1 l2 ->
    Forall2 P (removelast (x :: l1)) (removelast (y :: l2)).
Proof.
  induction l1 as [|a l1 IH]; intros l2 x y Hxy Hl; inversion Hl; subst.
  - constructor.
  - change (Forall2 P (x :: removelast (a :: l1)) (y :: removelast (y0 :: l'))).
    constructor; [exact Hxy | now apply IH].
Qed.

End RowSelection.

(** X21.  The forward pass treats the examples of a batch independently.
    When it returns on a batch whose perturbations have one row per
    example, it also returns on any selection [idx] of the rows of that
    batch (in any order, with or without repetition), and the
    log-probabilities and the activations it gives there are the
    selected rows of those of the whole batch. *)
Theorem forward_pass_on_selected_rows {T : Type} `{Scalar T}
    (idx : list nat) (extra_biases : list (ndarray T))
    (params : list (ndarray T * ndarray1 T)) (inputs : ndarray T)
    (logprobs : ndarray T) (activations : list (ndarray T)) :
  Forall (fun r => (r < nrows inputs)%nat) idx ->
  Forall (fun eb => nrows eb = nrows inputs) extra_biases ->
  neural_net_predict_and_activations extra_biases params inputs
  = Ok (logprobs, activations) ->
  exists logprobs' activations',
    neural_net_predict_and_activations
      (map (select_rows idx) extra_biases) params (select_rows idx inputs)
    = Ok (logprobs', activations') /\
    arr_eq logprobs' (select_rows idx logprobs) /\
    Forall2 arr_eq activations' (map (select_rows idx) activations).
Proof.
  intros Hidx Hebs. rewrite !neural_net_predict_and_activations_run.
  set (n := nrows inputs) in *.
  assert (Hin : selected idx n inputs (select_rows idx inputs))
    by now apply select_rows_selected.
  destruct (run_layers inputs _) as [[outs1 last1]|] eqn:Er; simpl; [|discriminate].
  destruct (run_layers_selected idx n Hidx _ _ (py_zip_selected idx n params _ Hebs)
              inputs _ Hin _ Er) as ([outs2 last2] & -> & Houts & Hlast).
  simpl in *.
  destruct last1 as [s1|], last2 as [s2|]; simpl in Hlast; try contradiction;
    [|discriminate].
  destruct (logsumexp s1) as [l1|] eqn:El; simpl; [|discriminate].
  destruct (logsumexp_selected idx n s1 s2 Hlast l1 El) as (l2 & -> & Hlse). simpl.
  destruct (np_sub s1 l1) as [lp1|] eqn:Es; simpl; [|discriminate].
  destruct (np_binop_selected idx n Hidx s_sub s1 l1 s2 l2 Hlast Hlse lp1 Es)
    as (lp2 & Hlp2 & Hlp).
  change (np_sub s2 l2 = Ok lp2) in Hlp2. rewrite Hlp2. simpl.
  intros [= <- <-]. eexists _, _. split; [reflexivity|]. split.
  - exact (selected_arr_eq idx n _ _ Hlp).
  - apply Forall2_fmap_r.
    eapply Forall2_impl;
      [|intros a1 a2 Ha; exact (selected_arr_eq idx n _ _ Ha)].
    apply Forall2_flip.
    apply (Forall2_removelast_cons (selected idx n)); assumption.
Qed.

(** * The further properties at concrete inputs *)

Lemma sample_discrete_from_log_returns_iff_witness :
  exists r, fst (sample_discrete_from_log logprobs_halves rng_halves) = Ok r.
Proof.
  destruct (sample_discrete_from_log_returns_iff logprobs_halves rng_halves)
    as ((_ & Hback) & _).
  apply Hback. intros i Hi. split; [simpl; lia|].
  unfold row_total, rng_halves. simpl. rewrite exp_ln_half. lra.
Defined.

Lemma neural_net_predict_and_activations_exceptions_witness :
  neural_net_predict_and_activations [] cex_params cex_inputs = Raise UnboundLocalError.
Proof.
  destruct (neural_net_predict_and_activations_exceptions [] cex_params cex_inputs)
    as ((_ & Hback) & _).
  apply Hback. right. reflexivity.
Defined.

Lemma neural_net_predict_and_activations_zip_truncates_witness :
  neural_net_predict_and_activations cex_extra_biases (cex_params ++ cex_params) cex_inputs
  = neural_net_predict_and_activations cex_extra_biases cex_params cex_inputs.
Proof.
  destruct (neural_net_predict_and_activations_zip_truncates
              cex_extra_biases cex_params cex_inputs) as (_ & Hmore).
  destruct (Hmore cex_params [] eq_refl) as (Hlayers & _). exact Hlayers.
Defined.

Lemma forward_pass_value_ranges_witness :
  exists logprobs activations,
    neural_net_predict_and_activations cex_extra_biases cex_params cex_inputs
    = Ok (logprobs, activations) /\
    normalized logprobs /\
    (0 < ncols logprobs)%nat /\
    (forall i j, (i < nrows logprobs)%nat -> (j < ncols logprobs)%nat ->
       item logprobs i j <= 0) /\
    hd_error activations = Some cex_inputs /\
    Forall in_tanh_range (tl activations) /\
    length activations = Nat.min (length cex_params) (length cex_extra_biases).
Proof.
  destruct cex_forward as (lp & acts & Hrun & _).
  exists lp, acts. split; [exact Hrun|].
  exact (forward_pass_value_ranges cex_extra_biases cex_params cex_inputs lp acts Hrun).
Defined.

Lemma model_predictive_log_likelihood_value_witness :
  exists logprobs activations v,
    neural_net_predict_and_activations cex_extra_biases cex_params cex_inputs
    = Ok (logprobs, activations) /\
    draws_within logprobs cex_rng /\
    fst (model_predictive_log_likelihood cex_extra_biases cex_params cex_inputs cex_rng)
    = Ok (v, activations) /\
    v = s_sum (nrows logprobs) (fun i => item logprobs i (chosen_bin logprobs cex_rng i)) /\
    v <= 0.
Proof.
  destruct cex_forward as (lp & acts & Hrun & _).
  assert (Hw : draws_within lp cex_rng).
  { apply draws_within_normalized; [exact cex_rng_uniform|].
    exact (proj1 (forward_pass_values _ _ _ _ _ Hrun)). }
  destruct (model_predictive_log_likelihood_value
              cex_extra_biases cex_params cex_inputs cex_rng lp acts Hrun)
    as (Hret & _).
  destruct (Hret Hw) as (v & Hv).
  exists lp, acts, v. split; [exact Hrun|]. split; [exact Hw | exact Hv].
Defined.

Lemma collect_activation_samples_witness :
  exists a_samples g_samples logprobs activations,
    fst (collect_activations_and_grad_samples cex_params cex_inputs cex_rng)
    = Ok (a_samples, g_samples) /\
    neural_net_predict_and_activations (zero_perturbations cex_params cex_inputs)
      cex_params cex_inputs = Ok (logprobs, activations) /\
    Forall2 arr_eq a_samples activations /\
    hd_error activations = Some cex_inputs /\
    length a_samples = length cex_params /\
    Forall (fun a => nrows a = nrows cex_inputs) a_samples /\
    forall k, snd (collect_activations_and_grad_samples cex_params cex_inputs cex_rng) k
              = cex_rng (nrows cex_inputs + k)%nat.
Proof.
  destruct cex_collect_returns as (a_samples & g_samples & Hc).
  destruct (collect_activation_samples cex_params cex_inputs cex_rng a_samples g_samples Hc)
    as (lp & acts & H).
  exists a_samples, g_samples, lp, acts. split; [exact Hc | exact H].
Defined.

Lemma last_layer_gradient_sample_witness :
  exists a_samples g_samples logprobs targets g_last,
    fst (collect_activations_and_grad_samples cex_params cex_inputs cex_rng)
    = Ok (a_samples, g_samples) /\
    fst (sample_discrete_from_log logprobs cex_rng) = Ok targets /\
    last g_samples = Some g_last /\
    shape g_last = shape logprobs /\
    forall i, (i < nrows logprobs)%nat ->
      (forall j, (j < ncols logprobs)%nat ->
         item g_last i j = item targets i j - exp (item logprobs i j)) /\
      s_sum (ncols logprobs) (fun j => item g_last i j) = 0.
Proof.
  destruct cex_collect_returns as (a_samples & g_samples & Hc).
  destruct (last_layer_gradient_sample []
              (mk_array 1 2 (fun _ j => match j with O => ln 3 | _ => 0 end))
              (mk_array1 2 (fun _ => 0)) cex_inputs cex_rng a_samples g_samples
              eq_refl Hc)
    as (lp & acts & targets & g_last & _ & Ht & H).
  exists a_samples, g_samples, lp, targets, g_last.
  split; [exact Hc|]. split; [exact Ht | exact H].
Defined.

Lemma append_samples_appends_witness :
  append_samples [[1]; [2]]%nat [3; 4]%nat !! 1%nat = Some ([2] ++ [4])%nat.
Proof.
  destruct (append_samples_appends [[1]; [2]]%nat [3; 4]%nat) as (_ & Happ & _).
  apply Happ; reflexivity.
Defined.

Lemma append_samples_call_order_witness :
  exists batches,
    fold_left append_samples [[10; 20]; [11; 21]]%nat
      (fst (init_sample_lists [3; 2; 1]%nat)) !! 1%nat = Some batches /\
    length batches = 2%nat /\
    Forall2 (fun new_samples batch => new_samples !! 1%nat = Some batch)
      [[10; 20]; [11; 21]]%nat batches.
Proof.
  apply (append_samples_call_order [3; 2; 1]%nat [[10; 20]; [11; 21]]%nat 1).
  - repeat constructor.
  - simpl. lia.
Defined.

Lemma activation_factor_blocks_witness :
  exists Ahats plain,
    estimate_block_kron_factors [[batch_2x1]; [batch_1x1]] true = Ok Ahats /\
    estimate_block_kron_factors [[batch_2x1]; [batch_1x1]] false = Ok plain /\
    Forall3 (fun layer v p =>
               homog_blocks layer (total_rows [batch_2x1]) v p /\
               (total_rows layer = total_rows [batch_2x1] ->
                exists a, v = NdArray a /\
                          item a (layer_width false layer) (layer_width false layer) = 1))
            [[batch_2x1]; [batch_1x1]] Ahats plain.
Proof.
  apply (activation_factor_blocks [[batch_2x1]; [batch_1x1]] [batch_2x1]).
  - reflexivity.
  - vm_compute. lia.
  - repeat constructor; discriminate.
Defined.

Lemma estimate_block_kron_factors_pooled_witness :
  exists estimates estimates',
    estimate_block_kron_factors [[batch_2x1; batch_1x1]] true = Ok estimates /\
    estimate_block_kron_factors (map pooled [[batch_2x1; batch_1x1]]) true
    = Ok estimates' /\
    Forall2 same_array estimates estimates'.
Proof.
  apply (estimate_block_kron_factors_pooled
           [[batch_2x1; batch_1x1]] true [batch_2x1; batch_1x1]).
  - reflexivity.
  - vm_compute. lia.
  - repeat constructor; discriminate.
Defined.

Lemma estimate_block_kron_factors_ragged_layer_witness :
  estimate_block_kron_factors [[batch_1x1; logprobs_halves]] true = Raise ValueError.
Proof.
  apply (estimate_block_kron_factors_ragged_layer batch_1x1 logprobs_halves [] [] true).
  reflexivity.
Defined.

Lemma update_factor_estimates_lengths_witness :
  update_factor_estimates
    ([NdArray (np_eye 2); NdArray (np_eye 2)], [NdArray (np_eye 1)])
    ([[batch_two]], [[batch_two]]) default_eps = Raise TypeError.
Proof.
  destruct (update_factor_estimates_lengths
              [NdArray (np_eye 2); NdArray (np_eye 2)] [NdArray (np_eye 1)]
              [[batch_two]] [[batch_two]] default_eps)
    as (_ & Hraise).
  eapply Hraise.
  - reflexivity.
  - reflexivity.
  - intros old new [<-|[<-|[]]] [<-|[]]; eexists; reflexivity.
  - simpl. lia.
Defined.

Lemma append_samples_st_refines_witness :
  exists σ',
    append_samples_st 7 1 script_store = (Ok tt, σ') /\
    σ' !! 7%nat = Some (ObjSeq [6%nat]) /\
    load_layers σ' 7 = Ok (append_samples [[batch_two]] [np_eye 2]) /\
    dom σ' = dom script_store /\
    (forall l, l ∉ [6%nat] -> σ' !! l = script_store !! l).
Proof.
  apply (append_samples_st_refines script_store 7 1 [6%nat] [0%nat]
           [[batch_two]] [np_eye 2]).
  - reflexivity.
  - apply NoDup_singleton.
  - reflexivity.
  - reflexivity.
  - reflexivity.
Defined.

Lemma batch_indices_in_range_witness :
  exists (idx : nat) (batch : ndarray R),
    Z.of_nat idx = (3 mod Script.num_batches blank_images)%Z /\
    Script.batch_indices blank_images 3
    = Ok (Z.of_nat (idx * Script.batch_size),
          Z.of_nat (idx * Script.batch_size + Script.batch_size)) /\
    batch_at blank_images 3 = Ok batch /\
    (idx * Script.batch_size < nrows blank_images)%nat /\
    (1 <= nrows batch <= Script.batch_size)%nat /\
    nrows batch
    = Nat.min Script.batch_size (nrows blank_images - idx * Script.batch_size) /\
    ncols batch = ncols blank_images /\
    forall i j, item batch i j = item blank_images (idx * Script.batch_size + i) j.
Proof.
  destruct (batch_indices_in_range blank_images 3) as (Hin & _).
  apply Hin. simpl. lia.
Defined.

Lemma batch_indices_tile_witness :
  exists batch,
    (Z.of_nat (299 / Script.batch_size) < Script.num_batches blank_images)%Z /\
    batch_at blank_images (Z.of_nat (299 / Script.batch_size)) = Ok batch /\
    (299 mod Script.batch_size < nrows batch)%nat /\
    forall j, item batch (299 mod Script.batch_size) j = item blank_images 299 j.
Proof.
  destruct (batch_indices_tile blank_images) as (Hrow & _).
  apply Hrow. simpl. lia.
Defined.

Lemma script_runs_witness :
  exists batch0 batch1 batch2 As' Gs',
    batch_at blank_images 0 = Ok batch0 /\
    batch_at blank_images 1 = Ok batch1 /\
    batch_at blank_images 2 = Ok batch2 /\
    draws_fit zero_params batch0 rng_halves /\
    draws_fit zero_params batch1 (draws_from rng_halves (nrows batch0)) /\
    draws_fit zero_params batch2 (draws_from rng_halves (nrows batch0 + nrows batch1)) /\
    fst (Script.main blank_images zero_params rng_halves)
    = Ok ((As', Gs'), init_sample_lists Script.layer_sizes) /\
    map value_shape As' = [Some (785, 785); Some (201, 201); Some (101, 101)]%nat /\
    map value_shape Gs' = [Some (200, 200); Some (100, 100); Some (10, 10)]%nat /\
    Forall sym_psd As' /\ Forall sym_psd Gs' /\
    forall k, snd (Script.main blank_images zero_params rng_halves) k
              = rng_halves (nrows batch0 + nrows batch1 + nrows batch2 + k)%nat.
Proof.
  destruct (script_runs blank_images zero_params rng_halves)
    as (b0 & b1 & b2 & H0 & H1 & H2 & Hret & _).
  - simpl. lia.
  - reflexivity.
  - simpl. repeat split.
  - assert (Hf : forall n b, draws_fit zero_params b (draws_from rng_halves n)).
    { intros n b. apply draws_fit_uniform. intros k. unfold draws_from, rng_halves. lra. }
    assert (Hf0 : draws_fit zero_params b0 rng_halves).
    { apply draws_fit_uniform, rng_halves_uniform. }
    destruct (Hret Hf0 (Hf _ _) (Hf _ _)) as (As' & Gs' & H).
    exists b0, b1, b2, As', Gs'.
    split; [exact H0|]. split; [exact H1|]. split; [exact H2|].
    split; [exact Hf0|]. split; [exact (Hf _ _)|]. split; [exact (Hf _ _) | exact H].
Defined.

Lemma log_likelihood_one_hot_witness :
  log_likelihood (fun _ _ => Ok logprobs_halves) cex_params cex_inputs targets_first
  = Ok (s_sum (nrows logprobs_halves) (fun i => item logprobs_halves i 0%nat)).
Proof.
  destruct (log_likelihood_one_hot (fun _ _ => Ok logprobs_halves)
              cex_params cex_inputs targets_first) as (Hhot & _).
  destruct (Hhot logprobs_halves (fun _ => 0%nat) eq_refl eq_refl) as (Hv & _).
  - intros i Hi. split; [simpl; lia|]. intros j Hj. reflexivity.
  - exact Hv.
Defined.

Lemma sampled_class_interval_witness :
  exists r,
    fst (sample_discrete_from_log logprobs_halves rng_halves) = Ok r /\
    (one_hot_row r 0 0 <->
     (forall j, (j < 0)%nat -> cum_prob logprobs_halves 0 j < rng_halves 0%nat) /\
     rng_halves 0%nat <= cum_prob logprobs_halves 0 0) /\
    cum_prob logprobs_halves 0 0 = exp (item logprobs_halves 0%nat 0%nat).
Proof.
  destruct (sample_discrete_from_log_spec logprobs_halves rng_halves
              rng_halves_uniform logprobs_halves_normalized) as (r & Hr & _).
  exists r. split; [exact Hr|].
  apply (sampled_class_interval logprobs_halves rng_halves r 0 0).
  - exact rng_halves_uniform.
  - exact logprobs_halves_normalized.
  - exact Hr.
  - simpl. lia.
  - simpl. lia.
Defined.

Lemma forward_pass_on_selected_rows_witness :
  exists logprobs activations logprobs' activations',
    neural_net_predict_and_activations cex_extra_biases cex_params cex_inputs
    = Ok (logprobs, activations) /\
    neural_net_predict_and_activations
      (map (select_rows [1; 1; 0]%nat) cex_extra_biases) cex_params
      (select_rows [1; 1; 0]%nat cex_inputs)
    = Ok (logprobs', activations') /\
    arr_eq logprobs' (select_rows [1; 1; 0]%nat logprobs) /\
    Forall2 arr_eq activations' (map (select_rows [1; 1; 0]%nat) activations).
Proof.
  destruct cex_forward as (lp & acts & Hrun & _).
  destruct (forward_pass_on_selected_rows [1; 1; 0]%nat
              cex_extra_biases cex_params cex_inputs lp acts) as (lp' & acts' & H).
  - repeat constructor.
  - repeat constructor.
  - exact Hrun.
  - exists lp, acts, lp', acts'. split; [exact Hrun | exact H].
Defined.
